(** * The word-game engine of the duplicate-Scrabble manager

    A shallow embedding of [utils/scrabbleUtils.ts] (tile model, dictionary
    handle, word validation, move validator and scorer) and of
    [utils/moveFinder.ts] (best-move finder), with the properties the
    specification states about them.

    Conventions.
    - A JavaScript string is the list of its UTF-16 code units ([jsstring]);
      [s[i]], [s.length], [split('')] and the (non-unicode) regular
      expressions of the source all work on code units.
    - A JavaScript number that the engine only ever uses as an integer
      (coordinates, scores, counters) is a [Z].
    - A call that can raise a [TypeError] (reading a property of [undefined])
      returns in the [JS] monad: [Ret v] or [Throw].
    - The string built-ins of the runtime ([toUpperCase], [toLowerCase],
      [trim], [normalize]) and the bit-level decoding of a trie node are
      interfaces ([JSString], [TrieDecoder]); the engine's own functions are
      defined over them and every general theorem holds for every
      implementation. *)

From Stdlib Require Import ZArith NArith List Bool Lia.
From stdpp Require Import base decidable option list gmap.
Import ListNotations.

Local Open Scope Z_scope.

(** ** JavaScript strings *)

Definition jschar := N.
Definition jsstring := list jschar.

(** Code units the engine names. *)
Definition c_qmark : jschar := 63%N.   (* ? *)
Definition c_dot : jschar := 46%N.     (* . *)
Definition c_hyphen : jschar := 45%N.  (* - *)
Definition c_middot : jschar := 183%N. (* U+00B7, the flying dot of L.L *)
Definition c_1 : jschar := 49%N.
Definition c_2 : jschar := 50%N.
Definition c_3 : jschar := 51%N.
Definition c_A : jschar := 65%N.
Definition c_C : jschar := 67%N.
Definition c_L : jschar := 76%N.
Definition c_N : jschar := 78%N.
Definition c_Q : jschar := 81%N.
Definition c_S : jschar := 83%N.
Definition c_U : jschar := 85%N.
Definition c_Y : jschar := 89%N.
Definition c_l : jschar := 108%N.
Definition c_n : jschar := 110%N.
Definition c_q : jschar := 113%N.
Definition c_u : jschar := 117%N.
Definition c_y : jschar := 121%N.
Definition c_Ccedil : jschar := 199%N.  (* U+00C7 *)
Definition c_ccedil : jschar := 231%N.  (* U+00E7 *)
Definition c_Ucirc : jschar := 219%N.   (* U+00DB, internal code of QU *)
Definition c_ucirc : jschar := 251%N.   (* U+00FB *)
Definition c_Yacute : jschar := 221%N.  (* U+00DD, internal code of NY *)
Definition c_yacute : jschar := 253%N.  (* U+00FD *)
Definition c_Lstroke : jschar := 321%N. (* U+0141, internal code of L.L *)
Definition c_lstroke : jschar := 322%N. (* U+0142 *)
Definition c_Lmiddot : jschar := 319%N. (* U+013F, L with middle dot *)

(** The spellings of the multi-character graphemes. *)
Definition s_QU : jsstring := [c_Q; c_U].
Definition s_NY : jsstring := [c_N; c_Y].
Definition s_LmidL : jsstring := [c_L; c_middot; c_L].
Definition s_LdotL : jsstring := [c_L; c_dot; c_L].
Definition s_LhypL : jsstring := [c_L; c_hyphen; c_L].
Definition s_LmL : jsstring := [c_Lmiddot; c_L].

(** [a === b] on strings. *)
Definition streq (a b : jsstring) : bool := bool_decide (a = b).

(** [arr.includes(s)] on an array of strings. *)
Definition includes (arr : list jsstring) (s : jsstring) : bool :=
  existsb (streq s) arr.

(** The string built-ins of the JavaScript runtime that the engine calls. *)
Class JSString := {
  toUpperCase : jsstring -> jsstring;
  toLowerCase : jsstring -> jsstring;
  trim : jsstring -> jsstring;
  (** [s.normalize("NFD")] *)
  normalizeNFD : jsstring -> jsstring
}.

(** ** Completions: a value, or a thrown [TypeError] *)

Inductive JS (A : Type) : Type :=
| Ret (a : A)
| Throw.
Arguments Ret {A} a.
Arguments Throw {A}.

Definition js_bind {A B} (m : JS A) (k : A -> JS B) : JS B :=
  match m with
  | Ret a => k a
  | Throw => Throw
  end.

Notation "'let!' x ':=' m 'in' k" := (js_bind m (fun x => k))
  (at level 10, x name, m at level 100, k at level 200).

(** ** Tiles, cells and boards ([types.ts]) *)

Inductive MultiplierType :=
| Normal | DoubleLetter | TripleLetter | DoubleWord | TripleWord | Center.

Record Tile := {
  char : jsstring;
  value : Z;
  isBlank : bool;
  displayChar : jsstring
}.

Record BoardCell := {
  row : Z;
  col : Z;
  multiplier : MultiplierType;
  tile : option Tile
}.

Definition Board := list (list BoardCell).

Inductive Direction := Horizontal | Vertical.

Global Instance Tile_eq_dec : EqDecision Tile.
Proof. solve_decision. Defined.
Global Instance MultiplierType_eq_dec : EqDecision MultiplierType.
Proof. solve_decision. Defined.
Global Instance Direction_eq_dec : EqDecision Direction.
Proof. solve_decision. Defined.

Definition BOARD_SIZE : Z := 15.

(** ** Static tables ([types.ts], [constants.ts]) *)

(** [DIGRAPH_MAP[k]] *)
Definition DIGRAPH_MAP (k : jsstring) : option jsstring :=
  if streq k s_QU then Some [c_Ucirc]
  else if includes [s_LmidL; s_LdotL; s_LhypL; s_LmL] k then Some [c_Lstroke]
  else if streq k s_NY then Some [c_Yacute]
  else None.

(** [REVERSE_DIGRAPH_MAP[k]] *)
Definition REVERSE_DIGRAPH_MAP (k : jsstring) : option jsstring :=
  if streq k [c_Ucirc] then Some s_QU
  else if streq k [c_Lstroke] then Some s_LmidL
  else if streq k [c_Yacute] then Some s_NY
  else None.

(** The entries of [LETTER_VALUES]: a key (one code unit) and its points. *)
Definition pts (c : N) (v : Z) : jschar * Z := (c, v).

Definition LETTER_VALUES_table : list (jschar * Z) :=
  [ pts 65 1; pts 69 1; pts 73 1; pts 82 1; pts 83 1;   (* A E I R S *)
    pts 78 1; pts 79 1; pts 84 1; pts 76 1; pts 85 1;   (* N O T L U *)
    pts 67 2; pts 68 2; pts 77 2;                       (* C D M *)
    pts 66 3; pts 71 3; pts 80 3;                       (* B G P *)
    pts 70 4; pts 86 4;                                 (* F V *)
    pts 72 8; pts 74 8; pts 81 8; pts 90 8;             (* H J Q Z *)
    pts 199 10; pts 88 10;                              (* C-cedilla X *)
    pts 321 10; pts 221 10; pts 219 8 ].                (* L.L NY QU *)

(** [LETTER_VALUES[k]] *)
Definition LETTER_VALUES (k : jsstring) : option Z :=
  match k with
  | [c] => snd <$> find (fun e => bool_decide (fst e = c)) LETTER_VALUES_table
  | _ => None
  end.

Definition TRIPLE_WORD_COORDS : list (Z * Z) :=
  [(0,0); (0,7); (0,14); (7,0); (7,14); (14,0); (14,7); (14,14)].
Definition DOUBLE_WORD_COORDS : list (Z * Z) :=
  [(1,1); (1,13); (2,2); (2,12); (3,3); (3,11); (4,4); (4,10);
   (10,4); (10,10); (11,3); (11,11); (12,2); (12,12); (13,1); (13,13)].
Definition TRIPLE_LETTER_COORDS : list (Z * Z) :=
  [(1,5); (1,9); (5,1); (5,5); (5,9); (5,13);
   (9,1); (9,5); (9,9); (9,13); (13,5); (13,9)].
Definition DOUBLE_LETTER_COORDS : list (Z * Z) :=
  [(0,3); (0,11); (2,6); (2,8); (3,0); (3,7); (3,14);
   (6,2); (6,6); (6,8); (6,12); (7,3); (7,11);
   (8,2); (8,6); (8,8); (8,12); (11,0); (11,7); (11,14);
   (12,6); (12,8); (14,3); (14,11)].

Definition coordsInclude (l : list (Z * Z)) (k : Z * Z) : bool :=
  bool_decide (k ∈ l).

(** [createInitialBoard()] *)
Definition initialMultiplier (r c : Z) : MultiplierType :=
  if bool_decide (r = 7) && bool_decide (c = 7) then Center
  else if coordsInclude TRIPLE_WORD_COORDS (r, c) then TripleWord
  else if coordsInclude DOUBLE_WORD_COORDS (r, c) then DoubleWord
  else if coordsInclude TRIPLE_LETTER_COORDS (r, c) then TripleLetter
  else if coordsInclude DOUBLE_LETTER_COORDS (r, c) then DoubleLetter
  else Normal.

Definition indices : list Z := Z.of_nat <$> seq 0 15.

Definition createInitialBoard : Board :=
  (fun r => (fun c => {| row := r; col := c;
                         multiplier := initialMultiplier r c;
                         tile := None |}) <$> indices) <$> indices.

(** ** The tile model ([scrabbleUtils.ts]) *)

Section TileModel.
Context `{JSString}.

(** [createTile(char)] *)
Definition createTile (char : jsstring) : Tile :=
  let isBlank :=
    streq char (toLowerCase char)
    && negb (streq (toUpperCase char) (toLowerCase char)) in
  let upperChar := toUpperCase char in
  let displayChar := default upperChar (REVERSE_DIGRAPH_MAP upperChar) in
  if streq char [c_qmark] then
    {| char := [c_qmark]; value := 0; isBlank := true;
       displayChar := [c_qmark] |}
  else
    let value := if isBlank then 0 else default 0 (LETTER_VALUES upperChar) in
    {| char := char; value := value; isBlank := isBlank;
       displayChar := displayChar |}.

(** [internalToDisplayWord(word)]: every code unit is looked up as it is
    (the source leaves the case alone). *)
Definition internalToDisplayWord (word : jsstring) : jsstring :=
  concat ((fun c => default [c] (REVERSE_DIGRAPH_MAP [c])) <$> word).

(** One turn of the loop of [parseInputWord] on the rest of the input
    ([input.slice(i)], not empty): the internal string of the tile that is
    pushed, and by how much [i] advances. *)
Definition parseStep (c : jschar) (rest : jsstring) : jsstring * nat :=
  let char := [c] in
  let nextChar := take 1 rest in
  let threeChars := char ++ nextChar ++ take 1 (drop 1 rest) in
  let twoChars := char ++ nextChar in
  if includes [s_LmidL; s_LdotL; s_LhypL] (toUpperCase threeChars) then
    let isBlank := streq char (toLowerCase char) in
    (if isBlank then [c_lstroke] else [c_Lstroke], 3%nat)
  else
    let plain :=
      if streq (toUpperCase char) [c_Q] then
        (if streq char [c_q] then [c_ucirc] else [c_Ucirc], 1%nat)
      else (char, 1%nat) in
    if includes [s_QU; s_NY] (toUpperCase twoChars) then
      match DIGRAPH_MAP (toUpperCase twoChars) with
      | Some mapped =>
          let isBlank := streq char (toLowerCase char) in
          (if isBlank then toLowerCase mapped else mapped, 2%nat)
      | None => plain
      end
    else plain.

(** The loop [while (i < input.length)], on the rest of the input; every
    turn advances by at least one code unit, so [length input] turns are
    enough ([parseLoop_fuel]). *)
Fixpoint parseLoop (fuel : nat) (rest : jsstring) : list Tile :=
  match fuel, rest with
  | S fuel', c :: tl =>
      let '(internal, k) := parseStep c tl in
      createTile internal :: parseLoop fuel' (drop k rest)
  | _, _ => []
  end.

(** [parseInputWord(input)] *)
Definition parseInputWord (input : jsstring) : list Tile :=
  parseLoop (length input) input.

(** The internal word of a tile sequence: [tiles.map(t => t.char).join('')],
    what the views store as a move's [word] and hand to
    [internalToDisplayWord]. *)
Definition tilesToWord (tiles : list Tile) : jsstring :=
  concat (char <$> tiles).

(** [getMultiplierVal(type, isWord)] *)
Definition getMultiplierVal (type : MultiplierType) (isWord : bool) : Z :=
  if isWord then
    match type with
    | DoubleWord | Center => 2
    | TripleWord => 3
    | _ => 1
    end
  else
    match type with
    | DoubleLetter => 2
    | TripleLetter => 3
    | _ => 1
    end.

End TileModel.

(** ** The succinct trie ([FrozenTrie]) *)

(** A [FrozenTrie] is built from the three fields of a dictionary payload;
    its bit strings, rank directory and [letterStart] are functions of
    them. *)
Record FrozenTrie := {
  trieData : jsstring;
  directoryData : jsstring;
  nodeCount : Z
}.

(** What [getNodeByIndex] returns. [letter] is the one code unit of
    [String.fromCharCode(..)]. A [childCount] that comes out as [NaN] from a
    corrupt payload behaves, in every loop guard and comparison of the
    engine, as a negative count does, and is read as one. *)
Record FrozenTrieNode := {
  index : Z;
  letter : jschar;
  final : bool;
  firstChild : Z;
  childCount : Z
}.

Global Instance FrozenTrie_eq_dec : EqDecision FrozenTrie.
Proof. solve_decision. Defined.

(** The decoding of one node out of the bit strings (rank and select over
    the structural bits, then six data bits). *)
Class TrieDecoder := {
  getNodeByIndex : FrozenTrie -> Z -> FrozenTrieNode
}.

Section Trie.
Context `{TrieDecoder}.

Definition getRoot (t : FrozenTrie) : FrozenTrieNode := getNodeByIndex t 0.

(** [node.getChild(i)] *)
Definition getChild (t : FrozenTrie) (node : FrozenTrieNode) (i : Z)
  : FrozenTrieNode :=
  getNodeByIndex t (firstChild node + i).

(** The children a loop [for (i = 0; i < node.getChildCount(); i++)]
    visits, in order. *)
Definition children (t : FrozenTrie) (node : FrozenTrieNode)
  : list FrozenTrieNode :=
  (fun i => getChild t node (Z.of_nat i)) <$> seq 0 (Z.to_nat (childCount node)).

(** The first child whose letter is the string [target]: the scan
    [if (child.letter === target) break]. *)
Definition findChild (t : FrozenTrie) (node : FrozenTrieNode)
  (target : jsstring) : option FrozenTrieNode :=
  find (fun ch => streq [letter ch] target) (children t node).

(** [trie.lookup(word)] from [node]. When no child matches, [j] has stopped
    at [max 0 childCount]: it equals the count unless the count is negative,
    and then [node] becomes [undefined] and the next read of it throws. *)
Fixpoint lookupFrom (t : FrozenTrie) (node : FrozenTrieNode) (word : jsstring)
  : JS bool :=
  match word with
  | [] => Ret (final node)
  | w :: rest =>
      match findChild t node [w] with
      | Some child => lookupFrom t child rest
      | None => if bool_decide (childCount node < 0) then Throw else Ret false
      end
  end.

Definition lookup (t : FrozenTrie) (word : jsstring) : JS bool :=
  lookupFrom t (getRoot t) word.

End Trie.

(** ** Regular expressions of the word normaliser *)

(** [s.replace(/p1|p2|../g, by)] for non-empty literals: at each position
    the first alternative that matches is replaced and the scan resumes
    after it; [skip] counts the code units of a match still to pass. *)
Fixpoint replaceAllFrom (pats : list jsstring) (by_ : jsstring) (skip : nat)
  (s : jsstring) : jsstring :=
  match s with
  | [] => []
  | a :: rest =>
      match skip with
      | S k => replaceAllFrom pats by_ k rest
      | O =>
          match find (fun p => bool_decide (p `prefix_of` s)) pats with
          | Some p => by_ ++ replaceAllFrom pats by_ (length p - 1) rest
          | None => a :: replaceAllFrom pats by_ 0 rest
          end
      end
  end.

Definition replaceAll (pats : list jsstring) (by_ s : jsstring) : jsstring :=
  replaceAllFrom pats by_ 0 s.

(** [/Q(?!U)/.test(s)] *)
Fixpoint hasQWithoutU (s : jsstring) : bool :=
  match s with
  | [] => false
  | a :: rest =>
      (bool_decide (a = c_Q) && negb (bool_decide (head rest = Some c_U)))
      || hasQWithoutU rest
  end.

(** The code units U+0300..U+036F of the class the source strips after
    the NFD normalisation. *)
Definition isCombiningMark (c : jschar) : bool :=
  bool_decide (768 <= c)%N && bool_decide (c <= 879)%N.

(** ** The dictionary handle and [validateWord] *)

(** A dictionary payload as parsed from JSON; an absent field is [None]. *)
Record DictionaryData := {
  d_trie : option jsstring;
  d_directory : option jsstring;
  d_nodeCount : Z;
  d_version : option jsstring
}.

(** The module-level variables [trieInstance], [currentDictionaryName] and
    [currentDictionaryData]. *)
Record DictState := {
  trieInstance : option FrozenTrie;
  currentDictionaryName : jsstring;
  currentDictionaryData : option DictionaryData
}.

Definition s_DISC : jsstring := [68; 73; 83; 67]%N.
Definition s_ERROR : jsstring := [69; 82; 82; 79; 82]%N.

(** What [fetch] and [response.json()] did, as far as [loadDictionary]
    tells them apart: both a rejected [fetch] and a rejected [json()] are
    caught by the inner [try], and a response that is not [ok] only warns;
    [Fetched None] is a body that parsed to [null]. *)
Inductive FetchOutcome :=
| FetchRejected
| ResponseNotOk
| JsonRejected
| Fetched (data : option DictionaryData).

(** Which way [loadDictionary] left: the early return, the end of the [try]
    block, or the [catch] block. *)
Inductive LoadOutcome := AlreadyLoaded | Loaded | LoadFailed.

(** [new FrozenTrie(data.trie, data.directory, data.nodeCount)]; the
    [BitString] of an absent directory reads [undefined.length] and
    throws. *)
Definition newFrozenTrie (trie : jsstring) (directory : option jsstring)
  (count : Z) : JS FrozenTrie :=
  match directory with
  | Some dir => Ret {| trieData := trie; directoryData := dir; nodeCount := count |}
  | None => Throw
  end.

(** The [try] block of [loadDictionary]: the new state, or [None] when it
    throws (the missing-payload [Error] or the constructor's [TypeError]). *)
Definition tryLoad (fallbackDisc : option DictionaryData) (name : jsstring)
  (fetched : FetchOutcome) : option DictState :=
  let data := match fetched with Fetched d => d | _ => None end in
  let data :=
    match data with
    | None => if streq name s_DISC then fallbackDisc else None
    | Some _ => data
    end in
  match data with
  | Some d =>
      match d_trie d with
      | Some (u :: tr) =>
          match newFrozenTrie (u :: tr) (d_directory d) (d_nodeCount d) with
          | Ret t => Some {| trieInstance := Some t;
                             currentDictionaryName := name;
                             currentDictionaryData := Some d |}
          | Throw => None
          end
      | _ => None
      end
  | None => None
  end.

(** [loadDictionary(name)], given the embedded fallback payload and what
    the network did. *)
Definition loadDictionary (fallbackDisc : option DictionaryData)
  (name : jsstring) (fetched : FetchOutcome) (st : DictState)
  : DictState * LoadOutcome :=
  if bool_decide (is_Some (trieInstance st))
     && streq (currentDictionaryName st) name then (st, AlreadyLoaded)
  else
    match tryLoad fallbackDisc name fetched with
    | Some st' => (st', Loaded)
    | None =>
        (match trieInstance st with
         | Some _ => st
         | None => {| trieInstance := None;
                      currentDictionaryName := s_ERROR;
                      currentDictionaryData := None |}
         end, LoadFailed)
    end.

(** [getTrie()] *)
Definition getTrie (st : DictState) : option FrozenTrie := trieInstance st.

Section Validation.
Context `{JSString} `{TrieDecoder}.

(** The string [validateWord] looks up, before the test on Q: upper case of
    the trimmed word, C-cedilla as 1, accents stripped. *)
Definition stripAccents (word : jsstring) : jsstring :=
  let normalized := toUpperCase (trim word) in
  let normalized :=
    (fun c => if bool_decide (c = c_Ccedil) then c_1 else c) <$> normalized in
  filter (fun c => isCombiningMark c = false) (normalizeNFD normalized).

(** The replacement of the digraphs by the dictionary's codes and the final
    cleaning. *)
Definition toTrieString (normalized : jsstring) : jsstring :=
  let normalized :=
    replaceAll [s_LmidL; s_LdotL; s_LhypL; s_LmL] [c_2] normalized in
  let normalized := replaceAll [s_QU] [c_Q] normalized in
  let normalized := replaceAll [s_NY] [c_3] normalized in
  filter (fun c => negb (bool_decide (c = c_middot) || bool_decide (c = c_dot)) = true)
    normalized.

(** [validateWord(word)], with the result of [getTrie()]. *)
Definition validateWord (trie : option FrozenTrie) (word : jsstring) : JS bool :=
  match trie with
  | None => Ret true
  | Some t =>
      let normalized := stripAccents word in
      if hasQWithoutU normalized then Ret false
      else lookup t (toTrieString normalized)
  end.

End Validation.

(** ** Reading the board *)

(** [arr[i]] for a number [i]: [None] is [undefined]. *)
Definition nthZ {A} (l : list A) (i : Z) : option A :=
  if bool_decide (0 <= i) then l !! Z.to_nat i else None.

(** [board[r][c]] where the source reads a property of the cell next: the
    read throws when the row or the cell is [undefined]. *)
Definition cellAt (board : Board) (r c : Z) : JS BoardCell :=
  match nthZ board r with
  | Some cells =>
      match nthZ cells c with
      | Some cell => Ret cell
      | None => Throw
      end
  | None => Throw
  end.

(** [board[r][c].tile] *)
Definition tileAt (board : Board) (r c : Z) : JS (option Tile) :=
  let! cell := cellAt board r c in Ret (tile cell).

(** [r >= 0 && c >= 0 && r < BOARD_SIZE && c < BOARD_SIZE] *)
Definition inBounds (r c : Z) : bool :=
  bool_decide (0 <= r) && bool_decide (0 <= c)
  && bool_decide (r < BOARD_SIZE) && bool_decide (c < BOARD_SIZE).

(** [inBounds(r, c) && board[r][c].tile], as a value: the tile or nothing. *)
Definition tileIfInBounds (board : Board) (r c : Z) : JS (option Tile) :=
  if inBounds r c then tileAt board r c else Ret None.

(** The scan [for (c = 0; c < BOARD_SIZE; c++) if (board[r][c].tile) ..
    break] over the columns [cs] of row [r]: whether it met a tile. *)
Fixpoint rowHasTile (board : Board) (r : Z) (cs : list Z) : JS bool :=
  match cs with
  | [] => Ret false
  | c :: cs' =>
      let! t := tileAt board r c in
      if bool_decide (is_Some t) then Ret true else rowHasTile board r cs'
  end.

(** The board-empty check of [calculateMoveScore]: the outer loop stops at
    the first row with a tile. *)
Fixpoint anyRowHasTile (board : Board) (rs : list Z) : JS bool :=
  match rs with
  | [] => Ret false
  | r :: rs' =>
      let! found := rowHasTile board r indices in
      if found then Ret true else anyRowHasTile board rs'
  end.

Definition isBoardEmpty (board : Board) : JS bool :=
  let! found := anyRowHasTile board indices in Ret (negb found).

(** ** Results of the validator *)

(** The rejections of [calculateMoveScore]. The source returns each as a
    message: "Fora del tauler", "Conflicte a <cell>: ..", "No tens cap
    Escarras (?) per ..", "Et falta la lletra ..", "La primera jugada ha de
    passar per la casella central", "La primera jugada ha de tenir almenys 2
    lletres", "La jugada ha d'estar connectada ..", "Paraula no valida:
    <word>"; the constructors keep what each message cites. *)
Inductive MoveError :=
| OutOfBounds
| CellConflict (r c : Z) (onBoard placed : jsstring)
| MissingBlank (display : jsstring)
| MissingRackLetter (display : jsstring)
| MissingCenter
| TooShortFirstMove
| NotConnected
| InvalidWord (word : jsstring).

Record ScoreResult := {
  score : Z;
  isValid : bool;
  error : option MoveError
}.

Definition reject (e : MoveError) : ScoreResult :=
  {| score := 0; isValid := false; error := Some e |}.

Definition accept (total : Z) : ScoreResult :=
  {| score := total; isValid := true; error := None |}.

(** [dr] and [dc] of a direction. *)
Definition rowStep (d : Direction) : Z :=
  match d with Horizontal => 0 | Vertical => 1 end.
Definition colStep (d : Direction) : Z :=
  match d with Horizontal => 1 | Vertical => 0 end.

(** [newTilesMap]: the candidate's tiles by the cell each one covers (the
    source keys them by the string "r,c"). *)
Fixpoint newTilesFrom (tiles : list Tile) (r c dr dc : Z)
  (m : gmap (Z * Z) Tile) : gmap (Z * Z) Tile :=
  match tiles with
  | [] => m
  | t :: rest => newTilesFrom rest (r + dr) (c + dc) dr dc (<[(r, c) := t]> m)
  end.

Definition newTilesMapOf (tiles : list Tile) (startRow startCol dr dc : Z)
  : gmap (Z * Z) Tile :=
  newTilesFrom tiles startRow startCol dr dc ∅.

(** ** [getFullWordString] *)

(** The position of the smallest key of [newTilesMap] along a row or a
    column (or 0, the board's edge): no step back can go below it. *)
Definition lowestPosition (newTilesMap : gmap (Z * Z) Tile) : Z :=
  foldr Z.min 0 ((fun kv => kv.1.1 + kv.1.2) <$> map_to_list newTilesMap).

(** The first loop: step back while the previous cell holds a tile of the
    board or of the candidate. Each step lowers [currR + currC] by one, so
    [backFuel] turns are enough ([scanBack_fuel]). *)
Fixpoint scanBack (fuel : nat) (board : Board) (newTilesMap : gmap (Z * Z) Tile)
  (dr dc currR currC : Z) : JS (Z * Z) :=
  match fuel with
  | O => Ret (currR, currC)
  | S fuel' =>
      let prevR := currR - dr in
      let prevC := currC - dc in
      let! hasBoardTile := tileIfInBounds board prevR prevC in
      let hasNewTile := newTilesMap !! (prevR, prevC) in
      if bool_decide (is_Some hasBoardTile) || bool_decide (is_Some hasNewTile)
      then scanBack fuel' board newTilesMap dr dc prevR prevC
      else Ret (currR, currC)
  end.

Definition backFuel (newTilesMap : gmap (Z * Z) Tile) (currR currC : Z) : nat :=
  S (Z.to_nat (currR + currC - lowestPosition newTilesMap)).

(** The second loop: collect the display strings while inside the board. *)
Fixpoint scanForward (fuel : nat) (board : Board)
  (newTilesMap : gmap (Z * Z) Tile) (dr dc currR currC : Z) : JS jsstring :=
  match fuel with
  | O => Ret []
  | S fuel' =>
      if inBounds currR currC then
        let! boardTile := tileAt board currR currC in
        let newTile := newTilesMap !! (currR, currC) in
        match boardTile, newTile with
        | Some t, _ | None, Some t =>
            let! word := scanForward fuel' board newTilesMap dr dc
                           (currR + dr) (currC + dc) in
            Ret (displayChar t ++ word)
        | None, None => Ret []
        end
      else Ret []
  end.

(** Inside the board [currR + currC] is at most 28 and each turn raises it
    by one ([scanForward_fuel]). *)
Definition forwardFuel (currR currC : Z) : nat :=
  Z.to_nat (2 * BOARD_SIZE - (currR + currC)).

Definition getFullWordString (board : Board) (newTilesMap : gmap (Z * Z) Tile)
  (startR startC dr dc : Z) : JS jsstring :=
  let! start := scanBack (backFuel newTilesMap startR startC) board newTilesMap
                  dr dc startR startC in
  scanForward (forwardFuel start.1 start.2) board newTilesMap dr dc
    start.1 start.2.

(** The loops of the cross-word score: the face values of the board's tiles
    from [(r, c)] on, in steps of [(dr, dc)], up to the first empty cell or
    the edge; at most [BOARD_SIZE] cells lie on a line ([sumRun_fuel]). *)
Fixpoint sumRun (fuel : nat) (board : Board) (r c dr dc : Z) : JS Z :=
  match fuel with
  | O => Ret 0
  | S fuel' =>
      let! t := tileIfInBounds board r c in
      match t with
      | Some t =>
          let! more := sumRun fuel' board (r + dr) (c + dc) dr dc in
          Ret (value t + more)
      | None => Ret 0
      end
  end.

Definition runFuel : nat := S (Z.to_nat BOARD_SIZE).

(** [rackAvailable.indexOf(x)] and [splice(index, 1)]: the rack without the
    first occurrence of [x], if there is one. *)
Fixpoint spliceFirst (x : jsstring) (rack : list jsstring)
  : option (list jsstring) :=
  match rack with
  | [] => None
  | y :: rest =>
      if streq y x then Some rest
      else cons y <$> spliceFirst x rest
  end.

(** The rack check for one new tile: the letter, else a joker. *)
Definition takeFromRack (x : jsstring) (rack : list jsstring)
  : option (list jsstring) :=
  match spliceFirst x rack with
  | Some rack' => Some rack'
  | None => spliceFirst [c_qmark] rack
  end.

(** ** [calculateMoveScore] *)

(** The local variables the loop over the tiles updates. [invalidWord] is
    the word cited by [invalidWordError]. *)
Record ScoreState := {
  totalScore : Z;
  mainWordScore : Z;
  mainWordMultiplier : Z;
  tilesUsedFromRack : Z;
  rackAvailable : list jsstring;
  touchesExisting : bool;
  touchesCenter : bool;
  allWordsValid : bool;
  invalidWord : jsstring
}.

(** The connectivity check of a new tile: whether one of the four
    neighbours inside the board holds a tile. *)
Fixpoint anyNeighbourTile (board : Board) (ns : list (Z * Z)) : JS bool :=
  match ns with
  | [] => Ret false
  | n :: ns' =>
      let! t := tileIfInBounds board n.1 n.2 in
      let! more := anyNeighbourTile board ns' in
      Ret (bool_decide (is_Some t) || more)
  end.

Definition neighbours (r c : Z) : list (Z * Z) :=
  [(r - 1, c); (r + 1, c); (r, c - 1); (r, c + 1)].

Section Validator.
Context `{JSString} `{TrieDecoder}.
Variable trie : option FrozenTrie.

(** The cross-word block of a new tile at [(r, c)] whose letter counts
    [letterVal] and whose cell has the word multiplier [wordMult]: the state
    after it. *)
Definition scoreCrossWord (board : Board) (newTilesMap : gmap (Z * Z) Tile)
  (direction : Direction) (r c letterVal wordMult : Z) (st : ScoreState)
  : JS ScoreState :=
  let crossDr := colStep direction in
  let crossDc := rowStep direction in
  let prevR := r - crossDr in
  let prevC := c - crossDc in
  let nextR := r + crossDr in
  let nextC := c + crossDc in
  let! hasPrev := tileIfInBounds board prevR prevC in
  let! hasNext := tileIfInBounds board nextR nextC in
  if bool_decide (is_Some hasPrev) || bool_decide (is_Some hasNext) then
    let! crossWordStr := getFullWordString board newTilesMap r c crossDr crossDc in
    let! ok := validateWord trie crossWordStr in
    let! before := sumRun runFuel board prevR prevC (- crossDr) (- crossDc) in
    let! after := sumRun runFuel board nextR nextC crossDr crossDc in
    let crossWordScore := letterVal + before + after in
    let crossWordMultiplier := wordMult in
    Ret {| totalScore := totalScore st + crossWordScore * crossWordMultiplier;
           mainWordScore := mainWordScore st;
           mainWordMultiplier := mainWordMultiplier st;
           tilesUsedFromRack := tilesUsedFromRack st;
           rackAvailable := rackAvailable st;
           touchesExisting := touchesExisting st;
           touchesCenter := touchesCenter st;
           allWordsValid := allWordsValid st && ok;
           invalidWord := if ok then invalidWord st else crossWordStr |}
  else Ret st.

(** One turn of the loop over the tiles, for the tile [t] at [(r, c)]: the
    next state ([inl]) or the result the function returns at once
    ([inr]). *)
Definition scoreTile (board : Board) (newTilesMap : gmap (Z * Z) Tile)
  (direction : Direction) (r c : Z) (t : Tile) (st : ScoreState)
  : JS (ScoreState + ScoreResult) :=
  if bool_decide (BOARD_SIZE <= r) || bool_decide (BOARD_SIZE <= c) then
    Ret (inr (reject OutOfBounds))
  else
    let centre := touchesCenter st || (bool_decide (r = 7) && bool_decide (c = 7)) in
    let! cell := cellAt board r c in
    let tileInternalChar := toUpperCase (char t) in
    match tile cell with
    | Some onBoard =>
        if negb (streq (toUpperCase (char onBoard)) tileInternalChar) then
          Ret (inr (reject (CellConflict r c (displayChar onBoard) (displayChar t))))
        else
          Ret (inl {| totalScore := totalScore st;
                      mainWordScore := mainWordScore st + value onBoard;
                      mainWordMultiplier := mainWordMultiplier st;
                      tilesUsedFromRack := tilesUsedFromRack st;
                      rackAvailable := rackAvailable st;
                      touchesExisting := true;
                      touchesCenter := centre;
                      allWordsValid := allWordsValid st;
                      invalidWord := invalidWord st |})
    | None =>
        let! touching := anyNeighbourTile board (neighbours r c) in
        match takeFromRack tileInternalChar (rackAvailable st) with
        | None =>
            Ret (inr (reject (if isBlank t then MissingBlank (displayChar t)
                              else MissingRackLetter (displayChar t))))
        | Some rack' =>
            let letterMult := getMultiplierVal (multiplier cell) false in
            let letterVal := value t * letterMult in
            let wordMult := getMultiplierVal (multiplier cell) true in
            let st' :=
              {| totalScore := totalScore st;
                 mainWordScore := mainWordScore st + letterVal;
                 mainWordMultiplier := mainWordMultiplier st * wordMult;
                 tilesUsedFromRack := tilesUsedFromRack st + 1;
                 rackAvailable := rack';
                 touchesExisting := touchesExisting st || touching;
                 touchesCenter := centre;
                 allWordsValid := allWordsValid st;
                 invalidWord := invalidWord st |} in
            let! st'' := scoreCrossWord board newTilesMap direction r c
                           letterVal wordMult st' in
            Ret (inl st'')
        end
    end.

(** The loop [for (i = 0; i < tiles.length; i++)] from index [i] on. *)
Fixpoint scoreTiles (board : Board) (newTilesMap : gmap (Z * Z) Tile)
  (direction : Direction) (startRow startCol : Z) (tiles : list Tile) (i : Z)
  (st : ScoreState) : JS (ScoreState + ScoreResult) :=
  match tiles with
  | [] => Ret (inl st)
  | t :: rest =>
      let r := startRow + i * rowStep direction in
      let c := startCol + i * colStep direction in
      let! step := scoreTile board newTilesMap direction r c t st in
      match step with
      | inl st' =>
          scoreTiles board newTilesMap direction startRow startCol rest (i + 1) st'
      | inr result => Ret (inr result)
      end
  end.

(** The rules and the total after the loop. *)
Definition finishScore (boardEmpty : bool) (nTiles : nat) (st : ScoreState)
  : ScoreResult :=
  if boardEmpty && negb (touchesCenter st) then reject MissingCenter
  else if boardEmpty && bool_decide (nTiles < 2)%nat then reject TooShortFirstMove
  else if negb boardEmpty && negb (touchesExisting st) then reject NotConnected
  else if negb (allWordsValid st) then reject (InvalidWord (invalidWord st))
  else
    let total := totalScore st + mainWordScore st * mainWordMultiplier st in
    accept (if bool_decide (tilesUsedFromRack st = 7) then total + 50 else total).

(** [calculateMoveScore(board, tiles, currentRack, startRow, startCol,
    direction)] *)
Definition calculateMoveScore (board : Board) (tiles : list Tile)
  (currentRack : list jsstring) (startRow startCol : Z) (direction : Direction)
  : JS ScoreResult :=
  let dr := rowStep direction in
  let dc := colStep direction in
  let newTilesMap := newTilesMapOf tiles startRow startCol dr dc in
  let! boardEmpty := isBoardEmpty board in
  let! mainWordStr := getFullWordString board newTilesMap startRow startCol dr dc in
  let! mainOk :=
    if bool_decide (1 < length mainWordStr)%nat then validateWord trie mainWordStr
    else Ret true in
  let st0 :=
    {| totalScore := 0; mainWordScore := 0; mainWordMultiplier := 1;
       tilesUsedFromRack := 0; rackAvailable := currentRack;
       touchesExisting := false; touchesCenter := false;
       allWordsValid := mainOk;
       invalidWord := if mainOk then [] else mainWordStr |} in
  let! looped := scoreTiles board newTilesMap direction startRow startCol tiles 0 st0 in
  match looped with
  | inl st => Ret (finishScore boardEmpty (length tiles) st)
  | inr result => Ret result
  end.

End Validator.

(** ** The best-move finder ([moveFinder.ts]) *)

(** A candidate move. Of the source's [PlayerMove] the fields that the
    engine computes are kept; [id] and [timestamp] come from the clock and
    the random generator, and [playerId], [playerName], [tableNumber] and
    [roundNumber] are constants of [addMove]. [None] is an absent field. *)
Record PlayerMove := {
  mv_word : jsstring;
  mv_tiles : list Tile;
  mv_row : Z;
  mv_col : Z;
  mv_direction : Direction;
  mv_score : option Z;
  mv_isValid : option bool;
  mv_error : option MoveError
}.

(** [INTERNAL_TO_TRIE[k]] and [TRIE_TO_INTERNAL[k]] *)
Definition INTERNAL_TO_TRIE (k : jsstring) : option jsstring :=
  if streq k [c_Ccedil] then Some [c_1]
  else if streq k [c_Lstroke] then Some [c_2]
  else if streq k [c_Yacute] then Some [c_3]
  else if streq k [c_Ucirc] then Some [c_Q]
  else None.

Definition TRIE_TO_INTERNAL (k : jsstring) : option jsstring :=
  if streq k [c_1] then Some [c_Ccedil]
  else if streq k [c_2] then Some [c_Lstroke]
  else if streq k [c_3] then Some [c_Yacute]
  else if streq k [c_Q] then Some [c_Ucirc]
  else None.

(** [TRIE_ALPHABET]: A..Z, then 1, 2, 3. *)
Definition TRIE_ALPHABET : list jschar :=
  (N.of_nat <$> seq 65 26) ++ [c_1; c_2; c_3].

(** Sequencing a loop whose turns each add moves to [results]. *)
Fixpoint collectMoves {A B} (f : A -> JS (list B)) (l : list A) : JS (list B) :=
  match l with
  | [] => Ret []
  | a :: rest =>
      let! first := f a in
      let! more := collectMoves f rest in
      Ret (first ++ more)
  end.

(** [arr.map(f)] for an [f] that can throw. *)
Fixpoint mapJS {A B} (f : A -> JS B) (l : list A) : JS (list B) :=
  match l with
  | [] => Ret []
  | a :: rest =>
      let! b := f a in
      let! bs := mapJS f rest in
      Ret (b :: bs)
  end.

(** The tiles of the board from [(r, c)] on in steps of [(dr, dc)], up to
    the first empty cell or the edge, nearest first. The source's loops
    test one coordinate only ([up >= 0], [down < BOARD_SIZE], [start > 0]);
    the other one is a loop index inside the board. *)
Fixpoint collectRun (fuel : nat) (board : Board) (r c dr dc : Z)
  : JS (list Tile) :=
  match fuel with
  | O => Ret []
  | S fuel' =>
      let! t := tileIfInBounds board r c in
      match t with
      | Some t =>
          let! more := collectRun fuel' board (r + dr) (c + dc) dr dc in
          Ret (t :: more)
      | None => Ret []
      end
  end.

Section Finder.
Context `{JSString} `{TrieDecoder}.

Definition getTrieChar (internalChar : jsstring) : jsstring :=
  let upper := toUpperCase internalChar in
  default upper (INTERNAL_TO_TRIE upper).

Definition getInternalChar (trieChar : jsstring) (isBlank : bool) : jsstring :=
  let base := default trieChar (TRIE_TO_INTERNAL trieChar) in
  if isBlank then toLowerCase base else base.

(** The tiles of [addMove], for the code units [word] of the word from
    column [c] on: the tiles, and how many are new. *)
Fixpoint moveTiles (board : Board) (r c : Z) (word : jsstring)
  : JS (list Tile * Z) :=
  match word with
  | [] => Ret ([], 0)
  | u :: rest =>
      let! cell := cellAt board r c in
      let! more := moveTiles board r (c + 1) rest in
      match tile cell with
      | Some t => Ret (t :: more.1, more.2)
      | None => Ret (createTile [u] :: more.1, 1 + more.2)
      end
  end.

(** [addMove(board, rowParam, endColParam, wordStrInternal, results,
    direction)]: what it pushes. *)
Definition addMove (board : Board) (rowParam endColParam : Z)
  (wordStrInternal : jsstring) (direction : Direction) : JS (list PlayerMove) :=
  let len := Z.of_nat (length wordStrInternal) in
  let startColIndex := endColParam - len in
  let moveRow := match direction with Horizontal => rowParam | Vertical => startColIndex end in
  let moveCol := match direction with Horizontal => startColIndex | Vertical => rowParam end in
  let! built := moveTiles board rowParam startColIndex wordStrInternal in
  if bool_decide (built.2 = 0) then Ret []
  else Ret [ {| mv_word := wordStrInternal; mv_tiles := built.1;
                mv_row := moveRow; mv_col := moveCol;
                mv_direction := direction;
                mv_score := None; mv_isValid := None; mv_error := None |} ].

(** The rack letter a trie letter consumes: the letter itself, else a
    joker; with the rack left and whether the tile is a blank. *)
Definition useRack (trieLetter : jsstring) (rack : list jsstring)
  : option (list jsstring * bool) :=
  match spliceFirst trieLetter rack with
  | Some nextRack => Some (nextRack, false)
  | None =>
      match spliceFirst [c_qmark] rack with
      | Some nextRack => Some (nextRack, true)
      | None => None
      end
  end.

Definition extendFuel (col : Z) : nat := S (Z.to_nat (BOARD_SIZE - col)).

(** [extendRight]; each call is one column further right, and the column
    [BOARD_SIZE] ends the recursion, so [extendFuel col] calls are enough
    ([extendRight_fuel]). *)
Fixpoint extendRight (fuel : nat) (t : FrozenTrie) (board : Board)
  (row col : Z) (partialWordInternal : jsstring) (node : FrozenTrieNode)
  (rack : list jsstring) (crossChecks : gmap (Z * Z) (gset jschar))
  (direction : Direction) : JS (list PlayerMove) :=
  match fuel with
  | O => Ret []
  | S fuel' =>
      if bool_decide (BOARD_SIZE <= col) then
        if final node then addMove board row col partialWordInternal direction
        else Ret []
      else
        let! onBoard := tileAt board row col in
        match onBoard with
        | Some existing =>
            let existingInternal := char existing in
            let existingTrie := getTrieChar existingInternal in
            match findChild t node existingTrie with
            | Some childNode =>
                extendRight fuel' t board row (col + 1)
                  (partialWordInternal ++ existingInternal) childNode rack
                  crossChecks direction
            | None => Ret []
            end
        | None =>
            let! here :=
              if final node
                 && (bool_decide (col = BOARD_SIZE) || negb (bool_decide (is_Some onBoard)))
              then addMove board row col partialWordInternal direction
              else Ret [] in
            let! further :=
              collectMoves (fun child =>
                let trieLetter := [letter child] in
                let excluded :=
                  match crossChecks !! (row, col) with
                  | Some allowed => negb (bool_decide (letter child ∈ allowed))
                  | None => false
                  end in
                if excluded then Ret []
                else
                  match useRack trieLetter rack with
                  | Some (nextRack, blank) =>
                      extendRight fuel' t board row (col + 1)
                        (partialWordInternal ++ getInternalChar trieLetter blank)
                        child nextRack crossChecks direction
                  | None => Ret []
                  end) (children t node) in
            Ret (here ++ further)
        end
  end.

(** [leftPart] *)
Fixpoint leftPart (limit : nat) (t : FrozenTrie) (board : Board)
  (row anchorCol : Z) (partialWordInternal : jsstring) (node : FrozenTrieNode)
  (rack : list jsstring) (crossChecks : gmap (Z * Z) (gset jschar))
  (direction : Direction) : JS (list PlayerMove) :=
  let! first := extendRight (extendFuel anchorCol) t board row anchorCol
                  partialWordInternal node rack crossChecks direction in
  match limit with
  | O => Ret first
  | S limit' =>
      let! further :=
        collectMoves (fun child =>
          let trieLetter := [letter child] in
          match useRack trieLetter rack with
          | Some (nextRack, blank) =>
              leftPart limit' t board row anchorCol
                (partialWordInternal ++ getInternalChar trieLetter blank)
                child nextRack crossChecks direction
          | None => Ret []
          end) (children t node) in
      Ret (first ++ further)
  end.

(** The cells of the board in the order of the loops
    [for (r ..) for (c ..)]. *)
Definition allCells : list (Z * Z) :=
  r ← indices; (fun c => (r, c)) <$> indices.

(** The cross-check of one empty cell [(r, c)]: nothing when no tile stands
    right above or below, else the letters of [TRIE_ALPHABET] that make a
    word of the dictionary between the tiles above and the tiles below. *)
Definition crossCheckAt (t : FrozenTrie) (board : Board) (r c : Z)
  : JS (option (gset jschar)) :=
  let! above := collectRun runFuel board (r - 1) c (-1) 0 in
  let! below := collectRun runFuel board (r + 1) c 1 0 in
  match above, below with
  | [], [] => Ret None
  | _, _ =>
      let prefix := concat ((fun x => getTrieChar (char x)) <$> reverse above) in
      let suffix := concat ((fun x => getTrieChar (char x)) <$> below) in
      let! allowed :=
        mapJS (fun trieChar =>
                 let! found := lookup t (prefix ++ [trieChar] ++ suffix) in
                 Ret (trieChar, found)) TRIE_ALPHABET in
      Ret (Some (list_to_set (fst <$> filter (fun e => e.2 = true) allowed)))
  end.

(** [computeCrossChecks(board, trie)]: the cells with a constraint. *)
Fixpoint crossChecksOver (t : FrozenTrie) (board : Board) (cells : list (Z * Z))
  : JS (gmap (Z * Z) (gset jschar)) :=
  match cells with
  | [] => Ret ∅
  | rc :: rest =>
      let! occupied := tileAt board rc.1 rc.2 in
      let! here :=
        if bool_decide (is_Some occupied) then Ret None
        else crossCheckAt t board rc.1 rc.2 in
      let! checks := crossChecksOver t board rest in
      Ret (match here with
           | Some allowed => <[rc := allowed]> checks
           | None => checks
           end)
  end.

Definition computeCrossChecks (t : FrozenTrie) (board : Board)
  : JS (gmap (Z * Z) (gset jschar)) :=
  crossChecksOver t board allCells.

(** The test of [findAnchors] on an empty cell: a chain of [else if], so a
    neighbour is read only when the ones before it hold no tile. *)
Definition hasTileBeside (board : Board) (r c : Z) : JS bool :=
  let! up := if bool_decide (0 < r) then tileAt board (r - 1) c else Ret None in
  if bool_decide (is_Some up) then Ret true
  else
    let! down := if bool_decide (r < BOARD_SIZE - 1) then tileAt board (r + 1) c
                 else Ret None in
    if bool_decide (is_Some down) then Ret true
    else
      let! left := if bool_decide (0 < c) then tileAt board r (c - 1) else Ret None in
      if bool_decide (is_Some left) then Ret true
      else
        let! right := if bool_decide (c < BOARD_SIZE - 1) then tileAt board r (c + 1)
                      else Ret None in
        Ret (bool_decide (is_Some right)).

Fixpoint anchorsOver (board : Board) (cells : list (Z * Z)) : JS (list (Z * Z)) :=
  match cells with
  | [] => Ret []
  | rc :: rest =>
      let! occupied := tileAt board rc.1 rc.2 in
      let! isAnchor :=
        if bool_decide (is_Some occupied) then Ret false
        else hasTileBeside board rc.1 rc.2 in
      let! more := anchorsOver board rest in
      Ret (if isAnchor then rc :: more else more)
  end.

(** [findAnchors(board, isBoardEmpty)] *)
Definition findAnchors (board : Board) (isBoardEmpty : bool) : JS (list (Z * Z)) :=
  if isBoardEmpty then Ret [(7, 7)] else anchorsOver board allCells.

(** The walk of the existing prefix through the trie: the node reached and
    the prefix, or nothing when a letter has no child ([validPrefix =
    false]). *)
Fixpoint walkPrefix (t : FrozenTrie) (tiles : list Tile) (currNode : FrozenTrieNode)
  (prefixInternal : jsstring) : option (FrozenTrieNode * jsstring) :=
  match tiles with
  | [] => Some (currNode, prefixInternal)
  | x :: rest =>
      match findChild t currNode (getTrieChar (char x)) with
      | Some nextNode => walkPrefix t rest nextNode (prefixInternal ++ char x)
      | None => None
      end
  end.

(** [limitLeft]: the empty cells left of the anchor, from column [k] down,
    up to the first tile, anchor or the edge. *)
Fixpoint countLeft (fuel : nat) (board : Board) (anchors : list (Z * Z))
  (r k : Z) : JS nat :=
  match fuel with
  | O => Ret O
  | S fuel' =>
      if bool_decide (0 <= k) then
        let! t := tileAt board r k in
        if bool_decide (is_Some t) then Ret O
        else if bool_decide ((r, k) ∈ anchors) then Ret O
        else let! more := countLeft fuel' board anchors r (k - 1) in Ret (S more)
      else Ret O
  end.

(** The body of the loop over the anchors of [findMovesInDirection]. *)
Definition movesAtAnchor (t : FrozenTrie) (currentBoard : Board)
  (direction : Direction) (trieRack : list jsstring)
  (crossChecks : gmap (Z * Z) (gset jschar)) (anchors : list (Z * Z))
  (anchor : Z * Z) : JS (list PlayerMove) :=
  let r := anchor.1 in
  let c := anchor.2 in
  let! left := if bool_decide (0 < c) then tileAt currentBoard r (c - 1) else Ret None in
  match left with
  | Some _ =>
      let! run := collectRun runFuel currentBoard r (c - 1) 0 (-1) in
      match walkPrefix t (reverse run) (getRoot t) [] with
      | Some (currNode, prefixInternal) =>
          extendRight (extendFuel c) t currentBoard r c prefixInternal currNode
            trieRack crossChecks direction
      | None => Ret []
      end
  | None =>
      let! limitLeft := countLeft runFuel currentBoard anchors r (c - 1) in
      leftPart limitLeft t currentBoard r c [] (getRoot t) trieRack crossChecks
        direction
  end.

(** [findMovesInDirection(currentBoard, direction)]: the moves it pushes. *)
Definition findMovesInDirection (t : FrozenTrie) (isEmpty : bool)
  (trieRack : list jsstring) (currentBoard : Board) (direction : Direction)
  : JS (list PlayerMove) :=
  let! crossChecks := computeCrossChecks t currentBoard in
  let! anchors := findAnchors currentBoard isEmpty in
  collectMoves (fun r =>
    let rowAnchors := filter (fun a => a.1 = r) anchors in
    collectMoves (movesAtAnchor t currentBoard direction trieRack crossChecks anchors)
      rowAnchors) indices.

End Finder.

(** ** [findBestMoves] *)

(** The emptiness test of [findBestMoves]: its [break] leaves the inner
    loop only, so every row is scanned up to its first tile. *)
Fixpoint someRowHasTile (board : Board) (rs : list Z) : JS bool :=
  match rs with
  | [] => Ret false
  | r :: rs' =>
      let! found := rowHasTile board r indices in
      let! more := someRowHasTile board rs' in
      Ret (found || more)
  end.

(** The transposed board: [{...board[r][c], row: c, col: r}]. Spreading an
    [undefined] cell gives a cell with no tile (and no multiplier, which the
    finder never reads); reading a cell of an [undefined] row throws. *)
Definition transposedCell (board : Board) (c r : Z) : JS BoardCell :=
  match nthZ board r with
  | Some cells =>
      match nthZ cells c with
      | Some original => Ret {| row := c; col := r;
                                multiplier := multiplier original;
                                tile := tile original |}
      | None => Ret {| row := c; col := r; multiplier := Normal; tile := None |}
      end
  | None => Throw
  end.

Definition transposeBoard (board : Board) : JS Board :=
  mapJS (fun c => mapJS (fun r => transposedCell board c r) indices) indices.

(** The key of [uniqueMoves], "word-row-col-direction", as a tuple. *)
Definition moveKey (m : PlayerMove) : jsstring * Z * Z * Direction :=
  (mv_word m, mv_row m, mv_col m, mv_direction m).

(** [m.score || 0] *)
Definition scoreOrZero (m : PlayerMove) : Z := default 0 (mv_score m).

(** One turn of the deduplication on the entries of the [Map], kept in
    insertion order; [set] on a key that is present replaces its value in
    place. *)
Fixpoint dedupInsert (m : PlayerMove) (entries : list PlayerMove) : list PlayerMove :=
  match entries with
  | [] => [m]
  | e :: rest =>
      if bool_decide (moveKey e = moveKey m) then
        (if bool_decide (scoreOrZero e < scoreOrZero m) then m else e) :: rest
      else e :: dedupInsert m rest
  end.

Definition dedupMoves (moves : list PlayerMove) : list PlayerMove :=
  foldl (fun entries m => dedupInsert m entries) [] moves.

(** [sort((a, b) => (b.score || 0) - (a.score || 0))]: the stable sort by
    falling score. [m] stood before every move of [sorted] in the array, so
    it goes before the first one that does not beat it. *)
Fixpoint insertByScore (m : PlayerMove) (sorted : list PlayerMove) : list PlayerMove :=
  match sorted with
  | [] => [m]
  | e :: rest =>
      if bool_decide (scoreOrZero e <= scoreOrZero m) then m :: e :: rest
      else e :: insertByScore m rest
  end.

Definition sortByScore (moves : list PlayerMove) : list PlayerMove :=
  foldr insertByScore [] moves.

(** [arr.slice(0, n)] for an integer [n]. *)
Definition sliceTo {A} (n : Z) (l : list A) : list A :=
  if bool_decide (0 <= n) then take (Z.to_nat n) l
  else take (Z.to_nat (Z.of_nat (length l) + n)) l.

Section BestMoves.
Context `{JSString} `{TrieDecoder}.

(** The scoring of one generated move against the original board. *)
Definition rescore (trie : option FrozenTrie) (board : Board) (rack : list jsstring)
  (m : PlayerMove) : JS PlayerMove :=
  let! res := calculateMoveScore trie board (mv_tiles m) rack (mv_row m) (mv_col m)
                (mv_direction m) in
  Ret {| mv_word := mv_word m; mv_tiles := mv_tiles m; mv_row := mv_row m;
         mv_col := mv_col m; mv_direction := mv_direction m;
         mv_score := Some (if isValid res then score res else -1);
         mv_isValid := Some (isValid res);
         mv_error := error res |}.

(** The filter after the scoring. *)
Definition keepScored (m : PlayerMove) : bool :=
  match mv_isValid m, mv_score m with
  | Some true, Some s => bool_decide (0 < s)
  | _, _ => false
  end.

(** [findBestMoves(board, rack, limit)], with the result of [getTrie()]. *)
Definition findBestMoves (trie : option FrozenTrie) (board : Board)
  (rack : list jsstring) (limit : Z) : JS (list PlayerMove) :=
  match trie with
  | None => Ret []
  | Some t =>
      let effectiveLimit := if bool_decide (limit = 0) then 5000 else limit in
      let! nonEmpty := someRowHasTile board indices in
      let isEmpty := negb nonEmpty in
      let trieRack :=
        (fun c => if streq c [c_qmark] then [c_qmark] else getTrieChar c) <$> rack in
      let! horizontal := findMovesInDirection t isEmpty trieRack board Horizontal in
      let! tBoard := transposeBoard board in
      let! vertical := findMovesInDirection t isEmpty trieRack tBoard Vertical in
      let moves := horizontal ++ vertical in
      let! scored := mapJS (rescore trie board rack) moves in
      let scoredMoves := filter (fun m => keepScored m = true) scored in
      let uniqueMoves := dedupMoves scoredMoves in
      Ret (sliceTo effectiveLimit (sortByScore uniqueMoves))
  end.

End BestMoves.

(** ** An implementation of the interfaces, for the examples *)

(** The string built-ins on the code units U+0000..U+00FF, on the engine's
    letters U+013F..U+0142 and on the images of these under the built-ins:
    U+0178 and U+039C, the capitals of U+00FF and U+00B5; U+03BC, the small
    letter of U+039C; and the combining marks of their decompositions
    (grave, acute, circumflex, tilde, diaeresis, ring and cedilla), which
    the built-ins leave as they are. Other code units are left as they
    are. *)
Definition upperUnit (c : jschar) : jsstring :=
  (if bool_decide (97 <= c <= 122) then [c - 32]
   else if bool_decide (c = 181) then [924]
   else if bool_decide (c = 223) then [83; 83]
   else if bool_decide (224 <= c <= 254) && negb (bool_decide (c = 247)) then [c - 32]
   else if bool_decide (c = 255) then [376]
   else if bool_decide (c = 320) || bool_decide (c = 322) then [c - 1]
   else if bool_decide (c = 956) then [924]
   else [c])%N.

Definition lowerUnit (c : jschar) : jsstring :=
  (if bool_decide (65 <= c <= 90) then [c + 32]
   else if bool_decide (192 <= c <= 222) && negb (bool_decide (c = 215)) then [c + 32]
   else if bool_decide (c = 319) || bool_decide (c = 321) then [c + 1]
   else if bool_decide (c = 376) then [255]
   else if bool_decide (c = 924) then [956]
   else [c])%N.

(** The white space and line terminators that [trim] removes. *)
Definition isWhiteSpace (c : jschar) : bool :=
  (bool_decide (9 <= c <= 13) || bool_decide (c = 32) || bool_decide (c = 160)
   || bool_decide (c = 5760) || bool_decide (8192 <= c <= 8202)
   || bool_decide (c = 8232) || bool_decide (c = 8233) || bool_decide (c = 8239)
   || bool_decide (c = 8287) || bool_decide (c = 12288) || bool_decide (c = 65279))%N.

Fixpoint trimStart (s : jsstring) : jsstring :=
  match s with
  | c :: rest => if isWhiteSpace c then trimStart rest else s
  | [] => []
  end.

(** The canonical decomposition of the letters of U+00C0..U+00FF and of
    U+0178: the base letter and its combining mark. *)
Definition marksAEIOU : list (N * list N) :=
  [ (0, [768; 769; 770; 771; 776; 778]);    (* A: grave acute circumflex tilde diaeresis ring *)
    (8, [768; 769; 770; 776]);              (* E *)
    (12, [768; 769; 770; 776]);             (* I *)
    (18, [768; 769; 770; 771; 776]);        (* O *)
    (25, [768; 769; 770; 776]) ]%N.         (* U *)

Definition baseLetter (k : N) : N :=
  (if bool_decide (k < 6) then 65 else if bool_decide (k = 7) then 67
   else if bool_decide (k < 12) then 69 else if bool_decide (k < 16) then 73
   else if bool_decide (k = 17) then 78 else if bool_decide (k < 23) then 79
   else if bool_decide (k < 29) then 85 else 89)%N.

Definition markOf (k : N) : option N :=
  (if bool_decide (k = 7) then Some 807        (* cedilla *)
   else if bool_decide (k = 17) then Some 771  (* tilde *)
   else if bool_decide (k = 29) then Some 769  (* acute, on Y *)
   else
     match find (fun e => bool_decide (e.1 <= k < e.1 + N.of_nat (length e.2))) marksAEIOU with
     | Some e => e.2 !! N.to_nat (k - e.1)
     | None => None
     end)%N.

Definition decomposeUnit (c : jschar) : jsstring :=
  (if bool_decide (192 <= c <= 221) then
     match markOf (c - 192) with
     | Some m => [baseLetter (c - 192); m]
     | None => [c]
     end
   else if bool_decide (224 <= c <= 253) then
     match markOf (c - 224) with
     | Some m => [baseLetter (c - 224) + 32; m]
     | None => [c]
     end
   else if bool_decide (c = 255) then [121; 776]
   else if bool_decide (c = 376) then [89; 776]
   else [c])%N.

#[export] Instance latin1Strings : JSString := {|
  toUpperCase s := s ≫= upperUnit;
  toLowerCase s := s ≫= lowerUnit;
  trim s := reverse (trimStart (reverse (trimStart s)));
  normalizeNFD s := s ≫= decomposeUnit
|}.

(** A decoder that reads the node table uncompressed, four code units for
    each node: letter, final flag, index of the first child, number of
    children (the succinct format packs the same table into bits). *)
Definition tableDecode (t : FrozenTrie) (i : Z) : FrozenTrieNode :=
  let field k := Z.of_N (default 0%N (nthZ (trieData t) (4 * i + k))) in
  {| index := i;
     letter := default 0%N (nthZ (trieData t) (4 * i));
     final := bool_decide (field 1 = 1);
     firstChild := field 2;
     childCount := field 3 |}.

#[export] Instance tableDecoder : TrieDecoder := {| getNodeByIndex := tableDecode |}.

(** A dictionary of five words: AS, CA, CAS, CASA and SA. *)
Definition exampleTrie : FrozenTrie :=
  {| trieData := [ 0; 0; 1; 3;      (* 0: root, children 1..3 *)
                   65; 0; 4; 1;     (* 1: A *)
                   67; 0; 5; 1;     (* 2: C *)
                   83; 0; 6; 1;     (* 3: S *)
                   83; 1; 7; 0;     (* 4: AS. *)
                   65; 1; 7; 1;     (* 5: CA. *)
                   65; 1; 8; 0;     (* 6: SA. *)
                   83; 1; 8; 1;     (* 7: CAS. *)
                   65; 1; 9; 0 ]%N; (* 8: CASA. *)
     directoryData := [];
     nodeCount := 9 |}.

(** The tile of a letter and a board with tiles laid on the start board. *)
Definition placeTile (board : Board) (r c : Z) (t : Tile) : Board :=
  alter (alter (fun cell => {| row := row cell; col := col cell;
                               multiplier := multiplier cell;
                               tile := Some t |}) (Z.to_nat c)) (Z.to_nat r) board.

(** ** [getTileIndices] ([scrabbleUtils.ts]) *)

Section TileIndices.
Context `{JSString}.

(** One turn of the loop of [getTileIndices] on the rest of the input: by
    how much [i] advances. *)
Definition indexStep (c : jschar) (rest : jsstring) : Z :=
  let char := [c] in
  let nextChar := take 1 rest in
  let threeChars := char ++ nextChar ++ take 1 (drop 1 rest) in
  let twoChars := char ++ nextChar in
  if includes [s_LmidL; s_LdotL; s_LhypL] (toUpperCase threeChars) then 3
  else if includes [s_QU; s_NY] (toUpperCase twoChars) then 2
  else if streq (toUpperCase char) [c_Q] then 1
  else 1.

(** The loop [while (i < input.length)] from [i] on, on the rest of the
    input: the pairs [{start, end}] it pushes. *)
Fixpoint indicesLoop (fuel : nat) (i : Z) (rest : jsstring) : list (Z * Z) :=
  match fuel, rest with
  | S fuel', c :: tl =>
      let k := indexStep c tl in
      (i, i + k) :: indicesLoop fuel' (i + k) (drop (Z.to_nat k) rest)
  | _, _ => []
  end.

(** [getTileIndices(input)] *)
Definition getTileIndices (input : jsstring) : list (Z * Z) :=
  indicesLoop (length input) 0 input.

End TileIndices.

(** ** [applyMoveToBoard] ([scrabbleUtils.ts]) *)

(** [board[r][c].tile = tile]: the assignment throws when the row or the
    cell is [undefined]. *)
Definition setTile (board : Board) (r c : Z) (t : Tile) : JS Board :=
  let! cell := cellAt board r c in Ret (placeTile board r c t).

(** The callback of [tiles.forEach] from index [i] on; the board is
    updated in place, so each turn sees the tiles of the turns before. *)
Fixpoint applyTilesFrom (tiles : list Tile) (row col dr dc i : Z) (board : Board)
  : JS Board :=
  match tiles with
  | [] => Ret board
  | t :: rest =>
      let r := row + i * dr in
      let c := col + i * dc in
      let! board' := if inBounds r c then setTile board r c t else Ret board in
      applyTilesFrom rest row col dr dc (i + 1) board'
  end.

(** [applyMoveToBoard(board, move)]: the board after the call. *)
Definition applyMoveToBoard (board : Board) (move : PlayerMove) : JS Board :=
  applyTilesFrom (mv_tiles move) (mv_row move) (mv_col move)
    (rowStep (mv_direction move)) (colStep (mv_direction move)) 0 board.

(** ** [calculateRemainingBag] ([scrabbleUtils.ts], [constants.ts]) *)

(** [TILE_COUNTS], in the order of its keys: A B C C-cedilla D E F G H I J L
    L.L M N O P R S T U QU V X NY Z and the joker. *)
Definition TILE_COUNTS : list (jsstring * Z) :=
  [ ([65%N], 12); ([66%N], 2); ([c_C], 3); ([c_Ccedil], 1); ([68%N], 3);
    ([69%N], 13); ([70%N], 1); ([71%N], 2); ([72%N], 1); ([73%N], 8);
    ([74%N], 1); ([c_L], 4); ([c_Lstroke], 1); ([77%N], 3); ([c_N], 6);
    ([79%N], 5); ([80%N], 2); ([82%N], 8); ([c_S], 8); ([84%N], 5);
    ([c_U], 4); ([c_Ucirc], 1); ([86%N], 1); ([88%N], 1); ([c_Yacute], 1);
    ([90%N], 1); ([c_qmark], 2) ].

(** [usedCounts[key] = (usedCounts[key] || 0) + 1] *)
Definition countUse (key : jsstring) (usedCounts : gmap jsstring Z)
  : gmap jsstring Z :=
  <[key := default 0 (usedCounts !! key) + 1]> usedCounts.

(** [Math.floor(Math.random() * (i + 1))] is a number from 0 to [i]; the
    outcome of the call in the turn [i] of the shuffle is [pick i], taken
    into that range. *)
Definition randomIndex (pick : nat -> nat) (i : nat) : nat := pick i mod S i.

(** The turns [i], [i - 1], .. 1 of the shuffle:
    [[bag[i], bag[j]] = [bag[j], bag[i]]]. *)
Fixpoint shuffleFrom (i : nat) (pick : nat -> nat) (bag : list jsstring)
  : list jsstring :=
  match i with
  | O => bag
  | S i' =>
      let j := randomIndex pick i in
      let swapped :=
        match bag !! i, bag !! j with
        | Some atI, Some atJ => <[j := atI]> (<[i := atJ]> bag)
        | _, _ => bag
        end in
      shuffleFrom i' pick swapped
  end.

Section RemainingBag.
Context `{JSString}.

(** The key of a tile of the board, and of an entry of the rack. *)
Definition boardTileKey (t : Tile) : jsstring :=
  if isBlank t then [c_qmark] else toUpperCase (char t).

Definition rackKey (c : jsstring) : jsstring :=
  if streq c [c_qmark] then [c_qmark] else toUpperCase c.

(** The two loops over the board, cell by cell. *)
Fixpoint countBoard (board : Board) (cells : list (Z * Z))
  (usedCounts : gmap jsstring Z) : JS (gmap jsstring Z) :=
  match cells with
  | [] => Ret usedCounts
  | rc :: rest =>
      let! t := tileAt board rc.1 rc.2 in
      countBoard board rest
        (match t with
         | Some t => countUse (boardTileKey t) usedCounts
         | None => usedCounts
         end)
  end.

Definition countRack (currentRack : list jsstring) (usedCounts : gmap jsstring Z)
  : gmap jsstring Z :=
  foldl (fun used c => countUse (rackKey c) used) usedCounts currentRack.

(** The bag before the shuffle: for each entry of [TILE_COUNTS] in turn,
    [Math.max(0, total - used)] copies of its letter. *)
Definition refillBag (usedCounts : gmap jsstring Z) : list jsstring :=
  concat ((fun e => replicate (Z.to_nat (Z.max 0 (e.2 - default 0 (usedCounts !! e.1))))
                      e.1) <$> TILE_COUNTS).

(** [calculateRemainingBag(board, currentRack)], with the outcomes [pick]
    of [Math.random]. *)
Definition calculateRemainingBag (pick : nat -> nat) (board : Board)
  (currentRack : list jsstring) : JS (list jsstring) :=
  let! onBoard := countBoard board allCells ∅ in
  let usedCounts := countRack currentRack onBoard in
  let bag := refillBag usedCounts in
  Ret (shuffleFrom (length bag - 1) pick bag).

End RemainingBag.

(** ** The state of the dictionary handle ([scrabbleUtils.ts]) *)

(** The module-level variables when the module is loaded. *)
Definition initialDictState : DictState :=
  {| trieInstance := None; currentDictionaryName := [];
     currentDictionaryData := None |}.

(** [isDictionaryLoaded()] *)
Definition isDictionaryLoaded (st : DictState) : bool :=
  bool_decide (is_Some (trieInstance st)).

(** "No carregat" *)
Definition s_NoCarregat : jsstring :=
  [78; 111; 32; 99; 97; 114; 114; 101; 103; 97; 116]%N.

(** [getDictionaryVersion()]: the name, " v" and the version of the
    payload, or "?" when the version is absent or empty. *)
Definition getDictionaryVersion (st : DictState) : jsstring :=
  match currentDictionaryData st with
  | None => s_NoCarregat
  | Some d =>
      currentDictionaryName st ++ [32; 118]%N
        ++ match d_version d with
           | Some (c :: version) => c :: version
           | _ => [c_qmark]
           end
  end.

(** ** The bit strings of the succinct trie ([BitString]) *)

(** [BASE64], the alphabet of the payload: six bits for each character. *)
Definition BASE64 : jsstring :=
  (N.of_nat <$> seq 65 26) ++ (N.of_nat <$> seq 97 26) ++ (N.of_nat <$> seq 48 10)
  ++ [45; 95]%N.

Definition W : Z := 6.

(** [s.indexOf(ch)] for a string [ch] of one code unit. *)
Fixpoint indexOfFrom (c : jschar) (s : jsstring) (i : Z) : Z :=
  match s with
  | [] => -1
  | x :: rest => if bool_decide (x = c) then i else indexOfFrom c rest (i + 1)
  end.

(** [ORD(ch) = BASE64.indexOf(ch)], on the result of [this.bytes[k]]: a
    read past the string gives [undefined], which [indexOf] looks up as the
    text "undefined" and does not find. *)
Definition ORD (ch : option jschar) : Z :=
  match ch with
  | Some c => indexOfFrom c BASE64 0
  | None => -1
  end.

Definition MaskTop : list Z := [63; 31; 15; 7; 3; 1; 0].

Definition BitsInByte : list Z :=
  [ 0; 1; 1; 2; 1; 2; 2; 3; 1; 2; 2; 3; 2; 3; 3; 4; 1; 2; 2; 3; 2; 3; 3; 4; 2;
    3; 3; 4; 3; 4; 4; 5; 1; 2; 2; 3; 2; 3; 3; 4; 2; 3; 3; 4; 3; 4; 4; 5; 2; 3;
    3; 4; 3; 4; 4; 5; 3; 4; 4; 5; 4; 5; 5; 6; 1; 2; 2; 3; 2; 3; 3; 4; 2; 3; 3;
    4; 3; 4; 4; 5; 2; 3; 3; 4; 3; 4; 4; 5; 3; 4; 4; 5; 4; 5; 5; 6; 2; 3; 3; 4;
    3; 4; 4; 5; 3; 4; 4; 5; 4; 5; 5; 6; 3; 4; 4; 5; 4; 5; 5; 6; 4; 5; 5; 6; 5;
    6; 6; 7; 1; 2; 2; 3; 2; 3; 3; 4; 2; 3; 3; 4; 3; 4; 4; 5; 2; 3; 3; 4; 3; 4;
    4; 5; 3; 4; 4; 5; 4; 5; 5; 6; 2; 3; 3; 4; 3; 4; 4; 5; 3; 4; 4; 5; 4; 5; 5;
    6; 3; 4; 4; 5; 4; 5; 5; 6; 4; 5; 5; 6; 5; 6; 6; 7; 2; 3; 3; 4; 3; 4; 4; 5;
    3; 4; 4; 5; 4; 5; 5; 6; 3; 4; 4; 5; 4; 5; 5; 6; 4; 5; 5; 6; 5; 6; 6; 7; 3;
    4; 4; 5; 4; 5; 5; 6; 4; 5; 5; 6; 5; 6; 6; 7; 4; 5; 5; 6; 5; 6; 6; 7; 5; 6;
    6; 7; 6; 7; 7; 8 ].

(** The bitwise operators of JavaScript on integers: the operands are
    wrapped to 32 bits ([ToInt32]), the shift count is taken modulo 32. *)
Definition toInt32 (z : Z) : Z := (z + 2 ^ 31) mod 2 ^ 32 - 2 ^ 31.

Definition js_and (a b : Z) : Z := Z.land (toInt32 a) (toInt32 b).

Definition js_or (a b : Z) : Z := Z.lor (toInt32 a) (toInt32 b).

Definition js_shl (a k : Z) : Z := toInt32 (Z.shiftl (toInt32 a) (k mod 32)).

Definition js_shr (a k : Z) : Z := Z.shiftr (toInt32 a) (k mod 32).

(** [ORD(this.bytes[Math.floor(p / W)])] *)
Definition byteAt (bytes : jsstring) (p : Z) : Z := ORD (nthZ bytes (p / W)).

(** [MaskTop[k]] as an operand of [&]: [undefined] is read as 0. *)
Definition maskTop (k : Z) : Z := default 0 (nthZ MaskTop k).

(** The loop [while (n >= W)] of [get]: the variables [result], [p] and [n]
    when it ends. *)
Fixpoint getLoop (fuel : nat) (bytes : jsstring) (result p n : Z) : Z * Z * Z :=
  match fuel with
  | O => (result, p, n)
  | S fuel' =>
      if bool_decide (W <= n) then
        getLoop fuel' bytes (js_or (js_shl result W) (byteAt bytes p)) (p + W) (n - W)
      else (result, p, n)
  end.

(** [BitString.get(p, n)], on the field [bytes]; [p % W] is the remainder
    that takes the sign of [p]. *)
Definition BitString_get (bytes : jsstring) (p n : Z) : Z :=
  if bool_decide (Z.rem p W + n <= W) then
    js_shr (js_and (byteAt bytes p) (maskTop (Z.rem p W))) (W - Z.rem p W - n)
  else
    let result := js_and (byteAt bytes p) (maskTop (Z.rem p W)) in
    let l := W - Z.rem p W in
    let '(result, p, n) := getLoop (Z.to_nat n) bytes result (p + l) (n - l) in
    if bool_decide (0 < n) then
      js_or (js_shl result n) (js_shr (byteAt bytes p) (W - n))
    else result.

(** [BitsInByte[v]] as a summand: [undefined] makes the sum [NaN], written
    [None]. *)
Definition bitsInByte (v : Z) : option Z := nthZ BitsInByte v.

Fixpoint countLoop (fuel : nat) (bytes : jsstring) (count : option Z) (p n : Z)
  : option Z * Z * Z :=
  match fuel with
  | O => (count, p, n)
  | S fuel' =>
      if bool_decide (8 <= n) then
        countLoop fuel' bytes
          (c ← count; b ← bitsInByte (BitString_get bytes p 8); Some (c + b)) (p + 8) (n - 8)
      else (count, p, n)
  end.

(** [BitString.count(p, n)] *)
Definition BitString_count (bytes : jsstring) (p n : Z) : option Z :=
  let '(count, p, n) := countLoop (Z.to_nat n) bytes (Some 0) p n in
  c ← count; b ← bitsInByte (BitString_get bytes p n); Some (c + b).

(** [BitString.rank(x)]: the turns [i = 0 .. x] that find a bit. *)
Definition BitString_rank (bytes : jsstring) (x : Z) : Z :=
  Z.of_nat (length (filter (fun i => BitString_get bytes i 1 <> 0) (seqZ 0 (x + 1)))).

(** ** The rank directory ([RankDirectory]) *)

(** The fields of a [RankDirectory]. [l1Size] and [l2Size] are the
    constants [L1] and [L2] in the one directory the engine builds; the
    quotients below are those of JavaScript for sizes other than zero. *)
Record RankDirectory := {
  rd_directory : jsstring;
  rd_data : jsstring;
  l1Size : Z;
  l2Size : Z;
  l1Bits : Z;
  l2Bits : Z;
  sectionBits : Z;
  numBits : Z
}.

Definition L1 : Z := 32 * 32.

Definition L2 : Z := 32.

(** [RankDirectory.rank(1, x)]: a sum that holds [NaN] is [None]. *)
Definition rankOnes (rd : RankDirectory) (x : Z) : option Z :=
  let rank := 0 in
  let o := x in
  let sectionPos := 0 in
  let '(rank, o, sectionPos) :=
    if bool_decide (l1Size rd <= o) then
      let sectionPos := o / l1Size rd * sectionBits rd in
      (BitString_get (rd_directory rd) (sectionPos - l1Bits rd) (l1Bits rd),
       Z.rem o (l1Size rd), sectionPos)
    else (rank, o, sectionPos) in
  let '(rank, sectionPos) :=
    if bool_decide (l2Size rd <= o) then
      let sectionPos := sectionPos + o / l2Size rd * l2Bits rd in
      (rank + BitString_get (rd_directory rd) (sectionPos - l2Bits rd) (l2Bits rd),
       sectionPos)
    else (rank, sectionPos) in
  c ← BitString_count (rd_data rd) (x - Z.rem x (l2Size rd)) (Z.rem x (l2Size rd) + 1);
  Some (rank + c).

(** [RankDirectory.rank(which, x)] *)
Definition RankDirectory_rank (rd : RankDirectory) (which x : Z) : option Z :=
  if bool_decide (which = 0) then r ← rankOnes rd x; Some (x - r + 1)
  else rankOnes rd x.

(** The loop of [select]: [high], [low] and [val] when it ends. A rank that
    is [NaN] is neither equal to [y] nor below it. *)
Fixpoint selectLoop (fuel : nat) (rd : RankDirectory) (which y high low val : Z) : Z :=
  match fuel with
  | O => val
  | S fuel' =>
      if bool_decide (1 < high - low) then
        let probe := (high + low) / 2 in
        match RankDirectory_rank rd which probe with
        | Some r =>
            if bool_decide (r = y) then selectLoop fuel' rd which y probe low probe
            else if bool_decide (r < y) then selectLoop fuel' rd which y high probe val
            else selectLoop fuel' rd which y probe low val
        | None => selectLoop fuel' rd which y probe low val
        end
      else val
  end.

(** [RankDirectory.select(which, y)]; every turn brings [high] and [low]
    closer, so [numBits + 1] turns are enough. *)
Definition RankDirectory_select (rd : RankDirectory) (which y : Z) : Z :=
  selectLoop (Z.to_nat (numBits rd + 1)) rd which y (numBits rd) (-1) (-1).

Section SuccinctTrie.
(** [Math.ceil(Math.log(x) / Math.log(2))], computed in floating point. *)
Variable ceilLog2 : Z -> Z.

(** [new RankDirectory(directoryData, bitData, numBits, l1Size, l2Size)];
    the quotient [l1Size / l2Size] is exact where [l2Size] divides [l1Size],
    as [L2] divides [L1] in the one call. *)
Definition newRankDirectory (directoryData bitData : jsstring)
  (numBits l1Size l2Size : Z) : RankDirectory :=
  let l1Bits := ceilLog2 numBits in
  let l2Bits := ceilLog2 l1Size in
  {| rd_directory := directoryData; rd_data := bitData;
     l1Size := l1Size; l2Size := l2Size;
     l1Bits := l1Bits; l2Bits := l2Bits;
     sectionBits := (l1Size / l2Size - 1) * l2Bits + l1Bits;
     numBits := numBits |}.

(** The fields that the constructor of [FrozenTrie] computes. *)
Definition trieDirectory (t : FrozenTrie) : RankDirectory :=
  newRankDirectory (directoryData t) (trieData t) (nodeCount t * 2 + 1) L1 L2.

Definition letterStart (t : FrozenTrie) : Z := nodeCount t * 2 + 1.

(** [String.fromCharCode(n)]: the code unit [n] modulo [2^16]. *)
Definition fromCharCode (n : Z) : jschar := Z.to_N (n mod 65536).

(** [FrozenTrie.getNodeByIndex(index)] *)
Definition FrozenTrie_getNodeByIndex (t : FrozenTrie) (index : Z) : FrozenTrieNode :=
  let final := bool_decide (BitString_get (trieData t) (letterStart t + index * 6) 1 = 1) in
  let chr := BitString_get (trieData t) (letterStart t + index * 6 + 1) 5 in
  let letter := fromCharCode (if bool_decide (chr < 6) then chr + 48 else chr + 59) in
  let firstChild := RankDirectory_select (trieDirectory t) 0 (index + 1) - index in
  let childOfNextNode := RankDirectory_select (trieDirectory t) 0 (index + 2) - index - 1 in
  {| index := index; letter := letter; final := final;
     firstChild := firstChild; childCount := childOfNextNode - firstChild |}.

(** The decoder of the succinct format. *)
Definition succinctDecoder : TrieDecoder :=
  {| getNodeByIndex := FrozenTrie_getNodeByIndex |}.

End SuccinctTrie.

(** ** The coordinates of the Eliot format *)

(** [ROW_LABELS], the letters A to O, and [COL_LABELS], the numbers 1 to
    15. *)
Definition ROW_LABELS : list jsstring := (fun n => [N.of_nat n]) <$> seq 65 15.

Definition COL_LABELS : list jsstring :=
  [ [49]; [50]; [51]; [52]; [53]; [54]; [55]; [56]; [57];
    [49; 48]; [49; 49]; [49; 50]; [49; 51]; [49; 52]; [49; 53] ]%N.

(** The text of [undefined] in a template literal. *)
Definition s_undefined : jsstring :=
  [117; 110; 100; 101; 102; 105; 110; 101; 100]%N.

(** [getEliotCoord(row, col, dir)] *)
Definition getEliotCoord (row col : Z) (dir : Direction) : jsstring :=
  let rChar := default s_undefined (nthZ ROW_LABELS row) in
  let cNum := default s_undefined (nthZ COL_LABELS col) in
  match dir with
  | Horizontal => rChar ++ cNum
  | Vertical => cNum ++ rChar
  end.

(** The classes [[A-O]] and [[0-9]] of the two patterns. *)
Definition isRowLetter (c : jschar) : bool := bool_decide (65 <= c <= 79)%N.

Definition isDigit (c : jschar) : bool := bool_decide (48 <= c <= 57)%N.

(** [/^([A-O])([0-9]+)$/]: the two groups of the match. *)
Definition matchHorizontal (s : jsstring) : option (jschar * jsstring) :=
  match s with
  | c :: digits =>
      if isRowLetter c && bool_decide (digits <> []) && forallb isDigit digits
      then Some (c, digits) else None
  | [] => None
  end.

(** [/^([0-9]+)([A-O])$/] *)
Definition matchVertical (s : jsstring) : option (jsstring * jschar) :=
  match reverse s with
  | c :: stigid =>
      if isRowLetter c && bool_decide (stigid <> []) && forallb isDigit stigid
      then Some (reverse stigid, c) else None
  | [] => None
  end.

(** [parseInt] of a run of decimal digits. A run too long for an exact
    number is far above every column either way. *)
Definition parseIntDigits (digits : jsstring) : Z :=
  foldl (fun acc c => 10 * acc + (Z.of_N c - 48)) 0 digits.

(** [ROW_LABELS.indexOf(rowChar)] *)
Fixpoint labelIndexFrom (label : jsstring) (labels : list jsstring) (i : Z) : Z :=
  match labels with
  | [] => -1
  | x :: rest => if streq x label then i else labelIndexFrom label rest (i + 1)
  end.

(** The test [row !== -1 && col >= 0 && col < 15] and the object built. *)
Definition coordIfOnBoard (rowChar : jschar) (digits : jsstring) (dir : Direction)
  : option (Z * Z * Direction) :=
  let colNum := parseIntDigits digits in
  let row := labelIndexFrom [rowChar] ROW_LABELS 0 in
  let col := colNum - 1 in
  if negb (bool_decide (row = -1)) && bool_decide (0 <= col) && bool_decide (col < 15)
  then Some (row, col, dir) else None.

(** [parseEliotCoord] from [cleanStr] on: the horizontal pattern, then the
    vertical one, then [null]. *)
Definition coordOfClean (cleanStr : jsstring) : option (Z * Z * Direction) :=
  let horizontal :=
    match matchHorizontal cleanStr with
    | Some (rowChar, digits) => coordIfOnBoard rowChar digits Horizontal
    | None => None
    end in
  match horizontal with
  | Some coord => Some coord
  | None =>
      match matchVertical cleanStr with
      | Some (digits, rowChar) => coordIfOnBoard rowChar digits Vertical
      | None => None
      end
  end.

(** [parseEliotCoord(coordStr)]; [None] is [null]. *)
Definition parseEliotCoord `{JSString} (coordStr : jsstring)
  : option (Z * Z * Direction) :=
  if bool_decide (coordStr = []) then None
  else coordOfClean (toUpperCase (trim coordStr)).

(** * Specification-side definitions *)

(** The definitions that the statements of the properties use: the reading
    of a well-formed board, the placements of a candidate and the scores of
    the rules, the parser by code units, and the fixtures of the examples. *)

(** ** Kinds of rejection *)

(** The rejections that the loop over the tiles returns. *)
Definition isPerTileError (e : MoveError) : bool :=
  match e with
  | OutOfBounds | CellConflict _ _ _ _ | MissingBlank _ | MissingRackLetter _ => true
  | _ => false
  end.


Definition isInvalidWordRejection (r : JS ScoreResult) : bool :=
  match r with
  | Ret {| error := Some (InvalidWord _) |} => true
  | _ => false
  end.

(** ** Fixtures: a loaded dictionary and a board with a word on it *)

(** The name of a dictionary other than the one that is loaded. *)
Definition s_LEXIMOTS : jsstring := [76; 69; 88; 73; 77; 79; 84; 83]%N.

(** The handle with the example dictionary loaded under the name DISC. *)
Definition discLoaded : DictState :=
  {| trieInstance := Some exampleTrie;
     currentDictionaryName := s_DISC;
     currentDictionaryData := None |}.

Definition s_CASA : jsstring := [c_C; c_A; c_S; c_A].

(** The tiles laid on a row of the board from column [c] on. *)
Fixpoint placeTiles (board : Board) (r c : Z) (tiles : list Tile) : Board :=
  match tiles with
  | [] => board
  | t :: rest => placeTiles (placeTile board r c t) r (c + 1) rest
  end.

(** The start board with the word CASA on the middle row, from H6 on. *)
Definition boardWithCASA : Board :=
  placeTiles createInitialBoard 7 5 (parseInputWord s_CASA).

(** ** The word normaliser, as the specification words it *)

(** A Q that is not followed at once by a U. *)
Definition qWithoutU (s : jsstring) : Prop :=
  exists i, s !! i = Some c_Q /\ s !! S i <> Some c_U.

(** Whether a string has such a Q, by a search over its positions. *)
#[export] Instance qWithoutU_dec (s : jsstring) : Decision (qWithoutU s).
Proof.
  refine (cast_if (decide (Exists (fun i => s !! i = Some c_Q /\ s !! S i <> Some c_U)
                             (seq 0 (length s))))).
  - apply Exists_exists in e as (i & _ & Hi). by exists i.
  - intros (i & Hq & Hn). apply n, Exists_exists. exists i. split; [|done].
    apply elem_of_seq. apply lookup_lt_Some in Hq. lia.
Defined.

(** Each of the spellings L·L, L.L, L-L and ĿL, from left to right,
    replaced with 2. *)
Fixpoint geminateAs2 (s : jsstring) : jsstring :=
  match s with
  | [] => []
  | a :: t1 =>
      match t1 with
      | [] => [a]
      | b :: t2 =>
          if decide (a = c_Lmiddot /\ b = c_L) then c_2 :: geminateAs2 t2
          else
            match t2 with
            | [] => a :: geminateAs2 t1
            | c :: t3 =>
                if decide (a = c_L /\ (b = c_middot \/ b = c_dot \/ b = c_hyphen)
                           /\ c = c_L)
                then c_2 :: geminateAs2 t3
                else a :: geminateAs2 t1
            end
      end
  end.

(** Each digraph [x y], from left to right, replaced with [z]. *)
Fixpoint digraphAs (x y z : jschar) (s : jsstring) : jsstring :=
  match s with
  | [] => []
  | a :: t1 =>
      match t1 with
      | [] => [a]
      | b :: t2 =>
          if decide (a = x /\ b = y) then z :: digraphAs x y z t2
          else a :: digraphAs x y z t1
      end
  end.

(** The canonical form of a prepared string: the spellings of the geminate
    L replaced with 2, then QU with Q, then NY with 3, and the remaining
    flying dots and full stops deleted. *)
Definition canonicalForm (s : jsstring) : jsstring :=
  filter (fun c => c <> c_middot /\ c <> c_dot)
    (digraphAs c_N c_Y c_3 (digraphAs c_Q c_U c_Q (geminateAs2 s))).

Section NormaliserSpec.
Context `{JSString} `{TrieDecoder}.

(** The prepared form of a word: upper case, C-cedilla as 1, and the
    decomposed form without the combining diacritics U+0300..U+036F. *)
Definition preparedForm (word : jsstring) : jsstring :=
  filter (fun c => ~ (768 <= c <= 879)%N)
    (normalizeNFD ((fun c => if decide (c = c_Ccedil) then c_1 else c)
                   <$> toUpperCase word)).

(** The function as the claim words it: the input is not trimmed. *)
Definition claimedValidateWord (t : FrozenTrie) (word : jsstring) : JS bool :=
  if decide (qWithoutU (preparedForm word)) then Ret false
  else lookup t (canonicalForm (preparedForm word)).

End NormaliserSpec.

(** ** Boards of the right shape, read without exceptions *)

(** A 15 x 15 board. *)
Definition wfBoard (board : Board) : Prop :=
  length board = 15%nat /\ Forall (fun cells => length cells = 15%nat) board.

(** The cell and the tile at [(r, c)], without the exceptions: nothing off
    the board. *)
Definition cellOf (board : Board) (r c : Z) : option BoardCell :=
  if inBounds r c then nthZ board r ≫= (fun cells => nthZ cells c) else None.

Definition tileOf (board : Board) (r c : Z) : option Tile :=
  cellOf board r c ≫= tile.

(** A call that returns. *)
Definition returns {A} (m : JS A) : Prop := exists a, m = Ret a.

(** The board-empty test without the exceptions. *)
Definition rowOccupied (board : Board) (r : Z) (cs : list Z) : bool :=
  existsb (fun c => bool_decide (is_Some (tileOf board r c))) cs.

Definition boardOccupied (board : Board) : bool :=
  existsb (fun r => rowOccupied board r indices) indices.

(** The nodes that a walk from the root reaches: the root, and the children
    that the loops [for (j = 0; j < node.getChildCount(); j++)] visit. *)
Inductive reachedNode `{TrieDecoder} (t : FrozenTrie) : FrozenTrieNode -> Prop :=
| reached_root : reachedNode t (getRoot t)
| reached_child node child :
    reachedNode t node -> child ∈ children t node -> reachedNode t child.

(** A trie whose nodes, as far as a walk from the root reaches them, have a
    child count that is not negative: its [lookup] never throws. Nothing is
    asked of the indices that no walk reaches (the decoder of the succinct
    format gives negative counts before the root and past the last
    node). *)
Definition soundTrie `{TrieDecoder} (trie : option FrozenTrie) : Prop :=
  forall t, trie = Some t ->
  forall node, reachedNode t node -> 0 <= childCount node.

(** The tiles of a run and their face values, without the exceptions. *)
Fixpoint runTiles (fuel : nat) (board : Board) (r c dr dc : Z) : list Tile :=
  match fuel with
  | O => []
  | S fuel' =>
      match tileOf board r c with
      | Some t => t :: runTiles fuel' board (r + dr) (c + dc) dr dc
      | None => []
      end
  end.

Definition sumValues (tiles : list Tile) : Z :=
  foldr (fun t acc => value t + acc) 0 tiles.

Definition anyNeighbourOccupied (board : Board) (ns : list (Z * Z)) : bool :=
  existsb (fun n => bool_decide (is_Some (tileOf board n.1 n.2))) ns.

(** ** The score of a move, as the specification words it *)

(** A tile of the candidate with the cell it covers. *)
Record Placed := {
  at_row : Z;
  at_col : Z;
  placed : Tile
}.

(** The cells of the tiles from index [i] on. *)
Fixpoint placementsFrom (tiles : list Tile) (startRow startCol : Z)
  (d : Direction) (i : Z) : list Placed :=
  match tiles with
  | [] => []
  | t :: rest =>
      {| at_row := startRow + i * rowStep d;
         at_col := startCol + i * colStep d;
         placed := t |} :: placementsFrom rest startRow startCol d (i + 1)
  end.

Definition placements (tiles : list Tile) (startRow startCol : Z) (d : Direction)
  : list Placed :=
  placementsFrom tiles startRow startCol d 0.

Definition sumZ (l : list Z) : Z := foldr Z.add 0 l.

Definition prodZ (l : list Z) : Z := foldr Z.mul 1 l.

Definition letterMultAt (board : Board) (r c : Z) : Z :=
  match cellOf board r c with
  | Some cell => getMultiplierVal (multiplier cell) false
  | None => 1
  end.

Definition wordMultAt (board : Board) (r c : Z) : Z :=
  match cellOf board r c with
  | Some cell => getMultiplierVal (multiplier cell) true
  | None => 1
  end.

(** A newly placed tile: its cell holds no tile yet. *)
Definition isNew (board : Board) (p : Placed) : bool :=
  bool_decide (tileOf board (at_row p) (at_col p) = None).

(** A tile of the board right next to the cell, across the play
    direction. *)
Definition hasCrossNeighbour (board : Board) (d : Direction) (p : Placed) : bool :=
  bool_decide (is_Some (tileOf board (at_row p - colStep d) (at_col p - rowStep d)))
  || bool_decide (is_Some (tileOf board (at_row p + colStep d) (at_col p + rowStep d))).

(** The newly placed tiles that form a cross word. *)
Definition formsCrossWord (board : Board) (d : Direction) (p : Placed) : bool :=
  isNew board p && hasCrossNeighbour board d p.

(** The score of the cross word through a newly placed tile: the tile's
    face value times the letter multiplier of its cell, plus the face values
    of the board's tiles before and after it, the sum times the word
    multiplier of its cell. *)
Definition crossWordScore (board : Board) (d : Direction) (p : Placed) : Z :=
  let r := at_row p in
  let c := at_col p in
  (value (placed p) * letterMultAt board r c
   + sumValues (runTiles runFuel board (r - colStep d) (c - rowStep d)
                  (- colStep d) (- rowStep d))
   + sumValues (runTiles runFuel board (r + colStep d) (c + rowStep d)
                  (colStep d) (rowStep d)))
  * wordMultAt board r c.

Definition crossWordsTotal (board : Board) (d : Direction) (ps : list Placed) : Z :=
  sumZ (crossWordScore board d <$> filter (fun p => formsCrossWord board d p = true) ps).

(** The main word: a new tile counts its face value times the letter
    multiplier of its cell and brings the word multiplier of its cell; a
    tile of the board counts its face value. *)
Definition mainLetter (board : Board) (p : Placed) : Z :=
  match tileOf board (at_row p) (at_col p) with
  | Some onBoard => value onBoard
  | None => value (placed p) * letterMultAt board (at_row p) (at_col p)
  end.

Definition mainFactor (board : Board) (p : Placed) : Z :=
  if isNew board p then wordMultAt board (at_row p) (at_col p) else 1.

Definition mainWordTotal (board : Board) (ps : list Placed) : Z :=
  sumZ (mainLetter board <$> ps) * prodZ (mainFactor board <$> ps).

Definition tilesLaid (board : Board) (ps : list Placed) : Z :=
  Z.of_nat (length (filter (fun p => isNew board p = true) ps)).

Definition bingoBonus (board : Board) (ps : list Placed) : Z :=
  if bool_decide (tilesLaid board ps = 7) then 50 else 0.

Definition atCentre (p : Placed) : bool :=
  bool_decide (at_row p = 7) && bool_decide (at_col p = 7).

(** The tile lies on a tile of the board or next to one. *)
Definition touchesBoard (board : Board) (p : Placed) : bool :=
  bool_decide (is_Some (tileOf board (at_row p) (at_col p)))
  || anyNeighbourOccupied board (neighbours (at_row p) (at_col p)).

Section ScoreSpecDefs.
Context `{JSString} `{TrieDecoder}.
Variable trie : option FrozenTrie.

(** The cross word of a placed tile was rebuilt and found in the
    dictionary. *)
Definition crossWordChecked (board : Board) (nt : gmap (Z * Z) Tile)
  (d : Direction) (p : Placed) : Prop :=
  exists w, getFullWordString board nt (at_row p) (at_col p) (colStep d) (rowStep d)
            = Ret w
         /\ validateWord trie w = Ret true.

(** The tile fits its cell: the cell is empty and the rack supplies the
    letter or a joker, or the cell holds the same letter. *)
Definition fitsCell (board : Board) (p : Placed) (rack rack' : list jsstring) : Prop :=
  match tileOf board (at_row p) (at_col p) with
  | Some onBoard =>
      toUpperCase (char onBoard) = toUpperCase (char (placed p)) /\ rack' = rack
  | None => takeFromRack (toUpperCase (char (placed p))) rack = Some rack'
  end.

(** What one turn of the loop does to the state, when it goes on. *)
Record TurnSpec (board : Board) (nt : gmap (Z * Z) Tile) (d : Direction)
  (p : Placed) (st st' : ScoreState) : Prop := {
  turn_inBounds : inBounds (at_row p) (at_col p) = true;
  turn_fits : fitsCell board p (rackAvailable st) (rackAvailable st');
  turn_total :
    totalScore st' = totalScore st
      + (if formsCrossWord board d p then crossWordScore board d p else 0);
  turn_main : mainWordScore st' = mainWordScore st + mainLetter board p;
  turn_factor : mainWordMultiplier st' = mainWordMultiplier st * mainFactor board p;
  turn_used :
    tilesUsedFromRack st' = tilesUsedFromRack st + (if isNew board p then 1 else 0);
  turn_centre : touchesCenter st' = touchesCenter st || atCentre p;
  turn_touch : touchesExisting st' = touchesExisting st || touchesBoard board p;
  turn_valid :
    allWordsValid st' = true ->
    allWordsValid st = true
    /\ (formsCrossWord board d p = true -> crossWordChecked board nt d p)
}.

(** What the loop over the tiles does to the state, when it runs to its
    end. *)
Record LoopSpec (board : Board) (nt : gmap (Z * Z) Tile) (d : Direction)
  (ps : list Placed) (st st' : ScoreState) : Prop := {
  loop_inBounds : Forall (fun p => inBounds (at_row p) (at_col p) = true) ps;
  loop_total : totalScore st' = totalScore st + crossWordsTotal board d ps;
  loop_main : mainWordScore st' = mainWordScore st + sumZ (mainLetter board <$> ps);
  loop_factor :
    mainWordMultiplier st' = mainWordMultiplier st * prodZ (mainFactor board <$> ps);
  loop_used : tilesUsedFromRack st' = tilesUsedFromRack st + tilesLaid board ps;
  loop_centre : touchesCenter st' = touchesCenter st || existsb atCentre ps;
  loop_touch :
    touchesExisting st' = touchesExisting st || existsb (touchesBoard board) ps;
  loop_valid :
    allWordsValid st' = true ->
    allWordsValid st = true
    /\ Forall (fun p => formsCrossWord board d p = true ->
                        crossWordChecked board nt d p) ps
}.

End ScoreSpecDefs.

(** ** The score of a move with the blanks at zero *)

(** What a tile counts when a blank counts nothing, whatever its face
    value: 0 for a blank, the face value for another tile. *)
Definition pointsOf (t : Tile) : Z := if isBlank t then 0 else value t.

(** The cross word through a newly placed tile, the letters of the main
    word and the score of the move, counted with [pointsOf]. *)
Definition crossWordPoints (board : Board) (d : Direction) (p : Placed) : Z :=
  let r := at_row p in
  let c := at_col p in
  (pointsOf (placed p) * letterMultAt board r c
   + sumZ (pointsOf <$> runTiles runFuel board (r - colStep d) (c - rowStep d)
                          (- colStep d) (- rowStep d))
   + sumZ (pointsOf <$> runTiles runFuel board (r + colStep d) (c + rowStep d)
                          (colStep d) (rowStep d)))
  * wordMultAt board r c.

Definition mainLetterPoints (board : Board) (p : Placed) : Z :=
  match tileOf board (at_row p) (at_col p) with
  | Some onBoard => pointsOf onBoard
  | None => pointsOf (placed p) * letterMultAt board (at_row p) (at_col p)
  end.

Definition scoreWithBlanksAtZero (board : Board) (d : Direction) (ps : list Placed)
  : Z :=
  sumZ (crossWordPoints board d
        <$> filter (fun p => formsCrossWord board d p = true) ps)
  + sumZ (mainLetterPoints board <$> ps) * prodZ (mainFactor board <$> ps)
  + bingoBonus board ps.

(** The tiles that the tile model makes, and the boards that hold only
    such tiles. *)
Definition modelTile `{JSString} (t : Tile) : Prop := exists char, t = createTile char.

Definition modelBoard `{JSString} (board : Board) : Prop :=
  forall r c t, tileOf board r c = Some t -> modelTile t.

(** ** Candidates that fit the board and the rack *)

(** The cell lies past the last row or the last column. *)
Definition offBoard (p : Placed) : bool :=
  bool_decide (BOARD_SIZE <= at_row p) || bool_decide (BOARD_SIZE <= at_col p).

Section RejectionDefs.
Context `{JSString}.

(** The rack after the tiles [ps], when each of them fits: its cell is on
    the board and either holds the same letter or is empty and the rack
    supplies the letter or a joker. *)
Fixpoint rackAfter (board : Board) (ps : list Placed) (rack : list jsstring)
  : option (list jsstring) :=
  match ps with
  | [] => Some rack
  | p :: rest =>
      if inBounds (at_row p) (at_col p) then
        match tileOf board (at_row p) (at_col p) with
        | Some onBoard =>
            if streq (toUpperCase (char onBoard)) (toUpperCase (char (placed p)))
            then rackAfter board rest rack
            else None
        | None =>
            takeFromRack (toUpperCase (char (placed p))) rack
              ≫= rackAfter board rest
        end
      else None
  end.

Definition candidateFits (board : Board) (ps : list Placed) (rack : list jsstring)
  : Prop :=
  is_Some (rackAfter board ps rack).


End RejectionDefs.


(** The rack and the words of the examples. *)
Definition rackCASA : list jsstring := [[c_C]; [c_A]; [c_S]; [c_A]].

Definition s_CA : jsstring := [c_C; c_A].

Definition s_AS : jsstring := [c_A; c_S].

(** ** Moves that the validator accepts *)

Section FinderSpec.
Context `{JSString} `{TrieDecoder}.

(** The validator, called on the original board and rack with the tiles,
    row, column and direction of [m], accepts the move with a positive
    score, which is the score [m] carries. *)
Definition validatedMove (trie : option FrozenTrie) (board : Board)
  (rack : list jsstring) (m : PlayerMove) : Prop :=
  exists res,
    calculateMoveScore trie board (mv_tiles m) rack (mv_row m) (mv_col m)
      (mv_direction m) = Ret res
    /\ isValid res = true /\ 0 < score res
    /\ mv_score m = Some (score res) /\ mv_isValid m = Some true.

End FinderSpec.

(** ** The tile parser, by code units *)

(** What [parseInputWord] uses of the case mappings of the runtime: which
    strings of up to three code units have the spellings of the graphemes as
    their upper case, and the lower case of the letters it compares. *)
Class CaseLaws `{JSString} : Prop := {
  upper_Q : forall c, toUpperCase [c] = [c_Q] <-> c = c_Q \/ c = c_q;
  upper_QU : forall s, (length s <= 2)%nat ->
    (toUpperCase s = s_QU <->
     exists a b, s = [a; b] /\ (a = c_Q \/ a = c_q) /\ (b = c_U \/ b = c_u));
  upper_NY : forall s, (length s <= 2)%nat ->
    (toUpperCase s = s_NY <->
     exists a b, s = [a; b] /\ (a = c_N \/ a = c_n) /\ (b = c_Y \/ b = c_y));
  upper_LL : forall s sep, (length s <= 3)%nat ->
    sep = c_middot \/ sep = c_dot \/ sep = c_hyphen ->
    (toUpperCase s = [c_L; sep; c_L] <->
     exists a b, s = [a; sep; b] /\ (a = c_L \/ a = c_l) /\ (b = c_L \/ b = c_l));
  lower_L : toLowerCase [c_L] = [c_l];
  lower_l : toLowerCase [c_l] = [c_l];
  lower_Q : toLowerCase [c_Q] = [c_q];
  lower_q : toLowerCase [c_q] = [c_q];
  lower_N : toLowerCase [c_N] = [c_n];
  lower_n : toLowerCase [c_n] = [c_n];
  lower_Ucirc : toLowerCase [c_Ucirc] = [c_ucirc];
  lower_Yacute : toLowerCase [c_Yacute] = [c_yacute]
}.

Definition isL (c : jschar) : bool := bool_decide (c = c_L) || bool_decide (c = c_l).

Definition isQ (c : jschar) : bool := bool_decide (c = c_Q) || bool_decide (c = c_q).

Definition isU (c : jschar) : bool := bool_decide (c = c_U) || bool_decide (c = c_u).

Definition isN (c : jschar) : bool := bool_decide (c = c_N) || bool_decide (c = c_n).

Definition isY (c : jschar) : bool := bool_decide (c = c_Y) || bool_decide (c = c_y).

Definition isSep (c : jschar) : bool :=
  bool_decide (c = c_middot) || bool_decide (c = c_dot) || bool_decide (c = c_hyphen).

(** One turn of the parser by code units: the internal code unit of the
    tile and the number of code units read. *)
Definition plainUnit (c : jschar) : jschar * nat :=
  if isQ c then (if bool_decide (c = c_q) then c_ucirc else c_Ucirc, 1%nat)
  else (c, 1%nat).

Definition digraphUnit (c : jschar) (rest : jsstring) : jschar * nat :=
  match rest with
  | x :: _ =>
      if isQ c && isU x then
        (if bool_decide (c = c_q) then c_ucirc else c_Ucirc, 2%nat)
      else if isN c && isY x then
        (if bool_decide (c = c_n) then c_yacute else c_Yacute, 2%nat)
      else plainUnit c
  | [] => plainUnit c
  end.

Definition parseUnit (c : jschar) (rest : jsstring) : jschar * nat :=
  match rest with
  | x :: y :: _ =>
      if isL c && isSep x && isL y then
        (if bool_decide (c = c_l) then c_lstroke else c_Lstroke, 3%nat)
      else digraphUnit c rest
  | _ => digraphUnit c rest
  end.

(** The internal word of the parse, by code units. *)
Fixpoint unitsLoop (fuel : nat) (rest : jsstring) : jsstring :=
  match fuel, rest with
  | S fuel', c :: tl =>
      let '(u, k) := parseUnit c tl in u :: unitsLoop fuel' (drop k rest)
  | _, _ => []
  end.

Definition units (w : jsstring) : jsstring := unitsLoop (length w) w.

(** The display form of an internal code unit. *)
Definition displayUnit (u : jschar) : jsstring :=
  default [u] (REVERSE_DIGRAPH_MAP [u]).

(** A word of the host orthography: letters A..Z and C-cedilla in either
    case, and the dots and the hyphen of the spellings of L.L. *)
Definition hostUnit (c : jschar) : bool :=
  (bool_decide (65 <= c <= 90) || bool_decide (97 <= c <= 122)
   || bool_decide (c = c_Ccedil) || bool_decide (c = c_ccedil) || isSep c)%N.

Definition hostWord (w : jsstring) : bool := forallb hostUnit w.

(** The five ways a turn of the parser goes. *)
Inductive StepKind (c : jschar) (rest : jsstring) : jschar -> nat -> Prop :=
| step_ligature x y r :
    rest = x :: y :: r -> isL c = true -> isSep x = true -> isL y = true ->
    StepKind c rest (if bool_decide (c = c_l) then c_lstroke else c_Lstroke) 3
| step_QU x r :
    rest = x :: r -> isQ c = true -> isU x = true ->
    StepKind c rest (if bool_decide (c = c_q) then c_ucirc else c_Ucirc) 2
| step_NY x r :
    rest = x :: r -> isN c = true -> isY x = true ->
    StepKind c rest (if bool_decide (c = c_n) then c_yacute else c_Yacute) 2
| step_Q :
    isQ c = true ->
    StepKind c rest (if bool_decide (c = c_q) then c_ucirc else c_Ucirc) 1
| step_plain :
    isQ c = false ->
    (forall x y r, rest = x :: y :: r ->
                   isL c && isSep x && isL y = false) ->
    (forall x r, rest = x :: r -> isN c && isY x = false) ->
    StepKind c rest c 1.

(** The display form of an internal word, unit by unit. *)
Definition displayWord (us : jsstring) : jsstring := concat (displayUnit <$> us).

(** QUL.LNYA, with a middle dot. *)
Definition s_QULLNYA : jsstring :=
  [c_Q; c_U; c_L; c_middot; c_L; c_N; c_Y; c_A].

(** ** The ranking of the finder *)

(** The scores fall along the list. *)
Fixpoint fallingScores (l : list PlayerMove) : Prop :=
  match l with
  | [] => True
  | m :: rest => Forall (fun e => scoreOrZero e <= scoreOrZero m) rest /\ fallingScores rest
  end.

(** ** The ranges of the tiles in the input *)

(** Ranges that follow one another from [s] on, each one to three code
    units wide. *)
Fixpoint chained (s : Z) (ranges : list (Z * Z)) : Prop :=
  match ranges with
  | [] => True
  | (a, b) :: rest => a = s /\ 1 <= b - a <= 3 /\ chained b rest
  end.

(** Where the last range ends, or [s] when there is none. *)
Fixpoint lastEnd (s : Z) (ranges : list (Z * Z)) : Z :=
  match ranges with
  | [] => s
  | (_, b) :: rest => lastEnd b rest
  end.

(** The move CASA on the middle row from H6 on, as the finder builds it. *)
Definition moveCASA : PlayerMove :=
  {| mv_word := s_CASA; mv_tiles := parseInputWord s_CASA;
     mv_row := 7; mv_col := 5; mv_direction := Horizontal;
     mv_score := None; mv_isValid := None; mv_error := None |}.

(** ** The tiles in use and the bag *)

(** How often [key] stands in a list of letters. *)
Definition occurrences (key : jsstring) (l : list jsstring) : Z :=
  Z.of_nat (length (filter (fun k => k = key) l)).

(** The number of tiles of the letter [key] in the set of the game. *)
Definition tilesInSet (key : jsstring) : Z :=
  default 0 (snd <$> find (fun e => bool_decide (e.1 = key)) TILE_COUNTS).

(** The tiles on the cells of the board. *)
Definition boardTiles (board : Board) : list Tile :=
  omap (fun rc : Z * Z => tileOf board rc.1 rc.2) allCells.

(** The letters in use: the tiles of the board, a blank as the joker, and
    the rack. *)
Definition lettersInUse `{JSString} (board : Board) (rack : list jsstring)
  : list jsstring :=
  (boardTileKey <$> boardTiles board) ++ (rackKey <$> rack).

(** ** The states of the dictionary handle *)

(** The states the handle goes through: from the start, any number of
    calls of [loadDictionary], whatever the network does. *)
Inductive reachableDictState (fallbackDisc : option DictionaryData)
  : DictState -> Prop :=
| reach_initial : reachableDictState fallbackDisc initialDictState
| reach_load st name fetched :
    reachableDictState fallbackDisc st ->
    reachableDictState fallbackDisc (loadDictionary fallbackDisc name fetched st).1.

(** A payload with a trie that is not empty and a directory. *)
Definition usablePayload (d : DictionaryData) : Prop :=
  (exists c tr, d_trie d = Some (c :: tr)) /\ is_Some (d_directory d).

(** The network gave no payload. *)
Definition noPayload (fetched : FetchOutcome) : Prop :=
  match fetched with Fetched (Some _) => False | _ => True end.

(** ** The candidates of the finder *)

(** A move that [addMove] pushes for some row, end column and word of the
    board [current], in the direction [direction]. *)
Definition addedBy `{JSString} (current : Board) (direction : Direction)
  (m : PlayerMove) : Prop :=
  exists row endCol word, addMove current row endCol word direction = Ret [m].

(** The move lays a tile on an empty cell of the board. *)
Definition laysNewTile (board : Board) (m : PlayerMove) : Prop :=
  0 < tilesLaid board
        (placements (mv_tiles m) (mv_row m) (mv_col m) (mv_direction m)).

(** ** Boards and dictionaries the finder runs on *)

(** Every tile of the board has an internal string of one code unit, as
    the tiles of [createTile] laid by the engine have. *)
Definition unitTiles (board : Board) : Prop :=
  forall r c t, tileOf board r c = Some t -> length (char t) = 1%nat.

(** The internal string of a blank for each letter of the dictionary is one
    code unit: lower-casing the letter's internal code keeps its length. *)
Definition blankLettersFit `{JSString} `{TrieDecoder} (t : FrozenTrie) : Prop :=
  forall i, length (getInternalChar [letter (getNodeByIndex t i)] true) = 1%nat.

(** ** The anchors of the finder *)

(** A tile lies right above, below, left or right of the cell. *)
Definition besideTile (board : Board) (r c : Z) : Prop :=
  is_Some (tileOf board (r - 1) c) \/ is_Some (tileOf board (r + 1) c)
  \/ is_Some (tileOf board r (c - 1)) \/ is_Some (tileOf board r (c + 1)).

(** ** The bits of a payload *)

(** The six bits of a character, the highest first. *)
Definition bits6 (o : Z) : list bool :=
  (fun j => Z.testbit o (5 - Z.of_nat j)) <$> seq 0 6.

(** The bits of a payload in reading order. *)
Definition bitsOf (bytes : jsstring) : list bool :=
  bytes ≫= (fun c => bits6 (ORD (Some c))).

(** The number that a run of bits spells, the first bit the highest. *)
Definition valueOf (bits : list bool) : Z :=
  foldl (fun acc (b : bool) => 2 * acc + (if b then 1 else 0)) 0 bits.

(** The bits [p .. p + n - 1]. *)
Definition bitsFrom (bytes : jsstring) (p n : Z) : list bool :=
  take (Z.to_nat n) (drop (Z.to_nat p) (bitsOf bytes)).

Definition onesIn (bits : list bool) : Z :=
  Z.of_nat (length (filter (fun b => b = true) bits)).

(** A payload written in the alphabet. *)
Definition base64Text (bytes : jsstring) : Prop :=
  Forall (fun c => c ∈ BASE64) bytes.

(** ** Ranks that grow *)

(** On the positions of the directory the rank is the number [g x], and [g]
    never falls. *)
Definition growingRank (rd : RankDirectory) (which : Z) (g : Z -> Z) : Prop :=
  (forall x, 0 <= x < numBits rd -> RankDirectory_rank rd which x = Some (g x))
  /\ (forall x x', 0 <= x <= x' -> x' < numBits rd -> g x <= g x').

(** The letters of the dictionary: the digits 0 to 5 and A to Z. *)
Definition isTrieLetter (c : jschar) : Prop :=
  (48 <= c <= 53)%N \/ (65 <= c <= 90)%N.

(** ** Examples of bit strings *)

(** The text "QUJD": the bits 010000 010100 001001 000011. *)
Definition s_QUJD : jsstring := [81; 85; 74; 68]%N.

(** A directory over the 24 bits of "QUJD", all in one block. *)
Definition exampleDirectory : RankDirectory :=
  newRankDirectory Z.log2_up [] s_QUJD 24 L1 L2.

(** A payload of one node: three structural bits, then the six bits of the
    node. *)
Definition oneNodeTrie : FrozenTrie :=
  {| trieData := s_QUJD; directoryData := []; nodeCount := 1 |}.

(** The payload of the dictionary of five words (AS, CA, CAS, CASA and SA)
    in the succinct format: the nineteen structural bits 1011101010100100100
    of its nine nodes, then six bits for each node, in base 64. *)
Definition succinctTrie : FrozenTrie :=
  {| trieData := [117; 113; 83; 65; 68; 69; 77; 99; 84; 84; 99; 84; 65]%N;
     directoryData := []; nodeCount := 9 |}.

(** The payload as the network gives it. *)
Definition succinctPayload : DictionaryData :=
  {| d_trie := Some (trieData succinctTrie);
     d_directory := Some (directoryData succinctTrie);
     d_nodeCount := nodeCount succinctTrie;
     d_version := None |}.

(** The decoder of the source, with the ceiling of the binary logarithm. *)
Definition sourceDecoder : TrieDecoder := succinctDecoder Z.log2_up.

(** ** Face values that are not negative *)

(** The tiles of the candidate and the tiles of the board have face values
    that are not negative, as every tile of [createTile] has. *)
Definition plainValues (board : Board) (tiles : list Tile) : Prop :=
  Forall (fun t => 0 <= value t) tiles
  /\ forall r c t, tileOf board r c = Some t -> 0 <= value t.

(** ** Strings that cleaning leaves alone *)

(** [trim] and [toUpperCase] leave a text of capitals A to O and digits as
    it is. *)
Definition coordTextKept `{JSString} : Prop :=
  forall s, forallb (fun c => isRowLetter c || isDigit c) s = true ->
            toUpperCase (trim s) = s.

(** ** Capitals that the case mappings keep *)

(** For the internal code of every letter of the dictionary, [toUpperCase]
    leaves the code as it is and undoes [toLowerCase]. *)
Definition capitalsKept `{JSString} : Prop :=
  forall l, l ∈ TRIE_ALPHABET ->
    let c := default [l] (TRIE_TO_INTERNAL [l]) in
    toUpperCase c = c /\ toUpperCase (toLowerCase c) = c.

(** ** The cross-checks of the finder *)

Section CrossCheckSpec.
Context `{JSString} `{TrieDecoder}.

(** The letters of the dictionary for the tiles right above the cell, from
    the top down, and for the tiles right below it. *)
Definition crossPrefix (board : Board) (r c : Z) : jsstring :=
  concat ((fun x => getTrieChar (char x))
            <$> reverse (runTiles runFuel board (r - 1) c (-1) 0)).

Definition crossSuffix (board : Board) (r c : Z) : jsstring :=
  concat ((fun x => getTrieChar (char x)) <$> runTiles runFuel board (r + 1) c 1 0).

(** The cell is empty and has a tile right above or below. *)
Definition constrainedCell (board : Board) (r c : Z) : Prop :=
  inBounds r c = true /\ tileOf board r c = None
  /\ (is_Some (tileOf board (r - 1) c) \/ is_Some (tileOf board (r + 1) c)).

(** The letters that make a word of the dictionary between the tiles above
    and the tiles below. *)
Definition fitsBetween (t : FrozenTrie) (board : Board) (r c : Z) (l : jschar)
  : Prop :=
  l ∈ TRIE_ALPHABET
  /\ lookup t (crossPrefix board r c ++ [l] ++ crossSuffix board r c) = Ret true.

End CrossCheckSpec.

(** ** Directories that hold the counts *)

(** The layout that [rank] reads: the data is a text of the alphabet that
    holds [numBits] bits or more, a section of [l1Size] bits is a whole
    number of blocks of [l2Size] bits, and the directory holds, in the last
    [l1Bits] bits before section [i], the number of ones before the
    section, and for block [j] of section [i], the number of ones of the
    section before the block. *)
Definition directoryHolds (rd : RankDirectory) : Prop :=
  base64Text (rd_data rd)
  /\ numBits rd <= 6 * Z.of_nat (length (rd_data rd))
  /\ 0 < l2Size rd
  /\ (exists k, 0 < k /\ l1Size rd = k * l2Size rd)
  /\ (forall i, 1 <= i -> i * l1Size rd < numBits rd ->
        BitString_get (rd_directory rd) (i * sectionBits rd - l1Bits rd) (l1Bits rd)
        = onesIn (bitsFrom (rd_data rd) 0 (i * l1Size rd)))
  /\ (forall i j, 0 <= i -> 1 <= j -> j * l2Size rd < l1Size rd ->
        i * l1Size rd + j * l2Size rd < numBits rd ->
        BitString_get (rd_directory rd)
          (i * sectionBits rd + j * l2Bits rd - l2Bits rd) (l2Bits rd)
        = onesIn (bitsFrom (rd_data rd) (i * l1Size rd) (j * l2Size rd))).

(** The bits [0 .. x] that are ones, or zeros for [which = 0]. *)
Definition bitsUpTo (rd : RankDirectory) (which x : Z) : Z :=
  let ones := onesIn (bitsFrom (rd_data rd) 0 (x + 1)) in
  if bool_decide (which = 0) then x + 1 - ones else ones.

(** Two sections of two blocks of six bits over the 24 bits of "QUJD": the
    directory "EZH" holds 1, 3, 2 and 7 in four, five, four and five
    bits. *)
Definition twoSections : RankDirectory :=
  newRankDirectory Z.log2_up [69; 90; 72]%N s_QUJD 24 12 6.

(** * Properties *)

(** ** The tile model *)

Section TileFacts.
Context `{JSString}.

Lemma createTile_value (char : jsstring) :
  value (createTile char) = 0
  \/ (isBlank (createTile char) = false
      /\ value (createTile char) = default 0 (LETTER_VALUES (toUpperCase char))).
Proof.
  unfold createTile.
  destruct (streq char [c_qmark]); simpl; [by left|].
  destruct (streq char (toLowerCase char)
            && negb (streq (toUpperCase char) (toLowerCase char))); simpl;
    [by left | by right].
Qed.

End TileFacts.

(** ** The dictionary handle *)

(** C9. When [loadDictionary] ends in its [catch] block and a trie was
    loaded before, the handle is left as it was: [getTrie()] returns the
    same instance, under the same name and data. *)
Theorem failed_load_keeps_dictionary (fallbackDisc : option DictionaryData)
  (name : jsstring) (fetched : FetchOutcome) (st : DictState) (t : FrozenTrie) :
  getTrie st = Some t ->
  (loadDictionary fallbackDisc name fetched st).2 = LoadFailed ->
  (loadDictionary fallbackDisc name fetched st).1 = st
  /\ getTrie (loadDictionary fallbackDisc name fetched st).1 = Some t.
Proof.
  unfold getTrie, loadDictionary. intros Hloaded.
  destruct (bool_decide (is_Some (trieInstance st))
            && streq (currentDictionaryName st) name); simpl; [discriminate|].
  destruct (tryLoad fallbackDisc name fetched); simpl; [discriminate|].
  rewrite Hloaded. auto.
Qed.

Lemma failed_load_keeps_dictionary_witness :
  (loadDictionary None s_LEXIMOTS FetchRejected discLoaded).2 = LoadFailed
  /\ (loadDictionary None s_LEXIMOTS FetchRejected discLoaded).1 = discLoaded
  /\ getTrie (loadDictionary None s_LEXIMOTS FetchRejected discLoaded).1
     = Some exampleTrie.
Proof.
  split; [reflexivity|].
  apply (failed_load_keeps_dictionary None s_LEXIMOTS FetchRejected discLoaded
           exampleTrie); reflexivity.
Defined.

(** A load fails exactly when no payload with a non-empty trie and a
    directory is at hand, and then leaves a loaded trie alone. *)
Lemma loadDictionary_outcome (fallbackDisc : option DictionaryData)
  (name : jsstring) (fetched : FetchOutcome) (st : DictState) :
  match (loadDictionary fallbackDisc name fetched st).2 with
  | AlreadyLoaded => (loadDictionary fallbackDisc name fetched st).1 = st
  | Loaded =>
      exists t, getTrie (loadDictionary fallbackDisc name fetched st).1 = Some t
             /\ currentDictionaryName (loadDictionary fallbackDisc name fetched st).1 = name
  | LoadFailed =>
      getTrie (loadDictionary fallbackDisc name fetched st).1 = getTrie st
  end.
Proof.
  unfold loadDictionary, getTrie.
  destruct (bool_decide (is_Some (trieInstance st))
            && streq (currentDictionaryName st) name); simpl; [reflexivity|].
  destruct (tryLoad fallbackDisc name fetched) as [st'|] eqn:Htry; simpl.
  - unfold tryLoad in Htry.
    repeat match type of Htry with
           | match ?x with _ => _ end = _ => destruct x eqn:?; try discriminate
           end;
      injection Htry as <-; simpl; eauto.
  - destruct (trieInstance st) eqn:Hst; simpl; congruence.
Qed.

(** ** The validator: the loop over the tiles *)

(** Case analysis on a sequence of calls that returned. *)
Ltac js_step H :=
  match type of H with
  | js_bind ?m _ = Ret _ =>
      let E := fresh "E" in
      destruct m eqn:E; [cbn [js_bind] in H|discriminate H]
  | (if ?b then _ else _) = Ret _ =>
      let E := fresh "E" in destruct b eqn:E
  | match ?x with _ => _ end = Ret _ =>
      let E := fresh "E" in destruct x eqn:E; try discriminate H
  end.

Section LoopFacts.
Context `{JSString} `{TrieDecoder}.
Variable trie : option FrozenTrie.

Lemma scoreCrossWord_frame board nt d r c lv wm st st' :
  scoreCrossWord trie board nt d r c lv wm st = Ret st' ->
  mainWordScore st' = mainWordScore st
  /\ mainWordMultiplier st' = mainWordMultiplier st
  /\ tilesUsedFromRack st' = tilesUsedFromRack st
  /\ rackAvailable st' = rackAvailable st
  /\ touchesExisting st' = touchesExisting st
  /\ touchesCenter st' = touchesCenter st
  /\ (allWordsValid st' = true -> allWordsValid st = true).
Proof.
  unfold scoreCrossWord. intros Hc.
  repeat js_step Hc; injection Hc as <-; simpl; repeat split; auto.
  intros Hv. apply andb_true_iff in Hv. tauto.
Qed.

Lemma scoreTile_early board nt d r c t st res :
  scoreTile trie board nt d r c t st = Ret (inr res) ->
  exists e, res = reject e /\ isPerTileError e = true.
Proof.
  unfold scoreTile. intros Hs.
  repeat js_step Hs; try discriminate Hs; injection Hs as <-;
    try destruct (isBlank t); eauto.
Qed.

Lemma scoreTiles_early board nt d sr sc tiles i st res :
  scoreTiles trie board nt d sr sc tiles i st = Ret (inr res) ->
  exists e, res = reject e /\ isPerTileError e = true.
Proof.
  revert i st. induction tiles as [|t rest IH]; simpl; intros i st Hs.
  - discriminate.
  - destruct (scoreTile _ _ _ _ _ _ _ _) as [[st'|res']|] eqn:E;
      cbn [js_bind] in Hs; [eauto| |discriminate].
    injection Hs as <-. eapply scoreTile_early; eauto.
Qed.

End LoopFacts.

(** ** No dictionary *)

Section NoDictionary.
Context `{JSString} `{TrieDecoder}.

Lemma scoreCrossWord_unloaded board nt d r c lv wm st st' :
  scoreCrossWord None board nt d r c lv wm st = Ret st' ->
  allWordsValid st' = allWordsValid st.
Proof.
  unfold scoreCrossWord. intros Hc.
  repeat js_step Hc; injection Hc as <-; simpl; auto.
  match goal with
  | Hv : validateWord None _ = Ret _ |- _ => simpl in Hv; injection Hv as <-
  end.
  apply andb_true_r.
Qed.

Lemma scoreTile_unloaded board nt d r c t st st' :
  scoreTile None board nt d r c t st = Ret (inl st') ->
  allWordsValid st' = allWordsValid st.
Proof.
  unfold scoreTile. intros Hs.
  repeat js_step Hs; try discriminate Hs; injection Hs as <-; simpl; auto.
  match goal with
  | Hc : scoreCrossWord None _ _ _ _ _ _ _ _ = Ret _ |- _ =>
      apply scoreCrossWord_unloaded in Hc; exact Hc
  end.
Qed.

Lemma scoreTiles_unloaded board nt d sr sc tiles i st st' :
  scoreTiles None board nt d sr sc tiles i st = Ret (inl st') ->
  allWordsValid st' = allWordsValid st.
Proof.
  revert i st. induction tiles as [|t rest IH]; simpl; intros i st Hs.
  - by injection Hs as <-.
  - destruct (scoreTile _ _ _ _ _ _ _ _) as [[st1|res]|] eqn:E;
      cbn [js_bind] in Hs; try discriminate.
    apply IH in Hs. apply scoreTile_unloaded in E. congruence.
Qed.

(** C8. With no dictionary loaded, [validateWord] accepts every word, so
    [calculateMoveScore] never rejects a move as an invalid word, while
    [findBestMoves] returns the empty list for every board and rack. *)
Theorem unloaded_dictionary_asymmetry (board : Board) (tiles : list Tile)
  (rack : list jsstring) (startRow startCol limit : Z) (direction : Direction)
  (word : jsstring) :
  validateWord None word = Ret true
  /\ isInvalidWordRejection
       (calculateMoveScore None board tiles rack startRow startCol direction) = false
  /\ findBestMoves None board rack limit = Ret [].
Proof.
  split; [reflexivity|]. split; [|reflexivity].
  unfold calculateMoveScore.
  destruct (isBoardEmpty board) as [empty|]; cbn [js_bind]; [|reflexivity].
  destruct (getFullWordString _ _ _ _ _ _) as [main|]; cbn [js_bind]; [|reflexivity].
  assert (Hok : (if bool_decide (1 < length main)%nat
                 then validateWord None main else Ret true) = Ret true)
    by (by destruct (bool_decide _)).
  rewrite Hok. cbn [js_bind].
  destruct (scoreTiles _ _ _ _ _ _ _ _ _) as [[st|res]|] eqn:Hloop; cbn [js_bind];
    [| |reflexivity].
  - apply scoreTiles_unloaded in Hloop. simpl in Hloop.
    unfold finishScore. rewrite Hloop. simpl.
    repeat match goal with |- context [if ?b then _ else _] => destruct b end;
      reflexivity.
  - apply scoreTiles_early in Hloop as (e & -> & He).
    by destruct e.
Qed.

End NoDictionary.

(** ** A candidate that lays no tile *)

(** C1 (what the code does). A candidate that only repeats tiles of the
    board is accepted: the lone tile A on the centre, played again on the
    centre, scores 1 whatever the dictionary is, and the word CASA played
    again over itself scores 5. The validator has no test on
    [tilesUsedFromRack] being 0; [addMove] of the finder has one. *)
Lemma replayed_tiles_are_accepted (trie : option FrozenTrie) :
  calculateMoveScore trie (placeTile createInitialBoard 7 7 (createTile [c_A]))
    [createTile [c_A]] [] 7 7 Horizontal = Ret (accept 1)
  /\ calculateMoveScore (Some exampleTrie) boardWithCASA (parseInputWord s_CASA)
       [] 7 5 Horizontal = Ret (accept 5).
Proof. split; vm_compute; reflexivity. Qed.

(** ** The word normaliser *)

Lemma hasQWithoutU_spec (s : jsstring) : hasQWithoutU s = true <-> qWithoutU s.
Proof.
  induction s as [|a rest IH]; simpl.
  - split; [discriminate|]. intros (i & Hi & _). discriminate.
  - rewrite orb_true_iff, andb_true_iff, negb_true_iff, IH.
    rewrite bool_decide_eq_true, bool_decide_eq_false. split.
    + intros [[-> Hu] | (i & Hi & Hn)].
      * exists O. split; [reflexivity|]. simpl. by destruct rest.
      * by exists (S i).
    + intros ([|i] & Hi & Hn); simpl in *.
      * left. split; [congruence|]. by destruct rest.
      * right. by exists i.
Qed.

(** The global replacements of the code are the replacements from left to
    right of the canonical form. *)
Lemma replaceAllFrom_drop pats by_ k s :
  replaceAllFrom pats by_ k s = replaceAll pats by_ (drop k s).
Proof.
  unfold replaceAll. revert k. induction s as [|a rest IH]; intros [|k]; try done.
  cbn [replaceAllFrom drop]. apply IH.
Qed.

Lemma prefix_cons_decide (x a : jschar) (p s : jsstring) :
  bool_decide ((x :: p) `prefix_of` (a :: s))
  = bool_decide (x = a) && bool_decide (p `prefix_of` s).
Proof.
  destruct (decide (x = a)) as [->|Hne].
  - rewrite (bool_decide_eq_true_2 (a = a)) by done. cbn [andb].
    apply bool_decide_ext. split; [apply prefix_cons_inv_2|apply prefix_cons].
  - rewrite (bool_decide_eq_false_2 (x = a)) by done. cbn [andb].
    apply bool_decide_eq_false_2. intros Hp. by apply prefix_cons_inv_1 in Hp.
Qed.

Lemma prefix_nil_decide (s : jsstring) : bool_decide ([] `prefix_of` s) = true.
Proof. apply bool_decide_eq_true_2, prefix_nil. Qed.

Lemma prefix_of_nil_decide (x : jschar) (p : jsstring) :
  bool_decide ((x :: p) `prefix_of` []) = false.
Proof. apply bool_decide_eq_false_2, prefix_nil_not. Qed.

Lemma replaceAll_cons pats by_ (a : jschar) (rest : jsstring) :
  replaceAll pats by_ (a :: rest)
  = match find (fun p => bool_decide (p `prefix_of` a :: rest)) pats with
    | Some p => by_ ++ replaceAll pats by_ (drop (length p - 1) rest)
    | None => a :: replaceAll pats by_ rest
    end.
Proof.
  unfold replaceAll at 1. cbn [replaceAllFrom].
  destruct (find (fun p => bool_decide (p `prefix_of` a :: rest)) pats); [|done].
  by rewrite replaceAllFrom_drop.
Qed.

Lemma digraphAs_cons (x y z a b : jschar) (t2 : jsstring) :
  digraphAs x y z (a :: b :: t2)
  = if decide (a = x /\ b = y) then z :: digraphAs x y z t2
    else a :: digraphAs x y z (b :: t2).
Proof. done. Qed.

Lemma geminateAs2_pair (a b : jschar) :
  geminateAs2 [a; b]
  = if decide (a = c_Lmiddot /\ b = c_L) then [c_2] else a :: geminateAs2 [b].
Proof. done. Qed.

Lemma geminateAs2_cons (a b c : jschar) (t3 : jsstring) :
  geminateAs2 (a :: b :: c :: t3)
  = if decide (a = c_Lmiddot /\ b = c_L) then c_2 :: geminateAs2 (c :: t3)
    else if decide (a = c_L /\ (b = c_middot \/ b = c_dot \/ b = c_hyphen)
                    /\ c = c_L)
         then c_2 :: geminateAs2 t3
         else a :: geminateAs2 (b :: c :: t3).
Proof. done. Qed.

Lemma replaceAll_digraph (x y z : jschar) (s : jsstring) :
  replaceAll [[x; y]] [z] s = digraphAs x y z s.
Proof.
  remember (length s) as n eqn:Hn. revert s Hn.
  induction (lt_wf n) as [n _ IH]. intros s ->.
  assert (Hrec : forall s', (length s' < length s)%nat ->
            replaceAll [[x; y]] [z] s' = digraphAs x y z s')
    by (intros s' Hlt; by eapply IH).
  clear IH.
  destruct s as [|a [|b t2]]; [done| |].
  - rewrite replaceAll_cons. cbn [find].
    rewrite prefix_cons_decide, prefix_of_nil_decide, andb_false_r. done.
  - rewrite replaceAll_cons, digraphAs_cons. cbn [find].
    rewrite !prefix_cons_decide, prefix_nil_decide, andb_true_r.
    destruct (decide (a = x /\ b = y)) as [[-> ->]|Hne].
    + rewrite !bool_decide_eq_true_2 by done. cbn [andb app length Nat.sub drop].
      f_equal. apply Hrec. cbn. lia.
    + assert (bool_decide (x = a) && bool_decide (y = b) = false) as ->.
      { apply andb_false_iff. repeat case_bool_decide; subst; tauto. }
      f_equal. apply Hrec. cbn. lia.
Qed.

Ltac settle_tests :=
  repeat match goal with
         | |- context [bool_decide (?x = ?y)] =>
             first [ rewrite (bool_decide_eq_true_2 (x = y))
                       by (cbv; reflexivity)
                   | rewrite (bool_decide_eq_false_2 (x = y))
                       by (cbv; discriminate) ]
         end;
  cbn [andb orb app length Nat.sub drop].

Lemma replaceAll_geminate (s : jsstring) :
  replaceAll [s_LmidL; s_LdotL; s_LhypL; s_LmL] [c_2] s = geminateAs2 s.
Proof.
  remember (length s) as n eqn:Hn. revert s Hn.
  induction (lt_wf n) as [n _ IH]. intros s ->.
  assert (Hrec : forall s', (length s' < length s)%nat ->
            replaceAll [s_LmidL; s_LdotL; s_LhypL; s_LmL] [c_2] s' = geminateAs2 s')
    by (intros s' Hlt; by eapply IH).
  clear IH.
  destruct s as [|a [|b [|c t3]]]; [done| | |].
  - rewrite replaceAll_cons. unfold s_LmidL, s_LdotL, s_LhypL, s_LmL. cbn [find].
    rewrite !prefix_cons_decide, !prefix_of_nil_decide, !andb_false_r. done.
  - rewrite replaceAll_cons, geminateAs2_pair.
    unfold s_LmidL, s_LdotL, s_LhypL, s_LmL. cbn [find].
    rewrite !prefix_cons_decide, !prefix_nil_decide, !prefix_of_nil_decide,
      !andb_false_r, !andb_true_r.
    destruct (decide (a = c_Lmiddot /\ b = c_L)) as [[-> ->]|Hne].
    + done.
    + assert (bool_decide (c_Lmiddot = a) && bool_decide (c_L = b) = false) as ->.
      { apply andb_false_iff. repeat case_bool_decide; subst; tauto. }
      rewrite <- Hrec by (cbn; lia). reflexivity.
  - rewrite replaceAll_cons, geminateAs2_cons.
    unfold s_LmidL, s_LdotL, s_LhypL, s_LmL. cbn [find].
    rewrite !prefix_cons_decide, !prefix_nil_decide, !andb_true_r.
    destruct (decide (a = c_Lmiddot /\ b = c_L)) as [[-> ->]|Hne].
    + settle_tests. rewrite <- Hrec by (cbn; lia). reflexivity.
    + assert (bool_decide (c_Lmiddot = a) && bool_decide (c_L = b) = false) as Hno.
      { apply andb_false_iff. repeat case_bool_decide; subst; tauto. }
      rewrite Hno.
      destruct (decide (a = c_L /\ (b = c_middot \/ b = c_dot \/ b = c_hyphen)
                        /\ c = c_L)) as [(-> & Hb & ->)|Hno3].
      * destruct Hb as [-> | [-> | ->]]; settle_tests; rewrite <- Hrec by (cbn; lia); reflexivity.
      * assert (forall m, (m = c_middot \/ m = c_dot \/ m = c_hyphen) ->
                  bool_decide (c_L = a) && (bool_decide (m = b) && bool_decide (c_L = c))
                  = false) as Hm.
        { intros m Hmark.
          destruct (decide (c_L = a)) as [Ha|Ha];
            [|by rewrite (bool_decide_eq_false_2 (c_L = a))].
          destruct (decide (m = b)) as [Hb|Hb];
            [|by rewrite (bool_decide_eq_false_2 (m = b)), andb_false_r].
          destruct (decide (c_L = c)) as [Hc|Hc];
            [|by rewrite (bool_decide_eq_false_2 (c_L = c)), !andb_false_r].
          exfalso. apply Hno3. by rewrite <- Ha, <- Hb, <- Hc. }
        rewrite !Hm by tauto.
        rewrite <- Hrec by (cbn; lia). reflexivity.
Qed.

Lemma toTrieString_canonicalForm (s : jsstring) : toTrieString s = canonicalForm s.
Proof.
  unfold toTrieString, canonicalForm.
  rewrite replaceAll_geminate. unfold s_QU, s_NY. rewrite !replaceAll_digraph.
  apply list_filter_iff. intros c.
  rewrite negb_true_iff, orb_false_iff, !bool_decide_eq_false. done.
Qed.

Section Normaliser.
Context `{JSString} `{TrieDecoder}.

Lemma stripAccents_preparedForm (word : jsstring) :
  stripAccents word = preparedForm (trim word).
Proof.
  unfold stripAccents, preparedForm.
  rewrite (list_fmap_ext _ (fun c => if decide (c = c_Ccedil) then c_1 else c)
             (toUpperCase (trim word)))
    by (intros i c _; case_bool_decide; case_decide; done).
  apply list_filter_iff. intros c. unfold isCombiningMark.
  rewrite andb_false_iff, !bool_decide_eq_false. lia.
Qed.

(** C10 (amended). With no dictionary loaded [validateWord] returns true.
    With a dictionary loaded it is the function of the claim on the trimmed
    input: on the prepared form of the trimmed input (upper case,
    C-cedilla as 1, combining diacritics stripped) it returns false,
    whatever the trie holds, when a Q is not followed at once by a U, and
    otherwise the membership in the trie of the canonical form: the
    spellings L·L, L.L, L-L and ĿL replaced with 2, then QU with Q, then NY
    with 3, and the remaining flying dots and full stops deleted. *)
Theorem validateWord_canonical_form (t : FrozenTrie) (word : jsstring) :
  validateWord None word = Ret true
  /\ validateWord (Some t) word = claimedValidateWord t (trim word)
  /\ (qWithoutU (preparedForm (trim word)) ->
      forall t', validateWord (Some t') word = Ret false)
  /\ (~ qWithoutU (preparedForm (trim word)) ->
      validateWord (Some t) word
      = lookup t (canonicalForm (preparedForm (trim word)))).
Proof.
  split; [reflexivity|].
  assert (forall t', validateWord (Some t') word
            = if decide (qWithoutU (preparedForm (trim word))) then Ret false
              else lookup t' (canonicalForm (preparedForm (trim word)))) as Hcode.
  { intros t'. unfold validateWord.
    rewrite toTrieString_canonicalForm, stripAccents_preparedForm.
    destruct (hasQWithoutU _) eqn:Hq; case_decide as Hd; try done.
    - apply hasQWithoutU_spec in Hq. contradiction.
    - apply hasQWithoutU_spec in Hd. congruence. }
  split; [apply Hcode|]. split.
  - intros Hq t'. rewrite Hcode. by rewrite decide_True.
  - intros Hq. rewrite Hcode. by rewrite decide_False.
Qed.

End Normaliser.

(** COL.LEGI, with the flying dot or the full stop, is looked up as
    CO2EGI; QUINZE as QINZE; CANYA as CA3A; and C-cedilla as 1. *)
Example toTrieString_examples :
  toTrieString [c_C; 79; c_L; c_middot; c_L; 69; 71; 73]%N = [c_C; 79; c_2; 69; 71; 73]%N
  /\ toTrieString [c_C; 79; c_L; c_dot; c_L; 69; 71; 73]%N = [c_C; 79; c_2; 69; 71; 73]%N
  /\ toTrieString [c_Q; c_U; 73; c_N; 90; 69]%N = [c_Q; 73; c_N; 90; 69]%N
  /\ toTrieString [c_C; c_A; c_N; c_Y; c_A] = [c_C; c_A; c_3; c_A]
  /\ stripAccents [c_ccedil; 224; 32]%N = [c_1; c_A].
Proof. repeat split; reflexivity. Qed.

(** C10 (as stated). The input " CASA", with a leading space, is accepted
    by the code, which trims it, while the canonical form of the claim keeps
    the space and is no word of the trie; and with no dictionary loaded a
    lone Q is accepted. *)
Lemma validateWord_trims_its_input :
  validateWord (Some exampleTrie) (32%N :: s_CASA) = Ret true
  /\ claimedValidateWord exampleTrie (32%N :: s_CASA) = Ret false
  /\ validateWord None [c_Q] = Ret true.
Proof. repeat split; reflexivity. Qed.

(** ** Boards of the right shape *)

Lemma returns_Ret {A} (a : A) : returns (Ret a).
Proof. by exists a. Qed.

Lemma returns_bind {A B} (m : JS A) (k : A -> JS B) :
  returns m -> (forall a, m = Ret a -> returns (k a)) -> returns (js_bind m k).
Proof. intros [a ->] Hk. simpl. by apply Hk. Qed.

Lemma inBounds_spec r c :
  inBounds r c = true <-> 0 <= r < 15 /\ 0 <= c < 15.
Proof.
  unfold inBounds, BOARD_SIZE.
  rewrite !andb_true_iff, !bool_decide_eq_true. lia.
Qed.

Lemma nthZ_Some {A} (l : list A) (i : Z) :
  0 <= i < Z.of_nat (length l) -> exists x, nthZ l i = Some x.
Proof.
  intros Hi. unfold nthZ. rewrite bool_decide_eq_true_2 by lia.
  apply lookup_lt_is_Some_2. lia.
Qed.

Lemma cellAt_wf board r c :
  wfBoard board -> inBounds r c = true ->
  exists cell, cellAt board r c = Ret cell /\ cellOf board r c = Some cell.
Proof.
  intros [Hrows Hcols] Hin. pose proof Hin as Hb. apply inBounds_spec in Hb.
  unfold cellAt, cellOf. rewrite Hin.
  destruct (nthZ_Some board r) as [cells Hcells]; [lia|].
  rewrite Hcells. simpl.
  assert (length cells = 15%nat) as Hlen.
  { unfold nthZ in Hcells. case_bool_decide; [|discriminate].
    eapply Forall_lookup_1 in Hcols; eauto. }
  destruct (nthZ_Some cells c) as [cell Hcell]; [lia|].
  rewrite Hcell. eauto.
Qed.

Lemma cellAt_cellOf board r c cell :
  cellAt board r c = Ret cell -> inBounds r c = true -> cellOf board r c = Some cell.
Proof.
  unfold cellAt, cellOf. intros Hc ->.
  destruct (nthZ board r) as [cells|]; [|discriminate]. simpl.
  destruct (nthZ cells c); [|discriminate]. congruence.
Qed.

Lemma tileIfInBounds_tileOf board r c x :
  tileIfInBounds board r c = Ret x -> tileOf board r c = x.
Proof.
  unfold tileIfInBounds, tileOf, tileAt. destruct (inBounds r c) eqn:Hin.
  - intros Hc. js_step Hc. injection Hc as <-.
    erewrite cellAt_cellOf; eauto.
  - intros [= <-]. unfold cellOf. by rewrite Hin.
Qed.

Lemma tileIfInBounds_wf board r c :
  wfBoard board -> tileIfInBounds board r c = Ret (tileOf board r c).
Proof.
  intros Hwf. unfold tileIfInBounds, tileOf, tileAt.
  destruct (inBounds r c) eqn:Hin.
  - destruct (cellAt_wf board r c Hwf Hin) as (cell & -> & ->). reflexivity.
  - unfold cellOf. by rewrite Hin.
Qed.

Lemma tileAt_wf board r c :
  wfBoard board -> inBounds r c = true -> tileAt board r c = Ret (tileOf board r c).
Proof.
  intros Hwf Hin. unfold tileAt, tileOf.
  destruct (cellAt_wf board r c Hwf Hin) as (cell & -> & ->). reflexivity.
Qed.

Lemma elem_of_indices (k : Z) : k ∈ indices <-> 0 <= k < 15.
Proof.
  unfold indices. rewrite list_elem_of_fmap. split.
  - intros (n & -> & Hn). apply elem_of_seq in Hn. lia.
  - intros Hk. exists (Z.to_nat k). split; [lia|]. apply elem_of_seq. lia.
Qed.

Lemma rowHasTile_wf board r cs :
  wfBoard board -> 0 <= r < 15 -> Forall (fun c => 0 <= c < 15) cs ->
  rowHasTile board r cs = Ret (rowOccupied board r cs).
Proof.
  intros Hwf Hr. induction 1 as [|c cs Hc _ IH]; simpl; [reflexivity|].
  rewrite tileAt_wf by (auto; apply inBounds_spec; lia). cbn [js_bind].
  destruct (bool_decide (is_Some (tileOf board r c))); simpl; auto.
Qed.

Lemma indices_in_range : Forall (fun c => 0 <= c < 15) indices.
Proof. apply Forall_forall. intros c. apply elem_of_indices. Qed.

Lemma anyRowHasTile_wf board rs :
  wfBoard board -> Forall (fun r => 0 <= r < 15) rs ->
  anyRowHasTile board rs = Ret (existsb (fun r => rowOccupied board r indices) rs).
Proof.
  intros Hwf. induction 1 as [|r rs Hr _ IH];
    cbn [anyRowHasTile existsb]; [reflexivity|].
  rewrite rowHasTile_wf by auto using indices_in_range. cbn [js_bind].
  destruct (rowOccupied board r indices); cbn [orb]; auto.
Qed.

Lemma isBoardEmpty_wf board :
  wfBoard board -> isBoardEmpty board = Ret (negb (boardOccupied board)).
Proof.
  intros Hwf. unfold isBoardEmpty.
  rewrite anyRowHasTile_wf by auto using indices_in_range. reflexivity.
Qed.

Lemma boardOccupied_spec board :
  boardOccupied board = true <-> exists r c, is_Some (tileOf board r c).
Proof.
  unfold boardOccupied, rowOccupied. rewrite existsb_exists. split.
  - intros (r & _ & Hrow). apply existsb_exists in Hrow as (c & _ & Hc).
    apply bool_decide_eq_true in Hc. eauto.
  - intros (r & c & Hc). pose proof Hc as [t Ht].
    assert (inBounds r c = true) as Hin.
    { unfold tileOf, cellOf in Ht. destruct (inBounds r c); [done|discriminate]. }
    apply inBounds_spec in Hin. exists r. split.
    + apply list_elem_of_In, elem_of_indices. lia.
    + apply existsb_exists. exists c. split.
      * apply list_elem_of_In, elem_of_indices. lia.
      * by apply bool_decide_eq_true.
Qed.

Section Totality.
Context `{JSString} `{TrieDecoder}.

Lemma findChild_decoded t node target child :
  findChild t node target = Some child -> exists i, child = getNodeByIndex t i.
Proof.
  unfold findChild, children. intros Hf. apply find_some in Hf as [Hin _].
  apply list_elem_of_In, list_elem_of_fmap in Hin as (i & -> & _).
  unfold getChild. eauto.
Qed.

Lemma findChild_reached t node target child :
  reachedNode t node -> findChild t node target = Some child -> reachedNode t child.
Proof.
  unfold findChild. intros Hn Hf. apply find_some in Hf as [Hin _].
  apply (reached_child t node child Hn). by apply list_elem_of_In.
Qed.

Lemma lookupFrom_returns t node word :
  soundTrie (Some t) -> reachedNode t node -> returns (lookupFrom t node word).
Proof.
  intros Ht. revert node. induction word as [|w rest IH]; intros node Hn; simpl.
  - apply returns_Ret.
  - destruct (findChild t node [w]) as [child|] eqn:Hf.
    + apply IH. by eapply findChild_reached.
    + rewrite bool_decide_eq_false_2 by (pose proof (Ht t eq_refl node Hn); lia).
      apply returns_Ret.
Qed.

Lemma lookup_returns t word : soundTrie (Some t) -> returns (lookup t word).
Proof. intros Hs. apply lookupFrom_returns; [done|apply reached_root]. Qed.

Lemma validateWord_returns trie word :
  soundTrie trie -> returns (validateWord trie word).
Proof.
  intros Hs. unfold validateWord. destruct trie as [t|]; [|apply returns_Ret].
  destruct (hasQWithoutU _); [apply returns_Ret|].
  apply lookup_returns. intros t' [= <-]. by apply Hs.
Qed.

End Totality.

(** ** The loops run to their end *)

(** The loops of the source are embedded with a bound on their turns. The
    bound that each call site passes is enough: a larger one gives the same
    result, so the bound never cuts a loop short. *)

Section Fuel.
Context `{JSString} `{TrieDecoder}.

Lemma parseStep_advances c rest : (1 <= (parseStep c rest).2)%nat.
Proof.
  unfold parseStep. cbv zeta.
  repeat match goal with
         | |- context [if ?b then _ else _] => destruct b
         | |- context [match ?x with _ => _ end] => destruct x
         end; simpl; lia.
Qed.

Lemma parseLoop_bounds (n fuel1 fuel2 : nat) (w : jsstring) :
  (length w <= n)%nat -> (n <= fuel1)%nat -> (n <= fuel2)%nat ->
  parseLoop fuel1 w = parseLoop fuel2 w.
Proof.
  revert fuel1 fuel2 w.
  induction n as [|n IH]; intros fuel1 fuel2 w Hw H1 H2.
  - destruct w; [|simpl in Hw; lia]. by destruct fuel1, fuel2.
  - destruct w as [|c tl]; [by destruct fuel1, fuel2|].
    destruct fuel1 as [|fuel1]; [lia|]. destruct fuel2 as [|fuel2]; [lia|].
    cbn [parseLoop]. pose proof (parseStep_advances c tl) as Hk.
    destruct (parseStep c tl) as [u k]. cbn [snd] in Hk. f_equal.
    apply IH; try lia. rewrite length_drop. cbn [length] in *. lia.
Qed.

(** [parseInputWord]: more turns than code units change nothing. *)
Lemma parseLoop_fuel (fuel : nat) (input : jsstring) :
  (length input <= fuel)%nat -> parseLoop fuel input = parseInputWord input.
Proof. intros Hf. by apply (parseLoop_bounds (length input)). Qed.

Lemma tileIfInBounds_Some board r c t :
  tileIfInBounds board r c = Ret (Some t) -> inBounds r c = true.
Proof. unfold tileIfInBounds. by destruct (inBounds r c). Qed.

(** A run of tiles in steps of [(dr, dc)], with a measure that is positive
    inside the board and that each step lowers by one. *)
Lemma sumRun_bounds board dr dc (mu : Z -> Z -> Z) :
  (forall r c, inBounds r c = true -> 0 < mu r c) ->
  (forall r c, mu (r + dr) (c + dc) = mu r c - 1) ->
  forall (n fuel1 fuel2 : nat) r c,
    (n <= fuel1)%nat -> (n <= fuel2)%nat ->
    (inBounds r c = true -> mu r c <= Z.of_nat n) ->
    sumRun fuel1 board r c dr dc = sumRun fuel2 board r c dr dc.
Proof.
  intros Hpos Hstep. induction n as [|n IH]; intros fuel1 fuel2 r c H1 H2 Hm.
  - assert (inBounds r c = false) as Hout.
    { destruct (inBounds r c) eqn:E; [|done].
      specialize (Hpos r c E). specialize (Hm eq_refl). lia. }
    destruct fuel1, fuel2; cbn [sumRun]; unfold tileIfInBounds; by rewrite ?Hout.
  - destruct fuel1 as [|fuel1]; [lia|]. destruct fuel2 as [|fuel2]; [lia|].
    cbn [sumRun].
    destruct (tileIfInBounds board r c) as [[t|]|] eqn:E; cbn [js_bind]; try done.
    apply tileIfInBounds_Some in E.
    rewrite (IH fuel1 fuel2); [done|lia|lia|].
    intros _. rewrite Hstep. specialize (Hm E). lia.
Qed.

Lemma collectRun_bounds board dr dc (mu : Z -> Z -> Z) :
  (forall r c, inBounds r c = true -> 0 < mu r c) ->
  (forall r c, mu (r + dr) (c + dc) = mu r c - 1) ->
  forall (n fuel1 fuel2 : nat) r c,
    (n <= fuel1)%nat -> (n <= fuel2)%nat ->
    (inBounds r c = true -> mu r c <= Z.of_nat n) ->
    collectRun fuel1 board r c dr dc = collectRun fuel2 board r c dr dc.
Proof.
  intros Hpos Hstep. induction n as [|n IH]; intros fuel1 fuel2 r c H1 H2 Hm.
  - assert (inBounds r c = false) as Hout.
    { destruct (inBounds r c) eqn:E; [|done].
      specialize (Hpos r c E). specialize (Hm eq_refl). lia. }
    destruct fuel1, fuel2; cbn [collectRun]; unfold tileIfInBounds; by rewrite ?Hout.
  - destruct fuel1 as [|fuel1]; [lia|]. destruct fuel2 as [|fuel2]; [lia|].
    cbn [collectRun].
    destruct (tileIfInBounds board r c) as [[t|]|] eqn:E; cbn [js_bind]; try done.
    apply tileIfInBounds_Some in E.
    rewrite (IH fuel1 fuel2); [done|lia|lia|].
    intros _. rewrite Hstep. specialize (Hm E). lia.
Qed.

Ltac run_measure :=
  first [ done
        | by (intros ? ? ?%inBounds_spec; simpl; lia)
        | by (intros ?%inBounds_spec; change (Z.of_nat runFuel) with 16; simpl; lia)
        | by (intros; simpl; lia) ].

(** Along a row or a column, in either sense, [runFuel] turns reach the
    edge of the board. *)
Lemma sumRun_fuel board dr dc (fuel : nat) r c :
  Z.abs dr + Z.abs dc = 1 -> (runFuel <= fuel)%nat ->
  sumRun fuel board r c dr dc = sumRun runFuel board r c dr dc.
Proof.
  intros Hd Hf.
  assert ((dr = 1 /\ dc = 0) \/ (dr = -1 /\ dc = 0)
          \/ (dr = 0 /\ dc = 1) \/ (dr = 0 /\ dc = -1))
    as [[-> ->]|[[-> ->]|[[-> ->]|[-> ->]]]] by lia.
  - apply (sumRun_bounds board 1 0 (fun r _ => 15 - r)) with (n := runFuel);
      run_measure.
  - apply (sumRun_bounds board (-1) 0 (fun r _ => r + 1)) with (n := runFuel);
      run_measure.
  - apply (sumRun_bounds board 0 1 (fun _ c => 15 - c)) with (n := runFuel);
      run_measure.
  - apply (sumRun_bounds board 0 (-1) (fun _ c => c + 1)) with (n := runFuel);
      run_measure.
Qed.

Lemma collectRun_fuel board dr dc (fuel : nat) r c :
  Z.abs dr + Z.abs dc = 1 -> (runFuel <= fuel)%nat ->
  collectRun fuel board r c dr dc = collectRun runFuel board r c dr dc.
Proof.
  intros Hd Hf.
  assert ((dr = 1 /\ dc = 0) \/ (dr = -1 /\ dc = 0)
          \/ (dr = 0 /\ dc = 1) \/ (dr = 0 /\ dc = -1))
    as [[-> ->]|[[-> ->]|[[-> ->]|[-> ->]]]] by lia.
  - apply (collectRun_bounds board 1 0 (fun r _ => 15 - r)) with (n := runFuel);
      run_measure.
  - apply (collectRun_bounds board (-1) 0 (fun r _ => r + 1)) with (n := runFuel);
      run_measure.
  - apply (collectRun_bounds board 0 1 (fun _ c => 15 - c)) with (n := runFuel);
      run_measure.
  - apply (collectRun_bounds board 0 (-1) (fun _ c => c + 1)) with (n := runFuel);
      run_measure.
Qed.

Lemma foldr_min_nonpos (l : list Z) : foldr Z.min 0 l <= 0.
Proof. induction l as [|x l IH]; simpl; lia. Qed.

Lemma foldr_min_le (l : list Z) (x : Z) : x ∈ l -> foldr Z.min 0 l <= x.
Proof.
  induction l as [|y l IH]; intros Hx; [by apply elem_of_nil in Hx|].
  apply elem_of_cons in Hx as [-> | Hx]; simpl; [lia|].
  specialize (IH Hx). lia.
Qed.

Lemma lowestPosition_nonpos nt : lowestPosition nt <= 0.
Proof. apply foldr_min_nonpos. Qed.

Lemma lowestPosition_le nt r c (t : Tile) :
  nt !! (r, c) = Some t -> lowestPosition nt <= r + c.
Proof.
  intros Hk. apply foldr_min_le.
  apply (list_elem_of_fmap_2 (fun kv : Z * Z * Tile => kv.1.1 + kv.1.2) _ ((r, c), t)).
  by apply elem_of_map_to_list.
Qed.

Lemma scanBack_bounds board nt dr dc :
  dr + dc = 1 ->
  forall (n fuel1 fuel2 : nat) r c,
    (Z.to_nat (r + c - lowestPosition nt) <= n)%nat ->
    (n < fuel1)%nat -> (n < fuel2)%nat ->
    scanBack fuel1 board nt dr dc r c = scanBack fuel2 board nt dr dc r c.
Proof.
  intros Hd. induction n as [|n IH]; intros fuel1 fuel2 r c Hm H1 H2;
    (destruct fuel1 as [|fuel1]; [lia|]); (destruct fuel2 as [|fuel2]; [lia|]);
    cbn [scanBack]; cbv zeta.
  - assert (inBounds (r - dr) (c - dc) = false) as Hout.
    { destruct (inBounds (r - dr) (c - dc)) eqn:E; [|done].
      apply inBounds_spec in E. pose proof (lowestPosition_nonpos nt). lia. }
    assert (nt !! (r - dr, c - dc) = None) as Hnone.
    { destruct (nt !! (r - dr, c - dc)) as [t|] eqn:E; [|done].
      apply lowestPosition_le in E. lia. }
    unfold tileIfInBounds. rewrite Hout, Hnone. reflexivity.
  - destruct (tileIfInBounds board (r - dr) (c - dc)) as [o|]; cbn [js_bind]; [|done].
    destruct (bool_decide (is_Some o) || bool_decide (is_Some (nt !! (r - dr, c - dc))));
      [|done].
    apply IH; lia.
Qed.

(** The first loop of [getFullWordString], along a row or a column:
    [backFuel] turns are enough. *)
Lemma scanBack_fuel board nt dr dc (fuel : nat) r c :
  dr + dc = 1 -> (backFuel nt r c <= fuel)%nat ->
  scanBack fuel board nt dr dc r c
  = scanBack (backFuel nt r c) board nt dr dc r c.
Proof.
  intros Hd Hf.
  apply (scanBack_bounds board nt dr dc Hd (Z.to_nat (r + c - lowestPosition nt)));
    unfold backFuel in *; lia.
Qed.

Lemma scanForward_bounds board nt dr dc :
  dr + dc = 1 ->
  forall (n fuel1 fuel2 : nat) r c,
    (forwardFuel r c <= n)%nat -> (n <= fuel1)%nat -> (n <= fuel2)%nat ->
    scanForward fuel1 board nt dr dc r c = scanForward fuel2 board nt dr dc r c.
Proof.
  intros Hd. induction n as [|n IH]; intros fuel1 fuel2 r c Hm H1 H2.
  - assert (inBounds r c = false) as Hout.
    { destruct (inBounds r c) eqn:E; [|done].
      apply inBounds_spec in E. unfold forwardFuel, BOARD_SIZE in Hm. lia. }
    destruct fuel1, fuel2; cbn [scanForward]; by rewrite ?Hout.
  - destruct fuel1 as [|fuel1]; [lia|]. destruct fuel2 as [|fuel2]; [lia|].
    cbn [scanForward]. destruct (inBounds r c) eqn:E; [|done].
    rewrite (IH fuel1 fuel2 (r + dr) (c + dc)); [done| |lia|lia].
    unfold forwardFuel, BOARD_SIZE in *. lia.
Qed.

(** The second loop of [getFullWordString]: [forwardFuel] turns are
    enough. *)
Lemma scanForward_fuel board nt dr dc (fuel : nat) r c :
  dr + dc = 1 -> (forwardFuel r c <= fuel)%nat ->
  scanForward fuel board nt dr dc r c
  = scanForward (forwardFuel r c) board nt dr dc r c.
Proof.
  intros Hd Hf. by apply (scanForward_bounds board nt dr dc Hd (forwardFuel r c)).
Qed.

Lemma countLeft_bounds board anchors r :
  forall (n fuel1 fuel2 : nat) k,
    k < Z.of_nat n -> (n <= fuel1)%nat -> (n <= fuel2)%nat ->
    countLeft fuel1 board anchors r k = countLeft fuel2 board anchors r k.
Proof.
  induction n as [|n IH]; intros fuel1 fuel2 k Hk H1 H2.
  - destruct fuel1, fuel2; cbn [countLeft]; repeat case_bool_decide; (done || lia).
  - destruct fuel1 as [|fuel1]; [lia|]. destruct fuel2 as [|fuel2]; [lia|].
    cbn [countLeft]. case_bool_decide; [|done].
    destruct (tileAt board r k) as [t|]; cbn [js_bind]; [|done].
    repeat case_bool_decide; try done.
    rewrite (IH fuel1 fuel2 (k - 1)); [done|lia|lia|lia].
Qed.

(** [limitLeft], from a column left of an anchor: [runFuel] turns reach the
    edge. *)
Lemma countLeft_fuel board anchors r k (fuel : nat) :
  k < BOARD_SIZE -> (runFuel <= fuel)%nat ->
  countLeft fuel board anchors r k = countLeft runFuel board anchors r k.
Proof.
  intros Hk Hf. apply (countLeft_bounds board anchors r runFuel); [|done|done].
  change (Z.of_nat runFuel) with 16. unfold BOARD_SIZE in Hk. lia.
Qed.

Lemma collectMoves_ext {A B} (f g : A -> JS (list B)) (l : list A) :
  (forall a, f a = g a) -> collectMoves f l = collectMoves g l.
Proof.
  intros Hfg. induction l as [|a l IH]; [done|].
  cbn [collectMoves]. by rewrite Hfg, IH.
Qed.

Lemma extendRight_bounds t board row crossChecks direction :
  forall (n fuel1 fuel2 : nat) col partialWordInternal node rack,
    (Z.to_nat (BOARD_SIZE - col) <= n)%nat -> (n < fuel1)%nat -> (n < fuel2)%nat ->
    extendRight fuel1 t board row col partialWordInternal node rack crossChecks
      direction
    = extendRight fuel2 t board row col partialWordInternal node rack crossChecks
        direction.
Proof.
  induction n as [|n IH]; intros fuel1 fuel2 col word node rack Hm H1 H2;
    (destruct fuel1 as [|fuel1]; [lia|]); (destruct fuel2 as [|fuel2]; [lia|]);
    cbn [extendRight]; case_bool_decide; try done.
  - unfold BOARD_SIZE in *. lia.
  - destruct (tileAt board row col) as [[existing|]|]; cbn [js_bind]; [| |done].
    + destruct (findChild t node (getTrieChar (char existing))); [|done].
      apply IH; unfold BOARD_SIZE in *; lia.
    + match goal with
      | |- js_bind ?m ?k1 = js_bind ?m ?k2 =>
          destruct m; cbn [js_bind]; [|done]
      end.
      erewrite collectMoves_ext; [reflexivity|].
      intros child. cbv beta zeta.
      destruct (match crossChecks !! (row, col) with
                | Some allowed => negb (bool_decide (letter child ∈ allowed))
                | None => false
                end); [done|].
      destruct (useRack [letter child] rack) as [[nextRack blank]|]; [|done].
      apply IH; unfold BOARD_SIZE in *; lia.
Qed.

(** [extendRight] from column [col]: [extendFuel col] calls are enough. *)
Lemma extendRight_fuel t board row col word node rack crossChecks direction
  (fuel : nat) :
  (extendFuel col <= fuel)%nat ->
  extendRight fuel t board row col word node rack crossChecks direction
  = extendRight (extendFuel col) t board row col word node rack crossChecks
      direction.
Proof.
  intros Hf.
  apply (extendRight_bounds t board row crossChecks direction
           (Z.to_nat (BOARD_SIZE - col))); unfold extendFuel in *; lia.
Qed.

End Fuel.

(** ** The scans of the validator on a board of the right shape *)

Lemma sumRun_runTiles fuel board r c dr dc s :
  sumRun fuel board r c dr dc = Ret s ->
  s = sumValues (runTiles fuel board r c dr dc).
Proof.
  revert r c s. induction fuel as [|fuel IH]; intros r c s; simpl.
  - by intros [= <-].
  - intros Hs. js_step Hs. apply tileIfInBounds_tileOf in E. rewrite E.
    destruct a as [t|].
    + js_step Hs. injection Hs as <-. simpl. f_equal. by apply IH.
    + by injection Hs as <-.
Qed.

Lemma sumRun_wf fuel board r c dr dc :
  wfBoard board -> returns (sumRun fuel board r c dr dc).
Proof.
  intros Hwf. revert r c. induction fuel as [|fuel IH]; intros r c; simpl.
  - apply returns_Ret.
  - rewrite tileIfInBounds_wf by done. cbn [js_bind].
    destruct (tileOf board r c); [|apply returns_Ret].
    apply returns_bind; [apply IH|]. intros. apply returns_Ret.
Qed.

Lemma anyNeighbourTile_tileOf board ns b :
  anyNeighbourTile board ns = Ret b -> b = anyNeighbourOccupied board ns.
Proof.
  revert b. induction ns as [|n ns IH]; intros b; simpl.
  - by intros [= <-].
  - intros Hs. js_step Hs. js_step Hs. injection Hs as <-.
    apply tileIfInBounds_tileOf in E. rewrite E. f_equal. by apply IH.
Qed.

Lemma anyNeighbourTile_wf board ns :
  wfBoard board -> returns (anyNeighbourTile board ns).
Proof.
  intros Hwf. induction ns as [|n ns IH]; simpl; [apply returns_Ret|].
  rewrite tileIfInBounds_wf by done. cbn [js_bind].
  apply returns_bind; [apply IH|]. intros. apply returns_Ret.
Qed.

Lemma scanBack_wf fuel board nt dr dc r c :
  wfBoard board -> returns (scanBack fuel board nt dr dc r c).
Proof.
  intros Hwf. revert r c. induction fuel as [|fuel IH]; intros r c; simpl.
  - apply returns_Ret.
  - rewrite tileIfInBounds_wf by done. cbn [js_bind].
    destruct (_ || _); [apply IH | apply returns_Ret].
Qed.

Lemma scanForward_wf fuel board nt dr dc r c :
  wfBoard board -> returns (scanForward fuel board nt dr dc r c).
Proof.
  intros Hwf. revert r c. induction fuel as [|fuel IH]; intros r c; simpl.
  - apply returns_Ret.
  - destruct (inBounds r c) eqn:Hin; [|apply returns_Ret].
    rewrite tileAt_wf by done. cbn [js_bind].
    destruct (tileOf board r c), (nt !! (r, c)); try apply returns_Ret;
      (apply returns_bind; [apply IH | intros; apply returns_Ret]).
Qed.

Lemma getFullWordString_wf board nt r c dr dc :
  wfBoard board -> returns (getFullWordString board nt r c dr dc).
Proof.
  intros Hwf. unfold getFullWordString.
  apply returns_bind; [by apply scanBack_wf|]. intros. by apply scanForward_wf.
Qed.

(** ** The score of a move, as the specification words it *)

Section ScoreSpec.
Context `{JSString} `{TrieDecoder}.
Variable trie : option FrozenTrie.

Lemma cellAt_inBounds board r c cell :
  cellAt board r c = Ret cell -> r < BOARD_SIZE -> c < BOARD_SIZE ->
  inBounds r c = true.
Proof.
  intros Hc Hr Hc'. apply inBounds_spec. unfold cellAt in Hc.
  destruct (nthZ board r) as [cells|] eqn:E1; [|discriminate Hc].
  destruct (nthZ cells c) eqn:E2; [|discriminate Hc].
  unfold nthZ in E1, E2. repeat case_bool_decide; try discriminate.
  unfold BOARD_SIZE in *. lia.
Qed.

Lemma scoreCrossWord_spec board nt d p st st' :
  isNew board p = true ->
  inBounds (at_row p) (at_col p) = true ->
  scoreCrossWord trie board nt d (at_row p) (at_col p)
    (value (placed p) * letterMultAt board (at_row p) (at_col p))
    (wordMultAt board (at_row p) (at_col p)) st = Ret st' ->
  totalScore st' = totalScore st
                   + (if formsCrossWord board d p then crossWordScore board d p else 0)
  /\ (allWordsValid st' = true ->
      formsCrossWord board d p = true -> crossWordChecked trie board nt d p).
Proof.
  intros Hnew Hin. unfold scoreCrossWord, formsCrossWord, hasCrossNeighbour.
  rewrite Hnew. cbn [andb]. intros Hc.
  js_step Hc. js_step Hc.
  match goal with
  | H1 : tileIfInBounds _ (_ - _) _ = _, H2 : tileIfInBounds _ (_ + _) _ = _ |- _ =>
      apply tileIfInBounds_tileOf in H1, H2; rewrite H1, H2
  end.
  destruct (_ || _).
  - do 4 js_step Hc. injection Hc as <-. cbn.
    repeat match goal with
           | Hs : sumRun _ _ _ _ _ _ = Ret _ |- _ => apply sumRun_runTiles in Hs; subst
           end.
    split; [reflexivity|].
    intros Hv _. apply andb_true_iff in Hv as [_ ->]. by eexists.
  - injection Hc as <-. split; [lia|]. intros _ [=].
Qed.

Lemma scoreTile_spec board nt d p st st' :
  scoreTile trie board nt d (at_row p) (at_col p) (placed p) st = Ret (inl st') ->
  TurnSpec trie board nt d p st st'.
Proof.
  unfold scoreTile. intros Hs.
  destruct (_ || _) eqn:Hout; [discriminate Hs|].
  apply orb_false_iff in Hout as [Hr Hc]. apply bool_decide_eq_false in Hr, Hc.
  destruct (cellAt board (at_row p) (at_col p)) as [cell|] eqn:Hcell;
    cbn [js_bind] in Hs; [|discriminate Hs].
  assert (Hin : inBounds (at_row p) (at_col p) = true)
    by (eapply cellAt_inBounds; eauto; lia).
  pose proof (cellAt_cellOf _ _ _ _ Hcell Hin) as Hof.
  assert (Htile : tileOf board (at_row p) (at_col p) = tile cell)
    by (unfold tileOf; by rewrite Hof).
  destruct (tile cell) as [onBoard|] eqn:Hon.
  - destruct (negb _) eqn:Hsame; [discriminate Hs|]. injection Hs as <-.
    apply negb_false_iff, bool_decide_eq_true in Hsame.
    assert (Hnew : isNew board p = false)
      by (unfold isNew; rewrite Htile; by apply bool_decide_eq_false).
    split; cbn; try done.
    + unfold fitsCell. rewrite Htile. done.
    + unfold formsCrossWord. rewrite Hnew. cbn. lia.
    + unfold mainLetter. by rewrite Htile.
    + unfold mainFactor. rewrite Hnew. lia.
    + rewrite Hnew. lia.
    + unfold touchesBoard. rewrite Htile. cbn. by rewrite orb_true_r.
    + intros Hv. split; [done|]. unfold formsCrossWord. by rewrite Hnew.
  - destruct (anyNeighbourTile _ _) as [touching|] eqn:Hn;
      cbn [js_bind] in Hs; [|discriminate Hs].
    apply anyNeighbourTile_tileOf in Hn.
    destruct (takeFromRack _ _) as [rack'|] eqn:Hrack; [|discriminate Hs].
    assert (Hnew : isNew board p = true)
      by (unfold isNew; rewrite Htile; by apply bool_decide_eq_true).
    assert (Hlm : getMultiplierVal (multiplier cell) false
                  = letterMultAt board (at_row p) (at_col p))
      by (unfold letterMultAt; by rewrite Hof).
    assert (Hwm : getMultiplierVal (multiplier cell) true
                  = wordMultAt board (at_row p) (at_col p))
      by (unfold wordMultAt; by rewrite Hof).
    rewrite Hlm, Hwm in Hs.
    destruct (scoreCrossWord _ _ _ _ _ _ _ _ _) as [st''|] eqn:Hcross;
      cbn [js_bind] in Hs; [|discriminate Hs].
    injection Hs as <-.
    pose proof (scoreCrossWord_frame _ _ _ _ _ _ _ _ _ _ Hcross)
      as (Hm & Hf & Hu & Hra & Hte & Htc & Hav).
    apply scoreCrossWord_spec in Hcross as [Htot Hval]; [|done..].
    simpl in Hm, Hf, Hu, Hra, Hte, Htc, Hav, Htot.
    split.
    + done.
    + unfold fitsCell. rewrite Htile. congruence.
    + done.
    + unfold mainLetter. by rewrite Htile.
    + unfold mainFactor. by rewrite Hnew.
    + by rewrite Hnew.
    + done.
    + unfold touchesBoard. rewrite Htile, <- Hn. done.
    + auto.
Qed.

Lemma crossWordsTotal_cons board d p ps :
  crossWordsTotal board d (p :: ps)
  = (if formsCrossWord board d p then crossWordScore board d p else 0)
    + crossWordsTotal board d ps.
Proof.
  unfold crossWordsTotal. rewrite filter_cons.
  destruct (formsCrossWord board d p); case_decide; try done.
Qed.

Lemma tilesLaid_cons board p ps :
  tilesLaid board (p :: ps) = (if isNew board p then 1 else 0) + tilesLaid board ps.
Proof.
  unfold tilesLaid. rewrite filter_cons.
  destruct (isNew board p); case_decide; try done. simpl length. lia.
Qed.

Lemma scoreTiles_spec board nt d sr sc tiles i st st' :
  scoreTiles trie board nt d sr sc tiles i st = Ret (inl st') ->
  LoopSpec trie board nt d (placementsFrom tiles sr sc d i) st st'.
Proof.
  revert i st. induction tiles as [|t rest IH]; intros i st Hs; simpl in *.
  - injection Hs as <-. split; simpl; rewrite ?orb_false_r; auto; try lia.
    + unfold crossWordsTotal. simpl. lia.
    + unfold tilesLaid. simpl. lia.
  - destruct (scoreTile _ _ _ _ _ _ _ _) as [[st1|res]|] eqn:Hturn;
      cbn [js_bind] in Hs; try discriminate Hs.
    apply IH in Hs as [].
    set (p := {| at_row := sr + i * rowStep d; at_col := sc + i * colStep d;
                 placed := t |}) in *.
    apply (scoreTile_spec board nt d p) in Hturn as [].
    split; unfold sumZ, prodZ in *; rewrite ?fmap_cons; cbn [foldr existsb].
    + by constructor.
    + rewrite crossWordsTotal_cons. lia.
    + lia.
    + rewrite loop_factor0, turn_factor0. ring.
    + rewrite tilesLaid_cons. lia.
    + rewrite orb_assoc. congruence.
    + rewrite orb_assoc. congruence.
    + intros Hv. destruct loop_valid0 as [Hv1 Hall]; [done|].
      destruct turn_valid0 as [Hv0 Hp]; [done|]. split; [done|]. by constructor.
Qed.

Lemma finishScore_valid boardEmpty n st :
  isValid (finishScore boardEmpty n st) = true ->
  allWordsValid st = true
  /\ (if boardEmpty then touchesCenter st = true /\ (2 <= n)%nat
      else touchesExisting st = true)
  /\ score (finishScore boardEmpty n st)
     = totalScore st + mainWordScore st * mainWordMultiplier st
       + (if bool_decide (tilesUsedFromRack st = 7) then 50 else 0).
Proof.
  unfold finishScore.
  destruct boardEmpty, (touchesCenter st), (touchesExisting st),
    (allWordsValid st); cbn; try discriminate;
    repeat case_bool_decide; cbn; try discriminate; intros _;
    repeat split; try done; lia.
Qed.

(** The run of [calculateMoveScore] up to the end of its loop. *)
Lemma calculateMoveScore_valid board tiles rack sr sc d res :
  calculateMoveScore trie board tiles rack sr sc d = Ret res ->
  isValid res = true ->
  exists boardEmpty st0 st,
    isBoardEmpty board = Ret boardEmpty
    /\ totalScore st0 = 0 /\ mainWordScore st0 = 0 /\ mainWordMultiplier st0 = 1
    /\ tilesUsedFromRack st0 = 0 /\ rackAvailable st0 = rack
    /\ touchesExisting st0 = false /\ touchesCenter st0 = false
    /\ scoreTiles trie board (newTilesMapOf tiles sr sc (rowStep d) (colStep d)) d
         sr sc tiles 0 st0 = Ret (inl st)
    /\ res = finishScore boardEmpty (length tiles) st.
Proof.
  unfold calculateMoveScore. intros Hc Hv.
  js_step Hc. js_step Hc. js_step Hc. js_step Hc.
  match goal with
  | Hl : scoreTiles _ _ _ _ _ _ _ _ ?st0 = Ret ?x |- _ =>
      destruct x as [st|early]; [exists a, st0, st|]
  end.
  - injection Hc as <-. repeat split; done.
  - injection Hc as <-.
    match goal with
    | Hl : scoreTiles _ _ _ _ _ _ _ _ _ = Ret (inr _) |- _ =>
        apply scoreTiles_early in Hl as (e & -> & _)
    end.
    discriminate Hv.
Qed.


End ScoreSpec.

(** ** The validator on a board of the right shape *)

Section Rejections.
Context `{JSString} `{TrieDecoder}.
Variable trie : option FrozenTrie.

Lemma scoreCrossWord_returns board nt d r c lv wm st :
  wfBoard board -> soundTrie trie ->
  returns (scoreCrossWord trie board nt d r c lv wm st).
Proof.
  intros Hwf Hs. unfold scoreCrossWord.
  rewrite !tileIfInBounds_wf by done. cbn [js_bind].
  destruct (_ || _); [|apply returns_Ret].
  apply returns_bind; [by apply getFullWordString_wf|]. intros w _.
  apply returns_bind; [by apply validateWord_returns|]. intros ok _.
  apply returns_bind; [by apply sumRun_wf|]. intros before _.
  apply returns_bind; [by apply sumRun_wf|]. intros after _.
  apply returns_Ret.
Qed.

Lemma scoreTile_returns board nt d r c t st :
  wfBoard board -> soundTrie trie -> 0 <= r -> 0 <= c ->
  returns (scoreTile trie board nt d r c t st).
Proof.
  intros Hwf Hs Hr Hc. unfold scoreTile.
  destruct (_ || _) eqn:Hout; [apply returns_Ret|].
  apply orb_false_iff in Hout as [Hr' Hc']. apply bool_decide_eq_false in Hr', Hc'.
  assert (Hin : inBounds r c = true)
    by (apply inBounds_spec; unfold BOARD_SIZE in *; lia).
  destruct (cellAt_wf board r c Hwf Hin) as (cell & -> & _). cbn [js_bind].
  destruct (tile cell).
  - destruct (negb _); apply returns_Ret.
  - apply returns_bind; [by apply anyNeighbourTile_wf|]. intros touching _.
    destruct (takeFromRack _ _); [|apply returns_Ret].
    apply returns_bind; [by apply scoreCrossWord_returns|]. intros.
    apply returns_Ret.
Qed.

Lemma scoreTiles_returns board nt d sr sc tiles i st :
  wfBoard board -> soundTrie trie -> 0 <= sr -> 0 <= sc -> 0 <= i ->
  returns (scoreTiles trie board nt d sr sc tiles i st).
Proof.
  intros Hwf Hs Hr Hc. revert i st.
  induction tiles as [|t rest IH]; intros i st Hi; simpl; [apply returns_Ret|].
  apply returns_bind.
  - apply scoreTile_returns; auto; destruct d; simpl; lia.
  - intros [st'|res] _; [apply IH; lia | apply returns_Ret].
Qed.

(** A tile off the board ends the loop with a rejection: [OutOfBounds], or
    the rejection of a tile before it. *)
Lemma scoreTiles_offBoard board nt d sr sc tiles i st :
  wfBoard board -> soundTrie trie -> 0 <= sr -> 0 <= sc -> 0 <= i ->
  Exists (fun p => offBoard p = true) (placementsFrom tiles sr sc d i) ->
  exists e, scoreTiles trie board nt d sr sc tiles i st = Ret (inr (reject e))
         /\ isPerTileError e = true.
Proof.
  intros Hwf Hs Hr Hc. revert i st.
  induction tiles as [|t rest IH]; intros i st Hi Hex; simpl in *.
  - by apply Exists_nil in Hex.
  - destruct (scoreTile_returns board nt d (sr + i * rowStep d)
                (sc + i * colStep d) t st) as [[st'|res] Hturn];
      auto; try (destruct d; simpl; lia); rewrite Hturn; cbn [js_bind].
    + apply Exists_cons in Hex as [Hoff | Hex]; [|apply IH; [lia|done]].
      unfold scoreTile in Hturn. unfold offBoard in Hoff. simpl in Hoff.
      rewrite Hoff in Hturn. discriminate Hturn.
    + apply scoreTile_early in Hturn as (e & -> & He). eauto.
Qed.

(** A tile that fits lets the loop go on. *)
Lemma scoreTile_fits board nt d p rest st :
  wfBoard board -> soundTrie trie ->
  is_Some (rackAfter board (p :: rest) (rackAvailable st)) ->
  exists st1,
    scoreTile trie board nt d (at_row p) (at_col p) (placed p) st = Ret (inl st1)
    /\ rackAfter board (p :: rest) (rackAvailable st)
       = rackAfter board rest (rackAvailable st1).
Proof.
  intros Hwf Hs Hfit. cbn [rackAfter] in *.
  destruct (inBounds (at_row p) (at_col p)) eqn:Hin; [|by destruct Hfit].
  pose proof Hin as Hb. apply inBounds_spec in Hb.
  unfold scoreTile, BOARD_SIZE.
  rewrite !bool_decide_eq_false_2 by lia. cbn [orb].
  destruct (cellAt_wf board _ _ Hwf Hin) as (cell & -> & Hof). cbn [js_bind].
  unfold tileOf in *. rewrite Hof in *. cbn [mbind option_bind] in *.
  destruct (tile cell) as [onBoard|].
  - destruct (streq _ _); [|by destruct Hfit]. cbn [negb]. eauto.
  - destruct (anyNeighbourTile_wf board (neighbours (at_row p) (at_col p)) Hwf)
      as [touching ->]. cbn [js_bind].
    destruct (takeFromRack _ _) as [rack'|]; [|by destruct Hfit].
    cbn [mbind option_bind] in *.
    match goal with
    | |- context [scoreCrossWord trie board nt d ?r ?c ?lv ?wm ?st1] =>
        destruct (scoreCrossWord_returns board nt d r c lv wm st1 Hwf Hs)
          as [st2 Hcross]
    end.
    rewrite Hcross. cbn [js_bind]. exists st2. split; [done|].
    apply scoreCrossWord_frame in Hcross as (_ & _ & _ & -> & _). done.
Qed.


(** The loop stops at the first tile off the board with [OutOfBounds] when
    the tiles before it fit. *)
Lemma scoreTiles_stops_offBoard board nt d sr sc pre t post i st :
  wfBoard board -> soundTrie trie ->
  candidateFits board (placementsFrom pre sr sc d i) (rackAvailable st) ->
  offBoard {| at_row := sr + (i + Z.of_nat (length pre)) * rowStep d;
              at_col := sc + (i + Z.of_nat (length pre)) * colStep d;
              placed := t |} = true ->
  scoreTiles trie board nt d sr sc (pre ++ t :: post) i st
  = Ret (inr (reject OutOfBounds)).
Proof.
  intros Hwf Hs. unfold candidateFits. revert i st.
  induction pre as [|t0 pre IH]; intros i st Hfit Hoff;
    cbn [scoreTiles placementsFrom app length] in *.
  - rewrite Z.add_0_r in Hoff. unfold scoreTile.
    unfold offBoard in Hoff. simpl in Hoff. by rewrite Hoff.
  - eapply scoreTile_fits in Hfit as Hturn; eauto.
    destruct Hturn as (st1 & Hturn & Hrack). simpl in Hturn.
    rewrite Hturn. cbn [js_bind]. apply IH; [by rewrite <- Hrack|].
    replace (i + 1 + Z.of_nat (length pre)) with (i + Z.of_nat (S (length pre)))
      by lia. done.
Qed.

(** On a board of the right shape and with a sound trie
    [calculateMoveScore] reaches its loop. *)
Lemma calculateMoveScore_loop board tiles rack sr sc d :
  wfBoard board -> soundTrie trie ->
  exists st0,
    rackAvailable st0 = rack /\ touchesCenter st0 = false
    /\ touchesExisting st0 = false
    /\ calculateMoveScore trie board tiles rack sr sc d
       = (let! looped := scoreTiles trie board
                           (newTilesMapOf tiles sr sc (rowStep d) (colStep d))
                           d sr sc tiles 0 st0 in
          match looped with
          | inl st => Ret (finishScore (negb (boardOccupied board)) (length tiles) st)
          | inr result => Ret result
          end).
Proof.
  intros Hwf Hs. unfold calculateMoveScore.
  rewrite isBoardEmpty_wf by done. cbn [js_bind].
  destruct (getFullWordString_wf board
              (newTilesMapOf tiles sr sc (rowStep d) (colStep d))
              sr sc (rowStep d) (colStep d) Hwf) as [main ->].
  cbn [js_bind].
  assert (returns (if bool_decide (1 < length main)%nat
                   then validateWord trie main else Ret true)) as [ok ->].
  { destruct (bool_decide _); [by apply validateWord_returns|apply returns_Ret]. }
  cbn [js_bind]. eexists. repeat split; reflexivity.
Qed.









(** A candidate with no tile at all is rejected on every 15 x 15 board: the
    loop over the tiles has no turn, so the candidate neither covers the
    centre nor touches the board. *)
Lemma empty_candidate_is_rejected (board : Board) (rack : list jsstring)
  (sr sc : Z) (d : Direction) :
  wfBoard board -> soundTrie trie ->
  calculateMoveScore trie board [] rack sr sc d
  = Ret (reject (if boardOccupied board then NotConnected else MissingCenter)).
Proof.
  intros Hwf Hs.
  destruct (calculateMoveScore_loop board [] rack sr sc d Hwf Hs)
    as (st0 & _ & Hcentre & Htouch & ->).
  cbn [scoreTiles js_bind]. unfold finishScore.
  rewrite Hcentre, Htouch. by destruct (boardOccupied board).
Qed.

End Rejections.

(** ** The scenarios of the specification *)

Lemma createInitialBoard_wf : wfBoard createInitialBoard.
Proof. split; [reflexivity|]. repeat constructor. Qed.

Lemma boardWithCASA_wf : wfBoard boardWithCASA.
Proof. split; [reflexivity|]. repeat constructor. Qed.

(** The counts of the table decoder are natural numbers. *)
Lemma tableDecoder_sound (trie : option FrozenTrie) : soundTrie trie.
Proof.
  intros t _ node Hnode.
  assert (exists i, node = tableDecode t i) as [i ->].
  { destruct Hnode as [|node child _ Hchild]; [by exists 0|].
    unfold children in Hchild. apply list_elem_of_fmap in Hchild as (j & -> & _).
    by eexists. }
  simpl. apply N2Z.is_nonneg.
Qed.

(** A trie whose nodes 0 to [n - 1] have counts that are not negative and
    children among them is sound: the nodes reached from the root are among
    them. *)
Lemma closed_trie_sound `{TrieDecoder} (t : FrozenTrie) (n : Z) :
  0 < n ->
  (forall i, 0 <= i < n ->
     0 <= childCount (getNodeByIndex t i)
     /\ (0 < childCount (getNodeByIndex t i) ->
         0 <= firstChild (getNodeByIndex t i)
         /\ firstChild (getNodeByIndex t i) + childCount (getNodeByIndex t i) <= n)) ->
  soundTrie (Some t).
Proof.
  intros Hn Hnodes t' [= <-] node Hnode.
  assert (exists i, 0 <= i < n /\ node = getNodeByIndex t i) as (i & Hi & ->).
  { induction Hnode as [|node child _ (i & Hi & ->) Hchild].
    - exists 0. split; [lia|done].
    - unfold children in Hchild.
      apply list_elem_of_fmap in Hchild as (j & -> & Hj).
      apply elem_of_seq in Hj. unfold getChild.
      destruct (Hnodes i Hi) as [Hcount Hkids].
      eexists. split; [|reflexivity]. lia. }
  by apply Hnodes.
Qed.

(** The nine nodes of the succinct example, read by the decoder of the
    source: the counts are 3, 1, 1, 1, 0, 1, 0, 1 and 0, and the children
    lie among the nine. The nodes before and after them, which have counts
    below 0, are not reached. *)
Lemma succinctTrie_sound : @soundTrie sourceDecoder (Some succinctTrie).
Proof.
  apply (@closed_trie_sound sourceDecoder succinctTrie 9); [done|].
  intros i Hi.
  assert (i ∈ seqZ 0 9) as Hin by (apply elem_of_seqZ; lia).
  clear Hi. revert i Hin. apply Forall_forall.
  match goal with |- ?P => apply (bool_decide_unpack P) end.
  by vm_compute.
Qed.






(** ** The best-move finder *)

Lemma mapJS_elem {A B} (f : A -> JS B) (l : list A) (l' : list B) (y : B) :
  mapJS f l = Ret l' -> y ∈ l' -> exists x, x ∈ l /\ f x = Ret y.
Proof.
  revert l'. induction l as [|a rest IH]; intros l' Hm Hy; simpl in Hm.
  - injection Hm as <-. by apply elem_of_nil in Hy.
  - js_step Hm. js_step Hm. injection Hm as <-.
    apply elem_of_cons in Hy as [-> | Hy].
    + exists a. split; [apply list_elem_of_here | done].
    + destruct (IH _ eq_refl Hy) as (x & Hx & Hfx).
      exists x. split; [by apply list_elem_of_further | done].
Qed.

Lemma dedupInsert_elem (m x : PlayerMove) (entries : list PlayerMove) :
  x ∈ dedupInsert m entries -> x = m \/ x ∈ entries.
Proof.
  induction entries as [|e rest IH]; simpl.
  - intros Hx. apply list_elem_of_singleton in Hx. by left.
  - destruct (bool_decide (moveKey e = moveKey m)).
    + destruct (bool_decide (scoreOrZero e < scoreOrZero m));
        rewrite !elem_of_cons; tauto.
    + rewrite !elem_of_cons. intros [-> | Hx]; [tauto|].
      destruct (IH Hx); tauto.
Qed.

Lemma dedupMoves_elem (x : PlayerMove) (moves : list PlayerMove) :
  x ∈ dedupMoves moves -> x ∈ moves.
Proof.
  unfold dedupMoves.
  assert (forall acc, x ∈ foldl (fun entries m => dedupInsert m entries) acc moves ->
                      x ∈ acc \/ x ∈ moves) as Hgen.
  { induction moves as [|m rest IH]; simpl; intros acc Hx; [by left|].
    apply IH in Hx as [Hx | Hx].
    - apply dedupInsert_elem in Hx as [-> | Hx]; [right; left | by left].
    - right. by right. }
  intros Hx. apply Hgen in Hx as [Hx | Hx]; [by apply elem_of_nil in Hx | done].
Qed.

Lemma insertByScore_elem (m x : PlayerMove) (sorted : list PlayerMove) :
  x ∈ insertByScore m sorted -> x = m \/ x ∈ sorted.
Proof.
  induction sorted as [|e rest IH]; simpl.
  - intros Hx. apply list_elem_of_singleton in Hx. by left.
  - destruct (bool_decide (scoreOrZero e <= scoreOrZero m)).
    + rewrite !elem_of_cons. tauto.
    + rewrite !elem_of_cons. intros [-> | Hx]; [tauto|].
      destruct (IH Hx); tauto.
Qed.

Lemma sortByScore_elem (x : PlayerMove) (moves : list PlayerMove) :
  x ∈ sortByScore moves -> x ∈ moves.
Proof.
  unfold sortByScore. induction moves as [|m rest IH]; simpl; [done|].
  intros Hx. apply insertByScore_elem in Hx as [-> | Hx].
  - apply list_elem_of_here.
  - apply list_elem_of_further. auto.
Qed.

Lemma sliceTo_elem {A} (n : Z) (l : list A) (x : A) : x ∈ sliceTo n l -> x ∈ l.
Proof.
  unfold sliceTo. destruct (bool_decide (0 <= n)); apply list_elem_of_take_1 || idtac.
  all: intros Hx; apply list_elem_of_lookup in Hx as [i Hi];
       apply lookup_take_Some in Hi as [Hi _]; by eapply list_elem_of_lookup_2.
Qed.

Section FinderFacts.
Context `{JSString} `{TrieDecoder}.

Lemma rescore_kept trie board rack m m' :
  rescore trie board rack m = Ret m' -> keepScored m' = true ->
  validatedMove trie board rack m'.
Proof.
  unfold rescore. intros Hr Hk. js_step Hr. injection Hr as <-.
  unfold keepScored in Hk. simpl in Hk. unfold validatedMove. simpl.
  destruct (isValid a) eqn:Hv; [|discriminate Hk].
  apply bool_decide_eq_true in Hk. eauto 10.
Qed.

(** C2. Every move that [findBestMoves] returns is one that
    [calculateMoveScore], called on the same board and rack with the move's
    tiles, row, column and direction, accepts with a score above 0. *)
Theorem findBestMoves_returns_valid_moves (trie : option FrozenTrie)
  (board : Board) (rack : list jsstring) (limit : Z) (moves : list PlayerMove) :
  findBestMoves trie board rack limit = Ret moves ->
  Forall (validatedMove trie board rack) moves.
Proof.
  unfold findBestMoves. intros Hf. destruct trie as [t|].
  - do 5 js_step Hf. injection Hf as <-.
    apply Forall_forall. intros m Hm.
    apply sliceTo_elem, sortByScore_elem, dedupMoves_elem in Hm.
    apply list_elem_of_filter in Hm as [Hkeep Hm].
    match goal with
    | Hs : mapJS _ _ = Ret _ |- _ =>
        destruct (mapJS_elem _ _ _ _ Hs Hm) as (m0 & _ & Hres)
    end.
    eapply rescore_kept; eauto.
  - injection Hf as <-. constructor.
Qed.

End FinderFacts.

(** The rack C, A, S, A on the empty board: the finder returns moves, and
    the validator accepts each of them. *)
Lemma findBestMoves_returns_valid_moves_witness :
  exists moves,
    findBestMoves (Some exampleTrie) createInitialBoard rackCASA 10 = Ret moves
    /\ length moves = 10%nat
    /\ Forall (validatedMove (Some exampleTrie) createInitialBoard rackCASA) moves.
Proof.
  eexists. split; [vm_compute; reflexivity|]. split; [reflexivity|].
  apply (findBestMoves_returns_valid_moves (Some exampleTrie) createInitialBoard
           rackCASA 10).
  vm_compute. reflexivity.
Defined.

(** ** The round trip of the tile parser *)

Lemma isL_spec c : isL c = true <-> c = c_L \/ c = c_l.
Proof. unfold isL. rewrite orb_true_iff, !bool_decide_eq_true. tauto. Qed.
Lemma isQ_spec c : isQ c = true <-> c = c_Q \/ c = c_q.
Proof. unfold isQ. rewrite orb_true_iff, !bool_decide_eq_true. tauto. Qed.
Lemma isU_spec c : isU c = true <-> c = c_U \/ c = c_u.
Proof. unfold isU. rewrite orb_true_iff, !bool_decide_eq_true. tauto. Qed.
Lemma isN_spec c : isN c = true <-> c = c_N \/ c = c_n.
Proof. unfold isN. rewrite orb_true_iff, !bool_decide_eq_true. tauto. Qed.
Lemma isY_spec c : isY c = true <-> c = c_Y \/ c = c_y.
Proof. unfold isY. rewrite orb_true_iff, !bool_decide_eq_true. tauto. Qed.
Lemma isSep_spec c : isSep c = true <-> c = c_middot \/ c = c_dot \/ c = c_hyphen.
Proof. unfold isSep. rewrite !orb_true_iff, !bool_decide_eq_true. tauto. Qed.

Section ParserByUnits.
Context `{CaseLaws}.

Lemma streq_upper_LL (s : jsstring) (sep : jschar) :
  (length s <= 3)%nat -> isSep sep = true ->
  streq (toUpperCase s) [c_L; sep; c_L]
  = match s with
    | [a; x; b] => isL a && bool_decide (x = sep) && isL b
    | _ => false
    end.
Proof.
  intros Hlen Hsep. apply isSep_spec in Hsep. apply eq_true_iff_eq.
  unfold streq. rewrite bool_decide_eq_true, (upper_LL s sep Hlen Hsep). split.
  - intros (a & b & -> & Ha & Hb). apply isL_spec in Ha, Hb.
    by rewrite Ha, Hb, bool_decide_eq_true_2.
  - destruct s as [|a [|x [|b [|]]]]; try discriminate.
    rewrite !andb_true_iff, bool_decide_eq_true, !isL_spec.
    intros [[Ha ->] Hb]. eauto.
Qed.

Lemma ligature_test (c : jschar) (rest : jsstring) :
  includes [s_LmidL; s_LdotL; s_LhypL]
    (toUpperCase ([c] ++ take 1 rest ++ take 1 (drop 1 rest)))
  = match rest with
    | x :: y :: _ => isL c && isSep x && isL y
    | _ => false
    end.
Proof.
  unfold includes, s_LmidL, s_LdotL, s_LhypL. cbn [existsb].
  rewrite !streq_upper_LL;
    try reflexivity; try (destruct rest as [|x [|y r]]; simpl; lia).
  destruct rest as [|x [|y r]]; try reflexivity. cbn.
  unfold isSep. rewrite !take_0.
  destruct (isL c), (isL y); cbn; rewrite ?andb_false_r; try done.
  by destruct (bool_decide (x = c_middot)), (bool_decide (x = c_dot)),
       (bool_decide (x = c_hyphen)).
Qed.

Lemma streq_upper_QU (s : jsstring) :
  (length s <= 2)%nat ->
  streq (toUpperCase s) s_QU
  = match s with [a; b] => isQ a && isU b | _ => false end.
Proof.
  intros Hlen. apply eq_true_iff_eq.
  unfold streq. rewrite bool_decide_eq_true, (upper_QU s Hlen). split.
  - intros (a & b & -> & Ha & Hb). apply isQ_spec in Ha. apply isU_spec in Hb.
    by rewrite Ha, Hb.
  - destruct s as [|a [|b [|]]]; try discriminate.
    rewrite andb_true_iff, isQ_spec, isU_spec. intros [Ha Hb]. eauto.
Qed.

Lemma streq_upper_NY (s : jsstring) :
  (length s <= 2)%nat ->
  streq (toUpperCase s) s_NY
  = match s with [a; b] => isN a && isY b | _ => false end.
Proof.
  intros Hlen. apply eq_true_iff_eq.
  unfold streq. rewrite bool_decide_eq_true, (upper_NY s Hlen). split.
  - intros (a & b & -> & Ha & Hb). apply isN_spec in Ha. apply isY_spec in Hb.
    by rewrite Ha, Hb.
  - destruct s as [|a [|b [|]]]; try discriminate.
    rewrite andb_true_iff, isN_spec, isY_spec. intros [Ha Hb]. eauto.
Qed.

Lemma streq_lower (c C l : jschar) :
  toLowerCase [C] = [l] -> toLowerCase [l] = [l] -> C <> l ->
  c = C \/ c = l ->
  streq [c] (toLowerCase [c]) = bool_decide (c = l).
Proof.
  intros HC Hl Hne [-> | ->]; unfold streq.
  - rewrite HC, !bool_decide_eq_false_2; congruence.
  - rewrite Hl, !bool_decide_eq_true_2; congruence.
Qed.

Lemma digraph_test (c : jschar) (rest : jsstring) :
  includes [s_QU; s_NY] (toUpperCase ([c] ++ take 1 rest))
  = match rest with
    | x :: _ => isQ c && isU x || isN c && isY x
    | [] => false
    end.
Proof.
  unfold includes. cbn [existsb].
  rewrite streq_upper_QU, streq_upper_NY by (destruct rest; simpl; lia).
  destruct rest as [|x r]; [reflexivity|].
  change (take 1 (x :: r)) with (x :: take 0 r). rewrite take_0. cbn [app].
  by rewrite orb_false_r.
Qed.

Lemma upper_Q_test (c : jschar) : streq (toUpperCase [c]) [c_Q] = isQ c.
Proof.
  apply eq_true_iff_eq. unfold streq.
  by rewrite bool_decide_eq_true, upper_Q, isQ_spec.
Qed.

Lemma streq_single (a b : jschar) : streq [a] [b] = bool_decide (a = b).
Proof. unfold streq. apply bool_decide_ext. split; congruence. Qed.

Lemma blank_test_L c : isL c = true -> streq [c] (toLowerCase [c]) = bool_decide (c = c_l).
Proof.
  intros Hc. apply isL_spec in Hc.
  apply (streq_lower c c_L c_l); auto using lower_L, lower_l; done.
Qed.

Lemma blank_test_Q c : isQ c = true -> streq [c] (toLowerCase [c]) = bool_decide (c = c_q).
Proof.
  intros Hc. apply isQ_spec in Hc.
  apply (streq_lower c c_Q c_q); auto using lower_Q, lower_q; done.
Qed.

Lemma blank_test_N c : isN c = true -> streq [c] (toLowerCase [c]) = bool_decide (c = c_n).
Proof.
  intros Hc. apply isN_spec in Hc.
  apply (streq_lower c c_N c_n); auto using lower_N, lower_n; done.
Qed.

(** The parser of the source reads the code units as [parseUnit] does. *)
Lemma parseStep_parseUnit (c : jschar) (rest : jsstring) :
  parseStep c rest = ([(parseUnit c rest).1], (parseUnit c rest).2).
Proof.
  assert (Hdigraph : forall x r,
    (if isL c && isSep x && match r with y :: _ => isL y | [] => false end
     then true else false) = false ->
    parseStep c (x :: r)
    = ([(digraphUnit c (x :: r)).1], (digraphUnit c (x :: r)).2)).
  { intros x r Hnl. unfold parseStep. rewrite ligature_test, digraph_test.
    rewrite upper_Q_test, streq_single.
    assert ((match x :: r with
             | x0 :: y :: _ => isL c && isSep x0 && isL y
             | _ => false
             end) = false) as ->.
    { destruct r as [|y r]; [done|]. by destruct (isL c && isSep x && isL y). }
    unfold digraphUnit, plainUnit.
    change (take 1 (x :: r)) with (x :: take 0 r). rewrite take_0. cbn [app].
    destruct (isQ c && isU x) eqn:Hqu.
    - apply andb_true_iff in Hqu as [Hq Hu]. cbn [orb].
      assert (toUpperCase [c; x] = s_QU) as ->.
      { apply upper_QU; [simpl; lia|]. apply isQ_spec in Hq. apply isU_spec in Hu.
        eauto. }
      change (DIGRAPH_MAP s_QU) with (Some [c_Ucirc]). cbn iota.
      rewrite blank_test_Q, lower_Ucirc by done.
      by destruct (bool_decide (c = c_q)).
    - cbn [orb]. destruct (isN c && isY x) eqn:Hny.
      + apply andb_true_iff in Hny as [Hn Hy].
        assert (toUpperCase [c; x] = s_NY) as ->.
        { apply upper_NY; [simpl; lia|]. apply isN_spec in Hn. apply isY_spec in Hy.
          eauto. }
        change (DIGRAPH_MAP s_NY) with (Some [c_Yacute]). cbn iota.
        rewrite blank_test_N, lower_Yacute by done.
        by destruct (bool_decide (c = c_n)).
      + destruct (isQ c); [|done]. by destruct (bool_decide (c = c_q)). }
  destruct rest as [|x [|y r]].
  - unfold parseStep. rewrite ligature_test, digraph_test, upper_Q_test, streq_single.
    unfold parseUnit, digraphUnit, plainUnit.
    destruct (isQ c); [|done]. by destruct (bool_decide (c = c_q)).
  - unfold parseUnit. apply Hdigraph. by rewrite andb_false_r.
  - unfold parseUnit. destruct (isL c && isSep x && isL y) eqn:Hll.
    + unfold parseStep. rewrite ligature_test, Hll.
      apply andb_true_iff in Hll as [Hll _]. apply andb_true_iff in Hll as [Hl _].
      rewrite blank_test_L by done. by destruct (bool_decide (c = c_l)).
    + apply Hdigraph. by rewrite Hll.
Qed.

End ParserByUnits.

(** *** The parser by code units *)

Lemma parseUnit_consumed c rest :
  (1 <= (parseUnit c rest).2 <= 3)%nat.
Proof.
  unfold parseUnit, digraphUnit, plainUnit.
  repeat match goal with
         | |- context [match ?x with _ => _ end] => destruct x
         end; simpl; lia.
Qed.

Lemma unitsLoop_fuel (n fuel1 fuel2 : nat) (w : jsstring) :
  (length w <= n)%nat -> (n <= fuel1)%nat -> (n <= fuel2)%nat ->
  unitsLoop fuel1 w = unitsLoop fuel2 w.
Proof.
  revert fuel1 fuel2 w.
  induction n as [|n IH]; intros fuel1 fuel2 w Hw H1 H2.
  - destruct w; [|simpl in Hw; lia]. by destruct fuel1, fuel2.
  - destruct w as [|c tl]; [by destruct fuel1, fuel2|].
    destruct fuel1 as [|fuel1]; [lia|]. destruct fuel2 as [|fuel2]; [lia|].
    simpl. pose proof (parseUnit_consumed c tl) as Hk.
    destruct (parseUnit c tl) as [u k]. simpl in Hk. f_equal.
    apply IH; try lia. rewrite length_drop. cbn [length] in *. lia.
Qed.

Lemma units_cons c rest :
  units (c :: rest)
  = (parseUnit c rest).1 :: units (drop ((parseUnit c rest).2 - 1) rest).
Proof.
  unfold units. simpl. pose proof (parseUnit_consumed c rest) as Hk.
  destruct (parseUnit c rest) as [u k]. simpl in *. f_equal.
  destruct k as [|k]; [lia|]. simpl. rewrite Nat.sub_0_r.
  apply (unitsLoop_fuel (length (drop k rest))); rewrite ?length_drop; lia.
Qed.

Lemma parseUnit_kind c rest :
  StepKind c rest (parseUnit c rest).1 (parseUnit c rest).2.
Proof.
  assert (Hdig : (forall x y r, rest = x :: y :: r ->
                                isL c && isSep x && isL y = false) ->
                 StepKind c rest (digraphUnit c rest).1 (digraphUnit c rest).2).
  { intros Hnl. unfold digraphUnit, plainUnit. destruct rest as [|x r].
    - destruct (isQ c) eqn:Hq; simpl; [by apply step_Q|].
      by apply step_plain.
    - destruct (isQ c && isU x) eqn:Hqu; simpl.
      { apply andb_true_iff in Hqu as [Hq Hu]. by eapply step_QU. }
      destruct (isN c && isY x) eqn:Hny; simpl.
      { apply andb_true_iff in Hny as [Hn Hy]. by eapply step_NY. }
      destruct (isQ c) eqn:Hq; simpl; [by apply step_Q|].
      apply step_plain; [done|done|]. by intros ? ? [= <- <-]. }
  unfold parseUnit. destruct rest as [|x [|y r]]; try (apply Hdig; by intros).
  destruct (isL c && isSep x && isL y) eqn:Hll.
  - apply andb_true_iff in Hll as [Hll Hy]. apply andb_true_iff in Hll as [Hl Hx].
    simpl. by eapply step_ligature.
  - apply Hdig. by intros ? ? ? [= <- <- <-].
Qed.

(** A code unit that starts no grapheme is read alone, whatever follows. *)
Lemma parseUnit_inert u rest :
  isL u = false -> isQ u = false -> isN u = false -> parseUnit u rest = (u, 1%nat).
Proof.
  intros Hl Hq Hn. unfold parseUnit, digraphUnit, plainUnit.
  rewrite Hl, Hq, Hn. cbn. by destruct rest as [|x [|y r]].
Qed.

Lemma units_inert u rest :
  isL u = false -> isQ u = false -> isN u = false ->
  units (u :: rest) = u :: units rest.
Proof.
  intros. rewrite units_cons, parseUnit_inert by done. simpl. by rewrite drop_0.
Qed.

Lemma units_display_Lstroke rest :
  units (displayUnit c_Lstroke ++ rest) = c_Lstroke :: units rest.
Proof.
  change (displayUnit c_Lstroke ++ rest) with (c_L :: c_middot :: c_L :: rest).
  by rewrite units_cons.
Qed.

Lemma units_display_Ucirc rest :
  units (displayUnit c_Ucirc ++ rest) = c_Ucirc :: units rest.
Proof.
  change (displayUnit c_Ucirc ++ rest) with (c_Q :: c_U :: rest).
  rewrite units_cons. by destruct rest.
Qed.

Lemma units_display_Yacute rest :
  units (displayUnit c_Yacute ++ rest) = c_Yacute :: units rest.
Proof.
  change (displayUnit c_Yacute ++ rest) with (c_N :: c_Y :: rest).
  rewrite units_cons. by destruct rest.
Qed.

(** *** Display and parse again *)

Lemma displayUnit_cases u :
  (u = c_Ucirc /\ displayUnit u = s_QU)
  \/ (u = c_Lstroke /\ displayUnit u = s_LmidL)
  \/ (u = c_Yacute /\ displayUnit u = s_NY)
  \/ (u <> c_Ucirc /\ u <> c_Lstroke /\ u <> c_Yacute /\ displayUnit u = [u]).
Proof.
  unfold displayUnit, REVERSE_DIGRAPH_MAP. rewrite !streq_single.
  repeat case_bool_decide; subst; simpl; auto 10.
Qed.

Lemma parseUnit_plain c rest :
  isQ c = false ->
  (forall x y r, rest = x :: y :: r -> isL c && isSep x && isL y = false) ->
  (forall x r, rest = x :: r -> isN c && isY x = false) ->
  parseUnit c rest = (c, 1%nat).
Proof.
  intros Hq Hl Hn. unfold parseUnit, digraphUnit, plainUnit. rewrite Hq. cbn [andb].
  destruct rest as [|x [|y r]].
  - done.
  - by rewrite (Hn x []).
  - by rewrite (Hl x y r), (Hn x (y :: r)).
Qed.

(** The parse of [c :: rest] with its kind. *)
Lemma units_kind c rest :
  exists u k, StepKind c rest u k
           /\ units (c :: rest) = u :: units (drop (k - 1) rest).
Proof.
  exists (parseUnit c rest).1, (parseUnit c rest).2.
  split; [apply parseUnit_kind | apply units_cons].
Qed.

(** A dot, a hyphen or a Y at the head of the display form was read alone
    at the head of the word. *)
Lemma display_head_inert w x :
  head (displayWord (units w)) = Some x -> isSep x || isY x = true ->
  exists w', w = x :: w' /\ units w = x :: units w'.
Proof.
  intros Hhead Hx. destruct w as [|c rest]; [discriminate Hhead|].
  destruct (units_kind c rest) as (u & k & Hkind & Hunits).
  rewrite Hunits in Hhead. unfold displayWord in Hhead.
  rewrite fmap_cons in Hhead. cbn [concat] in Hhead.
  destruct Hkind.
  1-4: exfalso; repeat case_bool_decide; injection Hhead as <-; discriminate Hx.
  destruct (displayUnit_cases c) as [[-> _]|[[-> _]|[[-> _]|(_ & _ & _ & Hd)]]].
  1-3: exfalso; injection Hhead as <-; discriminate Hx.
  rewrite Hd in Hhead. injection Hhead as ->.
  exists rest. split; [done|]. by rewrite Hunits, drop_0.
Qed.

(** An L at the head of the display form stood at the head of the word,
    when the word holds no internal code of L.L. *)
Lemma display_head_L w y :
  c_Lstroke ∉ w -> head (displayWord (units w)) = Some y -> isL y = true ->
  head w = Some y.
Proof.
  intros Hno Hhead Hy. destruct w as [|c rest]; [discriminate Hhead|].
  destruct (units_kind c rest) as (u & k & Hkind & Hunits).
  rewrite Hunits in Hhead. unfold displayWord in Hhead.
  rewrite fmap_cons in Hhead. cbn [concat] in Hhead.
  destruct Hkind as [x y' r _ Hc _ _| | | |].
  - case_bool_decide; injection Hhead as <-; [discriminate Hy|].
    apply isL_spec in Hc as [-> | ->]; done.
  - exfalso; case_bool_decide; injection Hhead as <-; discriminate Hy.
  - exfalso; case_bool_decide; injection Hhead as <-; discriminate Hy.
  - exfalso; case_bool_decide; injection Hhead as <-; discriminate Hy.
  - destruct (displayUnit_cases c) as [[-> _]|[[-> _]|[[-> _]|(_ & _ & _ & Hd)]]].
    + exfalso; injection Hhead as <-; discriminate Hy.
    + exfalso. apply Hno, list_elem_of_here.
    + exfalso; injection Hhead as <-; discriminate Hy.
    + rewrite Hd in Hhead. by injection Hhead as ->.
Qed.

(** The parse of the display form of a parse, by code units. *)
Lemma units_displayWord w :
  c_Lstroke ∉ w -> units (displayWord (units w)) = units w.
Proof.
  remember (length w) as n eqn:Hn. revert w Hn.
  induction n as [n IH] using lt_wf_ind. intros w -> Hno.
  destruct w as [|c rest]; [reflexivity|].
  destruct (units_kind c rest) as (u & k & Hkind & Hunits).
  rewrite Hunits. unfold displayWord. rewrite fmap_cons. cbn [concat].
  fold (displayWord (units (drop (k - 1) rest))).
  assert (Hrest : units (displayWord (units (drop (k - 1) rest)))
                  = units (drop (k - 1) rest)).
  { apply (IH (length (drop (k - 1) rest))); [|done|].
    - rewrite length_drop. simpl. lia.
    - intros Hin. apply Hno. apply list_elem_of_further.
      by apply (subseteq_drop (k - 1) rest). }
  assert (Hlower : forall v, isL v = false -> isQ v = false -> isN v = false ->
                             displayUnit v = [v] ->
                             units (displayUnit v
                                    ++ displayWord (units (drop (k - 1) rest)))
                             = v :: units (drop (k - 1) rest)).
  { intros v ? ? ? ->. cbn [app]. rewrite units_inert by done. by rewrite Hrest. }
  destruct Hkind as [x y r _ _ _ _|x r _ _ _|x r _ _ _|_|Hq Hlig Hny].
  - case_bool_decide; [by apply Hlower|]. by rewrite units_display_Lstroke, Hrest.
  - case_bool_decide; [by apply Hlower|]. by rewrite units_display_Ucirc, Hrest.
  - case_bool_decide; [by apply Hlower|]. by rewrite units_display_Yacute, Hrest.
  - case_bool_decide; [by apply Hlower|]. by rewrite units_display_Ucirc, Hrest.
  - cbn [Nat.sub] in *. rewrite drop_0 in *.
    destruct (displayUnit_cases c) as [[-> _]|[[-> _]|[[-> _]|(_ & _ & _ & Hd)]]].
    + by rewrite units_display_Ucirc, Hrest.
    + exfalso. apply Hno, list_elem_of_here.
    + by rewrite units_display_Yacute, Hrest.
    + rewrite Hd. cbn [app]. rewrite units_cons, parseUnit_plain; [| done | |].
      * cbn [fst snd Nat.sub]. by rewrite drop_0, Hrest.
      * intros x y r Hd'.
        destruct (isL c && isSep x && isL y) eqn:Hll; [exfalso|done].
        apply andb_true_iff in Hll as [Hll Hy].
        apply andb_true_iff in Hll as [Hl Hx].
        destruct (display_head_inert rest x) as (w' & -> & Hu');
          [by rewrite Hd' | by rewrite Hx |].
        rewrite Hu' in Hd'. unfold displayWord in Hd'.
        rewrite fmap_cons in Hd'. cbn [concat] in Hd'.
        assert (displayUnit x = [x]) as Hdx.
        { destruct (displayUnit_cases x) as [[-> _]|[[-> _]|[[-> _]|(_ & _ & _ & ?)]]];
            try discriminate Hx. done. }
        rewrite Hdx in Hd'. injection Hd' as Hd'.
        assert (head w' = Some y) as Hw'.
        { apply display_head_L; [|unfold displayWord; by rewrite Hd'|done].
          intros Hin. apply Hno. by do 2 apply list_elem_of_further. }
        destruct w' as [|y' w'']; [discriminate Hw'|]. injection Hw' as ->.
        specialize (Hlig x y w'' eq_refl). by rewrite Hl, Hx, Hy in Hlig.
      * intros x r Hd'.
        destruct (isN c && isY x) eqn:Hcy; [exfalso|done].
        apply andb_true_iff in Hcy as [Hc Hy].
        destruct (display_head_inert rest x) as (w' & -> & _);
          [by rewrite Hd' | by rewrite Hy, orb_true_r |].
        specialize (Hny x w' eq_refl). by rewrite Hc, Hy in Hny.
Qed.

Lemma hostWord_no_Lstroke w : hostWord w = true -> c_Lstroke ∉ w.
Proof.
  unfold hostWord. rewrite forallb_forall. intros Hw Hin.
  apply list_elem_of_In, Hw in Hin. discriminate Hin.
Qed.

Lemma concat_singletons (l : jsstring) : concat ((fun u => [u]) <$> l) = l.
Proof. induction l as [|u l IH]; [done|]. rewrite fmap_cons. cbn [concat app]. by rewrite IH. Qed.

Section RoundTrip.
Context `{CaseLaws}.

Lemma createTile_char (s : jsstring) : char (createTile s) = s.
Proof.
  unfold createTile. destruct (streq s [c_qmark]) eqn:E; [|done].
  unfold streq in E. by apply bool_decide_eq_true in E as ->.
Qed.

Lemma parseLoop_units fuel w :
  parseLoop fuel w = (fun u => createTile [u]) <$> unitsLoop fuel w.
Proof.
  revert w. induction fuel as [|fuel IH]; intros [|c tl]; try reflexivity.
  cbn [parseLoop unitsLoop]. rewrite parseStep_parseUnit.
  destruct (parseUnit c tl) as [u k]. cbn [fst snd].
  by rewrite fmap_cons, IH.
Qed.

Lemma parseInputWord_units w :
  parseInputWord w = (fun u => createTile [u]) <$> units w.
Proof. apply parseLoop_units. Qed.

Lemma tilesToWord_parseInputWord w : tilesToWord (parseInputWord w) = units w.
Proof.
  unfold tilesToWord. rewrite parseInputWord_units, <- list_fmap_compose.
  rewrite <- (concat_singletons (units w)) at 2. f_equal.
  apply list_fmap_ext. intros _ u _. apply createTile_char.
Qed.

(** The round trip holds for every input that does not hold the internal
    code of L.L as a raw code unit, whatever else it holds. *)
Lemma parse_display_parse_without_Lstroke (w : jsstring) :
  c_Lstroke ∉ w ->
  parseInputWord (internalToDisplayWord (tilesToWord (parseInputWord w)))
  = parseInputWord w.
Proof.
  intros Hw. rewrite tilesToWord_parseInputWord, !parseInputWord_units.
  change (internalToDisplayWord (units w)) with (displayWord (units w)).
  by rewrite units_displayWord.
Qed.

(** C7. For every word [w] written with the letters A..Z and C-cedilla in
    either case and the dots and hyphen of the spellings of L.L (the digraphs
    QU and NY, the ligature L.L and plain letters), parsing [w], rendering
    the tiles with [internalToDisplayWord] and parsing the display form
    again gives the tile sequence of the parse of [w]:
    [parseInputWord (internalToDisplayWord word) = parseInputWord w], where
    [word] is the internal word of [parseInputWord w]. *)
Theorem parse_display_parse (w : jsstring) :
  hostWord w = true ->
  parseInputWord (internalToDisplayWord (tilesToWord (parseInputWord w)))
  = parseInputWord w.
Proof.
  intros Hw. by apply parse_display_parse_without_Lstroke, hostWord_no_Lstroke.
Qed.

End RoundTrip.

(** *** The case laws hold for the Latin-1 case mappings *)

Lemma upperUnit_letter c t r :
  upperUnit c = t :: r -> (65 <= t <= 90)%N -> t <> 83%N ->
  r = [] /\ (c = t \/ c = (t + 32)%N).
Proof.
  unfold upperUnit. intros Hu Ht Hs.
  repeat (case_bool_decide; cbn [andb orb negb] in Hu);
    injection Hu as <- <-; split; try done; lia.
Qed.

Lemma upperUnit_sep c t r :
  upperUnit c = t :: r -> isSep t = true -> r = [] /\ c = t.
Proof.
  unfold upperUnit. intros Hu Ht. apply isSep_spec in Ht.
  unfold c_middot, c_dot, c_hyphen in Ht.
  repeat (case_bool_decide; cbn [andb orb negb] in Hu);
    injection Hu as <- <-; split; try done; lia.
Qed.

Lemma upperUnit_pair (x y : N) (s : jsstring) :
  (length s <= 2)%nat ->
  (65 <= x <= 90)%N -> x <> 83%N -> (65 <= y <= 90)%N -> y <> 83%N ->
  s ≫= upperUnit = [x; y] ->
  exists a b, s = [a; b] /\ (a = x \/ a = (x + 32)%N) /\ (b = y \/ b = (y + 32)%N).
Proof.
  intros Hlen Hx Hx' Hy Hy' Hs.
  destruct s as [|a' [|b' [|? ?]]]; cbn in Hs, Hlen; try lia; try discriminate Hs.
  - rewrite app_nil_r in Hs.
    by destruct (upperUnit_letter a' x [y] Hs Hx Hx') as [? _].
  - rewrite app_nil_r in Hs.
    destruct (upperUnit a') as [|t r] eqn:Ea; cbn in Hs.
    { apply upperUnit_letter in Hs as [? _]; done. }
    injection Hs as -> Hs.
    destruct (upperUnit_letter a' x r Ea Hx Hx') as [-> Ha]. cbn in Hs.
    destruct (upperUnit_letter b' y [] Hs Hy Hy') as [_ Hb].
    by exists a', b'.
Qed.

Lemma upperUnit_ligature (sep : jschar) (s : jsstring) :
  (length s <= 3)%nat -> isSep sep = true ->
  s ≫= upperUnit = [c_L; sep; c_L] ->
  exists a b, s = [a; sep; b] /\ (a = c_L \/ a = c_l) /\ (b = c_L \/ b = c_l).
Proof.
  intros Hlen Hsep Hs.
  assert (HL : (65 <= c_L <= 90)%N /\ c_L <> 83%N) by (unfold c_L; lia).
  destruct HL as [HL HL'].
  destruct s as [|a [|x [|b [|? ?]]]]; cbn in Hs, Hlen; try lia; try discriminate Hs;
    rewrite app_nil_r in Hs.
  - by destruct (upperUnit_letter a c_L _ Hs HL HL') as [? _].
  - destruct (upperUnit a) as [|t r] eqn:Ea; cbn in Hs.
    { apply upperUnit_letter in Hs as [? _]; done. }
    injection Hs as -> Hs.
    destruct (upperUnit_letter a c_L r Ea HL HL') as [-> _]. cbn in Hs.
    by destruct (upperUnit_sep x sep _ Hs Hsep) as [? _].
  - destruct (upperUnit a) as [|t r] eqn:Ea; cbn in Hs.
    { destruct (upperUnit x) as [|t' r'] eqn:Ex; cbn in Hs.
      - apply upperUnit_letter in Hs as [? _]; done.
      - injection Hs as -> Hs.
        destruct (upperUnit_letter x c_L r' Ex HL HL') as [-> _]. cbn in Hs.
        apply upperUnit_sep in Hs as [? _]; done. }
    injection Hs as -> Hs.
    destruct (upperUnit_letter a c_L r Ea HL HL') as [-> Ha]. cbn in Hs.
    destruct (upperUnit x) as [|t' r'] eqn:Ex; cbn in Hs.
    { apply upperUnit_sep in Hs as [? _]; done. }
    injection Hs as -> Hs.
    destruct (upperUnit_sep x sep r' Ex Hsep) as [-> ->]. cbn in Hs.
    destruct (upperUnit_letter b c_L [] Hs HL HL') as [_ Hb].
    by exists a, b.
Qed.

#[export] Instance latin1CaseLaws : CaseLaws.
Proof.
  split.
  - intros c. split.
    + intros Hc. cbn in Hc. rewrite app_nil_r in Hc.
      apply upperUnit_letter in Hc as [_ Hc]; unfold c_Q in *; [done|lia|lia].
    + by intros [-> | ->].
  - intros s Hlen. split.
    + intros Hs. apply upperUnit_pair in Hs; unfold c_Q, c_U; try done; lia.
    + by intros (a & b & -> & [-> | ->] & [-> | ->]).
  - intros s Hlen. split.
    + intros Hs. apply upperUnit_pair in Hs; unfold c_N, c_Y; try done; lia.
    + by intros (a & b & -> & [-> | ->] & [-> | ->]).
  - intros s sep Hlen Hsep. split.
    + intros Hs. apply upperUnit_ligature; [done| by apply isSep_spec |done].
    + by intros (a & b & -> & [-> | ->] & [-> | ->]); destruct Hsep as [-> | [-> | ->]].
  - reflexivity.
  - reflexivity.
  - reflexivity.
  - reflexivity.
  - reflexivity.
  - reflexivity.
  - reflexivity.
  - reflexivity.
Qed.

Lemma parse_display_parse_witness :
  hostWord s_QULLNYA = true
  /\ parseInputWord (internalToDisplayWord (tilesToWord (parseInputWord s_QULLNYA)))
     = parseInputWord s_QULLNYA.
Proof.
  split; [reflexivity|]. apply (parse_display_parse s_QULLNYA). reflexivity.
Defined.

Lemma parse_display_parse_without_Lstroke_witness :
  (c_Lstroke ∉ s_QULLNYA)
  /\ parseInputWord (internalToDisplayWord (tilesToWord (parseInputWord s_QULLNYA)))
     = parseInputWord s_QULLNYA.
Proof.
  split; [|apply (parse_display_parse_without_Lstroke s_QULLNYA)];
    apply hostWord_no_Lstroke; reflexivity.
Defined.

(** The raw internal code of L.L after [L.] is the one input that the round
    trip changes: the display form [L.L.L] is read as the ligature first. *)
Example raw_Lstroke_is_read_differently :
  let w := [c_L; c_middot; c_Lstroke] in
  tilesToWord (parseInputWord w) = [c_L; c_middot; c_Lstroke]
  /\ internalToDisplayWord (tilesToWord (parseInputWord w))
     = [c_L; c_middot; c_L; c_middot; c_L]
  /\ tilesToWord (parseInputWord
       (internalToDisplayWord (tilesToWord (parseInputWord w))))
     = [c_Lstroke; c_middot; c_L].
Proof. vm_compute. done. Qed.

(** ** The list of the best-move finder *)

Lemma insertByScore_Permutation m sorted : insertByScore m sorted ≡ₚ m :: sorted.
Proof.
  induction sorted as [|e rest IH]; simpl; [done|].
  case_bool_decide; [done|]. rewrite IH. apply Permutation_swap.
Qed.

Lemma sortByScore_Permutation moves : sortByScore moves ≡ₚ moves.
Proof.
  unfold sortByScore. induction moves as [|m rest IH]; simpl; [done|].
  by rewrite insertByScore_Permutation, IH.
Qed.

Lemma insertByScore_falling m sorted :
  fallingScores sorted -> fallingScores (insertByScore m sorted).
Proof.
  induction sorted as [|e rest IH]; simpl; [by auto|].
  intros [Hall Hrest]. case_bool_decide as Hle; simpl.
  - repeat split; try done. constructor; [done|].
    eapply Forall_impl; [exact Hall|]. simpl. intros. lia.
  - split; [|by apply IH].
    rewrite insertByScore_Permutation. constructor; [lia|done].
Qed.

Lemma sortByScore_falling moves : fallingScores (sortByScore moves).
Proof.
  unfold sortByScore. induction moves as [|m rest IH]; simpl; [done|].
  by apply insertByScore_falling.
Qed.

Lemma fallingScores_lookup l i j mi mj :
  fallingScores l -> (i <= j)%nat -> l !! i = Some mi -> l !! j = Some mj ->
  scoreOrZero mj <= scoreOrZero mi.
Proof.
  revert i j. induction l as [|m rest IH]; intros i j Hf Hij Hi Hj; [done|].
  destruct Hf as [Hall Hrest].
  destruct i as [|i]; simpl in Hi.
  - injection Hi as <-. destruct j as [|j]; simpl in Hj.
    + injection Hj as <-. lia.
    + rewrite Forall_forall in Hall. apply Hall. by eapply list_elem_of_lookup_2.
  - destruct j as [|j]; [lia|]. simpl in Hj. apply (IH i j); auto. lia.
Qed.

Lemma sliceTo_lookup {A} (n : Z) (l : list A) i x :
  sliceTo n l !! i = Some x -> l !! i = Some x.
Proof.
  unfold sliceTo. case_bool_decide; intros Hx; by apply lookup_take_Some in Hx as [? _].
Qed.

Lemma sliceTo_length {A} (n : Z) (l : list A) :
  0 <= n -> (length (sliceTo n l) <= Z.to_nat n)%nat.
Proof.
  intros Hn. unfold sliceTo. rewrite bool_decide_eq_true_2 by done.
  rewrite length_take. lia.
Qed.

Lemma dedupInsert_keys m entries :
  NoDup (moveKey <$> entries) -> NoDup (moveKey <$> dedupInsert m entries).
Proof.
  induction entries as [|e rest IH]; cbn [dedupInsert].
  - intros _. apply NoDup_singleton.
  - rewrite fmap_cons, NoDup_cons. intros [Hnot Hnd].
    case_bool_decide as Hk.
    + case_bool_decide; rewrite fmap_cons, NoDup_cons; [by rewrite <- Hk|done].
    + rewrite fmap_cons, NoDup_cons. split; [|by apply IH].
      intros Hin. apply list_elem_of_fmap in Hin as (x & Hx & Hin).
      apply dedupInsert_elem in Hin as [-> | Hin]; [done|].
      apply Hnot. rewrite Hx. by apply list_elem_of_fmap_2.
Qed.

Lemma dedupMoves_keys moves : NoDup (moveKey <$> dedupMoves moves).
Proof.
  unfold dedupMoves.
  assert (forall acc, NoDup (moveKey <$> acc) ->
            NoDup (moveKey <$> foldl (fun entries m => dedupInsert m entries) acc moves))
    as Hgen.
  { induction moves as [|m rest IH]; simpl; intros acc Hacc; [done|].
    by apply IH, dedupInsert_keys. }
  apply Hgen. constructor.
Qed.

Lemma sliceTo_sublist {A} (n : Z) (l : list A) : sliceTo n l `sublist_of` l.
Proof. unfold sliceTo. case_bool_decide; apply sublist_take. Qed.

Section FinderRanking.
Context `{JSString} `{TrieDecoder}.

Lemma findBestMoves_shape trie board rack limit moves :
  findBestMoves trie board rack limit = Ret moves ->
  exists scored,
    moves = sliceTo (if bool_decide (limit = 0) then 5000 else limit)
              (sortByScore (dedupMoves scored))
    /\ Forall (fun m => keepScored m = true) scored.
Proof.
  unfold findBestMoves. intros Hf. destruct trie as [t|].
  - do 5 js_step Hf. injection Hf as <-. eexists. split; [reflexivity|].
    apply Forall_forall. intros m Hm. by apply list_elem_of_filter in Hm as [? _].
  - injection Hf as <-. exists []. split; [|constructor].
    unfold sliceTo, dedupMoves, sortByScore. cbn [foldl foldr].
    repeat case_bool_decide; by rewrite take_nil.
Qed.

(** The list that [findBestMoves] returns is ranked: the scores never rise
    along it, and it holds at most [limit] moves, or 5000 for the limit
    0. *)
Theorem findBestMoves_ranked (trie : option FrozenTrie) (board : Board)
  (rack : list jsstring) (limit : Z) (moves : list PlayerMove) :
  findBestMoves trie board rack limit = Ret moves ->
  (forall i j mi mj,
      (i <= j)%nat -> moves !! i = Some mi -> moves !! j = Some mj ->
      exists si sj, mv_score mi = Some si /\ mv_score mj = Some sj /\ sj <= si)
  /\ (0 < limit -> (length moves <= Z.to_nat limit)%nat)
  /\ (limit = 0 -> (length moves <= 5000)%nat).
Proof.
  intros Hf. destruct (findBestMoves_shape _ _ _ _ _ Hf) as (scored & -> & Hkept).
  assert (Hscore : forall m, m ∈ sliceTo (if bool_decide (limit = 0) then 5000 else limit)
                              (sortByScore (dedupMoves scored)) ->
                        exists s, mv_score m = Some s).
  { intros m Hm. apply sliceTo_elem, sortByScore_elem, dedupMoves_elem in Hm.
    rewrite Forall_forall in Hkept. specialize (Hkept m Hm).
    unfold keepScored in Hkept. destruct (mv_isValid m) as [[]|]; try done.
    destruct (mv_score m); [eauto|done]. }
  split; [|split].
  - intros i j mi mj Hij Hi Hj.
    destruct (Hscore mi) as [si Hsi]; [by eapply list_elem_of_lookup_2|].
    destruct (Hscore mj) as [sj Hsj]; [by eapply list_elem_of_lookup_2|].
    exists si, sj. repeat split; try done.
    apply sliceTo_lookup in Hi, Hj.
    pose proof (fallingScores_lookup _ i j mi mj (sortByScore_falling _) Hij Hi Hj) as Hle.
    unfold scoreOrZero in Hle. by rewrite Hsi, Hsj in Hle.
  - intros Hl. rewrite bool_decide_eq_false_2 by lia. apply sliceTo_length. lia.
  - intros ->. rewrite bool_decide_eq_true_2 by done.
    by apply (sliceTo_length 5000).
Qed.

(** No two moves of the list share their word, start cell and direction. *)
Theorem findBestMoves_distinct (trie : option FrozenTrie) (board : Board)
  (rack : list jsstring) (limit : Z) (moves : list PlayerMove) :
  findBestMoves trie board rack limit = Ret moves ->
  NoDup (moveKey <$> moves).
Proof.
  intros Hf. destruct (findBestMoves_shape _ _ _ _ _ Hf) as (scored & -> & _).
  apply (sublist_NoDup _ (moveKey <$> sortByScore (dedupMoves scored))).
  - rewrite sortByScore_Permutation. apply dedupMoves_keys.
  - apply fmap_sublist, sliceTo_sublist.
Qed.

End FinderRanking.

Lemma findBestMoves_ranked_witness :
  exists moves,
    findBestMoves (Some exampleTrie) createInitialBoard rackCASA 3 = Ret moves
    /\ (length moves <= 3)%nat.
Proof.
  eexists. split; [vm_compute; reflexivity|].
  apply (findBestMoves_ranked (Some exampleTrie) createInitialBoard rackCASA 3);
    [vm_compute; reflexivity | lia].
Defined.

Lemma findBestMoves_distinct_witness :
  exists moves,
    findBestMoves (Some exampleTrie) createInitialBoard rackCASA 0 = Ret moves
    /\ NoDup (moveKey <$> moves).
Proof.
  eexists. split; [vm_compute; reflexivity|].
  apply (findBestMoves_distinct (Some exampleTrie) createInitialBoard rackCASA 0).
  vm_compute. reflexivity.
Defined.

(** ** The ranges of [getTileIndices] and the tiles of [parseInputWord] *)

Section TileIndicesFacts.
Context `{JSString}.

Lemma includes_digraph (s : jsstring) :
  includes [s_QU; s_NY] s = true -> is_Some (DIGRAPH_MAP s).
Proof.
  unfold includes. cbn [existsb]. rewrite orb_false_r, orb_true_iff.
  unfold streq. rewrite !bool_decide_eq_true. intros [-> | ->]; by eexists.
Qed.

(** Both loops advance by the same number of code units. *)
Lemma indexStep_parseStep c rest : indexStep c rest = Z.of_nat (parseStep c rest).2.
Proof.
  unfold indexStep, parseStep. cbv zeta.
  destruct (includes [s_LmidL; s_LdotL; s_LhypL] _); [done|].
  destruct (includes [s_QU; s_NY] _) eqn:Hd.
  - by destruct (includes_digraph _ Hd) as [mapped ->].
  - by destruct (streq _ _).
Qed.

Lemma indexStep_width c rest : 1 <= indexStep c rest <= 3.
Proof.
  unfold indexStep. cbv zeta.
  repeat match goal with |- context [if ?b then _ else _] => destruct b end; lia.
Qed.

Lemma indicesLoop_length fuel i rest :
  length (indicesLoop fuel i rest) = length (parseLoop fuel rest).
Proof.
  revert i rest. induction fuel as [|fuel IH]; intros i [|c tl]; try reflexivity.
  cbn [indicesLoop parseLoop]. rewrite indexStep_parseStep.
  destruct (parseStep c tl) as [internal k]. cbn [snd length].
  by rewrite Nat2Z.id, IH.
Qed.

Lemma indicesLoop_chained fuel i rest : chained i (indicesLoop fuel i rest).
Proof.
  revert i rest. induction fuel as [|fuel IH]; intros i [|c tl]; try exact I.
  cbn [indicesLoop chained]. pose proof (indexStep_width c tl).
  repeat split; try lia. apply IH.
Qed.

(** [getTileIndices] gives one range for each tile of [parseInputWord],
    and the ranges follow one another from 0 on, each one to three code
    units wide. *)
Theorem getTileIndices_ranges (input : jsstring) :
  length (getTileIndices input) = length (parseInputWord input)
  /\ chained 0 (getTileIndices input).
Proof.
  split; [apply indicesLoop_length | apply indicesLoop_chained].
Qed.

End TileIndicesFacts.

Section TileIndicesCover.
Context `{CaseLaws}.

Lemma indicesLoop_lastEnd fuel i rest :
  (length rest <= fuel)%nat ->
  lastEnd i (indicesLoop fuel i rest) = i + Z.of_nat (length rest).
Proof.
  revert i rest. induction fuel as [|fuel IH]; intros i [|c tl] Hf;
    cbn [indicesLoop lastEnd length] in *; try lia.
  rewrite indexStep_parseStep, parseStep_parseUnit. cbn [snd].
  pose proof (parseUnit_consumed c tl) as Hk.
  assert ((parseUnit c tl).2 <= S (length tl))%nat as Hfit.
  { unfold parseUnit, digraphUnit, plainUnit.
    destruct tl as [|x [|y r]]; cbn [length];
      repeat match goal with |- context [if ?b then _ else _] => destruct b end;
      cbn [snd]; lia. }
  rewrite Nat2Z.id, IH; rewrite length_drop; cbn [length]; lia.
Qed.

(** With the case mappings of the runtime, the ranges of [getTileIndices]
    end where the input ends: they cut the whole input into the pieces of
    its tiles. *)
Theorem getTileIndices_covers (input : jsstring) :
  lastEnd 0 (getTileIndices input) = Z.of_nat (length input).
Proof. unfold getTileIndices. by rewrite indicesLoop_lastEnd. Qed.

Lemma units_no_Q (w : jsstring) : Forall (fun u => isQ u = false) (units w).
Proof.
  remember (length w) as n eqn:Hn. revert w Hn.
  induction n as [n IH] using lt_wf_ind. intros w ->.
  destruct w as [|c rest]; [constructor|].
  destruct (units_kind c rest) as (u & k & Hkind & ->).
  constructor.
  - destruct Hkind; try done; by case_bool_decide.
  - apply (IH (length (drop (k - 1) rest))); [|done].
    rewrite length_drop. simpl. lia.
Qed.

(** [parseInputWord] never makes a tile of a lone Q: the internal string of
    every tile is one code unit, and it is neither Q nor q. *)
Theorem parseInputWord_no_lone_Q (input : jsstring) :
  Forall (fun t => exists u, char t = [u] /\ u <> c_Q /\ u <> c_q)
    (parseInputWord input).
Proof.
  rewrite parseInputWord_units. apply Forall_fmap.
  eapply Forall_impl; [apply units_no_Q|]. intros u Hu. simpl.
  exists u. rewrite createTile_char. split; [done|].
  unfold isQ in Hu. apply orb_false_iff in Hu as [Hu1 Hu2].
  by apply bool_decide_eq_false in Hu1, Hu2.
Qed.

End TileIndicesCover.

Lemma getTileIndices_covers_witness :
  lastEnd 0 (getTileIndices s_QULLNYA) = 8.
Proof. apply (getTileIndices_covers s_QULLNYA). Defined.

Lemma parseInputWord_no_lone_Q_witness :
  Forall (fun t => exists u, char t = [u] /\ u <> c_Q /\ u <> c_q)
    (parseInputWord [c_Q; c_A; c_q]).
Proof. apply (parseInputWord_no_lone_Q [c_Q; c_A; c_q]). Defined.

(** ** [applyMoveToBoard] *)

Lemma nthZ_lookup {A} (l : list A) (i : Z) :
  0 <= i -> nthZ l i = l !! Z.to_nat i.
Proof. intros Hi. unfold nthZ. by rewrite bool_decide_eq_true_2. Qed.

Lemma cellOf_lookup (board : list (list BoardCell)) r c :
  inBounds r c = true ->
  cellOf board r c = board !! Z.to_nat r ≫= (fun cells => cells !! Z.to_nat c).
Proof.
  intros Hin. unfold cellOf, Board in *. rewrite Hin. apply inBounds_spec in Hin.
  rewrite nthZ_lookup by lia. destruct (board !! Z.to_nat r); [|done].
  simpl. by rewrite nthZ_lookup by lia.
Qed.

Lemma placeTile_wf board r c t : wfBoard board -> wfBoard (placeTile board r c t).
Proof.
  unfold wfBoard, placeTile, Board. intros [Hlen Hrows].
  split; [by rewrite length_alter|].
  apply Forall_alter; [done|]. intros cells _ Hc. by rewrite length_alter.
Qed.

(** The cell written by [placeTile] holds the tile and keeps its
    multiplier; every other cell is as before. *)
Lemma cellOf_placeTile board r c t r' c' :
  inBounds r c = true ->
  cellOf (placeTile board r c t) r' c'
  = if bool_decide (r' = r /\ c' = c)
    then (fun cell => {| row := row cell; col := col cell;
                         multiplier := multiplier cell; tile := Some t |})
           <$> cellOf board r c
    else cellOf board r' c'.
Proof.
  intros Hin. pose proof Hin as Hrc. apply inBounds_spec in Hrc.
  case_bool_decide as Heq.
  - destruct Heq as [-> ->]. rewrite !cellOf_lookup by done.
    unfold placeTile, Board in *.
    rewrite list_lookup_alter_eq. destruct (board !! Z.to_nat r) as [cells|]; [|done].
    simpl. by rewrite list_lookup_alter_eq.
  - destruct (inBounds r' c') eqn:Hin'; [|unfold cellOf; by rewrite Hin'].
    pose proof Hin' as Hrc'. apply inBounds_spec in Hrc'.
    rewrite !cellOf_lookup by done. unfold placeTile, Board in *.
    destruct (decide (r' = r)) as [->|Hr].
    + rewrite list_lookup_alter_eq. destruct (board !! Z.to_nat r) as [cells|]; [|done].
      simpl. rewrite list_lookup_alter_ne; [done|]. intros Hc. apply Heq.
      split; [done|]. lia.
    + rewrite list_lookup_alter_ne; [done|]. lia.
Qed.

Lemma applyTilesFrom_spec tiles sr sc d i board :
  wfBoard board -> 0 <= i ->
  exists board',
    applyTilesFrom tiles sr sc (rowStep d) (colStep d) i board = Ret board'
    /\ wfBoard board'
    /\ (forall r c, multiplier <$> cellOf board' r c = multiplier <$> cellOf board r c)
    /\ (forall r c,
          Forall (fun p => at_row p <> r \/ at_col p <> c)
            (placementsFrom tiles sr sc d i) ->
          tileOf board' r c = tileOf board r c)
    /\ Forall (fun p => inBounds (at_row p) (at_col p) = true ->
                        tileOf board' (at_row p) (at_col p) = Some (placed p))
         (placementsFrom tiles sr sc d i).
Proof.
  revert i board. induction tiles as [|t rest IH]; intros i board Hwf Hi.
  - exists board. do 4 (split; [done|]). constructor.
  - cbn [applyTilesFrom placementsFrom].
    set (r0 := sr + i * rowStep d). set (c0 := sc + i * colStep d).
    assert (Hstep : exists board1,
              (if inBounds r0 c0 then setTile board r0 c0 t else Ret board) = Ret board1
              /\ wfBoard board1
              /\ (forall r c, cellOf board1 r c
                    = if inBounds r0 c0 && bool_decide (r = r0 /\ c = c0)
                      then (fun cell => {| row := row cell; col := col cell;
                                           multiplier := multiplier cell;
                                           tile := Some t |}) <$> cellOf board r0 c0
                      else cellOf board r c)).
    { destruct (inBounds r0 c0) eqn:Hin.
      - unfold setTile. destruct (cellAt_wf board r0 c0 Hwf Hin) as (cell & -> & _).
        cbn [js_bind]. eexists. split; [reflexivity|]. split; [by apply placeTile_wf|].
        intros r c. cbn [andb]. exact (cellOf_placeTile board r0 c0 t r c Hin).
      - exists board. split; [done|]. split; [done|]. by intros. }
    destruct Hstep as (board1 & -> & Hwf1 & Hcell).
    cbn [js_bind].
    destruct (IH (i + 1) board1 Hwf1) as (board' & -> & Hwf' & Hmul & Hkeep & Hset);
      [lia|].
    exists board'. split; [done|]. split; [done|].
    assert (Hhere : is_Some (cellOf board r0 c0) \/ inBounds r0 c0 = false).
    { destruct (inBounds r0 c0) eqn:Hin; [left|by right].
      destruct (cellAt_wf board r0 c0 Hwf Hin) as (cell & _ & Hof). by eexists. }
    split; [|split].
    + intros r c. rewrite Hmul, Hcell.
      destruct (inBounds r0 c0 && bool_decide (r = r0 /\ c = c0)) eqn:Hb; [|done].
      apply andb_true_iff in Hb as [_ Hb]. apply bool_decide_eq_true in Hb as [-> ->].
      by destruct (cellOf board r0 c0).
    + intros r c Hall. apply Forall_cons in Hall as [Hne Hall]. cbn in Hne.
      rewrite Hkeep by done. unfold tileOf. rewrite Hcell.
      rewrite (bool_decide_eq_false_2 (r = r0 /\ c = c0)), andb_false_r; [done|].
      intros [-> ->]. destruct Hne; done.
    + constructor.
      * cbn [at_row at_col placed]. fold r0 c0. intros Hin.
        rewrite Hkeep.
        -- unfold tileOf. rewrite Hcell, Hin, bool_decide_eq_true_2 by done.
           cbn [andb]. destruct Hhere as [[cell ->]|Hout]; [done|congruence].
        -- clear -Hi. assert (Hgen : forall j, i < j ->
             Forall (fun p => at_row p <> r0 \/ at_col p <> c0)
               (placementsFrom rest sr sc d j)).
           { induction rest as [|t' rest' IHr]; intros j Hj; [constructor|].
             cbn [placementsFrom]. constructor; [|apply IHr; lia].
             cbn. subst r0 c0. destruct d; cbn; lia. }
           apply Hgen. lia.
      * exact Hset.
Qed.

(** On a 15 x 15 board [applyMoveToBoard] does not throw; afterwards every
    cell of the move that lies on the board holds the move's tile, the
    tiles of the move that lie off the board are dropped, every other cell
    is as before, the multipliers are untouched and the board is still
    15 x 15. *)
Theorem applyMoveToBoard_spec (board : Board) (move : PlayerMove) :
  wfBoard board ->
  exists board',
    applyMoveToBoard board move = Ret board'
    /\ wfBoard board'
    /\ (forall r c, multiplier <$> cellOf board' r c = multiplier <$> cellOf board r c)
    /\ (forall r c,
          Forall (fun p => at_row p <> r \/ at_col p <> c)
            (placements (mv_tiles move) (mv_row move) (mv_col move)
               (mv_direction move)) ->
          tileOf board' r c = tileOf board r c)
    /\ Forall (fun p => inBounds (at_row p) (at_col p) = true ->
                        tileOf board' (at_row p) (at_col p) = Some (placed p))
         (placements (mv_tiles move) (mv_row move) (mv_col move)
            (mv_direction move)).
Proof.
  intros Hwf. unfold applyMoveToBoard, placements.
  by apply applyTilesFrom_spec.
Qed.

Lemma applyMoveToBoard_spec_witness :
  exists board',
    applyMoveToBoard createInitialBoard moveCASA = Ret board' /\ wfBoard board'.
Proof.
  destruct (applyMoveToBoard_spec createInitialBoard moveCASA createInitialBoard_wf)
    as (board' & Happly & Hwf' & _).
  exists board'. by split.
Defined.

(** ** [calculateRemainingBag] *)

Lemma occurrences_nil key : occurrences key [] = 0.
Proof. done. Qed.

Lemma occurrences_cons key k l :
  occurrences key (k :: l) = (if bool_decide (k = key) then 1 else 0) + occurrences key l.
Proof.
  unfold occurrences. rewrite filter_cons. case_bool_decide as Hk.
  - rewrite decide_True by done. cbn [length]. lia.
  - rewrite decide_False by done. lia.
Qed.

Lemma occurrences_not_elem key l : key ∉ l -> occurrences key l = 0.
Proof.
  induction l as [|k l IH]; intros Hout; [done|].
  apply not_elem_of_cons in Hout as [Hne Hout].
  rewrite occurrences_cons, IH, bool_decide_eq_false_2 by done. lia.
Qed.

Lemma occurrences_app key l1 l2 :
  occurrences key (l1 ++ l2) = occurrences key l1 + occurrences key l2.
Proof. unfold occurrences. rewrite filter_app, length_app. lia. Qed.

Lemma occurrences_Permutation key l1 l2 :
  l1 ≡ₚ l2 -> occurrences key l1 = occurrences key l2.
Proof. intros Hp. unfold occurrences. by rewrite Hp. Qed.

Lemma occurrences_replicate key n k :
  occurrences key (replicate n k) = if bool_decide (k = key) then Z.of_nat n else 0.
Proof.
  induction n as [|n IH]; cbn [replicate].
  - by case_bool_decide.
  - rewrite occurrences_cons, IH. case_bool_decide; lia.
Qed.

Lemma countUse_lookup key k used :
  default 0 (countUse k used !! key)
  = default 0 (used !! key) + (if bool_decide (k = key) then 1 else 0).
Proof.
  unfold countUse. case_bool_decide as Hk.
  - subst. by rewrite lookup_insert_eq.
  - rewrite lookup_insert_ne by done. lia.
Qed.

(** Swapping two entries of a list permutes it. *)
Lemma insert_Permutation_delete {A} (l : list A) i x y :
  l !! i = Some y -> y :: <[i := x]> l ≡ₚ x :: l.
Proof.
  intros Hi. rewrite insert_take_drop by (by eapply lookup_lt_Some).
  rewrite <- Permutation_middle, Permutation_swap. f_equiv.
  rewrite (delete_Permutation l i y Hi) at 3. f_equiv.
  by rewrite delete_take_drop.
Qed.

Lemma swap_Permutation {A} (l : list A) i j x y :
  l !! i = Some x -> l !! j = Some y -> <[j := x]> (<[i := y]> l) ≡ₚ l.
Proof.
  revert i j. induction l as [|a l IH]; intros i j Hi Hj; [done|].
  destruct i as [|i], j as [|j]; cbn in *.
  - by simplify_eq.
  - simplify_eq. by apply insert_Permutation_delete.
  - simplify_eq. by apply insert_Permutation_delete.
  - f_equiv. by apply IH.
Qed.

Lemma shuffleFrom_Permutation i pick bag : shuffleFrom i pick bag ≡ₚ bag.
Proof.
  revert bag. induction i as [|i IH]; intros bag; cbn [shuffleFrom]; [done|].
  rewrite IH. destruct (bag !! S i) as [atI|] eqn:Hi; [|done].
  destruct (bag !! randomIndex pick (S i)) as [atJ|] eqn:Hj; [|done].
  by apply swap_Permutation.
Qed.

Section RemainingBagFacts.
Context `{JSString}.

Lemma countRack_lookup key rack used :
  default 0 (countRack rack used !! key)
  = default 0 (used !! key) + occurrences key (rackKey <$> rack).
Proof.
  unfold countRack. revert used.
  induction rack as [|c rack IH]; intros used; cbn [foldl].
  - rewrite occurrences_nil. lia.
  - rewrite IH, countUse_lookup, fmap_cons, occurrences_cons. lia.
Qed.

Lemma countBoard_wf board cells used :
  wfBoard board -> Forall (fun rc : Z * Z => inBounds rc.1 rc.2 = true) cells ->
  exists used',
    countBoard board cells used = Ret used'
    /\ forall key,
         default 0 (used' !! key)
         = default 0 (used !! key)
           + occurrences key
               (boardTileKey <$> omap (fun rc : Z * Z => tileOf board rc.1 rc.2) cells).
Proof.
  intros Hwf. revert used. induction cells as [|rc rest IH]; intros used Hin.
  - exists used. split; [done|]. intros key. cbn. rewrite occurrences_nil. lia.
  - apply Forall_cons in Hin as [Hrc Hin]. cbn [countBoard omap list_omap].
    rewrite (tileAt_wf board rc.1 rc.2 Hwf Hrc). cbn [js_bind].
    destruct (IH (match tileOf board rc.1 rc.2 with
                  | Some t => countUse (boardTileKey t) used
                  | None => used
                  end) Hin) as (used' & -> & Hcount).
    exists used'. split; [done|]. intros key. rewrite Hcount.
    destruct (tileOf board rc.1 rc.2) as [t|]; [|done].
    rewrite countUse_lookup, fmap_cons, occurrences_cons. lia.
Qed.

Lemma elem_of_allCells (rc : Z * Z) : rc ∈ allCells <-> inBounds rc.1 rc.2 = true.
Proof.
  unfold allCells. rewrite list_elem_of_bind, inBounds_spec. split.
  - intros (r & Hrc & Hr). apply list_elem_of_fmap in Hrc as (c & -> & Hc).
    apply elem_of_indices in Hr, Hc. simpl. lia.
  - intros [Hr Hc]. exists rc.1. rewrite elem_of_indices. split; [|done].
    apply list_elem_of_fmap. exists rc.2. rewrite elem_of_indices.
    split; [by destruct rc|done].
Qed.

Lemma allCells_inBounds : Forall (fun rc : Z * Z => inBounds rc.1 rc.2 = true) allCells.
Proof. apply Forall_forall. intros rc. apply elem_of_allCells. Qed.

Lemma refillBag_occurrences key used :
  occurrences key (refillBag used)
  = if bool_decide (0 < tilesInSet key)
    then Z.max 0 (tilesInSet key - default 0 (used !! key))
    else 0.
Proof.
  unfold refillBag.
  assert (Hgen : forall table : list (jsstring * Z),
    NoDup table.*1 ->
    occurrences key
      (concat ((fun e => replicate (Z.to_nat (Z.max 0 (e.2 - default 0 (used !! e.1))))
                           e.1) <$> table))
    = match find (fun e => bool_decide (e.1 = key)) table with
      | Some e => Z.max 0 (e.2 - default 0 (used !! key))
      | None => 0
      end).
  { induction table as [|e table IH]; intros Hnd; [done|].
    rewrite fmap_cons in Hnd. apply NoDup_cons in Hnd as [Hnot Hnd].
    rewrite fmap_cons. cbn [concat find].
    rewrite occurrences_app, occurrences_replicate, IH by done.
    case_bool_decide as Hk; [|lia]. subst key.
    destruct (find _ table) as [e'|] eqn:Hfind; [|lia].
    apply find_some in Hfind as [Hin He']. apply bool_decide_eq_true in He'.
    exfalso. apply Hnot. rewrite <- He'. apply list_elem_of_fmap_2.
    by apply list_elem_of_In. }
  rewrite Hgen by (apply (bool_decide_unpack (NoDup TILE_COUNTS.*1)); by vm_compute).
  unfold tilesInSet.
  destruct (find _ TILE_COUNTS) as [e|] eqn:Hfind; cbn [fmap option_fmap option_map default].
  - case_bool_decide as Hpos; [done|].
    apply find_some in Hfind as [Hin _]. exfalso. apply Hpos.
    vm_compute in Hin. decompose [or] Hin; subst; done.
  - by rewrite bool_decide_eq_false_2 by lia.
Qed.

(** On a 15 x 15 board [calculateRemainingBag] returns a bag that holds, of
    every letter of the set, the number of its tiles less the ones in use
    on the board and the rack, and none when more are in use than the set
    has; it holds no other letter. The shuffle does not change this. *)
Theorem calculateRemainingBag_counts (pick : nat -> nat) (board : Board)
  (rack : list jsstring) :
  wfBoard board ->
  exists bag,
    calculateRemainingBag pick board rack = Ret bag
    /\ forall key,
         occurrences key bag
         = if bool_decide (0 < tilesInSet key)
           then Z.max 0 (tilesInSet key - occurrences key (lettersInUse board rack))
           else 0.
Proof.
  intros Hwf. unfold calculateRemainingBag.
  destruct (countBoard_wf board allCells ∅ Hwf allCells_inBounds)
    as (onBoard & -> & Hboard).
  cbn [js_bind]. eexists. split; [reflexivity|]. intros key.
  rewrite (occurrences_Permutation _ _ _ (shuffleFrom_Permutation _ _ _)).
  rewrite refillBag_occurrences, countRack_lookup, Hboard, lookup_empty.
  unfold lettersInUse, boardTiles. rewrite occurrences_app. cbn [default].
  by rewrite Z.add_0_l.
Qed.

Lemma sumZ_cons x l : sumZ (x :: l) = x + sumZ l.
Proof. done. Qed.

Lemma sumZ_indicator (x : jsstring) (ks : list jsstring) :
  NoDup ks ->
  sumZ ((fun k => if bool_decide (x = k) then 1 else 0) <$> ks)
  = if bool_decide (x ∈ ks) then 1 else 0.
Proof.
  induction ks as [|k ks IH]; intros Hnd; [done|].
  apply NoDup_cons in Hnd as [Hnot Hnd]. rewrite fmap_cons, sumZ_cons, IH by done.
  destruct (decide (x = k)) as [->|Hne].
  - rewrite (bool_decide_eq_true_2 (k = k)) by done.
    rewrite (bool_decide_eq_false_2 (k ∈ ks)) by done.
    by rewrite (bool_decide_eq_true_2 (k ∈ k :: ks)) by apply list_elem_of_here.
  - rewrite (bool_decide_eq_false_2 (x = k)) by done.
    destruct (decide (x ∈ ks)) as [Hin|Hout].
    + rewrite !bool_decide_eq_true_2; [done|by apply list_elem_of_further|done].
    + rewrite !bool_decide_eq_false_2; [done| |done].
      intros Hin. apply elem_of_cons in Hin as [?|?]; done.
Qed.

Lemma sumZ_occurrences (ks l : list jsstring) :
  NoDup ks -> Forall (fun x => x ∈ ks) l ->
  sumZ ((fun k => occurrences k l) <$> ks) = Z.of_nat (length l).
Proof.
  intros Hnd. induction l as [|x l IH]; intros Hall.
  - induction ks as [|k ks IHk]; [done|].
    apply NoDup_cons in Hnd as [_ Hnd]. rewrite fmap_cons, sumZ_cons, IHk by done.
    by rewrite occurrences_nil.
  - apply Forall_cons in Hall as [Hx Hall].
    assert (sumZ ((fun k => occurrences k (x :: l)) <$> ks)
            = sumZ ((fun k => if bool_decide (x = k) then 1 else 0) <$> ks)
              + sumZ ((fun k => occurrences k l) <$> ks)) as ->.
    { clear. induction ks as [|k ks IHk]; [done|].
      rewrite !fmap_cons, !sumZ_cons, IHk, occurrences_cons. lia. }
    rewrite sumZ_indicator, IH, bool_decide_eq_true_2 by done.
    cbn [length]. lia.
Qed.

Lemma tilesInSet_entry (e : jsstring * Z) : e ∈ TILE_COUNTS -> tilesInSet e.1 = e.2.
Proof.
  intros He. apply list_elem_of_In in He. vm_compute in He.
  decompose [or] He; subst; done.
Qed.

Lemma tilesInSet_key (key : jsstring) : 0 < tilesInSet key -> key ∈ TILE_COUNTS.*1.
Proof.
  unfold tilesInSet. destruct (find _ TILE_COUNTS) as [e|] eqn:Hfind; [|cbn; lia].
  intros _. apply find_some in Hfind as [Hin He]. apply bool_decide_eq_true in He.
  rewrite <- He. apply list_elem_of_fmap_2. by apply list_elem_of_In.
Qed.

Lemma refillBag_length used :
  (forall e, e ∈ TILE_COUNTS -> default 0 (used !! e.1) <= e.2) ->
  Z.of_nat (length (refillBag used))
  = 100 - sumZ ((fun k => default 0 (used !! k)) <$> TILE_COUNTS.*1).
Proof.
  unfold refillBag. change 100 with (sumZ (TILE_COUNTS.*2)).
  induction TILE_COUNTS as [|e table IH]; intros Hle; [done|].
  rewrite !fmap_cons, !sumZ_cons. cbn [concat]. rewrite length_app, length_replicate.
  rewrite Nat2Z.inj_add, IH.
  - pose proof (Hle e (list_elem_of_here _ _)). cbn [fst snd]. lia.
  - intros e' He'. apply Hle. by apply list_elem_of_further.
Qed.

(** No tile is lost: when the board and the rack use no more tiles of any
    letter than the set has, the bag holds the rest of the 100 tiles. *)
Theorem calculateRemainingBag_conserves (pick : nat -> nat) (board : Board)
  (rack : list jsstring) :
  wfBoard board ->
  (forall key, occurrences key (lettersInUse board rack) <= tilesInSet key) ->
  exists bag,
    calculateRemainingBag pick board rack = Ret bag
    /\ Z.of_nat (length bag) + Z.of_nat (length (lettersInUse board rack)) = 100.
Proof.
  intros Hwf Hle. unfold calculateRemainingBag.
  destruct (countBoard_wf board allCells ∅ Hwf allCells_inBounds)
    as (onBoard & -> & Hboard).
  cbn [js_bind]. eexists. split; [reflexivity|].
  rewrite (Permutation_length (shuffleFrom_Permutation _ _ _)).
  assert (Hused : forall key,
            default 0 (countRack rack onBoard !! key)
            = occurrences key (lettersInUse board rack)).
  { intros key. rewrite countRack_lookup, Hboard, lookup_empty.
    unfold lettersInUse, boardTiles. rewrite occurrences_app. cbn [default]. lia. }
  rewrite refillBag_length.
  - rewrite (list_fmap_ext _ (fun k => occurrences k (lettersInUse board rack))
               (TILE_COUNTS.*1) (fun _ k _ => Hused k)).
    rewrite sumZ_occurrences; [lia|by apply (bool_decide_unpack (NoDup TILE_COUNTS.*1))|].
    apply Forall_forall. intros x Hx. apply tilesInSet_key.
    specialize (Hle x).
    assert (0 < occurrences x (lettersInUse board rack)); [|lia].
    unfold occurrences. apply list_elem_of_In, in_split in Hx as (l1 & l2 & ->).
    rewrite filter_app, filter_cons, decide_True, length_app by done.
    cbn [length]. lia.
  - intros e He. rewrite Hused, <- (tilesInSet_entry e He). apply Hle.
Qed.

End RemainingBagFacts.

Lemma calculateRemainingBag_counts_witness :
  exists bag,
    calculateRemainingBag (fun i => i) boardWithCASA [[c_A]; [c_qmark]] = Ret bag
    /\ occurrences [c_A] bag = 9.
Proof.
  destruct (calculateRemainingBag_counts (fun i => i) boardWithCASA
              [[c_A]; [c_qmark]] boardWithCASA_wf) as (bag & Hbag & Hcount).
  exists bag. split; [exact Hbag|]. rewrite Hcount. reflexivity.
Defined.

Lemma tilesInSet_nonneg key : 0 <= tilesInSet key.
Proof.
  unfold tilesInSet. destruct (find _ TILE_COUNTS) as [e|] eqn:Hfind; [|done].
  apply find_some in Hfind as [Hin _]. vm_compute in Hin.
  decompose [or] Hin; subst; done.
Qed.

(** The letters in use are within the set when each of them is. *)
Lemma within_set_by_letter (l : list jsstring) :
  Forall (fun k => occurrences k l <= tilesInSet k) l ->
  forall key, occurrences key l <= tilesInSet key.
Proof.
  intros Hall key. destruct (decide (key ∈ l)) as [Hin|Hout].
  - rewrite Forall_forall in Hall. by apply Hall.
  - rewrite occurrences_not_elem by done. apply tilesInSet_nonneg.
Qed.

Lemma calculateRemainingBag_conserves_witness :
  exists bag,
    calculateRemainingBag (fun i => i) boardWithCASA [[c_A]; [c_qmark]] = Ret bag
    /\ Z.of_nat (length bag) = 94.
Proof.
  destruct (calculateRemainingBag_conserves (fun i => i) boardWithCASA
              [[c_A]; [c_qmark]] boardWithCASA_wf) as (bag & Hbag & Hlen).
  - apply within_set_by_letter. vm_compute. repeat constructor; discriminate.
  - exists bag. split; [exact Hbag|].
    assert (length (lettersInUse boardWithCASA [[c_A]; [c_qmark]]) = 6%nat) as Hl
      by (vm_compute; reflexivity).
    rewrite Hl in Hlen. lia.
Defined.

(** ** The dictionary handle, call after call *)

(** With a usable embedded payload, loading DISC cannot fail when the
    network gives no payload at all: the fetch was rejected, the response
    was not ok, or its body did not parse or was [null]. *)
Theorem loadDictionary_DISC_falls_back (d : DictionaryData) (fetched : FetchOutcome)
  (st : DictState) :
  usablePayload d -> noPayload fetched ->
  (loadDictionary (Some d) s_DISC fetched st).2 <> LoadFailed
  /\ isDictionaryLoaded (loadDictionary (Some d) s_DISC fetched st).1 = true
  /\ currentDictionaryName (loadDictionary (Some d) s_DISC fetched st).1 = s_DISC.
Proof.
  intros [(c & tr & Htrie) [dir Hdir]] Hfetch.
  unfold loadDictionary, isDictionaryLoaded.
  destruct (bool_decide (is_Some (trieInstance st))
            && streq (currentDictionaryName st) s_DISC) eqn:Hloaded; cbn [fst snd].
  - apply andb_true_iff in Hloaded as [Hsome Hname].
    unfold streq in Hname. apply bool_decide_eq_true in Hname. by repeat split.
  - assert (tryLoad (Some d) s_DISC fetched
            = Some {| trieInstance := Some {| trieData := c :: tr;
                                              directoryData := dir;
                                              nodeCount := d_nodeCount d |};
                      currentDictionaryName := s_DISC;
                      currentDictionaryData := Some d |}) as ->.
    { assert (streq s_DISC s_DISC = true) as Hs by done.
      unfold tryLoad. destruct fetched as [| | |[payload|]]; try done;
        cbv beta zeta iota; rewrite Hs; cbv beta iota; rewrite Htrie, Hdir; done. }
    cbn. by repeat split.
Qed.

(** A served payload that is broken defeats the fallback: DISC fails to
    load although the embedded payload is usable. *)
Lemma loadDictionary_DISC_broken_payload (d broken : DictionaryData) :
  d_trie broken = None ->
  (loadDictionary (Some d) s_DISC (Fetched (Some broken)) initialDictState).2
  = LoadFailed.
Proof. intros Hb. unfold loadDictionary, tryLoad. cbn. by rewrite Hb. Qed.

(** After a call that did not fail, loading the same dictionary again does
    nothing, whatever the network does. *)
Theorem loadDictionary_again (fallbackDisc : option DictionaryData)
  (name : jsstring) (first second : FetchOutcome) (st : DictState) :
  (loadDictionary fallbackDisc name first st).2 <> LoadFailed ->
  loadDictionary fallbackDisc name second (loadDictionary fallbackDisc name first st).1
  = ((loadDictionary fallbackDisc name first st).1, AlreadyLoaded).
Proof.
  intros Hok.
  assert (is_Some (trieInstance (loadDictionary fallbackDisc name first st).1)
          /\ currentDictionaryName (loadDictionary fallbackDisc name first st).1 = name)
    as [Hsome Hname].
  { pose proof (loadDictionary_outcome fallbackDisc name first st) as Hout.
    unfold loadDictionary in *.
    destruct (bool_decide (is_Some (trieInstance st))
              && streq (currentDictionaryName st) name) eqn:Hloaded; cbn [fst snd] in *.
    - apply andb_true_iff in Hloaded as [Hsome Hname].
      apply bool_decide_eq_true in Hsome. unfold streq in Hname.
      by apply bool_decide_eq_true in Hname.
    - destruct (tryLoad fallbackDisc name first) as [st'|]; cbn [fst snd] in *; [|done].
      destruct Hout as (t & Ht & Hn). unfold getTrie in Ht. rewrite Ht. by split. }
  unfold loadDictionary at 1.
  rewrite (bool_decide_eq_true_2 _ Hsome), Hname. unfold streq.
  by rewrite bool_decide_eq_true_2.
Qed.

Lemma loadDictionary_keeps_data (fallbackDisc : option DictionaryData)
  (name : jsstring) (fetched : FetchOutcome) (st : DictState) :
  (is_Some (trieInstance st) <-> is_Some (currentDictionaryData st)) ->
  is_Some (trieInstance (loadDictionary fallbackDisc name fetched st).1)
  <-> is_Some (currentDictionaryData (loadDictionary fallbackDisc name fetched st).1).
Proof.
  intros Hinv. unfold loadDictionary.
  destruct (_ && _); cbn [fst]; [done|].
  destruct (tryLoad fallbackDisc name fetched) as [st'|] eqn:Htry; cbn [fst].
  - unfold tryLoad in Htry.
    repeat match type of Htry with
           | match ?x with _ => _ end = _ => destruct x eqn:?; try discriminate
           end;
      injection Htry as <-; cbn; split; by eexists.
  - destruct (trieInstance st) eqn:Hst; [by rewrite Hst|].
    cbn. split; intros [? [=]].
Qed.

(** In every state of the handle, [getDictionaryVersion] answers "No
    carregat" exactly when [isDictionaryLoaded] is false. *)
Theorem version_tells_loaded (fallbackDisc : option DictionaryData) (st : DictState) :
  reachableDictState fallbackDisc st ->
  getDictionaryVersion st = s_NoCarregat <-> isDictionaryLoaded st = false.
Proof.
  intros Hreach.
  assert (Hinv : is_Some (trieInstance st) <-> is_Some (currentDictionaryData st)).
  { induction Hreach; [|by apply loadDictionary_keeps_data].
    cbn. split; intros [? [=]]. }
  unfold getDictionaryVersion, isDictionaryLoaded.
  destruct (currentDictionaryData st) as [d|] eqn:Hd.
  - rewrite bool_decide_eq_true_2 by (apply Hinv; by eexists). split; [|done].
    intros Heq. exfalso.
    assert (118%N ∈ s_NoCarregat) as Hv.
    { rewrite <- Heq. rewrite !elem_of_app. right. left.
      apply list_elem_of_further, list_elem_of_here. }
    vm_compute in Hv. apply list_elem_of_In in Hv. cbn in Hv.
    decompose [or] Hv; done.
  - split; [|done]. intros _. apply bool_decide_eq_false_2.
    intros Hsome. apply Hinv in Hsome as [? [=]].
Qed.

Lemma loadDictionary_DISC_falls_back_witness :
  isDictionaryLoaded
    (loadDictionary (Some {| d_trie := Some (trieData exampleTrie);
                             d_directory := Some [];
                             d_nodeCount := 9; d_version := None |})
       s_DISC FetchRejected initialDictState).1 = true.
Proof.
  apply (loadDictionary_DISC_falls_back
           {| d_trie := Some (trieData exampleTrie); d_directory := Some [];
              d_nodeCount := 9; d_version := None |} FetchRejected initialDictState).
  - split; [|by eexists]. vm_compute. by do 2 eexists.
  - exact I.
Defined.

Lemma loadDictionary_again_witness :
  loadDictionary None s_DISC FetchRejected
    (loadDictionary None s_DISC FetchRejected discLoaded).1
  = (discLoaded, AlreadyLoaded).
Proof.
  apply (loadDictionary_again None s_DISC FetchRejected FetchRejected discLoaded).
  vm_compute. discriminate.
Defined.

(** After a load: the network gives the succinct payload of the example
    dictionary, the handle holds it, and the version is not "No carregat". *)
Lemma version_tells_loaded_witness :
  isDictionaryLoaded (loadDictionary None s_DISC (Fetched (Some succinctPayload))
                        initialDictState).1 = true
  /\ (getDictionaryVersion
        (loadDictionary None s_DISC (Fetched (Some succinctPayload))
           initialDictState).1 = s_NoCarregat
      <-> isDictionaryLoaded
            (loadDictionary None s_DISC (Fetched (Some succinctPayload))
               initialDictState).1 = false).
Proof.
  split; [reflexivity|].
  apply (version_tells_loaded None
           (loadDictionary None s_DISC (Fetched (Some succinctPayload))
              initialDictState).1).
  apply reach_load, reach_initial.
Defined.

(** ** When the validator returns, and when it throws *)

Lemma spliceFirst_length x rack rack' :
  spliceFirst x rack = Some rack' -> length rack = S (length rack').
Proof.
  revert rack'. induction rack as [|y rest IH]; intros rack' Hs; cbn in Hs; [done|].
  destruct (streq y x); [by injection Hs as <-|].
  destruct (spliceFirst x rest) as [r|]; [|done]. injection Hs as <-.
  cbn [length]. by rewrite (IH r).
Qed.

Lemma takeFromRack_length x rack rack' :
  takeFromRack x rack = Some rack' -> length rack = S (length rack').
Proof.
  unfold takeFromRack. destruct (spliceFirst x rack) as [r|] eqn:Hx.
  - intros [= <-]. by eapply spliceFirst_length.
  - apply spliceFirst_length.
Qed.

Section ValidatorEdges.
Context `{JSString} `{TrieDecoder}.
Variable trie : option FrozenTrie.

Lemma scoreTile_negative board nt d r c t st :
  wfBoard board -> r < 15 -> c < 15 -> r < 0 \/ c < 0 ->
  scoreTile trie board nt d r c t st = Throw.
Proof.
  intros [Hrows Hcols] Hr Hc Hneg. unfold scoreTile, BOARD_SIZE.
  rewrite !bool_decide_eq_false_2 by lia. cbn [orb].
  assert (cellAt board r c = Throw) as ->; [|done].
  unfold cellAt, nthZ. case_bool_decide as Hr0; [|done].
  destruct (_ !! Z.to_nat r) as [cells|]; [|done].
  by rewrite bool_decide_eq_false_2 by lia.
Qed.

Lemma scoreTile_offBoard board nt d r c t st :
  15 <= r \/ 15 <= c ->
  scoreTile trie board nt d r c t st = Ret (inr (reject OutOfBounds)).
Proof.
  intros Hoff. unfold scoreTile, BOARD_SIZE.
  destruct Hoff; [rewrite (bool_decide_eq_true_2 (15 <= r)) by done
                 |rewrite (bool_decide_eq_true_2 (15 <= c)) by done];
    by rewrite ?orb_true_r.
Qed.

(** On a 15 x 15 board with a dictionary whose nodes reached from the root
    have a child count that is not negative, [calculateMoveScore] throws
    exactly for a candidate with a tile whose first cell has a negative row
    or column and lies before the last row and column; in every other case
    it returns a result. *)
Theorem calculateMoveScore_throws_iff (board : Board) (tiles : list Tile)
  (rack : list jsstring) (sr sc : Z) (d : Direction) :
  wfBoard board -> soundTrie trie ->
  calculateMoveScore trie board tiles rack sr sc d = Throw
  <-> tiles <> [] /\ sr < 15 /\ sc < 15 /\ (sr < 0 \/ sc < 0).
Proof.
  intros Hwf Hs.
  destruct (calculateMoveScore_loop trie board tiles rack sr sc d Hwf Hs)
    as (st0 & _ & _ & _ & ->).
  destruct tiles as [|t rest].
  - cbn. split; [done|]. by intros [? _].
  - cbn [scoreTiles]. rewrite !Z.mul_0_l, !Z.add_0_r.
    destruct (decide (15 <= sr \/ 15 <= sc)) as [Hoff|Hon].
    { rewrite scoreTile_offBoard by done. cbn. split; [done|]. lia. }
    destruct (decide (sr < 0 \/ sc < 0)) as [Hneg|Hpos].
    { rewrite scoreTile_negative by (done || lia). cbn. split; [|done].
      intros _. split; [done|]. lia. }
    split; [|lia]. intros Hthrow. exfalso.
    destruct (scoreTiles_returns trie board
                (newTilesMapOf (t :: rest) sr sc (rowStep d) (colStep d))
                d sr sc (t :: rest) 0 st0) as [x Hx]; try (done || lia).
    cbn [scoreTiles] in Hx. rewrite !Z.mul_0_l, !Z.add_0_r in Hx.
    rewrite Hx in Hthrow. by destruct x.
Qed.

Lemma scoreTiles_rack board nt d sr sc tiles i st st' :
  scoreTiles trie board nt d sr sc tiles i st = Ret (inl st') ->
  rackAfter board (placementsFrom tiles sr sc d i) (rackAvailable st)
  = Some (rackAvailable st')
  /\ Z.of_nat (length (rackAvailable st))
     = Z.of_nat (length (rackAvailable st'))
       + tilesLaid board (placementsFrom tiles sr sc d i).
Proof.
  revert i st. induction tiles as [|t rest IH]; intros i st Hs;
    cbn [scoreTiles placementsFrom rackAfter] in *.
  - injection Hs as <-. split; [done|]. unfold tilesLaid. cbn. lia.
  - destruct (scoreTile _ _ _ _ _ _ _ _) as [[st1|res]|] eqn:Hturn;
      cbn [js_bind] in Hs; try discriminate Hs.
    apply IH in Hs as [Hrest Hlen].
    set (p := {| at_row := sr + i * rowStep d; at_col := sc + i * colStep d;
                 placed := t |}) in *.
    apply (scoreTile_spec trie board nt d p) in Hturn
      as [Hin Hfits _ _ _ _ _ _ _].
    rewrite tilesLaid_cons. cbn [at_row at_col placed]. rewrite Hin.
    unfold fitsCell, isNew in *.
    destruct (tileOf board (at_row p) (at_col p)) as [onBoard|] eqn:Htile.
    + destruct Hfits as [Hsame Hrack]. rewrite Hrack in *.
      unfold streq. rewrite bool_decide_eq_true_2 by done.
      rewrite bool_decide_eq_false_2 by done. split; [done|lia].
    + rewrite Hfits. cbn. apply takeFromRack_length in Hfits.
      split; [done|lia].
Qed.

(** A move that [calculateMoveScore] accepts fits the board and the rack:
    every tile lies on the board, on an occupied cell it repeats the board's
    letter, and the rack supplies a letter or a joker for each new tile, so
    the move lays no more tiles than the rack holds. *)
Theorem accepted_move_fits_rack (board : Board) (tiles : list Tile)
  (rack : list jsstring) (sr sc : Z) (d : Direction) (res : ScoreResult) :
  calculateMoveScore trie board tiles rack sr sc d = Ret res ->
  isValid res = true ->
  candidateFits board (placements tiles sr sc d) rack
  /\ tilesLaid board (placements tiles sr sc d) <= Z.of_nat (length rack).
Proof.
  intros Hc Hv.
  destruct (calculateMoveScore_valid trie _ _ _ _ _ _ _ Hc Hv)
    as (e & st0 & st & _ & _ & _ & _ & _ & Hrack & _ & _ & Hloop & _).
  apply scoreTiles_rack in Hloop as [Hfit Hlen]. rewrite Hrack in *.
  unfold candidateFits, placements. split; [by eexists|lia].
Qed.

End ValidatorEdges.

(** With the decoder of the source: CA from the column before the first
    makes the validator throw. *)
Lemma calculateMoveScore_throws_iff_witness :
  @calculateMoveScore latin1Strings sourceDecoder (Some succinctTrie)
    createInitialBoard (parseInputWord s_CA) rackCASA 7 (-1) Horizontal = Throw.
Proof.
  apply (@calculateMoveScore_throws_iff latin1Strings sourceDecoder
           (Some succinctTrie) createInitialBoard
           (parseInputWord s_CA) rackCASA 7 (-1) Horizontal
           createInitialBoard_wf succinctTrie_sound).
  split; [discriminate|]. lia.
Defined.

Lemma accepted_move_fits_rack_witness :
  tilesLaid boardWithCASA (placements (parseInputWord s_AS) 8 5 Horizontal) <= 2.
Proof.
  apply (accepted_move_fits_rack (Some exampleTrie) boardWithCASA
           (parseInputWord s_AS) [[c_A]; [c_S]] 8 5 Horizontal (accept 9));
    vm_compute; reflexivity.
Defined.

(** ** The candidates of the finder *)

Lemma collectMoves_Forall {A B} (P : B -> Prop) (f : A -> JS (list B)) l ms :
  (forall a ms', a ∈ l -> f a = Ret ms' -> Forall P ms') ->
  collectMoves f l = Ret ms -> Forall P ms.
Proof.
  revert ms. induction l as [|a rest IH]; intros ms Hf Hc; cbn [collectMoves] in Hc.
  - injection Hc as <-. constructor.
  - destruct (f a) as [first|] eqn:Hfirst; cbn [js_bind] in Hc; [|done].
    destruct (collectMoves f rest) as [more|] eqn:Hmore; cbn [js_bind] in Hc; [|done].
    injection Hc as <-. apply Forall_app. split.
    + apply (Hf a); [apply list_elem_of_here|done].
    + apply IH; [|done]. intros a' ms' Ha'. apply Hf. by apply list_elem_of_further.
Qed.

Lemma mapJS_lookup {A B} (f : A -> JS B) (l : list A) (bs : list B) i b :
  mapJS f l = Ret bs -> bs !! i = Some b -> exists a, l !! i = Some a /\ f a = Ret b.
Proof.
  revert bs i. induction l as [|a rest IH]; intros bs i Hm Hb; cbn [mapJS] in Hm.
  - injection Hm as <-. done.
  - destruct (f a) as [b0|] eqn:Hfa; cbn [js_bind] in Hm; [|done].
    destruct (mapJS f rest) as [bs0|] eqn:Hrest; cbn [js_bind] in Hm; [|done].
    injection Hm as <-. destruct i as [|i]; cbn in Hb.
    + injection Hb as <-. by exists a.
    + by apply (IH bs0 i).
Qed.

Lemma lookup_indices (i : nat) (k : Z) : indices !! i = Some k -> k = Z.of_nat i.
Proof.
  unfold indices. rewrite list_lookup_fmap. intros Hk.
  destruct (seq 0 15 !! i) as [n|] eqn:Hn; [|done]. injection Hk as <-.
  apply lookup_seq in Hn as [-> _]. done.
Qed.

(** A cell of the board that holds no tile, or no cell at all. *)
Lemma cellAt_tileOf_None board r c cell :
  cellAt board r c = Ret cell -> tile cell = None -> tileOf board r c = None.
Proof.
  intros Hc Ht. unfold tileOf, cellOf. destruct (inBounds r c); [|done].
  unfold cellAt in Hc. destruct (nthZ board r) as [cells|] eqn:E1; [|discriminate Hc].
  destruct (nthZ cells c) as [cell'|] eqn:E2; [|discriminate Hc].
  injection Hc as ->. cbn. by rewrite E2.
Qed.

(** The transposed board holds at [(c, r)] what the board holds at
    [(r, c)]. *)
Lemma transposeBoard_tileOf_None board tBoard r c cell :
  transposeBoard board = Ret tBoard ->
  cellAt tBoard c r = Ret cell -> tile cell = None -> tileOf board r c = None.
Proof.
  unfold transposeBoard. intros Ht Hc Hnone.
  unfold cellAt, nthZ, Board in *.
  case_bool_decide as Hc0; [|done].
  destruct (tBoard !! Z.to_nat c) as [cells|] eqn:Hcells; [|done].
  case_bool_decide as Hr0; [|done].
  destruct (cells !! Z.to_nat r) as [cell'|] eqn:Hcell; [|done]. injection Hc as ->.
  destruct (mapJS_lookup _ _ _ _ _ Ht Hcells) as (c' & Hc' & Hrow).
  destruct (mapJS_lookup _ _ _ _ _ Hrow Hcell) as (r' & Hr' & Hcell').
  apply lookup_indices in Hc', Hr'. rewrite Z2Nat.id in Hc', Hr' by done. subst c' r'.
  unfold transposedCell in Hcell'. unfold tileOf, cellOf.
  destruct (inBounds r c); [|done].
  destruct (nthZ board r) as [row|] eqn:E1; [|done]. cbn.
  destruct (nthZ row c) as [original|] eqn:E2; [|done]. cbn.
  injection Hcell' as <-. by cbn in Hnone.
Qed.

Section FinderCandidates.
Context `{JSString} `{TrieDecoder}.

Lemma addMove_addedBy board row endCol word direction ms :
  addMove board row endCol word direction = Ret ms ->
  Forall (addedBy board direction) ms.
Proof.
  intros Ha. pose proof Ha as Ha'. unfold addMove in Ha'.
  destruct (moveTiles _ _ _ _) as [built|]; cbn [js_bind] in Ha'; [|done].
  destruct (bool_decide (built.2 = 0)).
  - injection Ha' as <-. constructor.
  - injection Ha' as <-. constructor; [|constructor].
    exists row, endCol, word. exact Ha.
Qed.

Lemma extendRight_addedBy t board row crossChecks direction fuel :
  forall col word node rack ms,
    extendRight fuel t board row col word node rack crossChecks direction = Ret ms ->
    Forall (addedBy board direction) ms.
Proof.
  induction fuel as [|fuel IH]; intros col word node rack ms He;
    cbn [extendRight] in He.
  - injection He as <-. constructor.
  - destruct (bool_decide (BOARD_SIZE <= col)).
    { destruct (final node); [by eapply addMove_addedBy|].
      injection He as <-. constructor. }
    destruct (tileAt board row col) as [[existing|]|]; cbn [js_bind] in He; [| |done].
    + destruct (findChild t node _) as [childNode|]; [by eapply IH|].
      injection He as <-. constructor.
    + match type of He with
      | js_bind ?m _ = _ => destruct m as [here|] eqn:Hhere; cbn [js_bind] in He; [|done]
      end.
      match type of He with
      | js_bind ?m _ = _ => destruct m as [further|] eqn:Hfurther;
                            cbn [js_bind] in He; [|done]
      end.
      injection He as <-. apply Forall_app. split.
      * destruct (final node && _); [by eapply addMove_addedBy|].
        injection Hhere as <-. constructor.
      * eapply collectMoves_Forall; [|exact Hfurther].
        intros child ms' _ Hchild. cbv beta zeta in Hchild.
        destruct (match crossChecks !! (row, col) with
                  | Some allowed => negb (bool_decide (letter child ∈ allowed))
                  | None => false
                  end); [injection Hchild as <-; constructor|].
        destruct (useRack [letter child] rack) as [[nextRack blank]|];
          [by eapply IH|injection Hchild as <-; constructor].
Qed.

Lemma leftPart_addedBy t board row anchorCol crossChecks direction limit :
  forall word node rack ms,
    leftPart limit t board row anchorCol word node rack crossChecks direction = Ret ms ->
    Forall (addedBy board direction) ms.
Proof.
  induction limit as [|limit IH]; intros word node rack ms Hl; cbn [leftPart] in Hl.
  - destruct (extendRight _ _ _ _ _ _ _ _ _ _) as [first|] eqn:Hfirst;
      cbn [js_bind] in Hl; [|done].
    injection Hl as <-. by eapply extendRight_addedBy.
  - destruct (extendRight _ _ _ _ _ _ _ _ _ _) as [first|] eqn:Hfirst;
      cbn [js_bind] in Hl; [|done].
    match type of Hl with
    | js_bind ?m _ = _ => destruct m as [further|] eqn:Hfurther;
                          cbn [js_bind] in Hl; [|done]
    end.
    injection Hl as <-. apply Forall_app. split; [by eapply extendRight_addedBy|].
    eapply collectMoves_Forall; [|exact Hfurther].
    intros child ms' _ Hchild. cbv beta zeta in Hchild.
    destruct (useRack [letter child] rack) as [[nextRack blank]|];
      [by eapply IH|injection Hchild as <-; constructor].
Qed.

Lemma findMovesInDirection_addedBy t isEmpty trieRack board direction ms :
  findMovesInDirection t isEmpty trieRack board direction = Ret ms ->
  Forall (addedBy board direction) ms.
Proof.
  unfold findMovesInDirection. intros Hf.
  destruct (computeCrossChecks t board) as [crossChecks|]; cbn [js_bind] in Hf; [|done].
  destruct (findAnchors board isEmpty) as [anchors|]; cbn [js_bind] in Hf; [|done].
  eapply collectMoves_Forall; [|exact Hf]. intros r ms1 _ Hrow. cbv beta zeta in Hrow.
  eapply collectMoves_Forall; [|exact Hrow]. intros anchor ms2 _ Hanchor.
  unfold movesAtAnchor in Hanchor. cbv zeta in Hanchor.
  match type of Hanchor with
  | js_bind ?m _ = _ => destruct m as [[left|]|]; cbn [js_bind] in Hanchor; [| |done]
  end.
  - destruct (collectRun _ _ _ _ _ _) as [run|]; cbn [js_bind] in Hanchor; [|done].
    destruct (walkPrefix _ _ _ _) as [[currNode prefixInternal]|];
      [by eapply extendRight_addedBy|injection Hanchor as <-; constructor].
  - destruct (countLeft _ _ _ _ _) as [limitLeft|]; cbn [js_bind] in Hanchor; [|done].
    by eapply leftPart_addedBy.
Qed.

Lemma moveTiles_new board r c word tiles n :
  moveTiles board r c word = Ret (tiles, n) ->
  length tiles = length word
  /\ 0 <= n
  /\ (n <> 0 ->
      exists (i : nat) t cell,
        tiles !! i = Some t
        /\ cellAt board r (c + Z.of_nat i) = Ret cell /\ tile cell = None).
Proof.
  revert c tiles n. induction word as [|u rest IH]; intros c tiles n Hm;
    cbn [moveTiles] in Hm.
  - injection Hm as <- <-. by repeat split.
  - destruct (cellAt board r c) as [cell|] eqn:Hcell; cbn [js_bind] in Hm; [|done].
    destruct (moveTiles board r (c + 1) rest) as [[more k]|] eqn:Hrest;
      cbn [js_bind] in Hm; [|done].
    destruct (IH _ _ _ Hrest) as (Hlen & Hk & Hnew).
    destruct (tile cell) as [t|] eqn:Htile; injection Hm as <- <-; cbn [fst snd length].
    + split; [by rewrite Hlen|]. split; [done|]. intros Hn.
      destruct (Hnew Hn) as (i & t' & cell' & Hi & Hc & Ht').
      exists (S i), t', cell'. split; [done|].
      by replace (c + Z.of_nat (S i)) with (c + 1 + Z.of_nat i) by lia.
    + split; [by rewrite Hlen|]. split; [lia|]. intros _.
      exists O, (createTile [u]), cell. rewrite Z.add_0_r. by repeat split.
Qed.

Lemma tilesLaid_nonneg board ps : 0 <= tilesLaid board ps.
Proof. unfold tilesLaid. lia. Qed.

Lemma tilesLaid_from board tiles sr sc d (i : nat) t j :
  tiles !! i = Some t ->
  tileOf board (sr + (j + Z.of_nat i) * rowStep d)
    (sc + (j + Z.of_nat i) * colStep d) = None ->
  0 < tilesLaid board (placementsFrom tiles sr sc d j).
Proof.
  revert i j. induction tiles as [|t0 rest IH]; intros i j Hi Hnone; [done|].
  cbn [placementsFrom]. rewrite tilesLaid_cons.
  pose proof (tilesLaid_nonneg board (placementsFrom rest sr sc d (j + 1))).
  destruct i as [|i]; cbn in Hi.
  - unfold isNew. cbn [at_row at_col]. rewrite Z.add_0_r in Hnone.
    rewrite bool_decide_eq_true_2 by done. lia.
  - specialize (IH i (j + 1) Hi).
    replace (j + 1 + Z.of_nat i) with (j + Z.of_nat (S i)) in IH by lia.
    specialize (IH Hnone). destruct (isNew _ _); lia.
Qed.

(** A move that [addMove] pushes lays a tile on an empty cell of the board
    it was found on. *)
Lemma addedBy_new_tile board direction m :
  addedBy board direction m ->
  mv_direction m = direction
  /\ exists (i : nat) t cell,
       mv_tiles m !! i = Some t
       /\ cellAt board
            (match direction with Horizontal => mv_row m | Vertical => mv_col m end)
            (match direction with Horizontal => mv_col m | Vertical => mv_row m end
             + Z.of_nat i) = Ret cell
       /\ tile cell = None.
Proof.
  intros (row & endCol & word & Ha). unfold addMove in Ha.
  destruct (moveTiles _ _ _ _) as [[tiles n]|] eqn:Hbuilt; cbn [js_bind] in Ha; [|done].
  cbn [fst snd] in Ha. case_bool_decide as Hn; [done|]. injection Ha as <-.
  cbn [mv_direction mv_tiles mv_row mv_col]. split; [done|].
  destruct (moveTiles_new _ _ _ _ _ _ Hbuilt) as (_ & _ & Hnew).
  destruct (Hnew Hn) as (i & t & cell & Hi & Hc & Ht).
  exists i, t, cell. by destruct direction.
Qed.

Lemma rescore_fields trie board rack m m' :
  rescore trie board rack m = Ret m' ->
  mv_word m' = mv_word m /\ mv_tiles m' = mv_tiles m /\ mv_row m' = mv_row m
  /\ mv_col m' = mv_col m /\ mv_direction m' = mv_direction m.
Proof.
  unfold rescore. intros Hr.
  destruct (calculateMoveScore _ _ _ _ _ _ _) as [res|]; cbn [js_bind] in Hr; [|done].
  by injection Hr as <-.
Qed.

(** The candidates that [findBestMoves] scored: the moves of the list come
    from them, with the score and the verdict of the validator added. *)
Lemma findBestMoves_candidates trie board rack limit moves m' :
  findBestMoves trie board rack limit = Ret moves -> m' ∈ moves ->
  exists m,
    rescore trie board rack m = Ret m' /\ keepScored m' = true
    /\ (addedBy board Horizontal m
        \/ exists tBoard, transposeBoard board = Ret tBoard
                          /\ addedBy tBoard Vertical m).
Proof.
  unfold findBestMoves. intros Hf Hm. destruct trie as [t|];
    [|injection Hf as <-; by apply elem_of_nil in Hm].
  destruct (someRowHasTile board indices) as [nonEmpty|]; cbn [js_bind] in Hf; [|done].
  destruct (findMovesInDirection t _ _ board Horizontal) as [horizontal|] eqn:Hh;
    cbn [js_bind] in Hf; [|done].
  destruct (transposeBoard board) as [tBoard|] eqn:Ht; cbn [js_bind] in Hf; [|done].
  destruct (findMovesInDirection t _ _ tBoard Vertical) as [vertical|] eqn:Hv;
    cbn [js_bind] in Hf; [|done].
  destruct (mapJS _ _) as [scored|] eqn:Hs; cbn [js_bind] in Hf; [|done].
  injection Hf as <-.
  apply sliceTo_elem, sortByScore_elem, dedupMoves_elem in Hm.
  apply list_elem_of_filter in Hm as [Hkeep Hm].
  destruct (mapJS_elem _ _ _ _ Hs Hm) as (m & Hin & Hres).
  exists m. split; [done|]. split; [done|].
  apply elem_of_app in Hin as [Hin|Hin].
  - left. apply findMovesInDirection_addedBy in Hh.
    rewrite Forall_forall in Hh. by apply Hh.
  - right. exists tBoard. split; [done|]. apply findMovesInDirection_addedBy in Hv.
    rewrite Forall_forall in Hv. by apply Hv.
Qed.

Lemma findBestMoves_new_tiles trie board rack limit moves :
  findBestMoves trie board rack limit = Ret moves ->
  Forall (laysNewTile board) moves.
Proof.
  intros Hf. apply Forall_forall. intros m' Hm'.
  destruct (findBestMoves_candidates _ _ _ _ _ _ Hf Hm')
    as (m & Hres & _ & Hadded).
  unfold laysNewTile.
  apply rescore_fields in Hres as (_ & -> & -> & -> & ->).
  destruct Hadded as [Hadded|(tBoard & Ht & Hadded)];
    apply addedBy_new_tile in Hadded as (-> & i & t & cell & Hi & Hc & Hnone).
  - apply (tilesLaid_from board _ _ _ _ i t 0 Hi). cbn [rowStep colStep].
    rewrite Z.mul_0_r, Z.mul_1_r, Z.add_0_r, Z.add_0_l.
    by eapply cellAt_tileOf_None.
  - apply (tilesLaid_from board _ _ _ _ i t 0 Hi). cbn [rowStep colStep].
    rewrite Z.mul_0_r, Z.mul_1_r, Z.add_0_r, Z.add_0_l.
    by eapply transposeBoard_tileOf_None.
Qed.

(** Every move that [findBestMoves] returns lays at least one tile on an
    empty cell of the board: the finder never proposes to replay tiles that
    lie on the board already. *)
Theorem findBestMoves_lays_a_tile (trie : option FrozenTrie) (board : Board)
  (rack : list jsstring) (limit : Z) (moves : list PlayerMove) :
  findBestMoves trie board rack limit = Ret moves ->
  Forall (laysNewTile board) moves.
Proof. apply findBestMoves_new_tiles. Qed.

End FinderCandidates.

Lemma findBestMoves_lays_a_tile_witness :
  exists moves,
    findBestMoves (Some exampleTrie) boardWithCASA rackCASA 5 = Ret moves
    /\ moves <> [] /\ Forall (laysNewTile boardWithCASA) moves.
Proof.
  eexists. split; [vm_compute; reflexivity|]. split; [discriminate|].
  apply (findBestMoves_lays_a_tile (Some exampleTrie) boardWithCASA rackCASA 5).
  vm_compute. reflexivity.
Defined.

(** ** The finder runs to its end *)

Lemma collectMoves_returns {A B} (f : A -> JS (list B)) (l : list A) :
  (forall a, a ∈ l -> returns (f a)) -> returns (collectMoves f l).
Proof.
  induction l as [|a rest IH]; intros Hf; cbn [collectMoves]; [apply returns_Ret|].
  apply returns_bind; [apply Hf, list_elem_of_here|]. intros first _.
  apply returns_bind; [|intros; apply returns_Ret].
  apply IH. intros a' Ha'. apply Hf. by apply list_elem_of_further.
Qed.

Lemma mapJS_returns {A B} (f : A -> JS B) (l : list A) :
  (forall a, a ∈ l -> returns (f a)) -> returns (mapJS f l).
Proof.
  induction l as [|a rest IH]; intros Hf; cbn [mapJS]; [apply returns_Ret|].
  apply returns_bind; [apply Hf, list_elem_of_here|]. intros b _.
  apply returns_bind; [|intros; apply returns_Ret].
  apply IH. intros a' Ha'. apply Hf. by apply list_elem_of_further.
Qed.

Lemma mapJS_length {A B} (f : A -> JS B) (l : list A) (bs : list B) :
  mapJS f l = Ret bs -> length bs = length l.
Proof.
  revert bs. induction l as [|a rest IH]; intros bs Hm; cbn [mapJS] in Hm.
  - by injection Hm as <-.
  - destruct (f a) as [b|]; cbn [js_bind] in Hm; [|done].
    destruct (mapJS f rest) as [bs0|]; cbn [js_bind] in Hm; [|done].
    injection Hm as <-. cbn [length]. by rewrite (IH bs0).
Qed.

(** On a 15 x 15 board the run of tiles is read without exceptions. *)
Lemma collectRun_wf fuel board r c dr dc :
  wfBoard board ->
  collectRun fuel board r c dr dc = Ret (runTiles fuel board r c dr dc).
Proof.
  intros Hwf. revert r c. induction fuel as [|fuel IH]; intros r c;
    cbn [collectRun runTiles]; [done|].
  rewrite tileIfInBounds_wf by done. cbn [js_bind].
  destruct (tileOf board r c) as [t|]; [|done]. by rewrite IH.
Qed.

Lemma tileOf_inBounds board r c t : tileOf board r c = Some t -> inBounds r c = true.
Proof. unfold tileOf, cellOf. by destruct (inBounds r c). Qed.

(** A run to the left from column [c] holds at most [c + 1] tiles, each a
    tile of the board. *)
Lemma runTiles_left fuel board r c :
  -1 <= c ->
  Z.of_nat (length (runTiles fuel board r c 0 (-1))) <= c + 1
  /\ Forall (fun t => exists r' c', tileOf board r' c' = Some t)
       (runTiles fuel board r c 0 (-1)).
Proof.
  revert c. induction fuel as [|fuel IH]; intros c Hc; cbn [runTiles length].
  - split; [lia|constructor].
  - destruct (tileOf board r c) as [t|] eqn:Ht; cbn [length]; [|split; [lia|constructor]].
    pose proof (tileOf_inBounds _ _ _ _ Ht) as Hin. apply inBounds_spec in Hin.
    destruct (IH (c + -1)) as [Hlen Hall]; [lia|]. rewrite Z.add_0_r.
    split; [lia|]. constructor; [eauto|done].
Qed.

Section FinderTotality.
Context `{JSString} `{TrieDecoder}.

Lemma moveTiles_returns board row start word :
  wfBoard board -> 0 <= row < 15 -> 0 <= start ->
  start + Z.of_nat (length word) <= 15 ->
  returns (moveTiles board row start word).
Proof.
  intros Hwf Hrow. revert start. induction word as [|u rest IH]; intros start Hs0 Hlen;
    cbn [moveTiles length] in *; [apply returns_Ret|].
  destruct (cellAt_wf board row start Hwf) as (cell & -> & _);
    [apply inBounds_spec; lia|].
  cbn [js_bind].
  destruct (IH (start + 1)) as [[more n] ->]; [lia|lia|]. cbn [js_bind].
  destruct (tile cell); apply returns_Ret.
Qed.

Lemma addMove_returns board row endCol word direction :
  wfBoard board -> 0 <= row < 15 ->
  0 <= endCol - Z.of_nat (length word) -> endCol <= 15 ->
  returns (addMove board row endCol word direction).
Proof.
  intros Hwf Hrow Hstart Hend. unfold addMove.
  apply returns_bind; [apply moveTiles_returns; (done || lia)|].
  intros built _. destruct (bool_decide _); apply returns_Ret.
Qed.

Lemma getInternalChar_length (l : jschar) :
  length (getInternalChar [l] false) = 1%nat.
Proof.
  unfold getInternalChar, TRIE_TO_INTERNAL.
  repeat match goal with |- context [streq ?a ?b] => destruct (streq a b) end; done.
Qed.

Lemma children_decoded t node child :
  child ∈ children t node -> exists i, child = getNodeByIndex t i.
Proof.
  unfold children. intros Hin. apply list_elem_of_fmap in Hin as (i & -> & _).
  unfold getChild. eauto.
Qed.

Lemma extendRight_returns t board row crossChecks direction fuel :
  wfBoard board -> unitTiles board -> blankLettersFit t -> 0 <= row < 15 ->
  forall col word node rack,
    0 <= col - Z.of_nat (length word) -> col <= 15 ->
    returns (extendRight fuel t board row col word node rack crossChecks direction).
Proof.
  intros Hwf Hunit Hblank Hrow.
  induction fuel as [|fuel IH]; intros col word node rack Hstart Hend;
    cbn [extendRight]; [apply returns_Ret|].
  case_bool_decide as Hcol.
  { destruct (final node); [by apply addMove_returns|apply returns_Ret]. }
  unfold BOARD_SIZE in Hcol.
  assert (Hin : inBounds row col = true) by (apply inBounds_spec; lia).
  rewrite (tileAt_wf board row col Hwf Hin). cbn [js_bind].
  destruct (tileOf board row col) as [existing|] eqn:Htile.
  - destruct (findChild t node _) as [childNode|]; [|apply returns_Ret].
    apply IH; rewrite ?length_app, ?(Hunit _ _ _ Htile); lia.
  - apply returns_bind.
    { destruct (final node && _); [by apply addMove_returns|apply returns_Ret]. }
    intros here _. apply returns_bind; [|intros; apply returns_Ret].
    apply collectMoves_returns. intros child Hchild. cbv beta zeta.
    destruct (match crossChecks !! (row, col) with
              | Some allowed => negb (bool_decide (letter child ∈ allowed))
              | None => false
              end); [apply returns_Ret|].
    destruct (useRack [letter child] rack) as [[nextRack blank]|]; [|apply returns_Ret].
    apply children_decoded in Hchild as [i ->].
    apply IH; rewrite ?length_app; [|lia].
    destruct blank; rewrite ?Hblank, ?getInternalChar_length; lia.
Qed.

Lemma leftPart_returns t board row anchorCol crossChecks direction limit :
  wfBoard board -> unitTiles board -> blankLettersFit t -> 0 <= row < 15 ->
  anchorCol <= 15 ->
  forall word node rack,
    0 <= anchorCol - Z.of_nat (length word) - Z.of_nat limit ->
    returns (leftPart limit t board row anchorCol word node rack crossChecks direction).
Proof.
  intros Hwf Hunit Hblank Hrow Hanchor.
  induction limit as [|limit IH]; intros word node rack Hstart; cbn [leftPart].
  - apply returns_bind; [apply extendRight_returns; (done || lia)|].
    intros. apply returns_Ret.
  - apply returns_bind; [apply extendRight_returns; (done || lia)|].
    intros first _. apply returns_bind; [|intros; apply returns_Ret].
    apply collectMoves_returns. intros child Hchild. cbv beta zeta.
    destruct (useRack [letter child] rack) as [[nextRack blank]|]; [|apply returns_Ret].
    apply children_decoded in Hchild as [i ->].
    apply IH. rewrite length_app.
    destruct blank; rewrite ?Hblank, ?getInternalChar_length; lia.
Qed.

Lemma countLeft_returns board anchors r fuel k :
  wfBoard board -> 0 <= r < 15 -> -1 <= k < 15 ->
  exists n, countLeft fuel board anchors r k = Ret n /\ Z.of_nat n <= k + 1.
Proof.
  intros Hwf Hr. revert k. induction fuel as [|fuel IH]; intros k Hk;
    cbn [countLeft]; [exists O; split; [done|lia]|].
  case_bool_decide as Hk0; [|exists O; split; [done|lia]].
  rewrite (tileAt_wf board r k Hwf) by (apply inBounds_spec; lia). cbn [js_bind].
  destruct (bool_decide (is_Some _)); [exists O; split; [done|lia]|].
  destruct (bool_decide (_ ∈ anchors)); [exists O; split; [done|lia]|].
  destruct (IH (k - 1)) as (n & -> & Hn); [lia|]. cbn [js_bind].
  exists (S n). split; [done|lia].
Qed.

Lemma walkPrefix_length t tiles node prefix node' prefix' :
  Forall (fun x => length (char x) = 1%nat) tiles ->
  walkPrefix t tiles node prefix = Some (node', prefix') ->
  length prefix' = (length prefix + length tiles)%nat.
Proof.
  intros Hall. revert node prefix.
  induction Hall as [|x rest Hx _ IH]; intros node prefix Hw; cbn [walkPrefix] in Hw.
  - injection Hw as <- <-. cbn. lia.
  - destruct (findChild t node _) as [nextNode|]; [|done].
    apply IH in Hw. rewrite Hw, length_app, Hx. cbn [length]. lia.
Qed.

Lemma movesAtAnchor_returns t board direction trieRack crossChecks anchors anchor :
  wfBoard board -> unitTiles board -> blankLettersFit t ->
  inBounds anchor.1 anchor.2 = true ->
  returns (movesAtAnchor t board direction trieRack crossChecks anchors anchor).
Proof.
  intros Hwf Hunit Hblank Hin. pose proof Hin as Hrc. apply inBounds_spec in Hrc.
  destruct anchor as [r c]. cbn [fst snd] in *. unfold movesAtAnchor. cbv zeta.
  cbn [fst snd].
  assert (exists lt,
            (if bool_decide (0 < c) then tileAt board r (c - 1) else Ret None)
            = Ret lt) as [lt ->].
  { case_bool_decide; [|by eexists].
    rewrite (tileAt_wf board r (c - 1) Hwf) by (apply inBounds_spec; lia). by eexists. }
  cbn [js_bind]. destruct lt as [leftTile|].
  - rewrite collectRun_wf by done. cbn [js_bind].
    destruct (runTiles_left runFuel board r (c - 1)) as [Hlen Hall]; [lia|].
    destruct (walkPrefix _ _ _ _) as [[currNode prefixInternal]|] eqn:Hwalk;
      [|apply returns_Ret].
    apply walkPrefix_length in Hwalk.
    + apply extendRight_returns; try (done || lia).
      rewrite Hwalk, length_reverse. cbn [length]. lia.
    + apply Forall_reverse. eapply Forall_impl; [exact Hall|].
      intros x (r' & c' & Hx). by eapply Hunit.
  - destruct (countLeft_returns board anchors r runFuel (c - 1) Hwf)
      as (limitLeft & -> & Hlimit); [lia|lia|].
    cbn [js_bind]. apply leftPart_returns; try (done || lia). cbn [length]. lia.
Qed.


Lemma crossCheckAt_returns t board r c :
  wfBoard board -> soundTrie (Some t) -> returns (crossCheckAt t board r c).
Proof.
  intros Hwf Hs. unfold crossCheckAt. rewrite !collectRun_wf by done. cbn [js_bind].
  assert (forall prefix suffix,
            returns (mapJS (fun trieChar =>
                       let! found := lookup t (prefix ++ [trieChar] ++ suffix) in
                       Ret (trieChar, found)) TRIE_ALPHABET)) as Hmap.
  { intros prefix suffix. apply mapJS_returns. intros trieChar _. cbv beta.
    apply returns_bind; [|intros; apply returns_Ret].
    by apply lookup_returns. }
  destruct (runTiles runFuel board (r - 1) c (-1) 0),
           (runTiles runFuel board (r + 1) c 1 0); try apply returns_Ret;
    (apply returns_bind; [apply Hmap|intros; apply returns_Ret]).
Qed.

Lemma crossChecksOver_returns t board cells :
  wfBoard board -> soundTrie (Some t) ->
  Forall (fun rc => inBounds rc.1 rc.2 = true) cells ->
  returns (crossChecksOver t board cells).
Proof.
  intros Hwf Hs. induction 1 as [|rc rest Hrc _ IH]; cbn [crossChecksOver];
    [apply returns_Ret|].
  rewrite tileAt_wf by done. cbn [js_bind].
  apply returns_bind.
  { destruct (bool_decide _); [apply returns_Ret|by apply crossCheckAt_returns]. }
  intros here _. apply returns_bind; [done|]. intros. apply returns_Ret.
Qed.

Lemma hasTileBeside_returns board r c :
  wfBoard board -> inBounds r c = true -> returns (hasTileBeside board r c).
Proof.
  intros Hwf Hin. apply inBounds_spec in Hin. unfold hasTileBeside, BOARD_SIZE.
  repeat first
    [ apply returns_Ret
    | rewrite tileAt_wf by (done || (apply inBounds_spec; lia)); cbn [js_bind]
    | match goal with
      | |- context [bool_decide ?P] => destruct (bool_decide_reflect P); cbn [js_bind]
      end ].
Qed.

Lemma anchorsOver_returns board cells :
  wfBoard board -> Forall (fun rc => inBounds rc.1 rc.2 = true) cells ->
  exists anchors, anchorsOver board cells = Ret anchors
                  /\ Forall (fun rc => inBounds rc.1 rc.2 = true) anchors.
Proof.
  intros Hwf. induction 1 as [|rc rest Hrc _ (more & IH & Hmore)]; cbn [anchorsOver];
    [by exists []|].
  rewrite tileAt_wf by done. cbn [js_bind].
  assert (returns (if bool_decide (is_Some (tileOf board rc.1 rc.2)) then Ret false
                   else hasTileBeside board rc.1 rc.2)) as [isAnchor ->].
  { destruct (bool_decide _); [apply returns_Ret|by apply hasTileBeside_returns]. }
  cbn [js_bind]. rewrite IH. cbn [js_bind].
  destruct isAnchor; eexists; (split; [done|]); [by constructor|done].
Qed.

Lemma findAnchors_returns board isEmpty :
  wfBoard board ->
  exists anchors, findAnchors board isEmpty = Ret anchors
                  /\ Forall (fun rc => inBounds rc.1 rc.2 = true) anchors.
Proof.
  intros Hwf. unfold findAnchors. destruct isEmpty.
  - eexists. split; [done|]. by repeat constructor.
  - apply anchorsOver_returns; [done|]. apply Forall_forall.
    intros rc. apply elem_of_allCells.
Qed.

Lemma findMovesInDirection_returns t isEmpty trieRack board direction :
  wfBoard board -> unitTiles board -> blankLettersFit t -> soundTrie (Some t) ->
  returns (findMovesInDirection t isEmpty trieRack board direction).
Proof.
  intros Hwf Hunit Hblank Hs. unfold findMovesInDirection.
  apply returns_bind.
  { apply crossChecksOver_returns; [done|done|]. apply Forall_forall.
    intros rc. apply elem_of_allCells. }
  intros crossChecks _.
  destruct (findAnchors_returns board isEmpty Hwf) as (anchors & -> & Hanchors).
  cbn [js_bind]. apply collectMoves_returns. intros r _. cbv beta zeta.
  apply collectMoves_returns. intros anchor Hanchor.
  apply list_elem_of_filter in Hanchor as [_ Hanchor].
  rewrite Forall_forall in Hanchors. by apply movesAtAnchor_returns, Hanchors.
Qed.

Lemma someRowHasTile_wf board rs :
  wfBoard board -> Forall (fun r => 0 <= r < 15) rs ->
  someRowHasTile board rs = Ret (existsb (fun r => rowOccupied board r indices) rs).
Proof.
  intros Hwf. induction 1 as [|r rs Hr _ IH]; cbn [someRowHasTile existsb]; [done|].
  rewrite rowHasTile_wf by (done || apply indices_in_range). cbn [js_bind].
  by rewrite IH.
Qed.

Lemma transposedCell_returns board c r :
  wfBoard board -> 0 <= r < 15 -> returns (transposedCell board c r).
Proof.
  intros [Hlen _] Hr. unfold transposedCell.
  destruct (nthZ_Some board r) as [cells ->]; [lia|].
  destruct (nthZ cells c); apply returns_Ret.
Qed.

Lemma transposeBoard_tileOf board tBoard r c t :
  transposeBoard board = Ret tBoard ->
  tileOf tBoard c r = Some t -> tileOf board r c = Some t.
Proof.
  unfold transposeBoard. intros Ht Htile. unfold tileOf, cellOf in *.
  destruct (inBounds c r) eqn:Hin; [|done]. apply inBounds_spec in Hin.
  rewrite (proj2 (inBounds_spec r c)) by lia.
  unfold nthZ, Board in *.
  rewrite !bool_decide_eq_true_2 in * by lia.
  destruct (tBoard !! Z.to_nat c) as [cells|] eqn:Hcells; [|done]. cbn in Htile.
  destruct (cells !! Z.to_nat r) as [cell|] eqn:Hcell; [|done]. cbn in Htile.
  destruct (mapJS_lookup _ _ _ _ _ Ht Hcells) as (c' & Hc' & Hrow).
  destruct (mapJS_lookup _ _ _ _ _ Hrow Hcell) as (r' & Hr' & Hcell').
  apply lookup_indices in Hc', Hr'. rewrite Z2Nat.id in Hc', Hr' by lia. subst c' r'.
  unfold transposedCell, nthZ in Hcell'.
  rewrite bool_decide_eq_true_2 in Hcell' by lia.
  destruct (board !! Z.to_nat r) as [row|]; [|done]. cbn.
  rewrite bool_decide_eq_true_2 in Hcell' by lia.
  destruct (row !! Z.to_nat c) as [original|]; injection Hcell' as <-; done.
Qed.

Lemma transposeBoard_wf board :
  wfBoard board ->
  exists tBoard, transposeBoard board = Ret tBoard /\ wfBoard tBoard.
Proof.
  intros Hwf.
  assert (returns (transposeBoard board)) as [tBoard Ht].
  { apply mapJS_returns. intros c _. apply mapJS_returns. intros r Hr.
    apply transposedCell_returns; [done|]. by apply elem_of_indices. }
  exists tBoard. split; [done|]. split.
  - by rewrite (mapJS_length _ _ _ Ht).
  - apply Forall_lookup. intros i cells Hcells.
    destruct (mapJS_lookup _ _ _ _ _ Ht Hcells) as (c & _ & Hrow).
    by rewrite (mapJS_length _ _ _ Hrow).
Qed.

Lemma addedBy_nonneg board direction m :
  addedBy board direction m -> 0 <= mv_row m /\ 0 <= mv_col m.
Proof.
  intros (row & endCol & word & Ha). unfold addMove in Ha.
  destruct word as [|u rest]; cbn [moveTiles] in Ha; [done|].
  destruct (cellAt board row _) as [cell|] eqn:Hcell; cbn [js_bind] in Ha; [|done].
  destruct (moveTiles _ _ _ _) as [more|]; cbn [js_bind] in Ha; [|done].
  unfold cellAt, nthZ in Hcell.
  case_bool_decide as Hrow; [|done].
  destruct (_ !! Z.to_nat row) as [cells|]; [|done].
  case_bool_decide as Hcol; [|done].
  destruct (tile cell); cbn [js_bind] in Ha;
    (destruct (bool_decide _); [done|]); injection Ha as <-;
    cbn [mv_row mv_col]; by destruct direction.
Qed.

Lemma rescore_returns t board rack m :
  wfBoard board -> soundTrie (Some t) -> 0 <= mv_row m -> 0 <= mv_col m ->
  returns (rescore (Some t) board rack m).
Proof.
  intros Hwf Hs Hr Hc. unfold rescore.
  apply returns_bind; [|intros; apply returns_Ret].
  destruct (calculateMoveScore_loop (Some t) board (mv_tiles m) rack (mv_row m)
              (mv_col m) (mv_direction m) Hwf Hs) as (st0 & _ & _ & _ & ->).
  apply returns_bind; [by apply scoreTiles_returns|].
  intros [st|result] _; apply returns_Ret.
Qed.

Lemma findBestMoves_total trie board rack limit :
  wfBoard board -> unitTiles board -> soundTrie trie ->
  (forall t, trie = Some t -> blankLettersFit t) ->
  returns (findBestMoves trie board rack limit).
Proof.
  intros Hwf Hunit Hs Hblank. unfold findBestMoves.
  destruct trie as [t|]; [|apply returns_Ret].
  specialize (Hblank t eq_refl).
  rewrite someRowHasTile_wf by (done || apply indices_in_range). cbn [js_bind].
  apply returns_bind; [by apply findMovesInDirection_returns|].
  intros horizontal Hh.
  destruct (transposeBoard_wf board Hwf) as (tBoard & Ht & HwfT). rewrite Ht.
  cbn [js_bind].
  apply returns_bind.
  { apply findMovesInDirection_returns; try done.
    intros r c x Hx. apply (Hunit c r). by eapply transposeBoard_tileOf. }
  intros vertical Hv.
  apply returns_bind; [|intros; apply returns_Ret].
  apply mapJS_returns. intros m Hm.
  apply findMovesInDirection_addedBy in Hh, Hv. rewrite Forall_forall in Hh, Hv.
  apply elem_of_app in Hm as [Hm|Hm];
    [apply Hh in Hm|apply Hv in Hm]; apply addedBy_nonneg in Hm as [Hr Hc];
    by apply rescore_returns.
Qed.

(** On a 15 x 15 board whose tiles hold one code unit each, with a
    dictionary whose nodes reached from the root have a child count that is
    not negative and whose letters stay one code unit as blanks,
    [findBestMoves] returns a list: no read of the search leaves the board,
    for any rack and limit. *)
Theorem findBestMoves_returns (trie : option FrozenTrie) (board : Board)
  (rack : list jsstring) (limit : Z) :
  wfBoard board -> unitTiles board -> soundTrie trie ->
  (forall t, trie = Some t -> blankLettersFit t) ->
  exists moves, findBestMoves trie board rack limit = Ret moves.
Proof. apply findBestMoves_total. Qed.

(** With an empty rack the finder proposes nothing: on such a board and
    dictionary it returns the empty list, whatever tiles lie on the
    board. *)
Theorem findBestMoves_empty_rack (trie : option FrozenTrie) (board : Board)
  (limit : Z) :
  wfBoard board -> unitTiles board -> soundTrie trie ->
  (forall t, trie = Some t -> blankLettersFit t) ->
  findBestMoves trie board [] limit = Ret [].
Proof.
  intros Hwf Hunit Hs Hblank.
  destruct (findBestMoves_total trie board [] limit Hwf Hunit Hs Hblank)
    as [moves Hf].
  rewrite Hf. f_equal. destruct moves as [|m' rest]; [done|]. exfalso.
  pose proof (findBestMoves_new_tiles _ _ _ _ _ Hf) as Hnew.
  apply Forall_cons in Hnew as [Hnew _]. unfold laysNewTile in Hnew.
  destruct (findBestMoves_candidates _ _ _ _ _ m' Hf (list_elem_of_here _ _))
    as (m & Hres & Hkeep & _).
  destruct (rescore_kept _ _ _ _ _ Hres Hkeep) as (res & Hc & Hv & _).
  destruct (calculateMoveScore_valid trie _ _ _ _ _ _ _ Hc Hv)
    as (e & st0 & st & _ & _ & _ & _ & _ & Hrack & _ & _ & Hloop & _).
  apply scoreTiles_rack in Hloop as [_ Hlen]. rewrite Hrack in Hlen.
  unfold placements in Hnew. cbn [length] in Hlen. lia.
Qed.

End FinderTotality.

(** The tiles of a board are checked cell by cell. *)
Lemma unitTiles_check board :
  forallb (fun rc => match tileOf board rc.1 rc.2 with
                     | Some t => bool_decide (length (char t) = 1%nat)
                     | None => true
                     end) allCells = true ->
  unitTiles board.
Proof.
  intros Hall r c t Ht. rewrite forallb_forall in Hall.
  pose proof (tileOf_inBounds _ _ _ _ Ht) as Hin. apply inBounds_spec in Hin.
  specialize (Hall (r, c)). cbn [fst snd] in Hall. rewrite Ht in Hall.
  eapply bool_decide_eq_true_1, Hall, list_elem_of_In, elem_of_allCells.
  cbn [fst snd]. apply inBounds_spec. lia.
Qed.

(** The example strings lower-case one code unit to one code unit. *)
Lemma latin1_blankLettersFit `{TrieDecoder} (t : FrozenTrie) : blankLettersFit t.
Proof.
  intros i. unfold getInternalChar, TRIE_TO_INTERNAL.
  repeat match goal with |- context [streq ?a ?b] => destruct (streq a b) end;
    cbn; unfold lowerUnit; repeat case_bool_decide; cbn; done.
Qed.

(** With the decoder of the source and the succinct payload of the example
    dictionary. *)
Lemma findBestMoves_returns_witness :
  exists moves,
    @findBestMoves latin1Strings sourceDecoder (Some succinctTrie)
      boardWithCASA rackCASA 5 = Ret moves.
Proof.
  apply (@findBestMoves_returns latin1Strings sourceDecoder (Some succinctTrie)
           boardWithCASA rackCASA 5).
  - exact boardWithCASA_wf.
  - apply unitTiles_check. vm_compute. reflexivity.
  - exact succinctTrie_sound.
  - intros t _. apply latin1_blankLettersFit.
Defined.

Lemma findBestMoves_empty_rack_witness :
  @findBestMoves latin1Strings sourceDecoder (Some succinctTrie)
    boardWithCASA [] 5 = Ret [].
Proof.
  apply (@findBestMoves_empty_rack latin1Strings sourceDecoder (Some succinctTrie)
           boardWithCASA 5).
  - exact boardWithCASA_wf.
  - apply unitTiles_check. vm_compute. reflexivity.
  - exact succinctTrie_sound.
  - intros t _. apply latin1_blankLettersFit.
Defined.

(** ** The anchors *)

Lemma tileOf_offBoard board r c : inBounds r c = false -> tileOf board r c = None.
Proof. intros Hin. unfold tileOf, cellOf. by rewrite Hin. Qed.

Lemma hasTileBeside_wf board r c :
  wfBoard board -> inBounds r c = true ->
  exists b, hasTileBeside board r c = Ret b /\ (b = true <-> besideTile board r c).
Proof.
  intros Hwf Hin. apply inBounds_spec in Hin. unfold hasTileBeside, besideTile, BOARD_SIZE.
  assert (forall r' c', inBounds r' c' = false -> ~ is_Some (tileOf board r' c')) as Hoff.
  { intros r' c' Hoff. rewrite tileOf_offBoard by done. by intros [? ?]. }
  assert (forall r' c', inBounds r' c' = false <-> ~ (0 <= r' < 15 /\ 0 <= c' < 15))
    as Hout.
  { intros r' c'. rewrite <- inBounds_spec. by destruct (inBounds r' c'). }
  repeat first
    [ rewrite tileAt_wf by (done || (apply inBounds_spec; lia)); cbn [js_bind]
    | match goal with
      | |- context [bool_decide (is_Some ?x)] =>
          destruct (bool_decide_reflect (is_Some x)); cbn [js_bind]
      | |- context [bool_decide (?a < ?b)] =>
          destruct (bool_decide_reflect (a < b)); cbn [js_bind]
      end ];
    eexists; (split; [reflexivity|]); split; try done; try tauto;
    intros [Hb|[Hb|[Hb|Hb]]]; try done;
    exfalso; (revert Hb; apply Hoff, Hout; lia) || (by destruct Hb).
Qed.

Lemma anchorsOver_spec board cells :
  wfBoard board -> Forall (fun rc => inBounds rc.1 rc.2 = true) cells ->
  exists anchors,
    anchorsOver board cells = Ret anchors
    /\ anchors `sublist_of` cells
    /\ forall rc, rc ∈ anchors <->
         rc ∈ cells /\ tileOf board rc.1 rc.2 = None /\ besideTile board rc.1 rc.2.
Proof.
  intros Hwf. induction 1 as [|rc rest Hrc _ (more & IH & Hsub & Hmore)];
    cbn [anchorsOver].
  { exists []. split; [done|]. split; [done|]. intros rc.
    rewrite elem_of_nil. tauto. }
  rewrite tileAt_wf by done. cbn [js_bind]. rewrite IH.
  destruct (tileOf board rc.1 rc.2) as [t|] eqn:Ht.
  - rewrite bool_decide_eq_true_2 by done. cbn [js_bind].
    exists more. split; [done|]. split; [by apply sublist_cons|]. intros rc'.
    rewrite Hmore, elem_of_cons. split; [tauto|].
    intros ([->|Hin] & Hnone & Hbeside); [congruence|done].
  - rewrite bool_decide_eq_false_2 by (by intros [? ?]).
    destruct (hasTileBeside_wf board rc.1 rc.2 Hwf Hrc) as (b & -> & Hb).
    cbn [js_bind]. destruct b.
    + exists (rc :: more). split; [done|]. split; [by apply sublist_skip|].
      intros rc'. rewrite !elem_of_cons, Hmore. split.
      * intros [->|?]; [|tauto]. split; [by left|]. split; [done|]. by apply Hb.
      * intros ([->|?] & ? & ?); [by left|tauto].
    + exists more. split; [done|]. split; [by apply sublist_cons|].
      intros rc'. rewrite Hmore, elem_of_cons. split; [tauto|].
      intros ([->|?] & ? & Hbeside); [|done].
      apply Hb in Hbeside. done.
Qed.

Lemma allCells_NoDup : NoDup allCells.
Proof. apply (bool_decide_unpack (NoDup allCells)). by vm_compute. Qed.

(** On a 15 x 15 board that holds a tile, the anchors that [findAnchors]
    returns are exactly the empty cells of the board with a tile right
    above, below, left or right, each once; for the empty board the one
    anchor is the centre. *)
Theorem findAnchors_spec (board : Board) (isBoardEmpty : bool) :
  wfBoard board ->
  exists anchors,
    findAnchors board isBoardEmpty = Ret anchors
    /\ NoDup anchors
    /\ (isBoardEmpty = true -> anchors = [(7, 7)])
    /\ (isBoardEmpty = false ->
        forall r c, (r, c) ∈ anchors <->
          inBounds r c = true /\ tileOf board r c = None /\ besideTile board r c).
Proof.
  intros Hwf. unfold findAnchors. destruct isBoardEmpty.
  - exists [(7, 7)]. split; [done|]. split; [|done].
    apply NoDup_singleton.
  - destruct (anchorsOver_spec board allCells Hwf) as (anchors & -> & Hsub & Hin).
    { apply Forall_forall. intros rc. apply elem_of_allCells. }
    exists anchors. split; [done|]. split.
    { eapply sublist_NoDup; [apply allCells_NoDup|done]. }
    split; [done|]. intros _ r c. rewrite Hin, elem_of_allCells. done.
Qed.

Lemma findAnchors_spec_witness :
  exists anchors,
    findAnchors boardWithCASA false = Ret anchors
    /\ NoDup anchors
    /\ (false = true -> anchors = [(7, 7)])
    /\ (false = false ->
        forall r c, (r, c) ∈ anchors <->
          inBounds r c = true /\ tileOf boardWithCASA r c = None
          /\ besideTile boardWithCASA r c).
Proof. apply (findAnchors_spec boardWithCASA false). exact boardWithCASA_wf. Defined.

(** ** The bit strings *)

Lemma toInt32_small z : - 2 ^ 31 <= z < 2 ^ 31 -> toInt32 z = z.
Proof.
  intros Hz. unfold toInt32. rewrite Z.mod_small by lia. lia.
Qed.

Lemma valueOf_app l1 l2 :
  valueOf (l1 ++ l2) = valueOf l1 * 2 ^ Z.of_nat (length l2) + valueOf l2.
Proof.
  unfold valueOf. rewrite foldl_app. generalize (foldl (fun acc (b : bool) =>
    2 * acc + (if b then 1 else 0)) 0 l1). intros a.
  revert a. induction l2 as [|b l2 IH]; intros a.
  - cbn. lia.
  - cbn [foldl length]. rewrite IH. rewrite (IH (2 * 0 + _)).
    rewrite Nat2Z.inj_succ, Z.pow_succ_r by lia. lia.
Qed.

Lemma valueOf_bounds l : 0 <= valueOf l < 2 ^ Z.of_nat (length l).
Proof.
  induction l as [|b l IH] using rev_ind; [cbn; lia|].
  rewrite valueOf_app, length_app. cbn [length].
  replace (Z.of_nat (length l + 1)) with (Z.succ (Z.of_nat (length l))) by lia.
  rewrite Z.pow_succ_r by lia. unfold valueOf at 2 4. cbn. destruct b; lia.
Qed.

Lemma ORD_base64 c : c ∈ BASE64 -> 0 <= ORD (Some c) < 64.
Proof.
  intros Hc.
  assert (Forall (fun c => 0 <= ORD (Some c) < 64) BASE64) as Hall.
  { apply (bool_decide_unpack (Forall (fun c => 0 <= ORD (Some c) < 64) BASE64)).
    by vm_compute. }
  rewrite Forall_forall in Hall. by apply Hall.
Qed.

Lemma lor_shiftl_add r m y :
  0 <= m -> 0 <= y < 2 ^ m -> Z.lor (Z.shiftl r m) y = r * 2 ^ m + y.
Proof.
  intros Hm Hy. rewrite Z.shiftl_mul_pow2 by done. symmetry.
  apply Z.add_nocarry_lor. apply Z.bits_inj'. intros i Hi.
  rewrite Z.land_spec, Z.bits_0.
  destruct (Z.lt_ge_cases i m) as [Hlt|Hge].
  - by rewrite Z.mul_pow2_bits_low.
  - rewrite andb_false_iff. right.
    apply (proj1 (Z.bounded_iff_bits_nonneg m y Hm (proj1 Hy))); [lia|done].
Qed.

Ltac by_evaluation :=
  match goal with |- ?P => apply (bool_decide_unpack P); by vm_compute end.

(** Appending [m] bits of value [y] to a run of value [r], as the code
    does it with a shift and an or. *)
Lemma js_or_shl r m y :
  0 <= m < 32 -> 0 <= r -> 0 <= y < 2 ^ m -> r * 2 ^ m + y < 2 ^ 31 ->
  js_or (js_shl r m) y = r * 2 ^ m + y.
Proof.
  intros Hm Hr Hy Hlt. unfold js_or, js_shl.
  assert (0 < 2 ^ m) by (apply Z.pow_pos_nonneg; lia).
  assert (r <= r * 2 ^ m) by nia.
  rewrite (Z.mod_small m) by lia.
  assert (0 <= r * 2 ^ m) by nia.
  rewrite (toInt32_small r) by lia.
  rewrite (toInt32_small y) by lia.
  rewrite !(toInt32_small (Z.shiftl r m)) by (rewrite Z.shiftl_mul_pow2; lia).
  apply lor_shiftl_add; lia.
Qed.

(** The reads inside one character, checked for the 64 characters. *)
Lemma get_within o k n :
  0 <= o < 64 -> 0 <= k < 6 -> 0 <= n -> k + n <= 6 ->
  js_shr (js_and o (maskTop k)) (W - k - n)
  = valueOf (take (Z.to_nat n) (drop (Z.to_nat k) (bits6 o))).
Proof.
  intros Ho Hk Hn Hkn.
  assert (Forall (fun o => Forall (fun k => Forall (fun n =>
            k + n <= 6 ->
            js_shr (js_and o (maskTop k)) (W - k - n)
            = valueOf (take (Z.to_nat n) (drop (Z.to_nat k) (bits6 o))))
            (seqZ 0 7)) (seqZ 0 6)) (seqZ 0 64)) as Hall.
  { by_evaluation. }
  rewrite Forall_forall in Hall. specialize (Hall o).
  rewrite Forall_forall in Hall. specialize (Hall ltac:(apply elem_of_seqZ; lia) k).
  rewrite Forall_forall in Hall. apply Hall; [apply elem_of_seqZ; lia..|done].
Qed.

Lemma get_first o k :
  0 <= o < 64 -> 0 <= k < 6 ->
  js_and o (maskTop k) = valueOf (drop (Z.to_nat k) (bits6 o)).
Proof.
  intros Ho Hk.
  assert (Forall (fun o => Forall (fun k =>
            js_and o (maskTop k) = valueOf (drop (Z.to_nat k) (bits6 o)))
            (seqZ 0 6)) (seqZ 0 64)) as Hall.
  { by_evaluation. }
  rewrite Forall_forall in Hall. specialize (Hall o).
  rewrite Forall_forall in Hall. apply Hall; apply elem_of_seqZ; lia.
Qed.

Lemma get_last o n :
  0 <= o < 64 -> 0 <= n <= 6 ->
  js_shr o (W - n) = valueOf (take (Z.to_nat n) (bits6 o)).
Proof.
  intros Ho Hn.
  assert (Forall (fun o => Forall (fun n =>
            js_shr o (W - n) = valueOf (take (Z.to_nat n) (bits6 o)))
            (seqZ 0 7)) (seqZ 0 64)) as Hall.
  { by_evaluation. }
  rewrite Forall_forall in Hall. specialize (Hall o).
  rewrite Forall_forall in Hall. apply Hall; apply elem_of_seqZ; lia.
Qed.

Lemma valueOf_bits6 o : 0 <= o < 64 -> valueOf (bits6 o) = o.
Proof.
  intros Ho.
  assert (Forall (fun o => valueOf (bits6 o) = o) (seqZ 0 64)) as Hall.
  { by_evaluation. }
  rewrite Forall_forall in Hall. apply Hall, elem_of_seqZ. lia.
Qed.

Lemma length_bits6 o : length (bits6 o) = 6%nat.
Proof. done. Qed.

Lemma length_bitsOf bytes : length (bitsOf bytes) = (6 * length bytes)%nat.
Proof.
  unfold bitsOf. induction bytes as [|c rest IH]; [done|].
  rewrite bind_cons, length_app, IH, length_bits6. cbn [length]. lia.
Qed.

(** The bits from the start of character [q] on. *)
Lemma bitsOf_drop bytes (q : nat) c :
  bytes !! q = Some c ->
  drop (6 * q) (bitsOf bytes)
  = bits6 (ORD (Some c)) ++ drop (6 * S q) (bitsOf bytes).
Proof.
  intros Hq. rewrite <- (take_drop_middle bytes q c Hq) at 1 2.
  unfold bitsOf. rewrite !bind_app, bind_cons.
  assert (length (take q bytes ≫= (fun c => bits6 (ORD (Some c)))) = (6 * q)%nat)
    as Hlen.
  { fold (bitsOf (take q bytes)). rewrite length_bitsOf, length_take.
    apply lookup_lt_Some in Hq. lia. }
  rewrite drop_app_length' by done.
  replace (6 * S q)%nat with (6 * q + 6)%nat by lia.
  rewrite drop_app_add' by done.
  by rewrite (drop_app_length' (bits6 _)) by done.
Qed.

Lemma bitsFrom_split bytes p a b :
  0 <= p -> 0 <= a -> 0 <= b ->
  bitsFrom bytes p (a + b) = bitsFrom bytes p a ++ bitsFrom bytes (p + a) b.
Proof.
  intros Hp Ha Hb. unfold bitsFrom.
  rewrite !Z2Nat.inj_add by lia. rewrite <- take_take_drop. f_equal.
  by rewrite drop_drop.
Qed.

Lemma bitsFrom_0 bytes p : bitsFrom bytes p 0 = [].
Proof. unfold bitsFrom. by rewrite take_0. Qed.

Lemma length_bitsFrom bytes p n :
  0 <= p -> 0 <= n -> p + n <= 6 * Z.of_nat (length bytes) ->
  length (bitsFrom bytes p n) = Z.to_nat n.
Proof.
  intros Hp Hn Hlen. unfold bitsFrom.
  rewrite length_take, length_drop, length_bitsOf. lia.
Qed.

Lemma byteAt_lookup bytes p (q : nat) c :
  0 <= p -> Z.to_nat (p / 6) = q -> bytes !! q = Some c ->
  byteAt bytes p = ORD (Some c).
Proof.
  intros Hp Hq Hc. unfold byteAt, W.
  rewrite nthZ_lookup by (apply Z.div_pos; lia). rewrite Hq.
  unfold jsstring, jschar in *. by rewrite Hc.
Qed.

(** The bits of a read that stays inside the character of [p]. *)
Lemma bitsFrom_within bytes p n (q : nat) c :
  0 <= p -> 0 <= n -> p mod 6 + n <= 6 -> Z.to_nat (p / 6) = q ->
  bytes !! q = Some c ->
  bitsFrom bytes p n
  = take (Z.to_nat n) (drop (Z.to_nat (p mod 6)) (bits6 (ORD (Some c)))).
Proof.
  intros Hp Hn Hkn Hq Hc. unfold bitsFrom.
  assert (Z.to_nat p = (6 * q + Z.to_nat (p mod 6))%nat) as ->.
  { pose proof (Z.div_mod p 6 ltac:(lia)). pose proof (Z.mod_pos_bound p 6).
    assert (0 <= p / 6) by (apply Z.div_pos; lia). lia. }
  rewrite <- drop_drop, (bitsOf_drop bytes q c Hc).
  pose proof (Z.mod_pos_bound p 6 ltac:(lia)).
  rewrite drop_app_le by (rewrite length_bits6; lia).
  rewrite take_app_le; [done|]. rewrite length_drop, length_bits6. lia.
Qed.

Lemma base64Text_lookup bytes (q : nat) :
  base64Text bytes -> (q < length bytes)%nat ->
  exists c, bytes !! q = Some c /\ 0 <= ORD (Some c) < 64.
Proof.
  intros Htext Hq. destruct (lookup_lt_is_Some_2 bytes q Hq) as [c Hc].
  exists c. split; [done|]. apply ORD_base64.
  unfold base64Text in Htext. rewrite Forall_forall in Htext.
  apply Htext. by eapply list_elem_of_lookup_2.
Qed.

(** The whole characters of a read: each turn of the loop appends the six
    bits of one character. *)
Lemma getLoop_spec bytes fuel :
  base64Text bytes ->
  forall pre p n,
    0 <= p -> p mod 6 = 0 -> 0 <= n -> p + n <= 6 * Z.of_nat (length bytes) ->
    Z.of_nat (length pre) + n <= 31 -> n <= Z.of_nat fuel ->
    getLoop fuel bytes (valueOf pre) p n
    = (valueOf (pre ++ bitsFrom bytes p (n - n mod 6)), p + (n - n mod 6), n mod 6).
Proof.
  intros Htext. induction fuel as [|fuel IH]; intros pre p n Hp Hp6 Hn Hlen Hpre Hfuel;
    cbn [getLoop].
  - assert (n = 0) as -> by lia. cbn. by rewrite bitsFrom_0, app_nil_r, Z.add_0_r.
  - unfold W. case_bool_decide as Hn6.
    + destruct (base64Text_lookup bytes (Z.to_nat (p / 6)) Htext) as (c & Hc & Ho).
      { pose proof (Z.div_mod p 6 ltac:(lia)).
        assert (0 <= p / 6) by (apply Z.div_pos; lia). lia. }
      rewrite (byteAt_lookup bytes p _ c Hp eq_refl Hc).
      pose proof (valueOf_bounds pre) as Hb.
      assert (bitsFrom bytes p 6 = bits6 (ORD (Some c))) as Hsix.
      { rewrite (bitsFrom_within bytes p 6 _ c) by (done || lia).
        rewrite Hp6. cbn [Z.to_nat drop]. by rewrite take_ge by done. }
      assert (2 ^ Z.of_nat (length pre) * 2 ^ 6 <= 2 ^ 31) as Hpow.
      { rewrite <- Z.pow_add_r by lia. apply Z.pow_le_mono_r; lia. }
      rewrite js_or_shl by (try done; try lia; nia).
      replace (valueOf pre * 2 ^ 6 + ORD (Some c))
        with (valueOf (pre ++ bits6 (ORD (Some c))))
        by (rewrite valueOf_app, valueOf_bits6 by done; done).
      rewrite IH; try lia.
      * assert ((n - 6) mod 6 = n mod 6) as Hmod.
        { replace (n - 6) with (n + (-1) * 6) by lia. by rewrite Z.mod_add. }
        rewrite Hmod. pose proof (Z.mod_pos_bound n 6 ltac:(lia)).
        pose proof (Z.div_mod n 6 ltac:(lia)).
        replace (n - n mod 6) with (6 + (n - 6 - n mod 6)) by lia.
        rewrite (bitsFrom_split bytes p 6) by lia. rewrite Hsix, <- app_assoc.
        do 2 f_equal. lia.
      * replace (p + 6) with (p + 1 * 6) by lia. by rewrite Z.mod_add.
      * rewrite length_app, length_bits6. lia.
    + rewrite Z.mod_small by lia. rewrite Z.sub_diag, bitsFrom_0, app_nil_r.
      by rewrite Z.add_0_r.
Qed.

Lemma get_reads_bits (bytes : jsstring) (p n : Z) :
  base64Text bytes -> 0 <= p -> 0 <= n <= 31 ->
  p + n <= 6 * Z.of_nat (length bytes) ->
  BitString_get bytes p n = valueOf (bitsFrom bytes p n).
Proof.
  intros Htext Hp Hn Hlen. unfold BitString_get, W.
  rewrite Z.rem_mod_nonneg by lia.
  pose proof (Z.mod_pos_bound p 6 ltac:(lia)) as Hk.
  pose proof (Z.div_mod p 6 ltac:(lia)) as Hdiv.
  assert (0 <= p / 6) as Hq by (apply Z.div_pos; lia).
  case_bool_decide as Hfit.
  - destruct (decide (Z.to_nat (p / 6) < length bytes)%nat) as [Hin|Hout].
    + destruct (base64Text_lookup bytes _ Htext Hin) as (c & Hc & Ho).
      rewrite (byteAt_lookup bytes p _ c Hp eq_refl Hc).
      rewrite (bitsFrom_within bytes p n _ c) by (done || lia).
      apply get_within; lia.
    + assert (n = 0) as -> by lia. assert (p mod 6 = 0) as -> by lia.
      rewrite bitsFrom_0. unfold byteAt, W.
      rewrite nthZ_lookup by done. unfold jsstring, jschar in *.
      rewrite lookup_ge_None_2 by lia. done.
  - destruct (base64Text_lookup bytes (Z.to_nat (p / 6)) Htext) as (c & Hc & Ho);
      [lia|].
    rewrite (byteAt_lookup bytes p _ c Hp eq_refl Hc).
    rewrite get_first by lia.
    set (l := 6 - p mod 6). set (pre := drop (Z.to_nat (p mod 6)) (bits6 (ORD (Some c)))).
    assert (bitsFrom bytes p l = pre) as Hpre.
    { rewrite (bitsFrom_within bytes p l _ c) by (done || lia).
      apply take_ge. subst pre. rewrite length_drop, length_bits6. lia. }
    assert (length pre = Z.to_nat l) as Hlpre.
    { subst pre. rewrite length_drop, length_bits6. lia. }
    rewrite (getLoop_spec bytes _ Htext pre (p + l) (n - l)); try lia.
    2: { replace (p + l) with (6 + p / 6 * 6) by lia. rewrite Z.mod_add by lia. done. }
    set (m := (n - l) mod 6).
    pose proof (Z.mod_pos_bound (n - l) 6 ltac:(lia)) as Hm. fold m in Hm.
    pose proof (Z.mod_le (n - l) 6 ltac:(lia) ltac:(lia)) as Hle. fold m in Hle.
    set (whole := n - l - m).
    assert (bitsFrom bytes p n
            = (pre ++ bitsFrom bytes (p + l) whole)
              ++ bitsFrom bytes (p + l + whole) m) as Hall.
    { replace n with (l + (whole + m)) at 1 by lia.
      rewrite (bitsFrom_split bytes p l) by lia.
      rewrite (bitsFrom_split bytes (p + l) whole) by lia.
      by rewrite Hpre, app_assoc. }
    case_bool_decide as Hm0.
    + destruct (base64Text_lookup bytes (Z.to_nat ((p + l + whole) / 6)) Htext)
        as (c' & Hc' & Ho').
      { pose proof (Z.div_mod (p + l + whole) 6 ltac:(lia)).
        pose proof (Z.mod_pos_bound (p + l + whole) 6 ltac:(lia)).
        assert (0 <= (p + l + whole) / 6) by (apply Z.div_pos; lia). lia. }
      assert ((p + l + whole) mod 6 = 0) as Hmod.
      { pose proof (Z.div_mod (n - l) 6 ltac:(lia)) as Hd. fold m in Hd.
        replace (p + l + whole) with (0 + (p / 6 + 1 + (n - l) / 6) * 6)
          by (subst whole l; lia).
        by rewrite Z.mod_add by lia. }
      assert (0 <= p + l + whole) as Hpos by lia.
      rewrite (byteAt_lookup bytes _ _ c' Hpos eq_refl Hc').
      rewrite get_last by lia.
      assert (bitsFrom bytes (p + l + whole) m
              = take (Z.to_nat m) (bits6 (ORD (Some c')))) as Hlast.
      { rewrite (bitsFrom_within bytes _ m _ c') by (done || lia).
        by rewrite Hmod. }
      rewrite Hall, (valueOf_app _ (bitsFrom _ _ m)), Hlast.
      assert (length (take (Z.to_nat m) (bits6 (ORD (Some c')))) = Z.to_nat m)
        as Hlm by (rewrite length_take, length_bits6; lia).
      rewrite Hlm, Z2Nat.id by lia.
      pose proof (valueOf_bounds (take (Z.to_nat m) (bits6 (ORD (Some c'))))) as Hb1.
      rewrite Hlm, Z2Nat.id in Hb1 by lia.
      pose proof (valueOf_bounds (pre ++ bitsFrom bytes (p + l) whole)) as Hb2.
      rewrite length_app, Hlpre, length_bitsFrom in Hb2 by lia.
      assert (2 ^ Z.of_nat (Z.to_nat l + Z.to_nat whole) * 2 ^ m <= 2 ^ 31) as Hpow.
      { rewrite <- Z.pow_add_r by lia. apply Z.pow_le_mono_r; lia. }
      apply js_or_shl; try lia. nia.
    + assert (m = 0) as Hz by lia. rewrite Hall, Hz, bitsFrom_0, app_nil_r. done.
Qed.

(** [get(p, n)] reads the [n] bits from position [p] on as a number, the
    first bit the highest: for a payload in the alphabet, a read of up to
    31 bits that stays inside the payload. *)
Theorem BitString_get_bits (bytes : jsstring) (p n : Z) :
  base64Text bytes -> 0 <= p -> 0 <= n <= 31 ->
  p + n <= 6 * Z.of_nat (length bytes) ->
  BitString_get bytes p n = valueOf (bitsFrom bytes p n).
Proof. apply get_reads_bits. Qed.

Lemma onesIn_app l1 l2 : onesIn (l1 ++ l2) = onesIn l1 + onesIn l2.
Proof. unfold onesIn. rewrite filter_app, length_app. lia. Qed.

(** The table holds the number of ones of each byte. *)
Lemma bitsInByte_valueOf l :
  (length l <= 8)%nat -> bitsInByte (valueOf l) = Some (onesIn l).
Proof.
  intros Hl.
  do 9 (destruct l as [|? l];
        [clear Hl; repeat match goal with b : bool |- _ => destruct b end;
         by vm_compute|]).
  cbn [length] in Hl. lia.
Qed.

Lemma countLoop_spec bytes fuel :
  base64Text bytes ->
  forall acc p n,
    0 <= p -> 0 <= n -> p + n <= 6 * Z.of_nat (length bytes) ->
    n <= Z.of_nat fuel ->
    countLoop fuel bytes (Some acc) p n
    = (Some (acc + onesIn (bitsFrom bytes p (n - n mod 8))),
       p + (n - n mod 8), n mod 8).
Proof.
  intros Htext. induction fuel as [|fuel IH]; intros acc p n Hp Hn Hlen Hfuel;
    cbn [countLoop].
  - assert (n = 0) as -> by lia. cbn. rewrite bitsFrom_0. unfold onesIn. cbn.
    by rewrite !Z.add_0_r.
  - case_bool_decide as Hn8.
    + rewrite get_reads_bits by (done || lia).
      rewrite bitsInByte_valueOf by (rewrite length_bitsFrom; lia).
      cbn [mbind option_bind]. rewrite IH by lia.
      assert ((n - 8) mod 8 = n mod 8) as Hmod.
      { replace (n - 8) with (n + (-1) * 8) by lia. by rewrite Z.mod_add. }
      rewrite Hmod. pose proof (Z.mod_pos_bound n 8 ltac:(lia)).
      pose proof (Z.div_mod n 8 ltac:(lia)).
      replace (n - n mod 8) with (8 + (n - 8 - n mod 8)) by lia.
      rewrite (bitsFrom_split bytes p 8) by lia. rewrite onesIn_app.
      replace (p + 8 + (n - 8 - n mod 8)) with (p + (8 + (n - 8 - n mod 8))) by lia.
      by rewrite (Z.add_assoc acc).
    + rewrite Z.mod_small by lia. rewrite Z.sub_diag, bitsFrom_0.
      unfold onesIn. cbn. by rewrite !Z.add_0_r.
Qed.

(** [count(p, n)] is the number of ones among the [n] bits from position
    [p] on, for a payload in the alphabet and a range inside it, of any
    length. *)
Theorem BitString_count_ones (bytes : jsstring) (p n : Z) :
  base64Text bytes -> 0 <= p -> 0 <= n ->
  p + n <= 6 * Z.of_nat (length bytes) ->
  BitString_count bytes p n = Some (onesIn (bitsFrom bytes p n)).
Proof.
  intros Htext Hp Hn Hlen. unfold BitString_count.
  rewrite (countLoop_spec bytes _ Htext) by lia.
  pose proof (Z.mod_pos_bound n 8 ltac:(lia)) as Hm.
  pose proof (Z.mod_le n 8 ltac:(lia) ltac:(lia)) as Hle.
  cbn [mbind option_bind].
  rewrite get_reads_bits by (done || lia).
  rewrite bitsInByte_valueOf by (rewrite length_bitsFrom; lia).
  cbn [mbind option_bind]. f_equal.
  rewrite Z.add_0_l, <- onesIn_app, <- bitsFrom_split by lia.
  do 2 f_equal. lia.
Qed.

Lemma rank_counts bytes (k : nat) :
  base64Text bytes -> Z.of_nat k <= 6 * Z.of_nat (length bytes) ->
  Z.of_nat (length (filter (fun i => BitString_get bytes i 1 <> 0)
                      (seqZ 0 (Z.of_nat k))))
  = onesIn (bitsFrom bytes 0 (Z.of_nat k)).
Proof.
  intros Htext. induction k as [|k IH]; intros Hk.
  - by rewrite bitsFrom_0.
  - rewrite seqZ_S, filter_app, length_app, Nat2Z.inj_add, IH by lia.
    replace (Z.of_nat (S k)) with (Z.of_nat k + 1) by lia.
    rewrite bitsFrom_split, onesIn_app by lia. f_equal. rewrite Z.add_0_l.
    pose proof (get_reads_bits bytes (Z.of_nat k) 1 Htext) as Hget.
    pose proof (length_bitsFrom bytes (Z.of_nat k) 1) as Hlen.
    destruct (bitsFrom bytes (Z.of_nat k) 1) as [|b [|? ?]];
      [cbn in Hlen; lia| |cbn in Hlen; lia].
    rewrite filter_cons, filter_nil. rewrite Hget by lia.
    destruct b; by vm_compute.
Qed.

(** [rank(x)] is the number of ones among the bits [0 .. x]; it is 0 for a
    negative [x]. *)
Theorem BitString_rank_ones (bytes : jsstring) (x : Z) :
  base64Text bytes -> x < 6 * Z.of_nat (length bytes) ->
  BitString_rank bytes x = onesIn (bitsFrom bytes 0 (x + 1)).
Proof.
  intros Htext Hx. unfold BitString_rank.
  destruct (Z.lt_ge_cases x 0) as [Hneg|Hpos].
  { rewrite seqZ_nil by lia. unfold bitsFrom.
    rewrite Z2Nat.nonpos by lia. by rewrite take_0. }
  replace (x + 1) with (Z.of_nat (S (Z.to_nat x))) by lia.
  apply rank_counts; [done|lia].
Qed.

(** ** The search of [select] *)

Lemma selectLoop_spec rd which y g fuel :
  growingRank rd which g ->
  forall high low val,
    -1 <= low < high -> high <= numBits rd -> high - low <= Z.of_nat fuel ->
    (forall x, 0 <= x <= low -> g x < y) ->
    ((val = -1 /\ forall x, high <= x < numBits rd -> y < g x)
     \/ (val = high /\ high < numBits rd /\ g high = y)) ->
    let res := selectLoop fuel rd which y high low val in
    (res = -1 /\ forall x, 0 <= x < numBits rd -> g x <> y)
    \/ (0 <= res < numBits rd /\ g res = y /\ forall x, 0 <= x < res -> g x < y).
Proof.
  intros [Hrank Hmono]. induction fuel as [|fuel IH];
    intros high low val Hlow Hhigh Hfuel Hbelow Hval; [lia|].
  cbn [selectLoop]. case_bool_decide as Hgap.
  - assert (low < (high + low) / 2 < high) as Hprobe.
    { pose proof (Z.div_mod (high + low) 2 ltac:(lia)).
      pose proof (Z.mod_pos_bound (high + low) 2 ltac:(lia)). lia. }
    set (probe := (high + low) / 2) in *.
    rewrite Hrank by lia.
    case_bool_decide as Heq; [|case_bool_decide as Hlt].
    + apply IH; [lia|lia|lia|done|]. right. split; [done|]. split; [lia|done].
    + apply IH; [lia|lia|lia| |done]. intros x Hx.
      destruct (Z.le_gt_cases x low) as [?|?]; [apply Hbelow; lia|].
      specialize (Hmono x probe ltac:(lia) ltac:(lia)). lia.
    + apply IH; [lia|lia|lia|done|]. destruct Hval as [[-> Habove]|(-> & Hh & Hg)].
      * left. split; [done|]. intros x Hx.
        destruct (Z.lt_ge_cases x high) as [?|?]; [|apply Habove; lia].
        specialize (Hmono probe x ltac:(lia) ltac:(lia)). lia.
      * specialize (Hmono probe high ltac:(lia) ltac:(lia)). lia.
  - assert (high = low + 1) as -> by lia.
    destruct Hval as [[-> Habove]|(-> & Hh & Hg)].
    + left. split; [done|]. intros x Hx.
      destruct (Z.le_gt_cases x low) as [?|?].
      * specialize (Hbelow x ltac:(lia)). lia.
      * specialize (Habove x ltac:(lia)). lia.
    + right. split; [lia|]. split; [done|]. intros x Hx. apply Hbelow. lia.
Qed.

(** [select(which, y)] is a binary search: when the rank of the directory
    never falls over its positions, it returns the first position whose
    rank is [y], and -1 when no position has that rank. *)
Theorem RankDirectory_select_first (rd : RankDirectory) (which y : Z)
  (g : Z -> Z) :
  growingRank rd which g ->
  let res := RankDirectory_select rd which y in
  (res = -1 /\ forall x, 0 <= x < numBits rd -> g x <> y)
  \/ (0 <= res < numBits rd /\ g res = y /\ forall x, 0 <= x < res -> g x < y).
Proof.
  intros Hg. unfold RankDirectory_select.
  destruct (Z.le_gt_cases (numBits rd) (-1)) as [Hempty|Hsome].
  - rewrite Z2Nat.nonpos by lia. cbn [selectLoop]. left. split; [done|]. lia.
  - apply (selectLoop_spec rd which y g _ Hg); try lia. left. split; [done|]. lia.
Qed.

(** ** The letters of the nodes *)

(** The node that [getNodeByIndex] decodes has the first of its six bits as
    its final flag and spells its letter with the other five: the letter
    is a digit from 0 to 5 or a capital from A to Z. *)
Theorem node_letter_in_alphabet (ceilLog2 : Z -> Z) (t : FrozenTrie) (i : Z) :
  base64Text (trieData t) -> 0 <= nodeCount t -> 0 <= i ->
  letterStart t + i * 6 + 6 <= 6 * Z.of_nat (length (trieData t)) ->
  let node := FrozenTrie_getNodeByIndex ceilLog2 t i in
  (final node = true <-> bitsFrom (trieData t) (letterStart t + i * 6) 1 = [true])
  /\ isTrieLetter (letter node).
Proof.
  intros Htext Hcount Hi Hlen. unfold letterStart in *. cbn [FrozenTrie_getNodeByIndex final letter].
  unfold letterStart. rewrite !get_reads_bits by (done || lia). split.
  - pose proof (length_bitsFrom (trieData t) (nodeCount t * 2 + 1 + i * 6) 1) as Hl.
    destruct (bitsFrom _ _ 1) as [|b [|? ?]]; [cbn in Hl; lia| |cbn in Hl; lia].
    rewrite bool_decide_eq_true. destruct b; by vm_compute.
  - pose proof (valueOf_bounds (bitsFrom (trieData t) (nodeCount t * 2 + 1 + i * 6 + 1) 5))
      as Hb.
    rewrite length_bitsFrom in Hb by lia. change (2 ^ Z.of_nat (Z.to_nat 5)) with 32 in Hb.
    unfold isTrieLetter, fromCharCode. case_bool_decide.
    + left. rewrite Z.mod_small by lia. lia.
    + right. rewrite Z.mod_small by lia. lia.
Qed.

(** ** Examples of the bit strings *)

Lemma s_QUJD_base64 : base64Text s_QUJD.
Proof. unfold base64Text. by_evaluation. Qed.

Lemma BitString_get_bits_witness :
  BitString_get s_QUJD 4 10 = valueOf (bitsFrom s_QUJD 4 10).
Proof.
  apply (BitString_get_bits s_QUJD 4 10); [exact s_QUJD_base64|lia|lia|].
  vm_compute. discriminate.
Defined.

Lemma BitString_count_ones_witness :
  BitString_count s_QUJD 1 20 = Some (onesIn (bitsFrom s_QUJD 1 20)).
Proof.
  apply (BitString_count_ones s_QUJD 1 20); [exact s_QUJD_base64|lia|lia|].
  vm_compute. discriminate.
Defined.

Lemma BitString_rank_ones_witness :
  BitString_rank s_QUJD 13 = onesIn (bitsFrom s_QUJD 0 (13 + 1)).
Proof.
  apply (BitString_rank_ones s_QUJD 13); [exact s_QUJD_base64|].
  vm_compute. reflexivity.
Defined.

Lemma exampleDirectory_growing :
  growingRank exampleDirectory 1
    (fun x => default 0 (RankDirectory_rank exampleDirectory 1 x)).
Proof.
  split.
  - intros x Hx.
    assert (Forall (fun x => RankDirectory_rank exampleDirectory 1 x
                             = Some (default 0 (RankDirectory_rank exampleDirectory 1 x)))
              (seqZ 0 24)) as Hall by by_evaluation.
    rewrite Forall_forall in Hall. apply Hall, elem_of_seqZ. cbn in Hx. lia.
  - intros x x' Hx Hx'.
    assert (Forall (fun x => Forall (fun x' => x <= x' ->
              default 0 (RankDirectory_rank exampleDirectory 1 x)
              <= default 0 (RankDirectory_rank exampleDirectory 1 x'))
              (seqZ 0 24)) (seqZ 0 24)) as Hall by by_evaluation.
    rewrite Forall_forall in Hall. specialize (Hall x).
    rewrite Forall_forall in Hall. cbn in Hx'.
    apply Hall; [apply elem_of_seqZ; lia..|lia].
Qed.

Lemma RankDirectory_select_first_witness :
  let g := fun x => default 0 (RankDirectory_rank exampleDirectory 1 x) in
  let res := RankDirectory_select exampleDirectory 1 3 in
  (res = -1 /\ forall x, 0 <= x < numBits exampleDirectory -> g x <> 3)
  \/ (0 <= res < numBits exampleDirectory /\ g res = 3
      /\ forall x, 0 <= x < res -> g x < 3).
Proof.
  apply (RankDirectory_select_first exampleDirectory 1 3
           (fun x => default 0 (RankDirectory_rank exampleDirectory 1 x))).
  exact exampleDirectory_growing.
Defined.

Lemma node_letter_in_alphabet_witness :
  let node := FrozenTrie_getNodeByIndex Z.log2_up oneNodeTrie 0 in
  (final node = true <-> bitsFrom (trieData oneNodeTrie) (letterStart oneNodeTrie + 0 * 6) 1
                         = [true])
  /\ isTrieLetter (letter node).
Proof.
  apply (node_letter_in_alphabet Z.log2_up oneNodeTrie 0).
  - exact s_QUJD_base64.
  - vm_compute. discriminate.
  - lia.
  - vm_compute. discriminate.
Defined.

(** ** Scores are not negative *)

Lemma getMultiplierVal_pos type isWord : 1 <= getMultiplierVal type isWord.
Proof. unfold getMultiplierVal. destruct isWord, type; lia. Qed.

Lemma letterMultAt_pos board r c : 1 <= letterMultAt board r c.
Proof.
  unfold letterMultAt. destruct (cellOf board r c); [apply getMultiplierVal_pos|lia].
Qed.

Lemma wordMultAt_pos board r c : 1 <= wordMultAt board r c.
Proof.
  unfold wordMultAt. destruct (cellOf board r c); [apply getMultiplierVal_pos|lia].
Qed.

Lemma runTiles_on_board fuel board r c dr dc :
  Forall (fun t => exists r' c', tileOf board r' c' = Some t)
    (runTiles fuel board r c dr dc).
Proof.
  revert r c. induction fuel as [|fuel IH]; intros r c; cbn [runTiles]; [constructor|].
  destruct (tileOf board r c) as [t|] eqn:Ht; [|constructor].
  constructor; [eauto|apply IH].
Qed.

Lemma sumValues_nonneg tiles :
  Forall (fun t => 0 <= value t) tiles -> 0 <= sumValues tiles.
Proof.
  unfold sumValues. induction 1 as [|t rest Ht _ IH]; cbn [foldr]; lia.
Qed.

Lemma sumZ_nonneg l : Forall (fun z => 0 <= z) l -> 0 <= sumZ l.
Proof. unfold sumZ. induction 1; cbn [foldr]; lia. Qed.

Lemma prodZ_pos l : Forall (fun z => 1 <= z) l -> 1 <= prodZ l.
Proof. unfold prodZ. induction 1; cbn [foldr]; nia. Qed.

Lemma placementsFrom_placed tiles sr sc d i p :
  p ∈ placementsFrom tiles sr sc d i -> placed p ∈ tiles.
Proof.
  revert i. induction tiles as [|t rest IH]; intros i Hp; cbn [placementsFrom] in Hp.
  - by apply elem_of_nil in Hp.
  - apply elem_of_cons in Hp as [->|Hp]; [apply list_elem_of_here|].
    apply list_elem_of_further. by eapply IH.
Qed.

Section ScoreSign.
Context `{JSString} `{TrieDecoder}.
Variable trie : option FrozenTrie.

(** The score of an accepted move, as the loop adds it up. *)
Lemma accepted_score board tiles rack sr sc d res :
  calculateMoveScore trie board tiles rack sr sc d = Ret res ->
  isValid res = true ->
  score res
  = crossWordsTotal board d (placements tiles sr sc d)
    + mainWordTotal board (placements tiles sr sc d)
    + bingoBonus board (placements tiles sr sc d).
Proof.
  intros Hc Hv.
  destruct (calculateMoveScore_valid _ _ _ _ _ _ _ _ Hc Hv)
    as (e & st0 & st & _ & Ht & Hm & Hf & Hu & _ & _ & _ & Hloop & ->).
  apply scoreTiles_spec in Hloop as [_ Htotal Hmain Hfactor Hused _ _ _].
  apply finishScore_valid in Hv as (_ & _ & ->).
  unfold mainWordTotal, bingoBonus, placements.
  rewrite Htotal, Hmain, Hfactor, Hused, Ht, Hm, Hf, Hu.
  by rewrite !Z.add_0_l, Z.mul_1_l.
Qed.

(** A move that [calculateMoveScore] accepts never has a negative score
    when no tile has a negative face value, and it scores 50 or more when it
    lays seven tiles: the cross words, the main word and the bonus are each
    zero or more. *)
Theorem accepted_score_nonneg (board : Board) (tiles : list Tile)
  (rack : list jsstring) (sr sc : Z) (d : Direction) (res : ScoreResult) :
  calculateMoveScore trie board tiles rack sr sc d = Ret res ->
  isValid res = true -> plainValues board tiles ->
  0 <= score res
  /\ (tilesLaid board (placements tiles sr sc d) = 7 -> 50 <= score res).
Proof.
  intros Hc Hv [Htiles Hboard]. rewrite (accepted_score _ _ _ _ _ _ _ Hc Hv).
  set (ps := placements tiles sr sc d).
  assert (forall p, p ∈ ps -> 0 <= value (placed p)) as Hplaced.
  { intros p Hp. apply placementsFrom_placed in Hp.
    rewrite Forall_forall in Htiles. by apply Htiles. }
  assert (forall fuel r c dr dc, 0 <= sumValues (runTiles fuel board r c dr dc)) as Hrun.
  { intros. apply sumValues_nonneg. eapply Forall_impl; [apply runTiles_on_board|].
    intros t (r' & c' & Ht). by eapply Hboard. }
  assert (0 <= crossWordsTotal board d ps) as Hcross.
  { unfold crossWordsTotal. apply sumZ_nonneg, Forall_fmap, Forall_forall.
    intros p Hp. apply list_elem_of_filter in Hp as [_ Hp]. cbn. unfold crossWordScore.
    pose proof (Hplaced p Hp). pose proof (letterMultAt_pos board (at_row p) (at_col p)).
    pose proof (wordMultAt_pos board (at_row p) (at_col p)).
    pose proof (Hrun runFuel (at_row p - colStep d) (at_col p - rowStep d)
                  (- colStep d) (- rowStep d)).
    pose proof (Hrun runFuel (at_row p + colStep d) (at_col p + rowStep d)
                  (colStep d) (rowStep d)).
    nia. }
  assert (0 <= mainWordTotal board ps) as Hmain.
  { unfold mainWordTotal.
    assert (0 <= sumZ (mainLetter board <$> ps)).
    { apply sumZ_nonneg, Forall_fmap, Forall_forall. intros p Hp. cbn.
      unfold mainLetter. destruct (tileOf board (at_row p) (at_col p)) eqn:Ht.
      - by eapply Hboard.
      - pose proof (Hplaced p Hp).
        pose proof (letterMultAt_pos board (at_row p) (at_col p)). nia. }
    assert (1 <= prodZ (mainFactor board <$> ps)).
    { apply prodZ_pos, Forall_fmap, Forall_forall. intros p _. cbn.
      unfold mainFactor. destruct (isNew board p); [apply wordMultAt_pos|lia]. }
    nia. }
  unfold bingoBonus. split.
  - case_bool_decide; lia.
  - intros Hseven. rewrite bool_decide_eq_true_2 by done. lia.
Qed.

End ScoreSign.

(** ** The blanks in the score *)

Section BlankScore.
Context `{JSString} `{TrieDecoder}.
Variable trie : option FrozenTrie.

Lemma modelTile_blank (t : Tile) : modelTile t -> isBlank t = true -> value t = 0.
Proof.
  intros [char ->] Hblank.
  destruct (createTile_value char) as [Hzero | [Hnot _]]; [done|congruence].
Qed.

Lemma modelTile_points (t : Tile) : modelTile t -> value t = pointsOf t.
Proof.
  intros Hm. unfold pointsOf. destruct (isBlank t) eqn:Hb; [|done].
  by apply modelTile_blank.
Qed.

Lemma sumValues_points (ts : list Tile) :
  Forall modelTile ts -> sumValues ts = sumZ (pointsOf <$> ts).
Proof.
  unfold sumValues, sumZ. induction 1 as [|t rest Ht _ IH]; cbn [foldr fmap list_fmap];
    [done|]. by rewrite IH, (modelTile_points t).
Qed.

(** A rejection carries the score 0. *)
Lemma rejected_score board tiles rack sr sc d res :
  calculateMoveScore trie board tiles rack sr sc d = Ret res ->
  isValid res = false -> score res = 0.
Proof.
  unfold calculateMoveScore. intros Hc Hv.
  repeat js_step Hc; try discriminate Hc; injection Hc as <-.
  - unfold finishScore in *.
    repeat match goal with
           | |- context [if ?b then _ else _] => destruct b eqn:?
           | H : context [if ?b then _ else _] |- _ => destruct b eqn:?
           end; try done.
  - match goal with
    | E : scoreTiles _ _ _ _ _ _ _ _ _ = Ret (inr _) |- _ =>
        apply scoreTiles_early in E as (e & -> & _)
    end. done.
Qed.

(** C6. For tiles made by [createTile], on a board that holds only such
    tiles, a blank has the point value 0 whatever letter it stands for, and
    every score that [calculateMoveScore] returns counts it so: the score of
    an accepted move is the sum of its cross words, its main word and the
    bonus with each blank, newly placed or on the board, counted 0 under
    every multiplier, and the score of a rejected move is 0. *)
Theorem blank_tile_scores_zero (board : Board) (tiles : list Tile)
  (rack : list jsstring) (sr sc : Z) (d : Direction) (res : ScoreResult) :
  Forall modelTile tiles -> modelBoard board ->
  calculateMoveScore trie board tiles rack sr sc d = Ret res ->
  Forall (fun t => isBlank t = true -> value t = 0) tiles
  /\ (forall r c t, tileOf board r c = Some t -> isBlank t = true -> value t = 0)
  /\ score res
     = if isValid res
       then scoreWithBlanksAtZero board d (placements tiles sr sc d)
       else 0.
Proof.
  intros Htiles Hboard Hc. split; [|split].
  - eapply Forall_impl; [exact Htiles|]. intros t. apply modelTile_blank.
  - intros r c t Ht. apply modelTile_blank. by eapply Hboard.
  - destruct (isValid res) eqn:Hv; [|by eapply rejected_score].
    rewrite (accepted_score _ _ _ _ _ _ _ _ Hc Hv).
    set (ps := placements tiles sr sc d).
    assert (forall p, p ∈ ps -> value (placed p) = pointsOf (placed p)) as Hplaced.
    { intros p Hp. apply placementsFrom_placed in Hp. apply modelTile_points.
      rewrite Forall_forall in Htiles. by apply Htiles. }
    assert (forall fuel r c dr dc,
              sumValues (runTiles fuel board r c dr dc)
              = sumZ (pointsOf <$> runTiles fuel board r c dr dc)) as Hrun.
    { intros. apply sumValues_points. eapply Forall_impl; [apply runTiles_on_board|].
      intros t (r' & c' & Ht). by eapply Hboard. }
    unfold scoreWithBlanksAtZero, crossWordsTotal, mainWordTotal.
    f_equal. f_equal.
    + f_equal. apply list_fmap_ext. intros i p Hp.
      apply list_elem_of_lookup_2, list_elem_of_filter in Hp as [_ Hp].
      unfold crossWordScore, crossWordPoints. cbv zeta.
      by rewrite (Hplaced p Hp), !Hrun.
    + f_equal. f_equal. apply list_fmap_ext. intros i p Hp.
      apply list_elem_of_lookup_2 in Hp.
      unfold mainLetter, mainLetterPoints.
      destruct (tileOf board (at_row p) (at_col p)) as [onBoard|] eqn:Ht.
      * apply modelTile_points. by eapply Hboard.
      * by rewrite (Hplaced p Hp).
Qed.

End BlankScore.

(** The tiles of a board are checked cell by cell. *)
Lemma modelBoard_check `{JSString} board :
  forallb (fun rc => match tileOf board rc.1 rc.2 with
                     | Some t => bool_decide (t = createTile (char t))
                     | None => true
                     end) allCells = true ->
  modelBoard board.
Proof.
  intros Hall r c t Ht. rewrite forallb_forall in Hall.
  pose proof (tileOf_inBounds _ _ _ _ Ht) as Hin. apply inBounds_spec in Hin.
  specialize (Hall (r, c)). cbn [fst snd] in Hall. rewrite Ht in Hall.
  exists (char t).
  eapply bool_decide_eq_true_1, Hall, list_elem_of_In, elem_of_allCells.
  cbn [fst snd]. apply inBounds_spec. lia.
Qed.

(** A blank for A and an S laid under the C and the A of CASA: the blank
    adds nothing to the main word AS nor to the cross word CA; 2 points for
    CA, 3 for the cross word AS and 2 for the main word. *)
Lemma blank_tile_scores_zero_witness :
  @calculateMoveScore latin1Strings sourceDecoder (Some succinctTrie) boardWithCASA
    [createTile [97%N]; createTile [c_S]] [[c_qmark]; [c_S]] 8 5 Horizontal
  = Ret (accept 7)
  /\ isBlank (createTile [97%N]) = true
  /\ 7 = scoreWithBlanksAtZero boardWithCASA Horizontal
           (placements [createTile [97%N]; createTile [c_S]] 8 5 Horizontal).
Proof.
  split; [vm_compute; reflexivity|]. split; [reflexivity|].
  apply (@blank_tile_scores_zero latin1Strings sourceDecoder (Some succinctTrie)
           boardWithCASA [createTile [97%N]; createTile [c_S]] [[c_qmark]; [c_S]]
           8 5 Horizontal (accept 7)).
  - repeat constructor; by eexists.
  - apply modelBoard_check. vm_compute. reflexivity.
  - vm_compute. reflexivity.
Defined.


Lemma accepted_score_nonneg_witness :
  0 <= score (accept 9)
  /\ (tilesLaid boardWithCASA (placements (parseInputWord s_AS) 8 5 Horizontal) = 7
      -> 50 <= score (accept 9)).
Proof.
  apply (accepted_score_nonneg (Some exampleTrie) boardWithCASA
           (parseInputWord s_AS) [[c_A]; [c_S]] 8 5 Horizontal (accept 9)).
  - vm_compute. reflexivity.
  - reflexivity.
  - split.
    + apply (bool_decide_unpack _). by vm_compute.
    + intros r c t Ht.
      assert (forallb (fun rc => match tileOf boardWithCASA rc.1 rc.2 with
                                 | Some t => bool_decide (0 <= value t)
                                 | None => true
                                 end) allCells = true) as Hall by (by vm_compute).
      rewrite forallb_forall in Hall.
      pose proof (tileOf_inBounds _ _ _ _ Ht) as Hin.
      specialize (Hall (r, c)). cbn [fst snd] in Hall. rewrite Ht in Hall.
      eapply bool_decide_eq_true_1, Hall, list_elem_of_In, elem_of_allCells. done.
Defined.

(** ** The coordinates of the Eliot format *)

Lemma labelIndexFrom_bounds label labels i :
  labelIndexFrom label labels i = -1
  \/ i <= labelIndexFrom label labels i < i + Z.of_nat (length labels).
Proof.
  revert i. induction labels as [|x rest IH]; intros i; cbn [labelIndexFrom length];
    [by left|].
  destruct (streq x label); [right; lia|].
  destruct (IH (i + 1)) as [->|?]; [by left|right; lia].
Qed.

Lemma coordIfOnBoard_inBounds rowChar digits dir r c d :
  coordIfOnBoard rowChar digits dir = Some (r, c, d) ->
  0 <= r < 15 /\ 0 <= c < 15 /\ d = dir.
Proof.
  unfold coordIfOnBoard. intros Hc.
  pose proof (labelIndexFrom_bounds [rowChar] ROW_LABELS 0) as Hi.
  change (Z.of_nat (length ROW_LABELS)) with 15 in Hi.
  set (row := labelIndexFrom [rowChar] ROW_LABELS 0) in *. clearbody row.
  set (col := parseIntDigits digits - 1) in *. clearbody col.
  repeat case_bool_decide; cbn [negb andb] in Hc; try done.
  injection Hc as <- <- <-. split; [lia|]. split; [lia|done].
Qed.

(** Whatever text it is given, and whatever the string built-ins do,
    [parseEliotCoord] answers [null] or a cell of the board: a row and a
    column from 0 to 14. *)
Theorem parseEliotCoord_on_board `{JSString} (coordStr : jsstring)
  (r c : Z) (d : Direction) :
  parseEliotCoord coordStr = Some (r, c, d) -> 0 <= r < 15 /\ 0 <= c < 15.
Proof.
  unfold parseEliotCoord, coordOfClean. case_bool_decide; [done|].
  destruct (matchHorizontal _) as [[rowChar digits]|].
  - destruct (coordIfOnBoard rowChar digits Horizontal) as [coord|] eqn:Hh.
    + intros [= ->]. apply coordIfOnBoard_inBounds in Hh. tauto.
    + destruct (matchVertical _) as [[digits' rowChar']|]; [|done].
      intros Hv. apply coordIfOnBoard_inBounds in Hv. tauto.
  - destruct (matchVertical _) as [[digits' rowChar']|]; [|done].
    intros Hv. apply coordIfOnBoard_inBounds in Hv. tauto.
Qed.

(** What [getEliotCoord] writes for a cell of the board, [parseEliotCoord]
    reads back as the same row, column and direction, when cleaning leaves
    such a text alone. *)
Theorem parseEliotCoord_getEliotCoord `{JSString} (row col : Z) (dir : Direction) :
  coordTextKept -> 0 <= row < 15 -> 0 <= col < 15 ->
  parseEliotCoord (getEliotCoord row col dir) = Some (row, col, dir).
Proof.
  intros Hkept Hrow Hcol.
  assert (Forall (fun row => Forall (fun col => Forall (fun dir =>
            getEliotCoord row col dir <> []
            /\ forallb (fun c => isRowLetter c || isDigit c) (getEliotCoord row col dir)
               = true
            /\ coordOfClean (getEliotCoord row col dir) = Some (row, col, dir))
            [Horizontal; Vertical]) (seqZ 0 15)) (seqZ 0 15)) as Hall.
  { apply (bool_decide_unpack _). by vm_compute. }
  rewrite Forall_forall in Hall. specialize (Hall row ltac:(apply elem_of_seqZ; lia)).
  rewrite Forall_forall in Hall. specialize (Hall col ltac:(apply elem_of_seqZ; lia)).
  rewrite Forall_forall in Hall.
  destruct (Hall dir) as (Hne & Htext & Hparse); [destruct dir; [apply list_elem_of_here|apply list_elem_of_further, list_elem_of_here]|].
  unfold parseEliotCoord. rewrite bool_decide_eq_false_2 by done.
  by rewrite Hkept.
Qed.

Lemma parseEliotCoord_on_board_witness :
  0 <= 7 < 15 /\ 0 <= 11 < 15.
Proof.
  apply (parseEliotCoord_on_board [32; 49; 50; 104]%N 7 11 Vertical).
  vm_compute. reflexivity.
Defined.

Lemma coordChar_plain (c : jschar) :
  isRowLetter c || isDigit c = true -> isWhiteSpace c = false /\ upperUnit c = [c].
Proof.
  intros Hc.
  assert (c ∈ (N.of_nat <$> seq 48 32)) as Hin.
  { apply list_elem_of_fmap. exists (N.to_nat c). split; [lia|].
    apply elem_of_seq. unfold isRowLetter, isDigit in Hc.
    apply orb_true_iff in Hc as [Hc|Hc]; apply bool_decide_eq_true in Hc; lia. }
  assert (Forall (fun c => isRowLetter c || isDigit c = true ->
                           isWhiteSpace c = false /\ upperUnit c = [c])
            (N.of_nat <$> seq 48 32)) as Hall.
  { apply (bool_decide_unpack _). by vm_compute. }
  rewrite Forall_forall in Hall. by apply Hall.
Qed.

Lemma latin1_coordTextKept : coordTextKept.
Proof.
  intros s Hs.
  assert (trim s = s) as ->.
  { cbn [trim latin1Strings].
    assert (forall t : jsstring,
              match t with
              | c :: _ => isRowLetter c || isDigit c = true
              | [] => True
              end -> trimStart t = t) as Hstart.
    { intros [|c t] Hc; [done|]. cbn [trimStart].
      by destruct (coordChar_plain c Hc) as [-> _]. }
    rewrite (Hstart s) by (destruct s; [done|]; cbn in Hs; by destruct (_ || _)).
    rewrite Hstart, reverse_involutive; [done|].
    destruct (reverse s) as [|c t] eqn:Hrev; [done|].
    rewrite forallb_forall in Hs. apply Hs, list_elem_of_In, elem_of_reverse.
    rewrite Hrev. apply list_elem_of_here. }
  cbn [toUpperCase latin1Strings].
  induction s as [|c s IH]; [done|]. cbn [forallb] in Hs.
  apply andb_true_iff in Hs as [Hc Hs]. rewrite bind_cons, IH by done.
  by destruct (coordChar_plain c Hc) as [_ ->].
Qed.

Lemma parseEliotCoord_getEliotCoord_witness :
  parseEliotCoord (getEliotCoord 7 11 Vertical) = Some (7, 11, Vertical).
Proof.
  apply (parseEliotCoord_getEliotCoord 7 11 Vertical);
    [exact latin1_coordTextKept|lia|lia].
Defined.

(** ** Letters of the dictionary and codes of the tiles *)

(** The code that [getInternalChar] gives a tile for a letter of the
    dictionary, blank or not, is read back by [getTrieChar] as that letter:
    the searches that follow find the tile under the letter it was laid
    for. *)
Theorem getTrieChar_getInternalChar `{JSString} (l : jschar) (blank : bool) :
  capitalsKept -> l ∈ TRIE_ALPHABET ->
  getTrieChar (getInternalChar [l] blank) = [l].
Proof.
  intros Hkept Hl. destruct (Hkept l Hl) as [Hup Hlow].
  assert (Forall (fun l => let c := default [l] (TRIE_TO_INTERNAL [l]) in
                           default c (INTERNAL_TO_TRIE c) = [l]) TRIE_ALPHABET)
    as Hall by (apply (bool_decide_unpack _); by vm_compute).
  rewrite Forall_forall in Hall. specialize (Hall l Hl). cbv zeta in *.
  unfold getTrieChar, getInternalChar. cbv zeta. unfold jsstring, jschar in *.
  destruct blank.
  - by rewrite Hlow.
  - by rewrite Hup.
Qed.

Lemma latin1_capitalsKept : capitalsKept.
Proof.
  intros l Hl. cbv zeta.
  assert (Forall (fun l =>
            toUpperCase (default [l] (TRIE_TO_INTERNAL [l]))
            = default [l] (TRIE_TO_INTERNAL [l])
            /\ toUpperCase (toLowerCase (default [l] (TRIE_TO_INTERNAL [l])))
               = default [l] (TRIE_TO_INTERNAL [l]))
            TRIE_ALPHABET)
    as Hall by (apply (bool_decide_unpack _); by vm_compute).
  rewrite Forall_forall in Hall. by apply Hall.
Qed.

Lemma getTrieChar_getInternalChar_witness :
  getTrieChar (getInternalChar [c_2] true) = [c_2].
Proof.
  apply (getTrieChar_getInternalChar c_2 true); [exact latin1_capitalsKept|].
  apply (bool_decide_unpack _). by vm_compute.
Defined.

(** ** The cross-checks *)

Lemma mapJS_elem_of {A B} (f : A -> JS B) (l : list A) (l' : list B) (x : A) :
  mapJS f l = Ret l' -> x ∈ l -> exists y, y ∈ l' /\ f x = Ret y.
Proof.
  revert l'. induction l as [|a rest IH]; intros l' Hm Hx; cbn [mapJS] in Hm.
  - by apply elem_of_nil in Hx.
  - destruct (f a) as [b|] eqn:Hfa; cbn [js_bind] in Hm; [|done].
    destruct (mapJS f rest) as [bs|] eqn:Hrest; cbn [js_bind] in Hm; [|done].
    injection Hm as <-. apply elem_of_cons in Hx as [->|Hx].
    + exists b. split; [apply list_elem_of_here|done].
    + destruct (IH bs eq_refl Hx) as (y & Hy & Hfy).
      exists y. split; [by apply list_elem_of_further|done].
Qed.

Lemma runTiles_nil fuel board r c dr dc :
  runTiles (S fuel) board r c dr dc = [] <-> tileOf board r c = None.
Proof. cbn [runTiles]. by destruct (tileOf board r c). Qed.

Section CrossChecks.
Context `{JSString} `{TrieDecoder}.

Lemma crossCheckAt_spec t board r c :
  wfBoard board -> soundTrie (Some t) ->
  exists res,
    crossCheckAt t board r c = Ret res
    /\ match res with
       | None => tileOf board (r - 1) c = None /\ tileOf board (r + 1) c = None
       | Some allowed =>
           (is_Some (tileOf board (r - 1) c) \/ is_Some (tileOf board (r + 1) c))
           /\ forall l, l ∈ allowed <-> fitsBetween t board r c l
       end.
Proof.
  intros Hwf Hs. unfold crossCheckAt. rewrite !collectRun_wf by done. cbn [js_bind].
  pose proof (runTiles_nil (Z.to_nat BOARD_SIZE) board (r - 1) c (-1) 0) as Habove.
  pose proof (runTiles_nil (Z.to_nat BOARD_SIZE) board (r + 1) c 1 0) as Hbelow.
  fold runFuel in Habove, Hbelow.
  assert (exists allowed,
            mapJS (fun trieChar =>
                     let! found := lookup t (crossPrefix board r c ++ [trieChar]
                                             ++ crossSuffix board r c) in
                     Ret (trieChar, found)) TRIE_ALPHABET = Ret allowed
            /\ forall l, l ∈ (list_to_set (fst <$> filter (fun e => e.2 = true) allowed)
                              : gset jschar)
                         <-> fitsBetween t board r c l) as (allowed & Hmap & Hallowed).
  { assert (returns (mapJS (fun trieChar =>
                     let! found := lookup t (crossPrefix board r c ++ [trieChar]
                                             ++ crossSuffix board r c) in
                     Ret (trieChar, found)) TRIE_ALPHABET)) as [allowed Hmap].
    { apply mapJS_returns. intros trieChar _. cbv beta.
      apply returns_bind; [|intros; apply returns_Ret].
      by apply lookup_returns. }
    exists allowed. split; [done|]. intros l. rewrite elem_of_list_to_set.
    unfold fitsBetween. split.
    - intros Hl. apply list_elem_of_fmap in Hl as ([l' found] & -> & He).
      apply list_elem_of_filter in He as [Hfound He]. cbn in Hfound. subst found.
      destruct (mapJS_elem _ _ _ _ Hmap He) as (x & Hx & Hfx). cbv beta in Hfx.
      destruct (lookup t _) as [found|] eqn:Hlook; cbn [js_bind] in Hfx; [|done].
      injection Hfx as -> ->. done.
    - intros [Hl Hlook].
      destruct (mapJS_elem_of _ _ _ _ Hmap Hl) as (y & Hy & Hfy). cbv beta in Hfy.
      rewrite Hlook in Hfy. cbn [js_bind] in Hfy. injection Hfy as <-.
      apply list_elem_of_fmap. exists (l, true). split; [done|].
      by apply list_elem_of_filter. }
  unfold crossPrefix, crossSuffix in Hmap.
  destruct (runTiles runFuel board (r - 1) c (-1) 0) as [|a above] eqn:Ea;
    destruct (runTiles runFuel board (r + 1) c 1 0) as [|b below] eqn:Eb.
  - exists None. split; [done|]. split; [by apply Habove|by apply Hbelow].
  - rewrite Hmap. cbn [js_bind]. eexists. split; [done|]. split; [|done].
    right. destruct (tileOf board (r + 1) c); [done|]. by destruct Hbelow as [_ ?%(fun f => f eq_refl)].
  - rewrite Hmap. cbn [js_bind]. eexists. split; [done|]. split; [|done].
    left. destruct (tileOf board (r - 1) c); [done|]. by destruct Habove as [_ ?%(fun f => f eq_refl)].
  - rewrite Hmap. cbn [js_bind]. eexists. split; [done|]. split; [|done].
    left. destruct (tileOf board (r - 1) c); [done|]. by destruct Habove as [_ ?%(fun f => f eq_refl)].
Qed.

Lemma crossChecksOver_spec t board cells :
  wfBoard board -> soundTrie (Some t) -> NoDup cells ->
  Forall (fun rc => inBounds rc.1 rc.2 = true) cells ->
  exists checks,
    crossChecksOver t board cells = Ret checks
    /\ forall r c,
         match checks !! (r, c) with
         | None =>
             (r, c) ∈ cells -> tileOf board r c = None ->
             tileOf board (r - 1) c = None /\ tileOf board (r + 1) c = None
         | Some allowed =>
             (r, c) ∈ cells /\ constrainedCell board r c
             /\ forall l, l ∈ allowed <-> fitsBetween t board r c l
         end.
Proof.
  intros Hwf Hs Hnd Hall. induction Hall as [|[r0 c0] rest Hrc _ IH];
    cbn [crossChecksOver].
  { exists ∅. split; [done|]. intros r c. rewrite lookup_empty.
    intros Hin. by apply elem_of_nil in Hin. }
  apply NoDup_cons in Hnd as [Hnotin Hnd].
  destruct (IH Hnd) as (checks & -> & Hchecks). cbn [fst snd] in *.
  rewrite tileAt_wf by done. cbn [js_bind].
  destruct (tileOf board r0 c0) as [occupied|] eqn:Hocc.
  - rewrite bool_decide_eq_true_2 by done. cbn [js_bind].
    exists checks. split; [done|]. intros r c. specialize (Hchecks r c).
    destruct (checks !! (r, c)) as [allowed|].
    + destruct Hchecks as (Hin & Hrest). split; [by apply list_elem_of_further|done].
    + intros Hin Hnone. apply elem_of_cons in Hin as [[= -> ->]|Hin]; [congruence|].
      by apply Hchecks.
  - rewrite bool_decide_eq_false_2 by (by intros [? ?]).
    destruct (crossCheckAt_spec t board r0 c0 Hwf Hs) as (res & -> & Hres).
    cbn [js_bind]. destruct res as [allowed0|].
    + exists (<[(r0, c0) := allowed0]> checks). split; [done|]. intros r c.
      destruct (decide ((r0, c0) = (r, c))) as [[= <- <-]|Hne].
      * rewrite lookup_insert_eq. split; [apply list_elem_of_here|].
        split; [|apply Hres]. split; [done|]. split; [done|apply Hres].
      * rewrite lookup_insert_ne by done. specialize (Hchecks r c).
        destruct (checks !! (r, c)) as [allowed|].
        -- destruct Hchecks as (Hin & Hrest).
           split; [by apply list_elem_of_further|done].
        -- intros Hin Hnone. apply elem_of_cons in Hin as [[= -> ->]|Hin]; [done|].
           by apply Hchecks.
    + exists checks. split; [done|]. intros r c. specialize (Hchecks r c).
      destruct (checks !! (r, c)) as [allowed|].
      * destruct Hchecks as (Hin & Hrest). split; [by apply list_elem_of_further|done].
      * intros Hin Hnone. apply elem_of_cons in Hin as [[= -> ->]|Hin]; [done|].
        by apply Hchecks.
Qed.

(** On a 15 x 15 board, with a dictionary whose nodes reached from the root
    have a child count that is not negative, [computeCrossChecks] constrains
    exactly the empty cells with a tile right above or below, and allows
    there exactly the letters of [TRIE_ALPHABET] that spell a word of the
    dictionary with the tiles above and the tiles below. *)
Theorem computeCrossChecks_spec (t : FrozenTrie) (board : Board) :
  wfBoard board -> soundTrie (Some t) ->
  exists checks,
    computeCrossChecks t board = Ret checks
    /\ forall r c,
         (is_Some (checks !! (r, c)) <-> constrainedCell board r c)
         /\ forall allowed l,
              checks !! (r, c) = Some allowed ->
              (l ∈ allowed <-> fitsBetween t board r c l).
Proof.
  intros Hwf Hs. unfold computeCrossChecks.
  destruct (crossChecksOver_spec t board allCells Hwf Hs allCells_NoDup)
    as (checks & -> & Hchecks).
  { apply Forall_forall. intros rc. apply elem_of_allCells. }
  exists checks. split; [done|]. intros r c. specialize (Hchecks r c).
  destruct (checks !! (r, c)) as [allowed|] eqn:Hlook.
  - destruct Hchecks as (_ & Hcell & Hallowed). split.
    + split; [done|by eexists].
    + intros allowed' l [= <-]. apply Hallowed.
  - split; [|done]. split; [by intros [? ?]|].
    intros (Hin & Hnone & Hbeside). exfalso.
    destruct Hchecks as [Ha Hb]; [by apply elem_of_allCells|done|].
    rewrite Ha, Hb in Hbeside. by destruct Hbeside as [[? ?]|[? ?]].
Qed.

End CrossChecks.

(** With the decoder of the source and the succinct payload of the example
    dictionary. *)
Lemma computeCrossChecks_spec_witness :
  exists checks,
    @computeCrossChecks latin1Strings sourceDecoder succinctTrie boardWithCASA
    = Ret checks
    /\ forall r c,
         (is_Some (checks !! (r, c)) <-> constrainedCell boardWithCASA r c)
         /\ forall allowed l,
              checks !! (r, c) = Some allowed ->
              (l ∈ allowed
               <-> @fitsBetween latin1Strings sourceDecoder succinctTrie
                     boardWithCASA r c l).
Proof.
  apply (@computeCrossChecks_spec latin1Strings sourceDecoder succinctTrie
           boardWithCASA).
  - exact boardWithCASA_wf.
  - exact succinctTrie_sound.
Defined.

(** ** The ranks of a directory *)

Lemma onesIn_join bytes a b :
  0 <= a -> 0 <= b ->
  onesIn (bitsFrom bytes 0 a) + onesIn (bitsFrom bytes a b)
  = onesIn (bitsFrom bytes 0 (a + b)).
Proof.
  intros Ha Hb. rewrite bitsFrom_split, onesIn_app by lia. by rewrite Z.add_0_l.
Qed.

Lemma rankOnes_counts rd x :
  directoryHolds rd -> 0 <= x < numBits rd ->
  rankOnes rd x = Some (onesIn (bitsFrom (rd_data rd) 0 (x + 1))).
Proof.
  intros (Htext & Hbits & Hl2 & (k & Hk & Hl1) & Hsec & Hblock) Hx.
  unfold rankOnes. cbv zeta.
  assert (0 < l1Size rd) as Hl1pos by nia.
  rewrite !Z.rem_mod_nonneg by lia.
  pose proof (Z.div_mod x (l1Size rd) ltac:(lia)) as Hdiv1.
  pose proof (Z.mod_pos_bound x (l1Size rd) Hl1pos) as Hmod1.
  set (i := x / l1Size rd) in *. set (o := x mod l1Size rd) in *.
  assert (0 <= i) as Hi by (apply Z.div_pos; lia).
  pose proof (Z.div_mod o (l2Size rd) ltac:(lia)) as Hdiv2.
  pose proof (Z.mod_pos_bound o (l2Size rd) Hl2) as Hmod2.
  set (j := o / l2Size rd) in *. set (m := o mod l2Size rd) in *.
  assert (0 <= j) as Hj by (apply Z.div_pos; lia).
  assert (x mod l2Size rd = m) as Hm.
  { subst m. rewrite Hdiv1 at 1. rewrite Hl1.
    replace (k * l2Size rd * i + o) with (o + (k * i) * l2Size rd) by lia.
    by rewrite Z.mod_add by lia. }
  rewrite Hm.
  assert ((if bool_decide (l1Size rd <= x)
           then (BitString_get (rd_directory rd)
                   (i * sectionBits rd - l1Bits rd) (l1Bits rd),
                 o, i * sectionBits rd)
           else (0, x, 0))
          = (onesIn (bitsFrom (rd_data rd) 0 (i * l1Size rd)), o, i * sectionBits rd))
    as ->.
  { case_bool_decide as Hcase.
    - assert (1 <= i) by (subst i; apply Z.div_le_lower_bound; lia).
      rewrite Hsec by nia. done.
    - assert (i = 0) as -> by (subst i; apply Z.div_small; lia).
      assert (o = x) as -> by (subst o; apply Z.mod_small; lia).
      by rewrite !Z.mul_0_l, bitsFrom_0. }
  cbv beta iota. fold j.
  assert ((if bool_decide (l2Size rd <= o)
           then (onesIn (bitsFrom (rd_data rd) 0 (i * l1Size rd))
                 + BitString_get (rd_directory rd)
                     (i * sectionBits rd + j * l2Bits rd - l2Bits rd) (l2Bits rd),
                 i * sectionBits rd + j * l2Bits rd)
           else (onesIn (bitsFrom (rd_data rd) 0 (i * l1Size rd)), i * sectionBits rd))
          = (onesIn (bitsFrom (rd_data rd) 0 (i * l1Size rd + j * l2Size rd)),
             i * sectionBits rd + j * l2Bits rd)) as ->.
  { case_bool_decide as Hcase.
    - assert (1 <= j) by (subst j; apply Z.div_le_lower_bound; lia).
      rewrite Hblock by nia. by rewrite onesIn_join by nia.
    - assert (j = 0) as -> by (subst j; apply Z.div_small; lia).
      by rewrite !Z.mul_0_l, !Z.add_0_r. }
  cbv beta iota.
  rewrite BitString_count_ones by (done || nia). cbn [mbind option_bind]. f_equal.
  replace (x - m) with (i * l1Size rd + j * l2Size rd) by nia.
  rewrite onesIn_join by nia. do 2 f_equal. nia.
Qed.

Lemma rank_counts_bits rd which x :
  directoryHolds rd -> 0 <= x < numBits rd ->
  RankDirectory_rank rd which x = Some (bitsUpTo rd which x).
Proof.
  intros Hrd Hx. unfold RankDirectory_rank, bitsUpTo. cbv zeta.
  rewrite rankOnes_counts by done. cbn [mbind option_bind].
  destruct (bool_decide (which = 0)); [f_equal; lia|done].
Qed.

(** [rank(1, x)] is the number of ones among the bits [0 .. x] of the
    data, and [rank(0, x)] the number of zeros, for every position of a
    directory that holds the counts. *)
Theorem RankDirectory_rank_counts (rd : RankDirectory) (which x : Z) :
  directoryHolds rd -> 0 <= x < numBits rd ->
  RankDirectory_rank rd which x = Some (bitsUpTo rd which x).
Proof. apply rank_counts_bits. Qed.

Lemma bitsUpTo_grows rd which x x' :
  directoryHolds rd -> 0 <= x <= x' -> x' < numBits rd ->
  bitsUpTo rd which x <= bitsUpTo rd which x'.
Proof.
  intros (Htext & Hbits & _) Hx Hx'. unfold bitsUpTo. cbv zeta.
  replace (x' + 1) with ((x + 1) + (x' - x)) by lia.
  rewrite <- (onesIn_join _ (x + 1) (x' - x)) by lia.
  pose proof (length_bitsFrom (rd_data rd) (x + 1) (x' - x) ltac:(lia) ltac:(lia)
                ltac:(lia)) as Hlen.
  assert (0 <= onesIn (bitsFrom (rd_data rd) (x + 1) (x' - x)) <= x' - x) as Hones.
  { unfold onesIn. pose proof (length_filter (fun b => b = true)
                                 (bitsFrom (rd_data rd) (x + 1) (x' - x))). lia. }
  case_bool_decide; lia.
Qed.

Lemma select_finds rd which y :
  directoryHolds rd ->
  let res := RankDirectory_select rd which y in
  (res = -1 /\ forall x, 0 <= x < numBits rd -> bitsUpTo rd which x <> y)
  \/ (0 <= res < numBits rd /\ bitsUpTo rd which res = y
      /\ forall x, 0 <= x < res -> bitsUpTo rd which x < y).
Proof.
  intros Hrd. unfold RankDirectory_select.
  assert (growingRank rd which (bitsUpTo rd which)) as Hg.
  { split; [intros x Hx; by apply rank_counts_bits|].
    intros x x' Hx Hx'. by apply bitsUpTo_grows. }
  destruct (Z.le_gt_cases (numBits rd) (-1)) as [Hempty|Hsome].
  - rewrite Z2Nat.nonpos by lia. cbn [selectLoop]. left. split; [done|]. lia.
  - apply (selectLoop_spec rd which y _ _ Hg); try lia. left. split; [done|]. lia.
Qed.

(** With such a directory, [select(which, y)] finds the bit number [y] of
    the kind [which] (ones, or zeros for 0): it returns the first position
    up to which the data holds [y] such bits, and -1 when the data has no
    such position. *)
Theorem RankDirectory_select_nth (rd : RankDirectory) (which y : Z) :
  directoryHolds rd ->
  let res := RankDirectory_select rd which y in
  (res = -1 /\ forall x, 0 <= x < numBits rd -> bitsUpTo rd which x <> y)
  \/ (0 <= res < numBits rd /\ bitsUpTo rd which res = y
      /\ forall x, 0 <= x < res -> bitsUpTo rd which x < y).
Proof. apply select_finds. Qed.

(** The children of a node: when the directory of the dictionary holds the
    counts and [select] finds the zeros number [i + 1] and [i + 2] of the
    structure bits, the child count of node [i] is the number of ones
    between the two zeros, and so it is not negative. *)
Theorem node_child_count (ceilLog2 : Z -> Z) (t : FrozenTrie) (i : Z) :
  let rd := trieDirectory ceilLog2 t in
  let first := RankDirectory_select rd 0 (i + 1) in
  let next := RankDirectory_select rd 0 (i + 2) in
  let node := FrozenTrie_getNodeByIndex ceilLog2 t i in
  directoryHolds rd -> 0 <= first -> 0 <= next ->
  first < next
  /\ firstChild node = first - i
  /\ childCount node = onesIn (bitsFrom (trieData t) (first + 1) (next - first))
  /\ 0 <= childCount node.
Proof.
  intros rd first next node Hrd Hfirst Hnext.
  destruct (select_finds rd 0 (i + 1) Hrd) as [[Hnone _]|(Hp1 & Hz1 & _)];
    [fold first in Hnone; lia|].
  destruct (select_finds rd 0 (i + 2) Hrd) as [[Hnone _]|(Hp2 & Hz2 & _)];
    [fold next in Hnone; lia|].
  fold first in Hp1, Hz1. fold next in Hp2, Hz2.
  assert (first < next) as Hlt.
  { destruct (Z.lt_ge_cases first next) as [?|Hge]; [done|].
    pose proof (bitsUpTo_grows rd 0 next first Hrd ltac:(lia) ltac:(lia)). lia. }
  assert (childCount node = next - first - 1) as Hcount.
  { subst node. cbn [FrozenTrie_getNodeByIndex childCount]. fold rd first next. lia. }
  assert (onesIn (bitsFrom (trieData t) (first + 1) (next - first))
          = next - first - 1) as Hones.
  { unfold bitsUpTo in Hz1, Hz2. cbv zeta in Hz1, Hz2.
    rewrite bool_decide_eq_true_2 in Hz1, Hz2 by done.
    change (rd_data rd) with (trieData t) in Hz1, Hz2.
    replace (next + 1) with ((first + 1) + (next - first)) in Hz2 by lia.
    rewrite <- (onesIn_join _ (first + 1) (next - first)) in Hz2 by lia. lia. }
  split; [done|]. split; [done|]. split; [by rewrite Hones|lia].
Qed.

Lemma twoSections_holds : directoryHolds twoSections.
Proof.
  split; [exact s_QUJD_base64|]. split; [by vm_compute|]. split; [done|].
  split; [exists 2; by vm_compute|]. split.
  - intros i Hi Hlt. change (i * 12 < 24) in Hlt. assert (i = 1) as -> by lia.
    by vm_compute.
  - intros i j Hi Hj Hjl Hlt. change (j * 6 < 12) in Hjl.
    change (i * 12 + j * 6 < 24) in Hlt. assert (j = 1) as -> by lia.
    assert (i = 0 \/ i = 1) as [-> | ->] by lia; by vm_compute.
Qed.

Lemma RankDirectory_rank_counts_witness :
  RankDirectory_rank twoSections 1 20 = Some (bitsUpTo twoSections 1 20).
Proof.
  apply (RankDirectory_rank_counts twoSections 1 20); [exact twoSections_holds|].
  change (0 <= 20 < 24). lia.
Defined.

Lemma RankDirectory_select_nth_witness :
  let res := RankDirectory_select twoSections 0 5 in
  (res = -1 /\ forall x, 0 <= x < numBits twoSections -> bitsUpTo twoSections 0 x <> 5)
  \/ (0 <= res < numBits twoSections /\ bitsUpTo twoSections 0 res = 5
      /\ forall x, 0 <= x < res -> bitsUpTo twoSections 0 x < 5).
Proof.
  apply (RankDirectory_select_nth twoSections 0 5). exact twoSections_holds.
Defined.

Lemma node_child_count_witness :
  let rd := trieDirectory Z.log2_up oneNodeTrie in
  let first := RankDirectory_select rd 0 (0 + 1) in
  let next := RankDirectory_select rd 0 (0 + 2) in
  let node := FrozenTrie_getNodeByIndex Z.log2_up oneNodeTrie 0 in
  first < next
  /\ firstChild node = first - 0
  /\ childCount node
     = onesIn (bitsFrom (trieData oneNodeTrie) (first + 1) (next - first))
  /\ 0 <= childCount node.
Proof.
  apply (node_child_count Z.log2_up oneNodeTrie 0).
  - split; [exact s_QUJD_base64|]. split; [by vm_compute|]. split; [done|].
    split; [exists 32; by vm_compute|]. split.
    + intros i Hi Hlt. change (i * 1024 < 3) in Hlt. lia.
    + intros i j Hi Hj Hjl Hlt. change (i * 1024 + j * 32 < 3) in Hlt. lia.
  - by vm_compute.
  - by vm_compute.
Defined.
